(** * The configuration override engine of kapacitor, embedded in Rocq

    The development follows the Go sources: the two revisions of
    [services/config/override] (the section-level engine, called [V1]
    below, and the element-level engine with create/delete, called [V2]),
    the HTTP facing [services/config] service, and the [Update] hook of
    the notification adapters.

    Go's reflection, the [reflectwalk] driver, [copystructure.Copy] and
    [strconv] are libraries the sources call; they are modelled in the
    first part, the sources are transcribed in the second part, and the
    properties are proved in the third. *)

From Stdlib Require Import ZArith String List Ascii Bool Lia.
From Stdlib Require Import Floats.SpecFloat.
From Stdlib Require Import OrderedTypeEx Sorted.
From stdpp Require Import gmap strings list.

Set Warnings "-register-all".

(* ===================================================================== *)
(** * Part I.  Go values, reflection and the libraries the engine calls  *)
(* ===================================================================== *)

(** ** Kinds: [reflect.Kind], in declaration order *)

Inductive Kind :=
| KInvalid | KBool
| KInt | KInt8 | KInt16 | KInt32 | KInt64
| KUint | KUint8 | KUint16 | KUint32 | KUint64 | KUintptr
| KFloat32 | KFloat64 | KComplex64 | KComplex128
| KArray | KChan | KFunc | KInterface | KMap | KPtr | KSlice | KString
| KStruct | KUnsafePointer.

(** The numeric code of a kind (Go's [iota]); the source compares kinds
    with [<=] and [>=]. *)
Definition kind_ord (k : Kind) : nat :=
  match k with
  | KInvalid => 0 | KBool => 1
  | KInt => 2 | KInt8 => 3 | KInt16 => 4 | KInt32 => 5 | KInt64 => 6
  | KUint => 7 | KUint8 => 8 | KUint16 => 9 | KUint32 => 10 | KUint64 => 11
  | KUintptr => 12
  | KFloat32 => 13 | KFloat64 => 14 | KComplex64 => 15 | KComplex128 => 16
  | KArray => 17 | KChan => 18 | KFunc => 19 | KInterface => 20 | KMap => 21
  | KPtr => 22 | KSlice => 23 | KString => 24 | KStruct => 25
  | KUnsafePointer => 26
  end.

Definition kind_eqb (a b : Kind) : bool := Nat.eqb (kind_ord a) (kind_ord b).
Definition kind_leb (a b : Kind) : bool := Nat.leb (kind_ord a) (kind_ord b).

(** ** Struct fields and tags

    A struct tag is kept in parsed form: the list of its [key:"value"]
    pairs.  [Tag_Get] is [reflect.StructTag.Get]: the value of the first
    pair with that key, the empty string when there is none. *)

Definition StructTag := list (string * string).

Fixpoint Tag_Get (key : string) (t : StructTag) : string :=
  match t with
  | [] => ""
  | (k, v) :: t' => if String.eqb k key then v else Tag_Get key t'
  end.

(** [reflect.StructField], without its type (kept in the struct type). *)
Record StructField := mkField {
  Name : string;
  Tag : StructTag;
  Exported : bool        (* PkgPath == "" *)
}.

(** ** Types: [reflect.Type] *)

Inductive rtype :=
| TBasic (k : Kind)                      (* bool, the integers, the floats, string *)
| TNamed (name : string) (under : rtype) (* a defined type and its underlying type *)
| TPtr (elem : rtype)
| TSlice (elem : rtype)
| TArray (len : nat) (elem : rtype)
| TMap (key elem : rtype)
| TStruct (fields : list (StructField * rtype))
| TIface                                 (* interface{} *)
| TFunc.

Fixpoint underlying (t : rtype) : rtype :=
  match t with
  | TNamed _ u => underlying u
  | _ => t
  end.

Definition type_name (t : rtype) : option string :=
  match t with
  | TNamed n _ => Some n
  | TBasic _ => Some ""     (* predeclared types are named types *)
  | _ => None
  end.

Definition kind_of (t : rtype) : Kind :=
  match underlying t with
  | TBasic k => k
  | TNamed _ _ => KInvalid
  | TPtr _ => KPtr
  | TSlice _ => KSlice
  | TArray _ _ => KArray
  | TMap _ _ => KMap
  | TStruct _ => KStruct
  | TIface => KInterface
  | TFunc => KFunc
  end.

(** [Type.Elem]: the element type of a pointer, slice, array or map. *)
Definition type_elem (t : rtype) : option rtype :=
  match underlying t with
  | TPtr e | TSlice e | TArray _ e | TMap _ e => Some e
  | _ => None
  end.

Definition type_key (t : rtype) : option rtype :=
  match underlying t with
  | TMap k _ => Some k
  | _ => None
  end.

Definition type_fields (t : rtype) : list (StructField * rtype) :=
  match underlying t with
  | TStruct fs => fs
  | _ => []
  end.

Definition tag_eqb (a b : StructTag) : bool :=
  (fix go (a b : StructTag) : bool :=
     match a, b with
     | [], [] => true
     | (k1, v1) :: a', (k2, v2) :: b' =>
         String.eqb k1 k2 && String.eqb v1 v2 && go a' b'
     | _, _ => false
     end) a b.

Definition field_eqb (f g : StructField) : bool :=
  String.eqb (Name f) (Name g) && tag_eqb (Tag f) (Tag g)
  && Bool.eqb (Exported f) (Exported g).

(** Type identity, [dst.Type() == src.Type()]. *)
Fixpoint rtype_eqb (a b : rtype) : bool :=
  match a, b with
  | TBasic k1, TBasic k2 => kind_eqb k1 k2
  | TNamed n1 u1, TNamed n2 u2 => String.eqb n1 n2 && rtype_eqb u1 u2
  | TPtr e1, TPtr e2 => rtype_eqb e1 e2
  | TSlice e1, TSlice e2 => rtype_eqb e1 e2
  | TArray n1 e1, TArray n2 e2 => Nat.eqb n1 n2 && rtype_eqb e1 e2
  | TMap k1 e1, TMap k2 e2 => rtype_eqb k1 k2 && rtype_eqb e1 e2
  | TStruct fs1, TStruct fs2 =>
      (fix go (l1 l2 : list (StructField * rtype)) : bool :=
         match l1, l2 with
         | [], [] => true
         | (f1, t1) :: l1', (f2, t2) :: l2' =>
             field_eqb f1 f2 && rtype_eqb t1 t2 && go l1' l2'
         | _, _ => false
         end) fs1 fs2
  | TIface, TIface => true
  | TFunc, TFunc => true
  | _, _ => false
  end.

(** ** Values

    Memory is kept in the values themselves: every reference (a pointer,
    the backing array of a slice, a map, a function) carries the address
    of its allocation together with what is stored there.  Two references
    with the same address are aliases.  Integers of every width are a
    [Z], kept in the range of their kind; floats are IEEE values of
    [SpecFloat]. *)

Definition addr := nat.

Inductive value :=
| VBool (b : bool)
| VInt (n : Z)
| VFloat (f : spec_float)
| VString (s : string)
| VStruct (fs : list value)
| VArray (es : list value)
| VSlice (r : option (addr * list value))
| VMap (r : option (addr * list (value * value)))
| VPtr (r : option (addr * value))
| VIface (d : option (rtype * value))
| VFunc (r : option addr).

(** A value with its dynamic type: what an [interface{}] holds, and a
    [reflect.Value] that is not addressable.  The nil interface is
    [nilValue]; [reflect.ValueOf(nil)] is the invalid [reflect.Value]. *)
Record Value := mkValue { vt : rtype; vv : value }.

Definition nilValue : Value := mkValue TIface (VIface None).

Definition is_nil_interface (x : Value) : bool :=
  match vt x, vv x with
  | TIface, VIface None => true
  | _, _ => false
  end.

(** [reflect.Zero]: the zero value of a type. *)
Fixpoint zero (t : rtype) : value :=
  match t with
  | TBasic KBool => VBool false
  | TBasic KString => VString ""
  | TBasic KFloat32 | TBasic KFloat64 => VFloat (S754_zero false)
  | TBasic _ => VInt 0
  | TNamed _ u => zero u
  | TPtr _ => VPtr None
  | TSlice _ => VSlice None
  | TArray n e => VArray (repeat (zero e) n)
  | TMap _ _ => VMap None
  | TStruct fs =>
      VStruct ((fix go (l : list (StructField * rtype)) : list value :=
                  match l with
                  | [] => []
                  | (_, ft) :: l' => zero ft :: go l'
                  end) fs)
  | TIface => VIface None
  | TFunc => VFunc None
  end.

(** All the allocations a value refers to: backing arrays, maps and the
    targets of pointers.  (A function value refers to code, which is
    never written.) *)
Fixpoint vaddrs (v : value) : list addr :=
  match v with
  | VBool _ | VInt _ | VFloat _ | VString _ => []
  | VStruct fs => flat_map vaddrs fs
  | VArray es => flat_map vaddrs es
  | VSlice None | VMap None | VPtr None | VIface None | VFunc _ => []
  | VSlice (Some (a, es)) => a :: flat_map vaddrs es
  | VMap (Some (a, kvs)) =>
      a :: flat_map (fun kv => vaddrs (fst kv) ++ vaddrs (snd kv)) kvs
  | VPtr (Some (a, x)) => a :: vaddrs x
  | VIface (Some (_, x)) => vaddrs x
  end.

(** [strip] forgets the addresses.  [reflect.DeepEqual] follows
    references and compares what they point to, so two values are deeply
    equal exactly when they agree once addresses are forgotten (function
    values apart, which DeepEqual only accepts when nil). *)
Fixpoint strip (v : value) : value :=
  match v with
  | VStruct fs => VStruct (List.map strip fs)
  | VArray es => VArray (List.map strip es)
  | VSlice (Some (_, es)) => VSlice (Some (0, List.map strip es))
  | VMap (Some (_, kvs)) =>
      VMap (Some (0, List.map (fun kv => (strip (fst kv), strip (snd kv))) kvs))
  | VPtr (Some (_, x)) => VPtr (Some (0, strip x))
  | VIface (Some (t, x)) => VIface (Some (t, strip x))
  | VFunc (Some _) => VFunc (Some 0)
  | _ => v
  end.

Definition DeepEqual (a b : value) : Prop := strip a = strip b.

(** ** Numbers

    [int], [uint] and [uintptr] are 64 bits wide (a 64-bit platform). *)

Definition int_bits (k : Kind) : Z :=
  match k with
  | KInt8 | KUint8 => 8
  | KInt16 | KUint16 => 16
  | KInt32 | KUint32 => 32
  | _ => 64
  end%Z.

Definition is_signed (k : Kind) : bool :=
  match k with
  | KInt | KInt8 | KInt16 | KInt32 | KInt64 => true
  | _ => false
  end.

Definition is_unsigned (k : Kind) : bool :=
  match k with
  | KUint | KUint8 | KUint16 | KUint32 | KUint64 | KUintptr => true
  | _ => false
  end.

Definition is_float (k : Kind) : bool :=
  match k with
  | KFloat32 | KFloat64 => true
  | _ => false
  end.

(** Wrap-around of a mathematical integer into the range of an integer
    kind: two's complement for the signed kinds, modulo [2^bits] for the
    unsigned ones. *)
Definition wrap (k : Kind) (n : Z) : Z :=
  let m := (2 ^ int_bits k)%Z in
  if is_signed k then ((n + m / 2) mod m - m / 2)%Z else (n mod m)%Z.

Definition fprec (k : Kind) : Z := match k with KFloat32 => 24 | _ => 53 end%Z.
Definition femax (k : Kind) : Z := match k with KFloat32 => 128 | _ => 1024 end%Z.

(** Integer to float: round to nearest even. *)
Definition float_of_Z (k : Kind) (n : Z) : spec_float :=
  binary_normalize (fprec k) (femax k) n 0 false.

(** Float to float of another width. *)
Definition float_round (k : Kind) (f : spec_float) : spec_float :=
  match f with
  | S754_finite s m e =>
      binary_normalize (fprec k) (femax k) (if s then Z.neg m else Z.pos m) e s
  | _ => f
  end.

(** Float to integer: truncation toward zero.  For NaN, the infinities
    and values outside the target range Go leaves the result to the
    platform; amd64's "integer indefinite" is taken here. *)
Definition Z_of_float (f : spec_float) : Z :=
  match f with
  | S754_zero _ => 0
  | S754_finite s m e =>
      let mag := match e with
                 | Z.neg p => (Z.pos m / 2 ^ Z.pos p)
                 | _ => (Z.pos m * 2 ^ e)
                 end in
      if s then - mag else mag
  | _ => - 2 ^ 63
  end%Z.

(** [Value.Convert] between two numeric kinds. *)
Definition convert (dk : Kind) (v : value) : value :=
  match v with
  | VInt n => if is_float dk then VFloat (float_of_Z dk n) else VInt (wrap dk n)
  | VFloat f => if is_float dk then VFloat (float_round dk f)
                else VInt (wrap dk (Z_of_float f))
  | _ => v
  end.

(** ** Strings: [strings.Split], [HasPrefix], [TrimPrefix] *)

Definition comma : ascii := ","%char.

(** [strings.Split(s, ",")]: never empty; [Split("", ",")] is [[""]]. *)
Fixpoint Split (s : string) : list string :=
  match s with
  | EmptyString => [""]
  | String c s' =>
      if Ascii.eqb c comma then "" :: Split s'
      else match Split s' with
           | h :: t => String c h :: t
           | [] => [String c ""]
           end
  end.

Fixpoint HasPrefix (s p : string) : bool :=
  match p, s with
  | EmptyString, _ => true
  | String a p', String b s' => Ascii.eqb a b && HasPrefix s' p'
  | String _ _, EmptyString => false
  end.

Definition TrimPrefix (s p : string) : string :=
  if HasPrefix s p then String.substring (String.length p) (String.length s - String.length p) s
  else s.

(** ** [strconv]: parsing numbers in base 10 *)

Definition digit_of (c : ascii) : option Z :=
  let n := nat_of_ascii c in
  if Nat.leb 48 n && Nat.leb n 57 then Some (Z.of_nat (n - 48)) else None.

Fixpoint parse_digits (acc : Z) (s : string) : option Z :=
  match s with
  | EmptyString => Some acc
  | String c s' =>
      match digit_of c with
      | Some d => parse_digits (acc * 10 + d) s'
      | None => None
      end
  end.

(** [strconv.ParseUint(s, 10, 64)]; [None] stands for a non-nil error
    (syntax or range). *)
Definition ParseUint (s : string) : option Z :=
  match s with
  | EmptyString => None
  | _ => match parse_digits 0 s with
         | Some n => if (n <=? 2 ^ 64 - 1)%Z then Some n else None
         | None => None
         end
  end.

(** [strconv.ParseInt(s, 10, 64)]: an optional sign, then digits. *)
Definition ParseInt (s : string) : option Z :=
  match s with
  | EmptyString => None
  | String c s' =>
      let '(neg, body) :=
        if Ascii.eqb c "+"%char then (false, s')
        else if Ascii.eqb c "-"%char then (true, s')
        else (false, s) in
      match body with
      | EmptyString => None
      | _ => match parse_digits 0 body with
             | Some n =>
                 if neg then (if (n <=? 2 ^ 63)%Z then Some (- n)%Z else None)
                 else (if (n <=? 2 ^ 63 - 1)%Z then Some n else None)
             | None => None
             end
      end
  end.

(** [strconv.ParseFloat(s, 64)] on decimal literals: an optional sign,
    digits with an optional point, an optional exponent; the result is
    the nearest binary64, ties to even.  Hexadecimal literals and the
    spellings of infinity and NaN are not covered and are answered like
    malformed input; overflow is an error as in Go. *)

Fixpoint take_digits (s : string) (acc : Z) (n : nat) : Z * nat * string :=
  match s with
  | EmptyString => (acc, n, s)
  | String c s' =>
      match digit_of c with
      | Some d => take_digits s' (acc * 10 + d)%Z (S n)
      | None => (acc, n, s)
      end
  end.

Definition take_sign (s : string) : bool * string :=
  match s with
  | String c s' =>
      if Ascii.eqb c "+"%char then (false, s')
      else if Ascii.eqb c "-"%char then (true, s')
      else (false, s)
  | EmptyString => (false, s)
  end.

Definition decimal_to_float (neg : bool) (mant : Z) (e10 : Z) : spec_float :=
  match mant with
  | Z.pos m =>
      match e10 with
      | Z.neg p =>
          SFdiv 53 1024 (S754_finite neg m 0) (S754_finite false (10 ^ p)%positive 0)
      | _ => binary_normalize 53 1024
               (if neg then - (mant * 10 ^ e10) else mant * 10 ^ e10)%Z 0 neg
      end
  | _ => S754_zero neg
  end.

Definition ParseFloat (s : string) : option spec_float :=
  let '(neg, s1) := take_sign s in
  let '(ip, ni, s2) := take_digits s1 0%Z 0 in
  let '(mant, nf, s3) :=
    match s2 with
    | String c s2' =>
        if Ascii.eqb c "."%char then take_digits s2' ip 0 else (ip, 0, s2)
    | EmptyString => (ip, 0, s2)
    end in
  if Nat.eqb (ni + nf) 0 then None else
  let finish (e : Z) :=
    match decimal_to_float neg mant (e - Z.of_nat nf)%Z with
    | S754_infinity _ | S754_nan => None
    | f => Some f
    end in
  match s3 with
  | EmptyString => finish 0%Z
  | String c s3' =>
      if Ascii.eqb c "e"%char || Ascii.eqb c "E"%char then
        let '(eneg, s4) := take_sign s3' in
        match take_digits s4 0%Z 0 with
        | (ex, S _, EmptyString) => finish (if eneg then - ex else ex)%Z
        | _ => None
        end
      else None
  end.

(** ** Errors and outcomes

    An error keeps the format string of the source verbatim and its
    operands unrendered.  [Wrap] is [errors.Wrap] / [errors.Wrapf];
    [Recovered] is an error made from a recovered panic. *)

Inductive operand :=
| OStr (s : string)
| OStrs (l : list string)
| OKind (k : Kind)
| OType (t : option rtype)
| OBool (b : bool)
| ONat (n : nat).

Inductive error :=
| Errorf (format : string) (args : list operand)
| Wrap (cause : error) (format : string) (args : list operand)
| Recovered (panic : string).

(** A call returns normally with a value, returns an error, or panics. *)
Inductive outcome (A : Type) :=
| Ok (a : A)
| Err (e : error)
| Panic (p : string).
Arguments Ok {A} a.
Arguments Err {A} e.
Arguments Panic {A} p.

(** ** The world a call runs in

    [tree] is the object being walked (what was handed to
    [reflectwalk.Walk]); [next] is the next free address; [writes] is the
    chronological log of memory writes: the address of the allocation
    written, and the reference to it as it reads after the write. *)

Record world := mkWorld {
  tree : Value;
  next : addr;
  writes : list (addr * value)
}.

Definition M (A : Type) : Type := world -> world * outcome A.

Definition ret {A} (a : A) : M A := fun w => (w, Ok a).
Definition fail {A} (e : error) : M A := fun w => (w, Err e).
Definition panic {A} (p : string) : M A := fun w => (w, Panic p).

Definition bind {A B} (m : M A) (k : A -> M B) : M B :=
  fun w => match m w with
           | (w', Ok a) => k a w'
           | (w', Err e) => (w', Err e)
           | (w', Panic p) => (w', Panic p)
           end.

Declare Scope go_scope.
Delimit Scope go_scope with go.
Notation "x <- m ;; k" := (bind m (fun x => k))
  (at level 100, m at next level, right associativity) : go_scope.
Notation "m ;;; k" := (bind m (fun _ => k))
  (at level 100, right associativity) : go_scope.
Open Scope go_scope.

(** [errors.Wrapf(err, ...)] around a call: errors are wrapped, panics
    pass through. *)
Definition wrapping {A} (format : string) (args : list operand) (m : M A) : M A :=
  fun w => match m w with
           | (w', Err e) => (w', Err (Wrap e format args))
           | r => r
           end.

Definition alloc : M addr :=
  fun w => (mkWorld (tree w) (S (next w)) (writes w), Ok (next w)).

Definition log_write (a : addr) (node : value) : M unit :=
  fun w => (mkWorld (tree w) (next w) (writes w ++ [(a, node)]), Ok tt).

(** A bounded loop [for i := from; i < from+n; i++]. *)
Fixpoint for_each {W} (n : nat) (i : nat) (body : nat -> W -> M W) (w : W) : M W :=
  match n with
  | O => ret w
  | S n' => w' <- body i w ;; for_each n' (S i) body w'
  end.

(** ** What a program that still holds an old reference observes

    [poke a node v] is [v] as it reads once the allocation [a] holds
    what [node] records; [observe] replays a whole log. *)

Fixpoint poke (a : addr) (node : value) (v : value) : value :=
  match v with
  | VStruct fs => VStruct (List.map (poke a node) fs)
  | VArray es => VArray (List.map (poke a node) es)
  | VSlice (Some (b, es)) =>
      if Nat.eqb a b
      then match node with VSlice (Some _) => node | _ => v end
      else VSlice (Some (b, List.map (poke a node) es))
  | VMap (Some (b, kvs)) =>
      if Nat.eqb a b
      then match node with VMap (Some _) => node | _ => v end
      else VMap (Some (b, List.map (fun kv => (poke a node (fst kv), poke a node (snd kv))) kvs))
  | VPtr (Some (b, x)) =>
      if Nat.eqb a b
      then match node with VPtr (Some _) => node | _ => v end
      else VPtr (Some (b, poke a node x))
  | VIface (Some (t, x)) => VIface (Some (t, poke a node x))
  | _ => v
  end.

Definition observe (log : list (addr * value)) (v : value) : value :=
  fold_left (fun v w => poke (fst w) (snd w) v) log v.

(** ** [copystructure.Copy]: a deep copy

    Every allocation reachable from the value is duplicated at a fresh
    address. *)

Fixpoint Copy (v : value) (n : addr) : value * addr :=
  match v with
  | VStruct fs =>
      let '(fs', n') :=
        (fix go (l : list value) (n : addr) : list value * addr :=
           match l with
           | [] => ([], n)
           | x :: l' => let '(x', n1) := Copy x n in
                        let '(l'', n2) := go l' n1 in (x' :: l'', n2)
           end) fs n in
      (VStruct fs', n')
  | VArray es =>
      let '(es', n') :=
        (fix go (l : list value) (n : addr) : list value * addr :=
           match l with
           | [] => ([], n)
           | x :: l' => let '(x', n1) := Copy x n in
                        let '(l'', n2) := go l' n1 in (x' :: l'', n2)
           end) es n in
      (VArray es', n')
  | VSlice (Some (_, es)) =>
      let '(es', n') :=
        (fix go (l : list value) (n : addr) : list value * addr :=
           match l with
           | [] => ([], n)
           | x :: l' => let '(x', n1) := Copy x n in
                        let '(l'', n2) := go l' n1 in (x' :: l'', n2)
           end) es (S n) in
      (VSlice (Some (n, es')), n')
  | VMap (Some (_, kvs)) =>
      let '(kvs', n') :=
        (fix go (l : list (value * value)) (n : addr) : list (value * value) * addr :=
           match l with
           | [] => ([], n)
           | (k, x) :: l' => let '(k', n1) := Copy k n in
                             let '(x', n2) := Copy x n1 in
                             let '(l'', n3) := go l' n2 in ((k', x') :: l'', n3)
           end) kvs (S n) in
      (VMap (Some (n, kvs')), n')
  | VPtr (Some (_, x)) =>
      let '(x', n') := Copy x (S n) in (VPtr (Some (n, x')), n')
  | VIface (Some (t, x)) =>
      let '(x', n') := Copy x n in (VIface (Some (t, x')), n')
  | _ => (v, n)
  end.

(** ** Addressable [reflect.Value]s: handles into the walked object *)

Inductive step :=
| SField (i : nat)     (* v.Field(i) *)
| SIndex (i : nat)     (* v.Index(i) on a slice *)
| SDeref.              (* v.Elem() on a pointer *)

Fixpoint vget (p : list step) (v : value) : option value :=
  match p with
  | [] => Some v
  | SField i :: p' =>
      match v with
      | VStruct fs => match fs !! i with Some x => vget p' x | None => None end
      | _ => None
      end
  | SIndex i :: p' =>
      match v with
      | VSlice (Some (_, es)) => match es !! i with Some x => vget p' x | None => None end
      | _ => None
      end
  | SDeref :: p' =>
      match v with
      | VPtr (Some (_, x)) => vget p' x
      | _ => None
      end
  end.

Fixpoint vset (p : list step) (new : value) (v : value) : option value :=
  match p with
  | [] => Some new
  | SField i :: p' =>
      match v with
      | VStruct fs =>
          match fs !! i with
          | Some x => match vset p' new x with
                      | Some x' => Some (VStruct (<[i := x']> fs))
                      | None => None
                      end
          | None => None
          end
      | _ => None
      end
  | SIndex i :: p' =>
      match v with
      | VSlice (Some (a, es)) =>
          match es !! i with
          | Some x => match vset p' new x with
                      | Some x' => Some (VSlice (Some (a, <[i := x']> es)))
                      | None => None
                      end
          | None => None
          end
      | _ => None
      end
  | SDeref :: p' =>
      match v with
      | VPtr (Some (a, x)) =>
          match vset p' new x with
          | Some x' => Some (VPtr (Some (a, x')))
          | None => None
          end
      | _ => None
      end
  end.

(** A handle is a [reflect.Value] obtained by walking into [tree]:
    where it lives, its static type, the allocation that holds it
    together with the place of the reference owning that allocation
    (absent when the value is not addressable), and the read-only flag
    of values reached through unexported fields. *)
Record handle := mkHandle {
  h_path : list step;
  h_type : rtype;
  h_owner : option (addr * list step);
  h_ro : bool
}.

Definition CanAddr (h : handle) : bool :=
  match h_owner h with Some _ => true | None => false end.
Definition CanSet (h : handle) : bool := CanAddr h && negb (h_ro h).

Definition root_handle (t : rtype) : handle := mkHandle [] t None false.

(** [v.Field(i)] *)
Definition field_handle (h : handle) (i : nat) (f : StructField) (ft : rtype) : handle :=
  mkHandle (h_path h ++ [SField i]) ft (h_owner h) (h_ro h || negb (Exported f)).

(** [v.Elem()] of a non-nil pointer whose target is at [a] *)
Definition deref_handle (h : handle) (a : addr) : handle :=
  mkHandle (h_path h ++ [SDeref])
           (match type_elem (h_type h) with Some e => e | None => TIface end)
           (Some (a, h_path h)) (h_ro h).

(** [v.Index(i)] of a slice whose backing array is at [a] *)
Definition index_handle (h : handle) (a : addr) (i : nat) : handle :=
  mkHandle (h_path h ++ [SIndex i])
           (match type_elem (h_type h) with Some e => e | None => TIface end)
           (Some (a, h_path h)) (h_ro h).

(** Reading through a handle; [None] when nothing lives there any more. *)
Definition read (h : handle) (w : world) : option value :=
  vget (h_path h) (vv (tree w)).

Definition load (h : handle) : M (option value) :=
  fun w => (w, Ok (read h w)).

(** [v.Set(x)]: panics unless the value is settable; the write is
    logged against the allocation that holds the value. *)
Definition store (h : handle) (new : value) : M unit :=
  fun w =>
    match h_owner h with
    | Some (a, op) =>
        if h_ro h then (w, Panic "reflect: Set using value obtained using unexported field")
        else match vset (h_path h) new (vv (tree w)) with
             | Some t' =>
                 match vget op t' with
                 | Some node =>
                     (mkWorld (mkValue (vt (tree w)) t') (next w)
                              (writes w ++ [(a, node)]), Ok tt)
                 | None => (w, Panic "reflect: stale value")
                 end
             | None => (w, Panic "reflect: stale value")
             end
    | None => (w, Panic "reflect: Set using unaddressable value")
    end.

(** [v.Interface()]: panics on a read-only value. *)
Definition Interface (h : handle) : M Value :=
  fun w =>
    if h_ro h
    then (w, Panic "reflect: Interface of value obtained using unexported field")
    else match read h w with
         | Some x => (w, Ok (mkValue (h_type h) x))
         | None => (w, Panic "reflect: stale value")
         end.

(** [reflect.Indirect]: through a pointer, the value itself otherwise;
    [None] is the invalid value obtained from a nil pointer. *)
Definition Indirect (h : handle) : M (option handle) :=
  fun w =>
    match kind_of (h_type h) with
    | KPtr => match read h w with
              | Some (VPtr (Some (a, _))) => (w, Ok (Some (deref_handle h a)))
              | _ => (w, Ok None)
              end
    | _ => (w, Ok (Some h))
    end.

Definition slice_len (v : option value) : nat :=
  match v with
  | Some (VSlice (Some (_, es))) => length es
  | _ => 0
  end.

(** ** The [reflectwalk] driver

    [Walk] visits a struct field by field: [StructField] is called with
    the field, then [Enter(StructField)], the walk of the field's value,
    and [Exit(StructField)]; a pointer is followed before its target is
    dispatched on; a slice gets [Slice], then for every index
    [SliceElem], [Enter(SliceElem)], the walk of the element and
    [Exit(SliceElem)], the length being read again at each turn.  An
    error from a callback stops the walk at once.

    The walkers of this engine act on fields at depth 0 and 1 only and on
    slices at depth 1 only, so the driver is unfolded to those levels:
    the top-level struct, its fields (the sections), a section that is a
    struct, a pointer to a struct, or a slice of either, and the fields
    of those structs (the options).  Below an option no callback of the
    engine does anything, and the walk there is left out; so are
    sections of other shapes (maps, arrays, interfaces, slices of
    slices), which the configuration trees of the engine do not have. *)

Inductive Location :=
| LStruct | LStructField | LSlice | LSliceElem.

Class Walker (W : Type) := {
  wEnter : Location -> W -> M W;
  wExit : Location -> W -> M W;
  wStruct : handle -> W -> M W;
  wStructField : StructField -> handle -> W -> M W;
  wSlice : handle -> W -> M W;
  wSliceElem : nat -> handle -> W -> M W
}.

Section reflectwalk.
Context {W : Type} `{Walker W}.

Definition walkStructField (descend : handle -> W -> M W)
    (h : handle) (i : nat) (w : W) : M W :=
  match type_fields (h_type h) !! i with
  | Some (f, ft) =>
      let hf := field_handle h i f ft in
      w <- wStructField f hf w ;;
      w <- wEnter LStructField w ;;
      w <- descend hf w ;;
      wExit LStructField w
  | None => ret w
  end.

Definition walkStruct (descend : handle -> W -> M W) (h : handle) (w : W) : M W :=
  w <- wEnter LStruct w ;;
  w <- wStruct h w ;;
  w <- for_each (length (type_fields (h_type h))) 0 (walkStructField descend h) w ;;
  wExit LStruct w.

Definition walkSliceElem (descend : handle -> W -> M W)
    (h : handle) (i : nat) (w : W) : M W :=
  cur <- load h ;;
  match cur with
  | Some (VSlice (Some (a, es))) =>
      if Nat.ltb i (length es) then
        let he := index_handle h a i in
        w <- wSliceElem i he w ;;
        w <- wEnter LSliceElem w ;;
        w <- descend he w ;;
        wExit LSliceElem w
      else ret w
  | _ => ret w
  end.

Definition walkSlice (descend : handle -> W -> M W) (h : handle) (w : W) : M W :=
  w <- wEnter LSlice w ;;
  w <- wSlice h w ;;
  cur <- load h ;;
  w <- for_each (slice_len cur) 0 (walkSliceElem descend h) w ;;
  wExit LSlice w.

(** [walk]: follow a pointer, then dispatch on the kind. *)
Definition walk (structs slices : handle -> W -> M W) (h : handle) (w : W) : M W :=
  t <- Indirect h ;;
  match t with
  | Some h' =>
      match kind_of (h_type h') with
      | KStruct => structs h' w
      | KSlice => slices h' w
      | _ => ret w
      end
  | None => ret w
  end.

Definition skip (h : handle) (w : W) : M W := ret w.

(** The value of an option: nothing to do below. *)
Definition walkOption : handle -> W -> M W := skip.
(** An element of a list-valued section. *)
Definition walkElement : handle -> W -> M W :=
  walk (walkStruct walkOption) skip.
(** The value of a section. *)
Definition walkSection : handle -> W -> M W :=
  walk (walkStruct walkOption) (walkSlice walkElement).
(** The configuration object. *)
Definition walkRoot : handle -> W -> M W :=
  walk (walkStruct walkSection) skip.

(** [reflectwalk.Walk(data, walker)], [data] being [tree]. *)
Definition Walk (w : W) : M W :=
  fun s => walkRoot (root_handle (vt (tree s))) w s.
End reflectwalk.

Definition set_tree (t : Value) : M unit :=
  fun w => (mkWorld t (next w) (writes w), Ok tt).

(** [copystructure.Copy] on an [interface{}]. *)
Definition CopyM (x : Value) : M Value :=
  fun w => let '(v', n') := Copy (vv x) (next w) in
           (mkWorld (tree w) n' (writes w), Ok (mkValue (vt x) v')).

(** [reflect.ValueOf]: invalid ([None]) for the nil interface. *)
Definition ValueOf (x : Value) : option Value :=
  if is_nil_interface x then None else Some x.

Definition KindOf (x : option Value) : Kind :=
  match x with
  | Some v => kind_of (vt v)
  | None => KInvalid
  end.

(** [v.IsNil()] for a func, map or slice. *)
Definition IsNil (v : value) : bool :=
  match v with
  | VSlice None | VMap None | VFunc None | VPtr None | VIface None => true
  | _ => false
  end.

(** [v.Interface() == reflect.Zero(v.Type()).Interface()] for the kinds
    that reach the default case of [isZero]: booleans, numbers, strings,
    pointers and interfaces. *)
Definition eq_zero (v : value) : bool :=
  match v with
  | VBool b => negb b
  | VInt n => (n =? 0)%Z
  | VFloat (S754_zero _) => true
  | VString s => String.eqb s ""
  | VPtr None => true
  | VIface None => true
  | _ => false
  end.

(** The methods user types may carry.  A type can be a text unmarshaler
    (through its pointer), a stringer, a validater and a defaulter; the
    hooks act on their receiver only. *)
Record Methods := mkMethods {
  UnmarshalText : rtype -> option (string -> value -> value * option error);
  implementsStringer : rtype -> bool;
  ValidateOf : rtype -> option (value -> option error);
  SetDefaultsOf : rtype -> option (value -> value)
}.

(* ===================================================================== *)
(** * Part II.  The sources                                              *)
(* ===================================================================== *)

(** ** What both revisions of [override] share *)

Definition structTagKey : string := "override".
Definition redactKeyword : string := "redact".

(** [OptionNameFunc] returns the name of a field based on its
    [reflect.StructField] description.  (A nil function is not modelled.) *)
Definition OptionNameFunc := StructField -> string.

(** [tagFieldName]: the name of a field from the value of a given struct
    tag; all content after a "," is ignored; the Go field name when the
    tag gives none. *)
Definition tagFieldName (tag : string) (f : StructField) : string :=
  let parts := Split (Tag_Get tag (Tag f)) in
  let name := match parts with p0 :: _ => p0 | [] => "" end in
  if String.eqb name "" then Name f else name.

Definition TomlFieldName : OptionNameFunc := tagFieldName "toml".
Definition JSONFieldName : OptionNameFunc := tagFieldName "json".
Definition OverrideFieldName : OptionNameFunc := tagFieldName structTagKey.

(** [depthWalker]: the current depth into nested structs. *)
Definition depthWalker_Enter (l : Location) (depth : Z) : Z :=
  match l with LStructField => (depth + 1)%Z | _ => depth end.
Definition depthWalker_Exit (l : Location) (depth : Z) : Z :=
  match l with LStructField => (depth - 1)%Z | _ => depth end.

Definition isRedacted (f : StructField) : bool :=
  let parts := Split (Tag_Get structTagKey (Tag f)) in
  if Nat.ltb 1 (length parts)
  then existsb (fun p => String.eqb p redactKeyword) (tl parts)
  else false.

(** [isZero] returns whether [v] is equal to the zero value of its type.
    The arguments [addressable] and [ro] are the flags of the
    [reflect.Value]: [f.CanSet()] holds for a field of an addressable
    struct that is exported and was not reached through an unexported
    field; [Interface()] panics on a read-only value. *)
Fixpoint isZero (t : rtype) (v : value) (addressable ro : bool) {struct v} : outcome bool :=
  match kind_of t with
  | KFunc | KMap | KSlice => Ok (IsNil v)
  | KArray =>
      match v with
      | VArray es =>
          let et := match type_elem t with Some e => e | None => TIface end in
          (fix go (l : list value) : outcome bool :=
             match l with
             | [] => Ok true
             | x :: l' =>
                 match isZero et x addressable ro with
                 | Ok true => go l'
                 | r => r
                 end
             end) es
      | _ => Panic "reflect: call of Len on ill-typed value"
      end
  | KStruct =>
      match v with
      | VStruct fs =>
          (fix go (l : list value) (fts : list (StructField * rtype)) : outcome bool :=
             match l, fts with
             | x :: l', (f, ft) :: fts' =>
                 if addressable && negb (ro || negb (Exported f))
                 then match isZero ft x true false with
                      | Ok true => go l' fts'
                      | r => r
                      end
                 else go l' fts'
             | _, _ => Ok true
             end) fs (type_fields t)
      | _ => Panic "reflect: call of NumField on ill-typed value"
      end
  | _ =>
      if ro then Panic "reflect: Interface of value obtained using unexported field"
      else Ok (eq_zero v)
  end.

Definition boolValue (b : bool) : Value := mkValue (TBasic KBool) (VBool b).

Definition getRedactedValue (f : StructField) (t : rtype) (v : value)
    (addressable ro : bool) : outcome Value :=
  if isRedacted f then
    match isZero t v addressable ro with
    | Ok z => Ok (boolValue (negb z))
    | Err e => Err e
    | Panic p => Panic p
    end
  else
    if ro then Panic "reflect: Interface of value obtained using unexported field"
    else Ok (mkValue t v).

Definition lift {A} (o : outcome A) : M A := fun w => (w, o).

(** [redactWalker] reads the options of the walked value and redacts
    the sensitive ones. *)
Record redactWalker := mkRedactWalker {
  rw_depth : Z;
  rw_options : gmap string Value;
  rw_optionNameFunc : OptionNameFunc
}.

Definition newRedactWalker (optionNameFunc : OptionNameFunc) : redactWalker :=
  mkRedactWalker 0 ∅ optionNameFunc.

Definition redactWalker_StructField (f : StructField) (v : handle)
    (w : redactWalker) : M redactWalker :=
  if (rw_depth w =? 0)%Z then
    (* Top level *)
    let name := rw_optionNameFunc w f in
    cur <- load v ;;
    match cur with
    | Some x =>
        r <- lift (getRedactedValue f (h_type v) x (CanAddr v) (h_ro v)) ;;
        ret (mkRedactWalker (rw_depth w) (<[name := r]> (rw_options w)) (rw_optionNameFunc w))
    | None => panic "reflect: stale value"
    end
  else
    (* Ignore all other levels *)
    ret w.

#[export] Instance redactWalker_Walker : Walker redactWalker := {
  wEnter l w := ret (mkRedactWalker (depthWalker_Enter l (rw_depth w)) (rw_options w) (rw_optionNameFunc w));
  wExit l w := ret (mkRedactWalker (depthWalker_Exit l (rw_depth w)) (rw_options w) (rw_optionNameFunc w));
  wStruct _ w := ret w;
  wStructField := redactWalker_StructField;
  wSlice _ w := ret w;
  wSliceElem _ _ w := ret w
}.

(** [Redacted]: the options of a section or element in a map; any field
    with the [override:",redact"] tag is replaced with a boolean telling
    whether a non-zero value was set. *)
Definition Redacted (x : Value) (optionNameFunc : OptionNameFunc)
    : M (gmap string Value) :=
  let walker := newRedactWalker optionNameFunc in
  set_tree x ;;;
  walker <- wrapping "failed to redact section" [] (Walk walker) ;;
  ret (rw_options walker).

Definition isNumericKind (k : Kind) : bool :=
  (* Ignoring complex kinds since we cannot convert them *)
  kind_leb KInt k && kind_leb k KFloat64.
Definition isIntKind (k : Kind) : bool := kind_leb KInt k && kind_leb k KInt64.
Definition isUintKind (k : Kind) : bool := kind_leb KUint k && kind_leb k KUint64.
Definition isFloatKind (k : Kind) : bool := kind_eqb k KFloat32 || kind_eqb k KFloat64.

(** [dst.Set(src)] is allowed when the types are identical, or when one
    of them is not a defined type and their underlying types are
    identical (reflect's [directlyAssignable]). *)
Definition assignable (dst src : rtype) : bool :=
  rtype_eqb dst src
  || (negb (match type_name dst, type_name src with
            | Some _, Some _ => true
            | _, _ => false
            end)
      && kind_eqb (kind_of dst) (kind_of src)
      && rtype_eqb (underlying dst) (underlying src)).

(** ** The section-level engine (first revision of [override.go]) *)

Module V1.

(** [Overrider]: [original] is the configuration value provided; it
    is not modified, only copies are. *)
Record Overrider := mkOverrider {
  original : Value;
  OptionNameFunc : OptionNameFunc
}.

Definition New (config : Value) : Overrider :=
  mkOverrider config OverrideFieldName.

(** [Section] gives access to the underlying value or a map of
    redacted values. *)
Record Section := mkSection {
  section : Value;
  optionNameFunc : StructField -> string
}.

Definition Section_Value (s : Section) : Value := section s.

Definition Section_Redacted (s : Section) : M (gmap string Value) :=
  Redacted (section s) (optionNameFunc s).

(** [getSectionName] returns the name of the section based off its
    [override] struct tag.  If no tag is present the Go field name is
    returned and the second return value is false. *)
Definition getSectionName (f : StructField) : string * bool :=
  let parts := Split (Tag_Get structTagKey (Tag f)) in
  if Nat.ltb 0 (length parts)
  then (match parts with p0 :: _ => p0 | [] => "" end, true)
  else (Name f, false).

(** [weakCopyValue] copies the value of [src] into [dst], where
    numeric types are copied weakly. *)
Definition weakCopyValue (src : option Value) (dst : handle) : M unit :=
  if negb (CanSet dst) then fail (Errorf "not settable" []) else
  let srcK := KindOf src in
  let dstK := kind_of (h_type dst) in
  let wrong := fail (Errorf "wrong type %s, expected value of type %s"
                            [OKind srcK; OKind dstK]) in
  if kind_eqb srcK dstK then
    (* Perform normal copy *)
    match src with
    | Some s =>
        if assignable (h_type dst) (vt s) then store dst (vv s)
        else panic "reflect.Set: value is not assignable to type"
    | None => panic "reflect: call of reflect.Value.Set on zero Value"
    end
  else if isNumericKind dstK then
    (* Perform weak numeric copy *)
    if isNumericKind srcK then
      match src with
      | Some s => store dst (convert dstK (vv s))
      | None => wrong
      end
    else if kind_eqb srcK KString then
      (* Check for string kind *)
      match src with
      | Some (mkValue _ (VString str)) =>
          if isIntKind dstK then
            match ParseInt str with
            | Some i => store dst (VInt (wrap dstK i))
            | None => wrong
            end
          else if isUintKind dstK then
            match ParseUint str with
            | Some i => store dst (VInt (wrap dstK i))
            | None => wrong
            end
          else if isFloatKind dstK then
            match ParseFloat str with
            | Some f => store dst (VFloat (float_round dstK f))
            | None => wrong
            end
          else wrong
      | _ => wrong
      end
    else wrong
  else wrong.

(** [overrideWalker] applies the changes onto the walked value. *)
Record overrideWalker := mkOverrideWalker {
  depth : Z;
  ow_section : string;
  set : gmap string Value;
  used : gmap string bool;
  sectionValue : option handle;
  ow_optionNameFunc : StructField -> string;
  currentSectionName : string
}.

Definition newOverrideWalker (section : string) (set : gmap string Value)
    (optionNameFunc : StructField -> string) : overrideWalker :=
  mkOverrideWalker 0 section set ∅ None optionNameFunc "".

Definition with_depth (d : Z) (w : overrideWalker) : overrideWalker :=
  mkOverrideWalker d (ow_section w) (set w) (used w) (sectionValue w)
                   (ow_optionNameFunc w) (currentSectionName w).
Definition with_currentSectionName (n : string) (w : overrideWalker) : overrideWalker :=
  mkOverrideWalker (depth w) (ow_section w) (set w) (used w) (sectionValue w)
                   (ow_optionNameFunc w) n.
Definition with_sectionValue (v : handle) (w : overrideWalker) : overrideWalker :=
  mkOverrideWalker (depth w) (ow_section w) (set w) (used w) (Some v)
                   (ow_optionNameFunc w) (currentSectionName w).
Definition mark_used (name : string) (w : overrideWalker) : overrideWalker :=
  mkOverrideWalker (depth w) (ow_section w) (set w) (<[name := true]> (used w))
                   (sectionValue w) (ow_optionNameFunc w) (currentSectionName w).

Definition is_used (used : gmap string bool) (name : string) : bool :=
  match used !! name with Some b => b | None => false end.

(** [unused]: the names in [set] that no field took.  Go ranges over
    the map in no particular order; the order of [map_to_list] stands
    for it. *)
Definition unused (w : overrideWalker) : list string :=
  List.filter (fun name => negb (is_used (used w) name))
              (List.map fst (map_to_list (set w))).

Definition sectionObject (w : overrideWalker) : M (option Value) :=
  match sectionValue w with
  | Some v => x <- Interface v ;; ret (Some x)
  | None => ret None
  end.

Definition overrideWalker_StructField (f : StructField) (v : handle)
    (w : overrideWalker) : M overrideWalker :=
  if (depth w =? 0)%Z then
    (* Section level *)
    let '(name, ok) := getSectionName f in
    if ok then
      (* Only override the section if a struct tag was present *)
      let w := with_currentSectionName name w in
      if String.eqb (ow_section w) (currentSectionName w)
      then ret (with_sectionValue v w)
      else ret w
    else ret w
  else if (depth w =? 1)%Z then
    (* Option level *)
    (* Skip this field if its not for the section we care about *)
    if negb (String.eqb (currentSectionName w) (ow_section w)) then ret w else
    let name := ow_optionNameFunc w f in
    match set w !! name with
    | Some setValue =>
        wrapping "cannot set option %s" [OStr name]
                 (weakCopyValue (ValueOf setValue) v) ;;;
        ret (mark_used name w)
    | None => ret w
    end
  else ret w.

#[export] Instance overrideWalker_Walker : Walker overrideWalker := {
  wEnter l w := ret (with_depth (depthWalker_Enter l (depth w)) w);
  wExit l w := ret (with_depth (depthWalker_Exit l (depth w)) w);
  wStruct _ w := ret w;
  wStructField := overrideWalker_StructField;
  wSlice _ w := ret w;
  wSliceElem _ _ w := ret w
}.

(** [Override] a section with values from the set of overrides.  The
    underlying configuration object is not modified, but rather a copy
    is returned via the [Section] type. *)
Definition Override (c : Overrider) (section : string)
    (overrides : gmap string Value) : M Section :=
  if String.eqb section "" then fail (Errorf "section cannot be empty" []) else
  (* First make a copy into which we can apply the updates. *)
  copy <- CopyM (original c) ;;
  let walker := newOverrideWalker section overrides (OptionNameFunc c) in
  (* walk the copy and apply the updates *)
  set_tree copy ;;;
  walker <- wrapping "failed to apply changes to configuration object for section %s"
                     [OStr section] (Walk walker) ;;
  let unused := unused walker in
  if Nat.ltb 0 (length unused) then
    fail (Errorf "unknown options %v in section %s" [OStrs unused; OStr section])
  else
  (* Return the modified copy *)
  newValue <- sectionObject walker ;;
  match newValue with
  | None => fail (Errorf "unknown section %s" [OStr section])
  | Some x => ret (mkSection x (OptionNameFunc c))
  end.

(** [sectionWalker] reads the sections from the walked values. *)
Record sectionWalker := mkSectionWalker {
  sw_depth : Z;
  sections : gmap string Section;
  sw_optionNameFunc : StructField -> string
}.

Definition newSectionWalker (optionNameFunc : StructField -> string) : sectionWalker :=
  mkSectionWalker 0 ∅ optionNameFunc.

Definition sectionsMap (w : sectionWalker) : gmap string Section := sections w.

Definition sectionWalker_StructField (f : StructField) (v : handle)
    (w : sectionWalker) : M sectionWalker :=
  if (sw_depth w =? 0)%Z then
    (* Section level *)
    let '(name, ok) := getSectionName f in
    if ok then
      x <- Interface v ;;
      ret (mkSectionWalker (sw_depth w)
             (<[name := mkSection x (sw_optionNameFunc w)]> (sections w))
             (sw_optionNameFunc w))
    else ret w
  else
    (* Skip all other levels *)
    ret w.

#[export] Instance sectionWalker_Walker : Walker sectionWalker := {
  wEnter l w := ret (mkSectionWalker (depthWalker_Enter l (sw_depth w)) (sections w) (sw_optionNameFunc w));
  wExit l w := ret (mkSectionWalker (depthWalker_Exit l (sw_depth w)) (sections w) (sw_optionNameFunc w));
  wStruct _ w := ret w;
  wStructField := sectionWalker_StructField;
  wSlice _ w := ret w;
  wSliceElem _ _ w := ret w
}.

(** [Sections] returns the original unmodified configuration sections. *)
Definition Sections (c : Overrider) : M (gmap string Section) :=
  (* walk the original and read all sections *)
  let walker := newSectionWalker (OptionNameFunc c) in
  set_tree (original c) ;;;
  walker <- wrapping "failed to read sections from configuration object" []
                     (Walk walker) ;;
  ret (sectionsMap walker).

End V1.

(** ** The element-level engine (second revision of [override.go]) *)

Definition kind_name (k : Kind) : string :=
  match k with
  | KInvalid => "invalid" | KBool => "bool"
  | KInt => "int" | KInt8 => "int8" | KInt16 => "int16" | KInt32 => "int32"
  | KInt64 => "int64"
  | KUint => "uint" | KUint8 => "uint8" | KUint16 => "uint16"
  | KUint32 => "uint32" | KUint64 => "uint64" | KUintptr => "uintptr"
  | KFloat32 => "float32" | KFloat64 => "float64"
  | KComplex64 => "complex64" | KComplex128 => "complex128"
  | KArray => "array" | KChan => "chan" | KFunc => "func"
  | KInterface => "interface" | KMap => "map" | KPtr => "ptr"
  | KSlice => "slice" | KString => "string" | KStruct => "struct"
  | KUnsafePointer => "unsafe.Pointer"
  end.

(** [Type.String()].  Only defined types and pointers to them carry
    methods, so only their rendering is ever looked at; a struct
    literal type is abbreviated. *)
Fixpoint type_string (t : rtype) : string :=
  match t with
  | TBasic k => kind_name k
  | TNamed n _ => n
  | TPtr e => "*" ++ type_string e
  | TSlice e => "[]" ++ type_string e
  | TArray _ e => "[...]" ++ type_string e
  | TMap k e => "map[" ++ type_string k ++ "]" ++ type_string e
  | TStruct _ => "struct {...}"
  | TIface => "interface {}"
  | TFunc => "func()"
  end.

(** [reflect.Value.String]: the string itself for a value of kind
    String, ["<T Value>"] for any other. *)
Definition String_of (t : rtype) (v : value) : string :=
  match kind_of t, v with
  | KString, VString s => s
  | _, _ => "<" ++ type_string t ++ " Value>"
  end.

Module V2.

Definition elementKeyword : string := "element-key=".

Record Overrider := mkOverrider {
  original : Value;
  OptionNameFunc : OptionNameFunc
}.

Definition New (config : Value) : Overrider :=
  mkOverrider config OverrideFieldName.

(** [Override] specifies what configuration values should be
    overridden and how. *)
Record Override := mkOverride {
  o_Section : string;
  o_Element : string;
  o_Options : gmap string Value;
  o_Delete : bool;
  o_Create : bool
}.

(** [Validate] that the values set on this Override are
    self-consistent. *)
Definition Override_Validate (o : Override) : option error :=
  if String.eqb (o_Section o) "" then
    Some (Errorf "section cannot be empty" [])
  else if o_Delete o && String.eqb (o_Element o) "" then
    Some (Errorf "element cannot be empty if deleting an element" [])
  else if o_Create o && negb (String.eqb (o_Element o) "") then
    Some (Errorf "element must be empty if creating an element, set the element key value via the options" [])
  else if o_Delete o && Nat.ltb 0 (size (o_Options o)) then
    Some (Errorf "cannot delete an element and provide options in the same override" [])
  else if o_Delete o && o_Create o then
    Some (Errorf "cannot create and delete an element in the same override" [])
  else None.

(** [Element] gives access to the underlying value or a map of
    redacted values.  The zero [Element] has a nil value and no
    option-name function. *)
Record Element := mkElement {
  e_value : Value;
  e_element : string;
  e_optionNameFunc : option (StructField -> string)
}.

Definition zeroElement : Element := mkElement nilValue "" None.

Definition ElementID (e : Element) : string := e_element e.
Definition Element_Value (e : Element) : Value := e_value e.

Definition Element_Redacted (e : Element) : M (gmap string Value) :=
  match e_optionNameFunc e with
  | Some f => Redacted (e_value e) f
  | None => Redacted (e_value e) (fun _ => "")   (* only reached with a nil value *)
  end.

(** [getSectionName] returns the name of the section based off its
    [override] struct tag.  If no tag is present the Go field name is
    returned and the second return value is false. *)
Definition getSectionName (f : StructField) : string * bool :=
  let parts := Split (Tag_Get structTagKey (Tag f)) in
  let p0 := match parts with p :: _ => p | [] => "" end in
  if negb (String.eqb p0 "") then (p0, true) else (Name f, false).

(** [getElementKey] returns the name of the field that is used to
    uniquely identify elements of a list. *)
Definition getElementKey (f : StructField) : string :=
  let parts := Split (Tag_Get structTagKey (Tag f)) in
  if Nat.ltb 1 (length parts) then
    match List.find (fun p => HasPrefix p elementKeyword) (tl parts) with
    | Some p => TrimPrefix p elementKeyword
    | None => ""
    end
  else "".

Section WithMethods.
Variable methods : Methods.

(** The search loop of [findFieldByElementKey]: the first settable
    field whose option name is the element key; when none matches
    the named result still holds the last field visited. *)
Fixpoint findFieldLoop (optionNameFunc : StructField -> string) (elementKey : string)
    (h : handle) (fs : list (StructField * rtype)) (i : nat)
    (field : option handle) : option handle :=
  match fs with
  | [] => field
  | (f, ft) :: fs' =>
      let field := field_handle h i f ft in
      (* Skip any unexported fields *)
      if negb (CanSet field)
      then findFieldLoop optionNameFunc elementKey h fs' (S i) (Some field)
      else if String.eqb (optionNameFunc f) elementKey then Some field
      else findFieldLoop optionNameFunc elementKey h fs' (S i) (Some field)
  end.

(** [v.FieldByName(name)] (promotion through embedded structs is
    not modelled). *)
Fixpoint FieldByName (name : string) (h : handle)
    (fs : list (StructField * rtype)) (i : nat) : option handle :=
  match fs with
  | [] => None
  | (f, ft) :: fs' =>
      if String.eqb (Name f) name then Some (field_handle h i f ft)
      else FieldByName name h fs' (S i)
  end.

Definition findFieldByElementKey (v : handle) (elementKey : string)
    (optionNameFunc : StructField -> string) : M (option handle) :=
  v <- Indirect v ;;
  match v with
  | None => ret None
  | Some v =>
      if negb (kind_eqb (kind_of (h_type v)) KStruct) then ret None else
      match FieldByName elementKey v (type_fields (h_type v)) 0 with
      | Some field => ret (Some field)
      | None =>
          ret (findFieldLoop optionNameFunc elementKey v (type_fields (h_type v)) 0 None)
      end
  end.

(** A write through a pointer held by the walked object: every
    alias of the target sees it. *)
Definition write_through (a : addr) (node : value) : M unit :=
  fun w => (mkWorld (mkValue (vt (tree w)) (poke a node (vv (tree w))))
                    (next w) (writes w ++ [(a, node)]), Ok tt).

Definition elem_or_iface (t : rtype) : rtype :=
  match type_elem t with Some e => e | None => TIface end.

(** The body of [weakCopyValue] once [dst] is known to be settable:
    from the source ([sv] of type [st]) and the destination (of type
    [dt], currently holding [dv]) to what the destination holds on
    return and the error returned.  A panic is recovered into an
    error, as the deferred function does; what was written before
    stays written. *)
Fixpoint copyInto (sv : value) (st : rtype) (dt : rtype) (dv : value) {struct sv}
    : M (value * option error) :=
  (* if src.Kind() == reflect.Interface { src = src.Elem() } *)
  let st1 := match sv with
             | VIface (Some (t, _)) => Some t
             | VIface None => None
             | _ => Some st
             end in
  let sv1 := match sv with
             | VIface (Some (_, x)) => x
             | _ => sv
             end in
  let srcK := match st1 with Some t => kind_of t | None => KInvalid end in
  let dstK := kind_of dt in
  let zeroType := Recovered "reflect: call of reflect.Value.Type on zero Value" in
  if kind_eqb srcK dstK then
    if match st1 with Some t => rtype_eqb dt t | None => false end then
      (* Perform normal copy *)
      ret (sv1, None)
    else
      (* Perform recursive copy into elements *)
      match dstK with
      | KMap =>
          (* Make new map *)
          a <- alloc ;;
          log_write a (VMap (Some (a, []))) ;;;
          match sv1 with
          | VMap (Some (_, entries)) =>
          (fix go (kvs : list (value * value)) (acc : list (value * value))
             : M (value * option error) :=
             match kvs with
             | [] => ret (VMap (Some (a, acc)), None)
             | (k, x) :: kvs' =>
                 t <- alloc ;;
                 r <- copyInto x (elem_or_iface (default TIface st1))
                               (elem_or_iface dt) (zero (elem_or_iface dt)) ;;
                 log_write t (VPtr (Some (t, fst r))) ;;;
                 match snd r with
                 | Some e =>
                     ret (VMap (Some (a, acc)),
                          Some (Wrap e "failed to copy map value" []))
                 | None =>
                     if match type_key dt, type_key (default TIface st1) with
                        | Some kd, Some ks => assignable kd ks
                        | _, _ => false
                        end
                     then
                       let acc' := acc ++ [(k, fst r)] in
                       log_write a (VMap (Some (a, acc'))) ;;;
                       go kvs' acc'
                     else
                       ret (VMap (Some (a, acc)),
                            Some (Recovered "reflect.Value.SetMapIndex: value is not assignable to type"))
                 end
             end) entries []
          | _ => ret (VMap (Some (a, [])), None)
          end
      | KSlice =>
          (* Make new slice *)
          a <- alloc ;;
          let fresh := repeat (zero (elem_or_iface dt))
                              (length (match sv1 with
                                       | VSlice (Some (_, es)) => es
                                       | _ => []
                                       end)) in
          log_write a (VSlice (Some (a, fresh))) ;;;
          match sv1 with
          | VSlice (Some (_, es)) =>
          (fix go (l : list value) (i : nat) (acc : list value)
             : M (value * option error) :=
             match l with
             | [] => ret (VSlice (Some (a, acc)), None)
             | x :: l' =>
                 t <- alloc ;;
                 r <- copyInto x (elem_or_iface (default TIface st1))
                               (elem_or_iface dt) (zero (elem_or_iface dt)) ;;
                 log_write t (VPtr (Some (t, fst r))) ;;;
                 match snd r with
                 | Some e =>
                     ret (VSlice (Some (a, acc)),
                          Some (Wrap e "failed to copy slice value" []))
                 | None =>
                     let acc' := <[i := fst r]> acc in
                     log_write a (VSlice (Some (a, acc'))) ;;;
                     go l' (S i) acc'
                 end
             end) es 0 fresh
          | _ => ret (VSlice (Some (a, fresh)), None)
          end
      | _ =>
          ret (dv, Some (Errorf "cannot copy mismatched types got %s exp %s"
                                [OType st1; OType (Some dt)]))
      end
  else
    (* Get addressable value since it may implement the
       TextUnmarshaler interface: addrDst = Indirect(dst).Addr() *)
    let addrDst : option (rtype * value * option addr) :=
      match dstK, dv with
      | KPtr, VPtr (Some (a, x)) => Some (elem_or_iface dt, x, Some a)
      | KPtr, _ => None
      | _, _ => Some (dt, dv, None)
      end in
    match addrDst with
    | None => ret (dv, Some zeroType)
    | Some (rt, rv, via) =>
        match UnmarshalText methods rt with
        | Some um =>
            match st1 with
            | None => ret (dv, Some zeroType)
            | Some t1 =>
                if implementsStringer methods t1 || kind_eqb srcK KString then
                  let text := String_of t1 sv1 in
                  let '(rv', err) := um text rv in
                  (* if err != nil { errors.Wrap(err, "failed to unmarshal text") }
                     -- the wrapped error is not returned *)
                  match via with
                  | Some a =>
                      write_through a (VPtr (Some (a, rv'))) ;;;
                      ret (VPtr (Some (a, rv')), None)
                  | None => ret (rv', None)
                  end
                else
                  ret (dv, Some (Errorf "cannot unmarshal %s into %s"
                                        [OKind srcK; OKind dstK]))
            end
        | None =>
            if isNumericKind dstK then
              (* Perform weak numeric copy *)
              if isNumericKind srcK then ret (convert dstK sv1, None)
              else
                match st1 with
                | None => ret (dv, Some zeroType)
                | Some t1 =>
                    if implementsStringer methods t1 || kind_eqb srcK KString then
                      let str := String_of t1 sv1 in
                      let cannot :=
                        ret (dv, Some (Errorf "cannot convert string %q into %s"
                                              [OStr str; OKind dstK])) in
                      if isIntKind dstK then
                        match ParseInt str with
                        | Some i => ret (VInt (wrap dstK i), None)
                        | None => cannot
                        end
                      else if isUintKind dstK then
                        match ParseUint str with
                        | Some i => ret (VInt (wrap dstK i), None)
                        | None => cannot
                        end
                      else if isFloatKind dstK then
                        match ParseFloat str with
                        | Some f => ret (VFloat (float_round dstK f), None)
                        | None => cannot
                        end
                      else cannot
                    else
                      ret (dv, Some (Errorf "cannot convert %s into %s"
                                            [OKind srcK; OKind dstK]))
                end
            else
              ret (dv, Some (Errorf "wrong kind %s, expected value of kind %s: %t"
                                    [OKind srcK; OKind dstK; OBool (kind_eqb srcK dstK)]))
        end
    end.

(** [weakCopyValue] copies the value of [src] into [dst], where
    numeric and interface types are copied weakly. *)
Definition weakCopyValue (src : option Value) (dst : handle) : M unit :=
  if negb (CanSet dst) then fail (Errorf "not settable" []) else
  cur <- load dst ;;
  match cur with
  | None => fail (Recovered "reflect: stale value")
  | Some dv =>
      r <- copyInto (match src with Some s => vv s | None => VIface None end)
                    (match src with Some s => vt s | None => TIface end)
                    (h_type dst) dv ;;
      store dst (fst r) ;;;
      match snd r with
      | None => ret tt
      | Some e => fail e
      end
  end.

(** [overrideWalker] applies the changes onto the walked value. *)
Record overrideWalker := mkOverrideWalker {
  depth : Z;
  o : Override;
  optionNameFunc : StructField -> string;
  used : gmap string bool;
  elementValue : option handle;
  currentSectionName : string;
  currentElementName : string;
  currentSlice : option handle;
  elementKey : string
}.

Definition newOverrideWalker (o : Override)
    (optionNameFunc : StructField -> string) : overrideWalker :=
  mkOverrideWalker 0 o optionNameFunc ∅ None "" "" None "".

Definition with_depth (d : Z) (w : overrideWalker) : overrideWalker :=
  mkOverrideWalker d (o w) (optionNameFunc w) (used w) (elementValue w)
    (currentSectionName w) (currentElementName w) (currentSlice w) (elementKey w).
Definition with_o_Element (e : string) (w : overrideWalker) : overrideWalker :=
  mkOverrideWalker (depth w)
    (mkOverride (o_Section (o w)) e (o_Options (o w)) (o_Delete (o w)) (o_Create (o w)))
    (optionNameFunc w) (used w) (elementValue w)
    (currentSectionName w) (currentElementName w) (currentSlice w) (elementKey w).
Definition mark_used (name : string) (w : overrideWalker) : overrideWalker :=
  mkOverrideWalker (depth w) (o w) (optionNameFunc w) (<[name := true]> (used w))
    (elementValue w) (currentSectionName w) (currentElementName w)
    (currentSlice w) (elementKey w).
Definition with_elementValue (v : option handle) (w : overrideWalker) : overrideWalker :=
  mkOverrideWalker (depth w) (o w) (optionNameFunc w) (used w) v
    (currentSectionName w) (currentElementName w) (currentSlice w) (elementKey w).
Definition with_currentSectionName (n : string) (w : overrideWalker) : overrideWalker :=
  mkOverrideWalker (depth w) (o w) (optionNameFunc w) (used w) (elementValue w)
    n (currentElementName w) (currentSlice w) (elementKey w).
Definition with_currentElementName (n : string) (w : overrideWalker) : overrideWalker :=
  mkOverrideWalker (depth w) (o w) (optionNameFunc w) (used w) (elementValue w)
    (currentSectionName w) n (currentSlice w) (elementKey w).
Definition with_currentSlice (v : handle) (w : overrideWalker) : overrideWalker :=
  mkOverrideWalker (depth w) (o w) (optionNameFunc w) (used w) (elementValue w)
    (currentSectionName w) (currentElementName w) (Some v) (elementKey w).
Definition with_elementKey (k : string) (w : overrideWalker) : overrideWalker :=
  mkOverrideWalker (depth w) (o w) (optionNameFunc w) (used w) (elementValue w)
    (currentSectionName w) (currentElementName w) (currentSlice w) k.

Definition is_used (used : gmap string bool) (name : string) : bool :=
  match used !! name with Some b => b | None => false end.

Definition unused (w : overrideWalker) : list string :=
  List.filter (fun name => negb (is_used (used w) name))
              (List.map fst (map_to_list (o_Options (o w)))).

Definition elementObject (w : overrideWalker) : M Element :=
  match elementValue w with
  | Some v =>
      x <- Interface v ;;
      ret (mkElement x (o_Element (o w)) (Some (optionNameFunc w)))
  | None => ret zeroElement
  end.

Definition overrideWalker_StructField (f : StructField) (v : handle)
    (w : overrideWalker) : M overrideWalker :=
  if (depth w =? 0)%Z then
    (* Section level *)
    let '(name, ok) := getSectionName f in
    if ok then
      (* Only override the section if a struct tag was present *)
      let w := with_currentSectionName name w in
      if String.eqb (o_Section (o w)) (currentSectionName w)
      then ret (with_elementKey (getElementKey f) (with_elementValue (Some v) w))
      else ret w
    else ret (with_currentSectionName "" w)
  else if (depth w =? 1)%Z then
    (* Option level *)
    (* Skip this field if its not for the section/element we care about *)
    if negb (String.eqb (currentSectionName w) (o_Section (o w)))
       || negb (String.eqb (currentElementName w) (o_Element (o w)))
    then ret w else
    let name := optionNameFunc w f in
    match o_Options (o w) !! name with
    | Some setValue =>
        if negb (o_Create (o w)) && String.eqb name (elementKey w) then
          fail (Errorf "cannot override element key %s" [OStr name])
        else
          wrapping "cannot set option %s" [OStr name]
                   (weakCopyValue (ValueOf setValue) v) ;;;
          ret (mark_used name w)
    | None => ret w
    end
  else ret w.

(** [setValue.(string)]: the dynamic type must be [string] itself. *)
Definition as_string (x : Value) : option string :=
  match vt x, vv x with
  | TBasic KString, VString s => Some s
  | _, _ => None
  end.

Definition slice_elems (v : option value) : list value :=
  match v with
  | Some (VSlice (Some (_, es))) => es
  | _ => []
  end.

Definition overrideWalker_Slice (v : handle) (w : overrideWalker) : M overrideWalker :=
  if negb (String.eqb (o_Section (o w)) (currentSectionName w))
     || negb (depth w =? 1)%Z
  then ret w else
  let w := with_currentSlice v w in
  if o_Delete (o w) then
    (* Explictly set the section value to the zero value *)
    ret (with_elementValue None w)
  else if o_Create (o w) then
    (* Create a new element in the slice *)
    let et := elem_or_iface (h_type v) in
    let isPtr := kind_eqb (kind_of et) KPtr in
    let base := if isPtr then elem_or_iface et else et in
    p <- alloc ;;
    (* If the type is a defaulter, call Default *)
    let fresh := match SetDefaultsOf methods base with
                 | Some setDefaults => setDefaults (zero base)
                 | None => zero base
                 end in
    log_write p (VPtr (Some (p, fresh))) ;;;
    (* Indirect the value if we didn't want a pointer *)
    let n := if isPtr then VPtr (Some (p, fresh)) else fresh in
    (* v.Set(reflect.Append(v, n)); Append is given a new backing array *)
    cur <- load v ;;
    b <- alloc ;;
    let es := slice_elems cur ++ [n] in
    log_write b (VSlice (Some (b, es))) ;;;
    store v (VSlice (Some (b, es))) ;;;
    (* Set element key *)
    if negb (String.eqb (elementKey w) "") then
      (* Get the value that is now part of the slice. *)
      let n := index_handle v b (length es - 1) in
      elementField <- findFieldByElementKey n (elementKey w) (optionNameFunc w) ;;
      match elementField with
      | Some elementField =>
          if negb (kind_eqb (kind_of (h_type elementField)) KString) then
            fail (Errorf "element key field must be of type string, got %s"
                         [OType (Some (h_type elementField))])
          else
            match o_Options (o w) !! elementKey w with
            | Some setValue =>
                match as_string setValue with
                | Some str =>
                    let w := mark_used (elementKey w) (with_o_Element str w) in
                    wrapping "cannot set element key %q on new element"
                             [OStr (elementKey w)]
                             (weakCopyValue (ValueOf setValue) elementField) ;;;
                    ret w
                | None =>
                    fail (Errorf "type of element key must be a string, got %T "
                                 [OType (Some (vt setValue))])
                end
            | None =>
                fail (Errorf "element key %q not present in options"
                             [OStr (elementKey w)])
            end
      | None =>
          fail (Errorf "could not find field with the name of the element key %q"
                       [OStr (elementKey w)])
      end
    else
      fail (Errorf "cannot create new element, no element key found. An element key must be specified via the struct tag"
                   [OStr structTagKey; OStr elementKeyword])
  else
    (* We are modifying an existing slice element. Nothing to do here. *)
    ret w.

Definition overrideWalker_SliceElem (idx : nat) (v : handle)
    (w : overrideWalker) : M overrideWalker :=
  if (depth w =? 1)%Z
     && String.eqb (currentSectionName w) (o_Section (o w))
     && negb (String.eqb (o_Element (o w)) "")
  then
    let w := with_currentElementName "" w in
    if negb (String.eqb (elementKey w) "") then
      (* Get current element name via field on current value *)
      elementField <- findFieldByElementKey v (elementKey w) (optionNameFunc w) ;;
      match elementField with
      | Some elementField =>
          if negb (kind_eqb (kind_of (h_type elementField)) KString) then
            fail (Errorf "element key field must be of type string, got %s"
                         [OType (Some (h_type elementField))])
          else
            name <- load elementField ;;
            let w := with_currentElementName
                       (match name with Some (VString s) => s | _ => "" end) w in
            if String.eqb (o_Element (o w)) (currentElementName w) then
              if o_Delete (o w) then
                (* Delete the element from the slice by re-slicing the element out *)
                match currentSlice w with
                | Some cs =>
                    cur <- load cs ;;
                    match cur with
                    | Some (VSlice (Some (a, es))) =>
                        let es' := take idx es ++ drop (S idx) es in
                        log_write a (VSlice (Some (a, es'))) ;;;
                        store cs (VSlice (Some (a, es'))) ;;;
                        ret w
                    | _ => panic "reflect: call of reflect.Value.Slice on ill-typed value"
                    end
                | None => panic "reflect: call of reflect.Value.Slice on zero Value"
                end
              else ret (with_elementValue (Some v) w)
            else ret w
      | None =>
          fail (Errorf "could not find field with name %q on value of type %s"
                       [OStr (elementKey w); OType (Some (h_type v))])
      end
    else
      fail (Errorf "an element key must be specified via the struct tag"
                   [OStr structTagKey; OStr elementKeyword])
  else ret w.

#[export] Instance overrideWalker_Walker : Walker overrideWalker := {
  wEnter l w := ret (with_depth (depthWalker_Enter l (depth w)) w);
  wExit l w := ret (with_depth (depthWalker_Exit l (depth w)) w);
  wStruct _ w := ret w;
  wStructField := overrideWalker_StructField;
  wSlice := overrideWalker_Slice;
  wSliceElem := overrideWalker_SliceElem
}.

(** [applyOverride] applies the given override to the object being
    walked ([tree]). *)
Definition applyOverride (c : Overrider) (o : Override) : M Element :=
  match Override_Validate o with
  | Some err => fail (Wrap err "invalid override" [])
  | None =>
      let walker := newOverrideWalker o (OptionNameFunc c) in
      (* walk the copy and apply the updates *)
      walker <- wrapping "failed to apply changes to configuration object for section %s"
                         [OStr (o_Section o)] (Walk walker) ;;
      let unused := unused walker in
      if Nat.ltb 0 (length unused) then
        fail (Errorf "unknown options %v in section %s"
                     [OStrs unused; OStr (o_Section o)])
      else
      (* Return the modified copy *)
      element <- elementObject walker ;;
      if is_nil_interface (e_value element) && negb (o_Delete o) then
        fail (Errorf "unknown section %s" [OStr (o_Section o)])
      else
      (* Validate new value *)
      match (if is_nil_interface (e_value element) then None
             else ValidateOf methods (vt (e_value element))) with
      | Some validate =>
          match validate (vv (e_value element)) with
          | Some err => fail (Wrap err "failed validation" [])
          | None => ret element
          end
      | None => ret element
      end
  end.

(** [Override] an element of a section with values from the set of
    overrides.  The underlying configuration object is not modified,
    but rather a copy is returned via the [Element] type. *)
Definition Overrider_Override (c : Overrider) (o : Override) : M Element :=
  (* First make a copy into which we can apply the updates. *)
  copy <- CopyM (original c) ;;
  set_tree copy ;;;
  applyOverride c o.

(** [Section] is a list of Elements, sorted by their element ID. *)
Definition Section := list Element.

Definition Section_Less (a b : Element) : bool :=
  String.ltb (ElementID a) (ElementID b).

(** [sort.Sort] on a [Section] (an insertion sort stands for it). *)
Fixpoint sort_insert (e : Element) (l : list Element) : list Element :=
  match l with
  | [] => [e]
  | x :: l' => if Section_Less x e then x :: sort_insert e l' else e :: l
  end.
Definition sort_Sort (s : Section) : Section := fold_right sort_insert [] s.

(** [sectionWalker] reads the sections from the walked values. *)
Record sectionWalker := mkSectionWalker {
  sw_depth : Z;
  sections : gmap string Section;
  sw_optionNameFunc : StructField -> string;
  sw_currentSectionName : string;
  elementKeys : gmap string string
}.

Definition newSectionWalker (optionNameFunc : StructField -> string) : sectionWalker :=
  mkSectionWalker 0 ∅ optionNameFunc "" ∅.

Definition sectionsMap (w : sectionWalker) : gmap string Section :=
  sort_Sort <$> sections w.

Definition elementKeysMap (w : sectionWalker) : gmap string string := elementKeys w.

Definition sectionWalker_StructField (f : StructField) (v : handle)
    (w : sectionWalker) : M sectionWalker :=
  if (sw_depth w =? 0)%Z then
    (* Section level *)
    let '(name, ok) := getSectionName f in
    if ok then
      let elementKey := getElementKey f in
      let keys := <[name := elementKey]> (elementKeys w) in
      t <- Indirect v ;;
      if kind_eqb (match t with Some t => kind_of (h_type t) | None => KInvalid end) KStruct
      then
        x <- Interface v ;;
        ret (mkSectionWalker (sw_depth w)
               (<[name := [mkElement x "" (Some (sw_optionNameFunc w))]]> (sections w))
               (sw_optionNameFunc w) name keys)
      else
        ret (mkSectionWalker (sw_depth w) (sections w) (sw_optionNameFunc w) name keys)
    else
      ret (mkSectionWalker (sw_depth w) (sections w) (sw_optionNameFunc w) ""
                           (elementKeys w))
  else
    (* Skip all other levels *)
    ret w.

Definition sectionWalker_SliceElem (idx : nat) (v : handle)
    (w : sectionWalker) : M sectionWalker :=
  (* Skip sections that we are not interested in *)
  if String.eqb (sw_currentSectionName w) "" then ret w else
  if (sw_depth w =? 1)%Z then
    (* Option level *)
    (* Get element value from object *)
    match elementKeys w !! sw_currentSectionName w with
    | None =>
        fail (Errorf "no element key found for section %q, %v"
                     [OStr (sw_currentSectionName w)])
    | Some elementKey =>
        elementField <- findFieldByElementKey v elementKey (sw_optionNameFunc w) ;;
        match elementField with
        | Some elementField =>
            if negb (kind_eqb (kind_of (h_type elementField)) KString) then
              fail (Errorf "element key field must be of type string, got %s"
                           [OType (Some (h_type elementField))])
            else
              name <- load elementField ;;
              let element := match name with Some (VString s) => s | _ => "" end in
              x <- Interface v ;;
              let cur := default [] (sections w !! sw_currentSectionName w) in
              ret (mkSectionWalker (sw_depth w)
                     (<[sw_currentSectionName w :=
                          cur ++ [mkElement x element (Some (sw_optionNameFunc w))]]>
                        (sections w))
                     (sw_optionNameFunc w) (sw_currentSectionName w) (elementKeys w))
        | None =>
            fail (Errorf "could not find field with the name of the element key %q on element object"
                         [OStr elementKey])
        end
    end
  else
    (* Skip all other levels *)
    ret w.

#[export] Instance sectionWalker_Walker : Walker sectionWalker := {
  wEnter l w := ret (mkSectionWalker (depthWalker_Enter l (sw_depth w)) (sections w)
                       (sw_optionNameFunc w) (sw_currentSectionName w) (elementKeys w));
  wExit l w := ret (mkSectionWalker (depthWalker_Exit l (sw_depth w)) (sections w)
                      (sw_optionNameFunc w) (sw_currentSectionName w) (elementKeys w));
  wStruct _ w := ret w;
  wStructField := sectionWalker_StructField;
  wSlice _ w := ret w;
  wSliceElem := sectionWalker_SliceElem
}.

(** The loop of [OverrideAll]: all overrides are applied to the
    same copy. *)
Fixpoint applyAll (c : Overrider) (os : list Override) : M unit :=
  match os with
  | [] => ret tt
  | o :: os' =>
      (* We do not need to keep a reference to the section since we
         are going to walk the entire copy next *)
      wrapping "failed to override configuration section/element %s/%s"
               [OStr (o_Section o); OStr (o_Element o)]
               (applyOverride c o) ;;;
      applyAll c os'
  end.

(** [OverrideAll] applies all given overrides and returns a map of
    all configuration sections, even if they were not overridden.
    The overrides are all applied to the same object and the
    original configuration object remains unmodified. *)
Definition Overrider_OverrideAll (c : Overrider) (os : list Override)
    : M (gmap string Section) :=
  (* First make a copy into which we can apply the updates. *)
  copy <- CopyM (original c) ;;
  set_tree copy ;;;
  (* Apply all overrides to the same copy *)
  applyAll c os ;;;
  (* Walk the copy to return all sections *)
  let walker := newSectionWalker (OptionNameFunc c) in
  walker <- wrapping "failed to read sections from configuration object" []
                     (Walk walker) ;;
  ret (sectionsMap walker).

(** [Sections] returns the original unmodified configuration
    sections. *)
Definition Overrider_Sections (c : Overrider) : M (gmap string Section) :=
  (* walk the original and read all sections *)
  let walker := newSectionWalker (OptionNameFunc c) in
  set_tree (original c) ;;;
  walker <- wrapping "failed to read sections from configuration object" []
                     (Walk walker) ;;
  ret (sectionsMap walker).

(** [ElementKeys] returns a map of section name to element key for
    each section. *)
Definition Overrider_ElementKeys (c : Overrider) : M (gmap string string) :=
  let walker := newSectionWalker (OptionNameFunc c) in
  set_tree (original c) ;;;
  walker <- wrapping "failed to read sections from configuration object" []
                     (Walk walker) ;;
  ret (elementKeysMap walker).

End WithMethods.
End V2.

(** ** The configuration service ([services/config/service.go]) *)

Module Config.

Record ConfigUpdate := mkConfigUpdate {
  cu_Name : string;
  cu_NewConfig : Value
}.

(** Modelled from the spec: the override store ([OverrideDAO], whose
    implementation is not among the sources).  It persists override
    records [{id, overrides}] keyed by id; [Get] on an absent id fails
    with the distinguished error [ErrNoOverrideExists]; [Set] replaces
    the record; callers receive copies.  Failures of the underlying
    key-value store are not modelled. *)
Record Override := mkOverride {
  ID : string;
  Overrides : gmap string Value
}.

Definition OverrideDAO := gmap string Override.

Definition DAO_Get (dao : OverrideDAO) (id : string) : option Override := dao !! id.
Definition DAO_Set (dao : OverrideDAO) (o : Override) : OverrideDAO := <[ID o := o]> dao.
Definition DAO_List (dao : OverrideDAO) : list Override := List.map snd (map_to_list dao).

Record Service := mkService {
  overrider : V1.Overrider;
  updates : list ConfigUpdate;      (* what was sent on the channel, in order *)
  overrides : OverrideDAO
}.

Definition NewService (config : Value) : Service :=
  mkService (V1.mkOverrider config TomlFieldName) [] ∅.

Record updateAction := mkUpdateAction {
  ua_Set : gmap string Value;
  ua_Delete : list string
}.

Record Response := mkResponse {
  StatusCode : nat;
  resp_error : option error;
  resp_config : option (gmap string (gmap string Value))
}.

Definition StatusOK : nat := 200.
Definition StatusNoContent : nat := 204.
Definition StatusBadRequest : nat := 400.
Definition StatusInternalServerError : nat := 500.

Definition HttpError (e : error) (code : nat) : Response := mkResponse code (Some e) None.

(** [applyUpdateAction]: merge the sets and deletes into the stored
    override record, persist it, and return the merged options. *)
Definition applyUpdateAction (s : Service) (id : string) (ua : updateAction)
    : Service * gmap string Value :=
  let o := match DAO_Get (overrides s) id with
           | Some o => o
           | None => mkOverride id ∅        (* err == ErrNoOverrideExists *)
           end in
  (* for k, v := range ua.Set { o.Overrides[k] = v } *)
  let m := map_fold (fun k v m => <[k := v]> m) (Overrides o) (ua_Set ua) in
  (* for _, k := range ua.Delete { delete(o.Overrides, k) } *)
  let m := fold_left (fun m k => delete k m) (ua_Delete ua) m in
  let o := mkOverride (ID o) m in
  (mkService (overrider s) (updates s) (DAO_Set (overrides s) o), Overrides o).

(** [handleUpdateSection]: [section] is [path.Base] of the request
    path, [body] the decoded JSON body ([None] when it does not
    decode).  The service state is returned in every case, also when
    the call panics. *)
Definition handleUpdateSection (s : Service) (section : string)
    (body : option updateAction) : world -> world * (Service * outcome Response) :=
  fun w =>
  if String.eqb section "" then
    (w, (s, Ok (HttpError (Errorf "must provide section name" []) StatusBadRequest)))
  else
  match body with
  | None =>
      (w, (s, Ok (HttpError (Errorf "failed to decode JSON:" []) StatusBadRequest)))
  | Some ua =>
      (* Apply sets/deletes to stored overrides *)
      let '(s, set) := applyUpdateAction s section ua in
      (* Apply overrides to config object *)
      match V1.Override (overrider s) section set w with
      | (w', Err err) =>
          (w', (s, Ok (HttpError (Wrap err "failed to update config:" []) StatusBadRequest)))
      | (w', Panic p) => (w', (s, Panic p))
      | (w', Ok newConfig) =>
          let cu := mkConfigUpdate section (V1.Section_Value newConfig) in
          (w', (mkService (overrider s) (updates s ++ [cu]) (overrides s),
                Ok (mkResponse StatusNoContent None None)))
      end
  end.

(** The loop of [getConfig] over the sections. *)
Fixpoint resolveSections (s : Service) (overrides : gmap string Override)
    (sections : list (string * V1.Section))
    (config : gmap string (gmap string Value)) : M (gmap string (gmap string Value)) :=
  match sections with
  | [] => ret config
  | (name, section) :: rest =>
      section <- match overrides !! name with
                 | Some o =>
                     wrapping "failed to override section %s" [OStr name]
                              (V1.Override (overrider s) name (Overrides o))
                 | None => ret section
                 end ;;
      redacted <- wrapping "failed to redact section %s" [OStr name]
                           (V1.Section_Redacted section) ;;
      resolveSections s overrides rest (<[name := redacted]> config)
  end.

(** [getConfig] returns a map of a fully resolved configuration object. *)
Definition getConfig (s : Service) : M (gmap string (gmap string Value)) :=
  let overrideList := DAO_List (overrides s) in
  let overrides : gmap string Override :=
    fold_left (fun m o => <[ID o := o]> m) overrideList ∅ in
  sections <- wrapping "failed to retrieve config sections" []
                       (V1.Sections (overrider s)) ;;
  resolveSections s overrides (map_to_list sections) ∅.

Definition handleGetConfig (s : Service) : M Response :=
  fun w =>
    match getConfig s w with
    | (w', Ok config) => (w', Ok (mkResponse StatusOK None (Some config)))
    | (w', Err err) =>
        (w', Ok (HttpError (Wrap err "failed to resolve current config:" [])
                           StatusInternalServerError))
    | (w', Panic p) => (w', Panic p)
    end.

End Config.

(** ** The [Update] hook of the notification adapters *)

(** [kapacitor.AlertLevel], declared outside these sources: its four
    named levels (the cases of one [switch], hence distinct) and any
    other value of the integer type. *)
Inductive AlertLevel :=
| OKAlert | InfoAlert | WarnAlert | CritAlert
| OtherLevel (n : Z).

(** What an adapter hands to the JSON encoder; the encoding itself is
    the library's.  A Go map or struct is an object, [JValue] an
    [interface{}] passed through as it is. *)
Inductive json :=
| JString (s : string)
| JBool (b : bool)
| JInt (n : Z)
| JStrings (l : list string)
| JArray (l : list json)
| JObject (fields : list (string * json))
| JValue (x : Value).

Definition PostData := gmap string json.

Definition tString : rtype := TBasic KString.
Definition tBool : rtype := TBasic KBool.
Definition exported (name : string) (tags : StructTag) : StructField :=
  mkField name tags true.

Module Telegram.

(** The fields of [telegram.Config] that the service reads (the
    declaration itself, in config.go, is not among the sources). *)
Record Config := mkConfig {
  ChatId : string;
  ParseMode : string;
  DisableWebPagePreview : bool;
  DisableNotification : bool;
  URL : string;
  Token : string;
  Global : bool;
  StateChangesOnly : bool
}.

Definition ConfigType : rtype :=
  TNamed "telegram.Config"
    (TStruct [ (exported "ChatId" [], tString); (exported "ParseMode" [], tString);
               (exported "DisableWebPagePreview" [], tBool);
               (exported "DisableNotification" [], tBool);
               (exported "URL" [], tString); (exported "Token" [], tString);
               (exported "Global" [], tBool);
               (exported "StateChangesOnly" [], tBool) ]).

(** [x.(Config)]: the type assertion on an [interface{}]. *)
Definition asConfig (x : Value) : option Config :=
  if rtype_eqb (vt x) ConfigType then
    match vv x with
    | VStruct [VString a; VString b; VBool c; VBool d; VString e; VString f;
               VBool g; VBool h] => Some (mkConfig a b c d e f g h)
    | _ => None
    end
  else None.

Record Service := mkService {
  chatId : string;
  parseMode : string;
  disableWebPagePreview : bool;
  disableNotification : bool;
  url : string;
  global : bool;
  stateChangesOnly : bool
}.

Definition NewService (c : Config) : Service :=
  mkService (ChatId c) (ParseMode c) (DisableWebPagePreview c) (DisableNotification c)
            (URL c ++ Token c ++ "/sendMessage") (Global c) (StateChangesOnly c).

Definition Update (s : Service) (newConfig : list Value) : Service * option error :=
  let l := length newConfig in
  if negb (Nat.eqb l 1) then
    (s, Some (Errorf "expected only one new config object, got %d" [ONat l]))
  else
    match newConfig with
    | x :: _ =>
        match asConfig x with
        | None =>
            (s, Some (Errorf "expected config object to be of type %T, got %T"
                             [OType (Some ConfigType); OType (ValueOf x ≫= (fun v => Some (vt v)))]))
        | Some c =>
            (mkService (ChatId c) (ParseMode c) (DisableWebPagePreview c)
                       (DisableNotification c) (URL c ++ Token c ++ "/sendMessage")
                       (Global c) (StateChangesOnly c), None)
        end
    | [] => (s, Some (Errorf "expected only one new config object, got %d" [ONat l]))
    end.

Definition Service_Global (s : Service) : bool := global s.
Definition Service_StateChangesOnly (s : Service) : bool := stateChangesOnly s.

(** [preparePost]: the URL and the body of the request, or an error. *)
Definition preparePost (s : Service) (chatId parseMode message : string)
    (disableWebPagePreview disableNotification : bool)
    : error + (string * PostData) :=
  let chatId := if String.eqb chatId "" then Telegram.chatId s else chatId in
  let parseMode := if String.eqb parseMode "" then Telegram.parseMode s else parseMode in
  if negb (String.eqb parseMode "") && negb (String.eqb parseMode "Markdown")
     && negb (String.eqb parseMode "HTML")
  then inl (Errorf "parseMode %s is not valid, please use 'Markdown' or 'HTML'"
                   [OStr parseMode])
  else
    let postData : PostData := ∅ in
    let postData := <["chat_id" := JString chatId]> postData in
    let postData := <["text" := JString message]> postData in
    let postData := if negb (String.eqb parseMode "")
                    then <["parse_mode" := JString parseMode]> postData
                    else postData in
    let postData := if disableWebPagePreview || Telegram.disableWebPagePreview s
                    then <["disable_web_page_preview" := JBool true]> postData
                    else postData in
    let postData := if disableNotification || Telegram.disableNotification s
                    then <["disable_notification" := JBool true]> postData
                    else postData in
    inr (url s, postData).

End Telegram.

Module Slack.

Record Config := mkConfig {
  Channel : string;
  URL : string;
  Global : bool;
  StateChangesOnly : bool
}.

Definition ConfigType : rtype :=
  TNamed "slack.Config"
    (TStruct [ (exported "Channel" [], tString); (exported "URL" [], tString);
               (exported "Global" [], tBool);
               (exported "StateChangesOnly" [], tBool) ]).

Definition asConfig (x : Value) : option Config :=
  if rtype_eqb (vt x) ConfigType then
    match vv x with
    | VStruct [VString a; VString b; VBool c; VBool d] => Some (mkConfig a b c d)
    | _ => None
    end
  else None.

Record Service := mkService {
  channel : string;
  url : string;
  global : bool;
  stateChangesOnly : bool
}.

Definition NewService (c : Config) : Service :=
  mkService (Channel c) (URL c) (Global c) (StateChangesOnly c).

Definition Update (s : Service) (newConfig : list Value) : Service * option error :=
  let l := length newConfig in
  if negb (Nat.eqb l 1) then
    (s, Some (Errorf "expected only one new config object, got %d" [ONat l]))
  else
    match newConfig with
    | x :: _ =>
        match asConfig x with
        | None =>
            (s, Some (Errorf "expected config object to be of type %T, got %T"
                             [OType (Some ConfigType); OType (ValueOf x ≫= (fun v => Some (vt v)))]))
        | Some c =>
            (mkService (Channel c) (URL c) (Global c) (StateChangesOnly c), None)
        end
    | [] => (s, Some (Errorf "expected only one new config object, got %d" [ONat l]))
    end.

Definition Service_Global (s : Service) : bool := global s.
Definition Service_StateChangesOnly (s : Service) : bool := stateChangesOnly s.

(** [preparePost]; [Product] is the constant [kapacitor.Product],
    declared outside these sources. *)
Definition preparePost (Product : string) (s : Service) (channel message : string)
    (level : AlertLevel) : error + (string * PostData) :=
  let channel := if String.eqb channel "" then Slack.channel s else channel in
  let color := match level with
               | WarnAlert => "warning"
               | CritAlert => "danger"
               | _ => "good"
               end in
  (* slack attachment info *)
  let a := JObject [("fallback", JString message); ("color", JString color);
                    ("text", JString message)] in
  let postData : PostData := ∅ in
  let postData := <["channel" := JString channel]> postData in
  let postData := <["username" := JString Product]> postData in
  let postData := <["text" := JString ""]> postData in
  let postData := <["attachments" := JArray [a]]> postData in
  inr (url s, postData).

End Slack.

(** ** The other notification adapters

    Each [Config] record lists the fields of the adapter's [Config] that
    the service reads (the declarations, in the [config.go] files, are
    not among the sources).  The type assertion [x.(Config)] of
    [Update] is a parameter, [asConfig], with the type it names,
    [ConfigType]; so are the constant [kapacitor.Product] and the
    library calls [json.Marshal], [url.Parse] and [net.ResolveTCPAddr]
    where an adapter uses them. *)

Module OpsGenie.

Record Config := mkConfig {
  Enabled : bool;
  APIKey : string;
  Teams : list string;
  Recipients : list string;
  URL : string;
  RecoveryURL : string;
  Global : bool
}.

Record Service := mkService {
  enabled : bool;
  apikey : string;
  teams : list string;
  recipients : list string;
  url : string;
  recovery_url : string;
  global : bool
}.

Definition NewService (c : Config) : Service :=
  mkService (Enabled c) (APIKey c) (Teams c) (Recipients c)
            (URL c ++ "/") (RecoveryURL c ++ "/") (Global c).

Definition Update (ConfigType : rtype) (asConfig : Value -> option Config)
    (s : Service) (newConfig : list Value) : Service * option error :=
  let l := length newConfig in
  if negb (Nat.eqb l 1) then
    (s, Some (Errorf "expected only one new config object, got %d" [ONat l]))
  else
    match newConfig with
    | x :: _ =>
        match asConfig x with
        | None =>
            (s, Some (Errorf "expected config object to be of type %T, got %T"
                             [OType (Some ConfigType); OType (ValueOf x ≫= (fun v => Some (vt v)))]))
        | Some c =>
            (mkService (enabled s) (APIKey c) (Teams c) (Recipients c)
                       (URL c ++ "/") (RecoveryURL c ++ "/") (Global c), None)
        end
    | [] => (s, Some (Errorf "expected only one new config object, got %d" [ONat l]))
    end.

Definition Service_Global (s : Service) : bool := global s.

Definition preparePost (Product : string) (Marshal : Value -> error + string)
    (s : Service) (teams recipients : list string)
    (messageType message entityID : string) (details : Value)
    : error + (string * PostData) :=
  if negb (enabled s) then inl (Errorf "service not enabled" []) else
  let ogData : PostData := ∅ in
  let url := OpsGenie.url s in
  let ogData := <["apiKey" := JString (apikey s)]> ogData in
  let ogData := <["entity" := JString entityID]> ogData in
  let ogData := <["alias" := JString entityID]> ogData in
  let ogData := <["message" := JString message]> ogData in
  let ogData := <["note" := JString ""]> ogData in
  let ogData := <["monitoring_tool" := JString Product]> ogData in
  (* Extra Fields (can be used for filtering) *)
  let ogDetails := JObject [("Level", JString messageType);
                            ("Monitoring Tool", JString "Kapacitor")] in
  let ogData := <["details" := ogDetails]> ogData in
  let '(url, ogData) :=
    if String.eqb messageType "RECOVERY"
    then (recovery_url s, <["note" := JString message]> ogData)
    else (url, ogData) in
  match (if negb (is_nil_interface details) then
           match Marshal details with
           | inl err => inl err
           | inr b => inr (<["description" := JString b]> ogData)
           end
         else inr ogData) with
  | inl err => inl err
  | inr ogData =>
      let teams := if Nat.eqb (length teams) 0 then OpsGenie.teams s else teams in
      let ogData := if Nat.ltb 0 (length teams)
                    then <["teams" := JStrings teams]> ogData else ogData in
      let recipients := if Nat.eqb (length recipients) 0
                        then OpsGenie.recipients s else recipients in
      let ogData := if Nat.ltb 0 (length recipients)
                    then <["recipients" := JStrings recipients]> ogData else ogData in
      inr (url, ogData)
  end.

End OpsGenie.

Module PagerDuty.

Record Config := mkConfig {
  ServiceKey : string;
  URL : string;
  Global : bool
}.

(** [HTTPDService] is the interface the server plugs in after
    [NewService], given here by what its [URL()] returns; [None] is the
    nil interface. *)
Record Service := mkService {
  HTTPDService : option string;
  serviceKey : string;
  url : string;
  global : bool
}.

Definition NewService (c : Config) : Service :=
  mkService None (ServiceKey c) (URL c) (Global c).

Definition Update (ConfigType : rtype) (asConfig : Value -> option Config)
    (s : Service) (newConfig : list Value) : Service * option error :=
  let l := length newConfig in
  if negb (Nat.eqb l 1) then
    (s, Some (Errorf "expected only one new config object, got %d" [ONat l]))
  else
    match newConfig with
    | x :: _ =>
        match asConfig x with
        | None =>
            (s, Some (Errorf "expected config object to be of type %T, got %T"
                             [OType (Some ConfigType); OType (ValueOf x ≫= (fun v => Some (vt v)))]))
        | Some c =>
            (mkService (HTTPDService s) (ServiceKey c) (URL c) (Global c), None)
        end
    | [] => (s, Some (Errorf "expected only one new config object, got %d" [ONat l]))
    end.

Definition Service_Global (s : Service) : bool := global s.

Definition preparePost (Product : string) (Marshal : Value -> error + string)
    (s : Service) (serviceKey incidentKey desc : string) (level : AlertLevel)
    (details : Value) : outcome (string * gmap string string) :=
  match (match level with
         | WarnAlert | CritAlert => inr "trigger"
         | InfoAlert =>
             inl (Errorf "AlertLevel 'info' is currently ignored by the PagerDuty service" [])
         | _ => inr "resolve"
         end) with
  | inl err => Err err
  | inr eventType =>
      let pData : gmap string string := ∅ in
      let pData := if String.eqb serviceKey ""
                   then <["service_key" := PagerDuty.serviceKey s]> pData
                   else <["service_key" := serviceKey]> pData in
      let pData := <["event_type" := eventType]> pData in
      let pData := <["description" := desc]> pData in
      let pData := <["incident_key" := incidentKey]> pData in
      let pData := <["client" := Product]> pData in
      match HTTPDService s with
      | None => Panic "runtime error: invalid memory address or nil pointer dereference"
      | Some client_url =>
          let pData := <["client_url" := client_url]> pData in
          if negb (is_nil_interface details) then
            match Marshal details with
            | inl err => Err err
            | inr b => Ok (url s, <["details" := b]> pData)
            end
          else Ok (url s, pData)
      end
  end.

End PagerDuty.

Module Alerta.

Record Config := mkConfig {
  URL : string;
  Token : string;
  Environment : string;
  Origin : string
}.

Record Service := mkService {
  url : string;
  token : string;
  environment : string;
  origin : string
}.

Definition NewService (c : Config) : Service :=
  mkService (URL c) (Token c) (Environment c) (Origin c).

Definition Update (ConfigType : rtype) (asConfig : Value -> option Config)
    (s : Service) (newConfig : list Value) : Service * option error :=
  let l := length newConfig in
  if negb (Nat.eqb l 1) then
    (s, Some (Errorf "expected only one new config object, got %d" [ONat l]))
  else
    match newConfig with
    | x :: _ =>
        match asConfig x with
        | None =>
            (s, Some (Errorf "expected config object to be of type %T, got %T"
                             [OType (Some ConfigType); OType (ValueOf x ≫= (fun v => Some (vt v)))]))
        | Some c =>
            (mkService (URL c) (Token c) (Environment c) (Origin c), None)
        end
    | [] => (s, Some (Errorf "expected only one new config object, got %d" [ONat l]))
    end.

(** [Parse] is [url.Parse] followed by [String()] on its result. *)
Definition preparePost (Parse : string -> error + string) (s : Service)
    (token resource event environment severity group value message origin : string)
    (service : list string) (data : Value) : error + (string * PostData) :=
  let token := if String.eqb token "" then Alerta.token s else token in
  let environment := if String.eqb environment "" then Alerta.environment s
                     else environment in
  let origin := if String.eqb origin "" then Alerta.origin s else origin in
  match Parse (url s ++ "/alert?api-key=" ++ token)%string with
  | inl err => inl err
  | inr Url =>
      let postData : PostData := ∅ in
      let postData := <["resource" := JString resource]> postData in
      let postData := <["event" := JString event]> postData in
      let postData := <["environment" := JString environment]> postData in
      let postData := <["severity" := JString severity]> postData in
      let postData := <["group" := JString group]> postData in
      let postData := <["value" := JString value]> postData in
      let postData := <["text" := JString message]> postData in
      let postData := <["origin" := JString origin]> postData in
      let postData := <["rawData" := JValue data]> postData in
      let postData := if Nat.ltb 0 (length service)
                      then <["service" := JStrings service]> postData
                      else postData in
      inr (Url, postData)
  end.

End Alerta.

Module Sensu.

Record Config := mkConfig {
  Enabled : bool;
  Addr : string;
  Source : string
}.

Record Service := mkService {
  enabled : bool;
  addr : string;
  source : string
}.

Definition NewService (c : Config) : Service :=
  mkService (Enabled c) (Addr c) (Source c).

Definition Update (ConfigType : rtype) (asConfig : Value -> option Config)
    (s : Service) (newConfig : list Value) : Service * option error :=
  let l := length newConfig in
  if negb (Nat.eqb l 1) then
    (s, Some (Errorf "expected only one new config object, got %d" [ONat l]))
  else
    match newConfig with
    | x :: _ =>
        match asConfig x with
        | None =>
            (s, Some (Errorf "expected config object to be of type %T, got %T"
                             [OType (Some ConfigType); OType (ValueOf x ≫= (fun v => Some (vt v)))]))
        | Some c =>
            (mkService (enabled s) (Addr c) (Source c), None)
        end
    | [] => (s, Some (Errorf "expected only one new config object, got %d" [ONat l]))
    end.

(** [prepareData]; [TCPAddr] stands for [*net.TCPAddr] and [Resolve]
    for [net.ResolveTCPAddr("tcp", _)]. *)
Definition prepareData {TCPAddr : Type} (Resolve : string -> error + TCPAddr)
    (s : Service) (name output : string) (level : AlertLevel)
    : error + (TCPAddr * PostData) :=
  if negb (enabled s) then inl (Errorf "service is not enabled" []) else
  let status := match level with
                | OKAlert => 0
                | InfoAlert => 0
                | WarnAlert => 1
                | CritAlert => 2
                | _ => 3
                end%Z in
  let postData : PostData := ∅ in
  let postData := <["name" := JString name]> postData in
  let postData := <["source" := JString (source s)]> postData in
  let postData := <["output" := JString output]> postData in
  let postData := <["status" := JInt status]> postData in
  match Resolve (addr s) with
  | inl err => inl err
  | inr addr => inr (addr, postData)
  end.

End Sensu.

Module Talk.

Record Config := mkConfig {
  Enabled : bool;
  URL : string;
  AuthorName : string
}.

Record Service := mkService {
  enabled : bool;
  url : string;
  authorName : string
}.

Definition NewService (c : Config) : Service :=
  mkService (Enabled c) (URL c) (AuthorName c).

Definition Update (ConfigType : rtype) (asConfig : Value -> option Config)
    (s : Service) (newConfig : list Value) : Service * option error :=
  let l := length newConfig in
  if negb (Nat.eqb l 1) then
    (s, Some (Errorf "expected only one new config object, got %d" [ONat l]))
  else
    match newConfig with
    | x :: _ =>
        match asConfig x with
        | None =>
            (s, Some (Errorf "expected config object to be of type %T, got %T"
                             [OType (Some ConfigType); OType (ValueOf x ≫= (fun v => Some (vt v)))]))
        | Some c =>
            (mkService (enabled s) (URL c) (AuthorName c), None)
        end
    | [] => (s, Some (Errorf "expected only one new config object, got %d" [ONat l]))
    end.

Definition preparePost (s : Service) (title text : string)
    : error + (string * PostData) :=
  if negb (enabled s) then inl (Errorf "service is not enabled" []) else
  let postData : PostData := ∅ in
  let postData := <["title" := JString title]> postData in
  let postData := <["text" := JString text]> postData in
  let postData := <["authorName" := JString (authorName s)]> postData in
  inr (url s, postData).

End Talk.

Module HipChat.

Record Config := mkConfig {
  Enabled : bool;
  Room : string;
  Token : string;
  URL : string;
  Global : bool;
  StateChangesOnly : bool
}.

Record Service := mkService {
  enabled : bool;
  room : string;
  token : string;
  url : string;
  global : bool;
  stateChangesOnly : bool
}.

Definition NewService (c : Config) : Service :=
  mkService (Enabled c) (Room c) (Token c) (URL c) (Global c) (StateChangesOnly c).

Definition Update (ConfigType : rtype) (asConfig : Value -> option Config)
    (s : Service) (newConfig : list Value) : Service * option error :=
  let l := length newConfig in
  if negb (Nat.eqb l 1) then
    (s, Some (Errorf "expected only one new config object, got %d" [ONat l]))
  else
    match newConfig with
    | x :: _ =>
        match asConfig x with
        | None =>
            (s, Some (Errorf "expected config object to be of type %T, got %T"
                             [OType (Some ConfigType); OType (ValueOf x ≫= (fun v => Some (vt v)))]))
        | Some c =>
            (mkService (Enabled c) (Room c) (Token c) (URL c) (Global c)
                       (StateChangesOnly c), None)
        end
    | [] => (s, Some (Errorf "expected only one new config object, got %d" [ONat l]))
    end.

Definition Service_Global (s : Service) : bool := global s.
Definition Service_StateChangesOnly (s : Service) : bool := stateChangesOnly s.

Definition preparePost (Product : string) (Parse : string -> error + string)
    (s : Service) (room token message : string) (level : AlertLevel)
    : error + (string * PostData) :=
  if negb (enabled s) then inl (Errorf "service is not enabled" []) else
  (* Generate HipChat API Url including room and authentication token *)
  let room := if String.eqb room "" then HipChat.room s else room in
  let token := if String.eqb token "" then HipChat.token s else token in
  match Parse (url s ++ "/" ++ room ++ "/notification?auth_token=" ++ token)%string with
  | inl err => inl err
  | inr Url =>
      let color := match level with
                   | WarnAlert => "yellow"
                   | CritAlert => "red"
                   | _ => "green"
                   end in
      let postData : PostData := ∅ in
      let postData := <["from" := JString Product]> postData in
      let postData := <["color" := JString color]> postData in
      let postData := <["message" := JString message]> postData in
      let postData := <["notify" := JBool true]> postData in
      inr (Url, postData)
  end.

End HipChat.

Module SMTP.

Record Config := mkConfig {
  Enabled : bool;
  From : string;
  To : list string;
  Global : bool;
  StateChangesOnly : bool
}.

Definition ErrNoRecipients : error :=
  Errorf "not sending email, no recipients defined" [].

(** The headers and the body of a [gomail.Message]. *)
Record Message := mkMessage {
  m_From : list string;
  m_To : list string;
  m_Subject : list string;
  m_ContentType : string;
  m_Body : string
}.

(** The state of the service that [prepareMessge] and the getters
    read; the mailer goroutine, its channel and [Update], which starts
    and signals it, are left out. *)
Record Service := mkService {
  c : Config
}.

Definition NewService (c : Config) : Service := mkService c.

Definition Service_Global (s : Service) : bool := Global (c s).
Definition Service_StateChangesOnly (s : Service) : bool := StateChangesOnly (c s).

Definition prepareMessge (s : Service) (to : list string) (subject body : string)
    : error + Message :=
  if negb (Enabled (c s)) then inl (Errorf "service not enabled" []) else
  let to := if Nat.eqb (length to) 0 then To (c s) else to in
  if Nat.eqb (length to) 0 then inl ErrNoRecipients else
  inr (mkMessage [From (c s)] to [subject] "text/html" body).

End SMTP.

(** ** Configurations of the test suites *)

Module Examples.

(** [services/config/service_test.go] *)
Definition SectionA : rtype :=
  TNamed "SectionA" (TStruct [ (exported "Option1" [("toml", "option-1")], tString) ]).
Definition SectionB : rtype :=
  TNamed "SectionB"
    (TStruct [ (exported "Option2" [("toml", "option-2")], tString);
               (exported "Password" [("toml", "password"); ("override", ",redact")],
                tString) ]).
Definition TestConfig : rtype :=
  TNamed "TestConfig"
    (TStruct [ (exported "SectionA" [("toml", "section-a"); ("override", "section-a")],
                SectionA);
               (exported "SectionB" [("toml", "section-b"); ("override", "section-b")],
                SectionB) ]).

(** [&TestConfig{SectionA{Option1: "o1"}, SectionB{Option2: "o2"}}],
    allocated at address 0. *)
Definition testConfig : Value :=
  mkValue (TPtr TestConfig)
    (VPtr (Some (0, VStruct [ VStruct [VString "o1"];
                              VStruct [VString "o2"; VString ""] ]))).

Definition str (s : string) : Value := mkValue tString (VString s).
(** A JSON number decodes to a float64. *)
Definition num (n : Z) : Value := mkValue (TBasic KFloat64) (VFloat (float_of_Z KFloat64 n)).

(** The empty world: nothing walked yet, addresses 0 (the test
    configuration) and 1 to 9 taken. *)
Definition w0 : world := mkWorld nilValue 10 [].

(** The example of the package documentation of [override]: a
    singleton section, a list-valued section keyed by [id], an
    ignored section and an ignored field. *)
Definition SectionAConfig : rtype :=
  TNamed "SectionAConfig"
    (TStruct [ (exported "Option" [("toml", "option")], tString);
               (exported "Password" [("toml", "password"); ("override", ",redact")],
                tString) ]).
Definition SectionBConfig : rtype :=
  TNamed "SectionBConfig"
    (TStruct [ (exported "ID" [("toml", "id")], tString);
               (exported "Option" [("toml", "option")], tString) ]).
Definition IgnoredConfig : rtype := TNamed "IgnoredConfig" (TStruct []).
Definition DocConfig : rtype :=
  TNamed "Config"
    (TStruct [ (exported "SectionA" [("override", "section-a")], SectionAConfig);
               (exported "SectionB" [("override", "section-b,element-key=id")],
                TSlice SectionBConfig);
               (exported "IgnoredSection" [], IgnoredConfig);
               (exported "IgnoredField" [], tString) ]).
Definition docConfig : Value :=
  mkValue (TPtr DocConfig)
    (VPtr (Some (0, VStruct
       [ VStruct [VString "option value"; VString "secret"];
         VSlice (Some (1, [ VStruct [VString "id0"; VString "option value 0"];
                            VStruct [VString "id1"; VString "option value 1"] ]));
         VStruct [];
         VString "this value is ignored" ]))).

(** The numeric section of [override_test.go]. *)
Definition numericKinds : list Kind :=
  [KInt; KInt8; KInt16; KInt32; KInt64;
   KUint; KUint8; KUint16; KUint32; KUint64; KFloat32; KFloat64].

(** The value 42 as a value of a numeric kind. *)
Definition num42 (k : Kind) : value :=
  if is_float k then VFloat (float_of_Z k 42) else VInt 42.

(** The sources of the numeric test cases: 42 in every numeric kind,
    and the string "42". *)
Definition sources42 : list Value :=
  List.map (fun k => mkValue (TBasic k) (num42 k)) numericKinds ++ [str "42"].

Definition SectionNums : rtype :=
  TNamed "SectionNums"
    (TStruct (List.map (fun k => (exported (kind_name k) [], TBasic k)) numericKinds)).

(** A rich scalar in the manner of [toml.Duration]: a named integer
    whose pointer unmarshals decimal text and rejects anything else,
    leaving the receiver as it was. *)
Definition Duration : rtype := TNamed "toml.Duration" (TBasic KInt64).
Definition Duration_UnmarshalText (text : string) (recv : value) : value * option error :=
  match ParseInt text with
  | Some n => (VInt n, None)
  | None => (recv, Some (Errorf "time: invalid duration %s" [OStr text]))
  end.

Definition noMethods : Methods :=
  mkMethods (fun _ => None) (fun _ => false) (fun _ => None) (fun _ => None).

Definition durationMethods : Methods :=
  mkMethods (fun t => if rtype_eqb t Duration then Some Duration_UnmarshalText else None)
            (fun _ => false) (fun _ => None) (fun _ => None).

Definition TimedSection : rtype :=
  TNamed "TimedSection"
    (TStruct [ (exported "Timeout" [("toml", "timeout")], Duration);
               (exported "Retry" [("toml", "retry")], TPtr Duration) ]).
Definition TimedConfig : rtype :=
  TNamed "TimedConfig"
    (TStruct [ (exported "Timed" [("override", "timed")], TimedSection) ]).
(** The retry duration lives in its own allocation, at address 1. *)
Definition timedConfig : Value :=
  mkValue (TPtr TimedConfig)
    (VPtr (Some (0, VStruct [ VStruct [VInt 30; VPtr (Some (1, VInt 5))] ]))).

(** A section held by value whose sensitive option is a struct. *)
Definition Credentials : rtype :=
  TNamed "Credentials" (TStruct [ (exported "User" [], tString) ]).
Definition SecretSection : rtype :=
  TNamed "SecretSection"
    (TStruct [ (exported "Creds" [("override", ",redact")], Credentials);
               (exported "Host" [], tString) ]).
Definition secretElement : Value :=
  mkValue SecretSection (VStruct [VStruct [VString "bob"]; VString "example.org"]).

(** A section held through a pointer whose sensitive option is a struct
    with an unexported field. *)
Definition HiddenCredentials : rtype :=
  TNamed "credentials" (TStruct [ (mkField "user" [] false, tString) ]).
Definition HiddenSection : rtype :=
  TNamed "HiddenSection"
    (TStruct [ (exported "Creds" [("override", ",redact")], HiddenCredentials);
               (exported "Host" [], tString) ]).
Definition hiddenElement : Value :=
  mkValue (TPtr HiddenSection)
    (VPtr (Some (0, VStruct [VStruct [VString "bob"]; VString "example.org"]))).

End Examples.

(** ** Notions used to state the properties *)

(** A handle is well formed when the reference that owns its allocation
    lies on the way to it. *)
Definition wf_handle (h : handle) : Prop :=
  match h_owner h with
  | Some (_, op) => exists q, h_path h = op ++ q
  | None => True
  end.

(** The requests that break a self-consistency rule of [Override]. *)
Definition inconsistent (o : V2.Override) : Prop :=
  V2.o_Section o = ""
  \/ (V2.o_Delete o = true /\ V2.o_Element o = "")
  \/ (V2.o_Delete o = true /\ V2.o_Options o <> ∅)
  \/ (V2.o_Delete o = true /\ V2.o_Create o = true)
  \/ (V2.o_Create o = true /\ V2.o_Element o <> "").

(** The struct type behind the configuration object (through the
    pointer it is usually handed over by) and its top-level fields. *)
Definition root_type (t : rtype) : rtype :=
  match kind_of t with
  | KPtr => match type_elem t with Some e => e | None => TIface end
  | _ => t
  end.

Definition top_fields (config : Value) : list (StructField * rtype) :=
  type_fields (root_type (vt config)).

(** A section is declared when a top-level field carries its name in
    the [override] tag (second revision). *)
Definition declares_section (config : Value) (name : string) : Prop :=
  exists f ft, In (f, ft) (top_fields config) /\ V2.getSectionName f = (name, true).

(** Every field of every struct nested in a type (through arrays and
    structs) is exported. *)
Fixpoint deep_exported (t : rtype) : bool :=
  match t with
  | TNamed _ u => deep_exported u
  | TArray _ e => deep_exported e
  | TStruct fs =>
      (fix go (l : list (StructField * rtype)) : bool :=
         match l with
         | [] => true
         | (f, ft) :: l' => Exported f && deep_exported ft && go l'
         end) fs
  | _ => true
  end.

(** The struct types whose fields the walk presents as options below
    a top-level field of type [ft]: the section itself (through a
    pointer), or the elements of a list-valued section (each through a
    pointer). *)
Definition section_struct_types (ft : rtype) : list rtype :=
  let t1 := root_type ft in
  match kind_of t1 with
  | KStruct => [t1]
  | KSlice =>
      let e1 := root_type (match type_elem t1 with Some e => e | None => TIface end) in
      match kind_of e1 with
      | KStruct => [e1]
      | _ => []
      end
  | _ => []
  end.

(** The handle on the struct at the root of the walked object: the
    object itself, or what the pointer it is leads to. *)
Definition root_struct (T0 : rtype) (h : handle) : Prop :=
  (kind_of T0 <> KPtr /\ h = root_handle T0)
  \/ (kind_of T0 = KPtr /\ exists a, h = deref_handle (root_handle T0) a).

(** The names of the options of a section, for the first revision: the
    option names of the fields of the structs walked below every
    top-level field that carries the section's name. *)
Definition V1_section_options (nf : StructField -> string) (config : Value)
    (section : string) : list string :=
  flat_map (fun fft : StructField * rtype =>
              if String.eqb (fst (V1.getSectionName (fst fft))) section
              then List.map (fun g : StructField * rtype => nf (fst g))
                            (flat_map type_fields (section_struct_types (snd fft)))
              else [])
           (top_fields config).

(** What the first revision's walker keeps while it looks for an option
    [k] that [section] does not have: its parameters, and [k] unused. *)
Definition V1_tracks (section k : string) (nf : StructField -> string)
    (set0 : gmap string Value) (d : Z) (w : V1.overrideWalker) : Prop :=
  V1.depth w = d /\ V1.ow_section w = section /\ V1.set w = set0
  /\ V1.ow_optionNameFunc w = nf /\ V1.is_used (V1.used w) k = false.

(** The overrides hold a key other than [k]. *)
Definition other_key (k : string) (set0 : gmap string Value) : Prop :=
  exists j v, j <> k /\ set0 !! j = Some v.

(** The options stored for a section: those of its override record,
    none when it has no record. *)
Definition stored (s : Config.Service) (section : string) : gmap string Value :=
  match Config.DAO_Get (Config.overrides s) section with
  | Some o => Config.Overrides o
  | None => ∅
  end.

(** The records of the store are kept under their own id. *)
Definition store_wf (s : Config.Service) : Prop :=
  forall id o, Config.overrides s !! id = Some o -> Config.ID o = id.

(** The top-level field that stands for [section] in the first
    revision once the first [i] fields have been visited: the last of
    them that carries the section's name. *)
Fixpoint V1_found (fields : list (StructField * rtype)) (section : string) (i : nat)
    : option (nat * StructField * rtype) :=
  match i with
  | O => None
  | S j =>
      match fields !! j with
      | Some (f, ft) =>
          if String.eqb section (fst (V1.getSectionName f))
          then Some (j, f, ft)
          else V1_found fields section j
      | None => V1_found fields section j
      end
  end.

(** The values of the fields of the struct at the root of a
    configuration object. *)
Definition root_values (config : Value) : option (list value) :=
  match kind_of (vt config), vv config with
  | KPtr, VPtr (Some (_, VStruct fs)) => Some fs
  | KPtr, _ => None
  | _, VStruct fs => Some fs
  | _, _ => None
  end.

(** The section [section] of a configuration object, for the first
    revision: its field (index, description, type) and its value. *)
Definition V1_section_field (config : Value) (section : string)
    : option (nat * StructField * rtype * value) :=
  if negb (kind_eqb (kind_of (root_type (vt config))) KStruct) then None else
  match root_values config with
  | Some fs =>
      match V1_found (top_fields config) section (length (top_fields config)) with
      | Some (j, f, ft) =>
          if Exported f
          then match fs !! j with
               | Some v => Some (j, f, ft, v)
               | None => None
               end
          else None
      | None => None
      end
  | None => None
  end.

(** What the first revision's walker keeps when there is nothing to
    override. *)
Definition V1_idle (section : string) (nf : StructField -> string) (d : Z)
    (w : V1.overrideWalker) : Prop :=
  V1.depth w = d /\ V1.ow_section w = section /\ V1.set w = ∅
  /\ V1.used w = ∅ /\ V1.ow_optionNameFunc w = nf.

(** The walker holds the section found among the first [i] fields. *)
Definition V1_holds (T0 : rtype) (section : string) (i : nat)
    (w : V1.overrideWalker) : Prop :=
  match V1_found (type_fields (root_type T0)) section i with
  | None => V1.sectionValue w = None
  | Some (j, f, ft) =>
      exists h, root_struct T0 h /\ V1.sectionValue w = Some (field_handle h j f ft)
  end.

(** The walk gets to the struct at the root. *)
Definition root_reached (T0 : rtype) (s : world) : Prop :=
  exists h', Indirect (root_handle T0) s = (s, Ok (Some h'))
             /\ kind_of (h_type h') = KStruct.

(** A value that refers to no allocation among [A]. *)
Definition clean (A : list addr) (v : value) : Prop :=
  forall a, In a (vaddrs v) -> ~ In a A.

(** Nothing of [A] has been written, and the allocator is past [A]. *)
Definition untouched (A : list addr) (s : world) : Prop :=
  (forall a, In a A -> a < next s)
  /\ (forall an, In an (writes s) -> ~ In (fst an) A).

(** While a call runs: the walked object is clean as well. *)
Definition Inv (A : list addr) (s : world) : Prop :=
  clean A (vv (tree s)) /\ untouched A s.

(** A handle whose allocation is not among [A]. *)
Definition handle_ok (A : list addr) (h : handle) : Prop :=
  match h_owner h with
  | Some (a, _) => ~ In a A
  | None => True
  end.

Definition options_clean (A : list addr) (opts : gmap string Value) : Prop :=
  forall k v, opts !! k = Some v -> clean A (vv v).

(** The hooks of the configuration's types act on their receiver only:
    what they leave in it refers to nothing it did not refer to. *)
Definition hooks_local (methods : Methods) : Prop :=
  (forall rt um text rv,
      UnmarshalText methods rt = Some um ->
      incl (vaddrs (fst (um text rv))) (vaddrs rv))
  /\ (forall t f v,
        SetDefaultsOf methods t = Some f -> incl (vaddrs (f v)) (vaddrs v)).

(** A triple for computations: from a world satisfying [P], a normal
    return satisfies [Q] and any failure leaves a world satisfying [E]. *)
Definition hoare {A : Type} (P : world -> Prop) (m : M A)
    (Q : A -> world -> Prop) (E : world -> Prop) : Prop :=
  forall s, P s ->
    match m s with
    | (s', Ok a) => Q a s'
    | (s', _) => E s'
    end.

(** A computation that keeps [Inv A], also when it fails, and whose
    result satisfies [Q]. *)
Definition keeps (A : list addr) {X : Type} (m : M X) (Q : X -> Prop) : Prop :=
  hoare (Inv A) m (fun x s => Inv A s /\ Q x) (Inv A).

(** What [Redacted] walks: the struct behind an element, its field
    values, and whether it is addressable (an element held by pointer
    is, one held by value is not). *)
Definition element_struct (x : Value) : option (rtype * list value * bool) :=
  match kind_of (vt x), vv x with
  | KPtr, VPtr (Some (_, VStruct vs)) =>
      match kind_of (root_type (vt x)) with
      | KStruct => Some (root_type (vt x), vs, true)
      | _ => None
      end
  | KStruct, VStruct vs => Some (vt x, vs, false)
  | _, _ => None
  end.

(** The entries [Redacted] computes, field after field. *)
Fixpoint redactAll (optionNameFunc : StructField -> string) (addressable : bool)
    (fvs : list ((StructField * rtype) * value)) (m : gmap string Value)
    : outcome (gmap string Value) :=
  match fvs with
  | [] => Ok m
  | ((f, ft), v) :: rest =>
      match getRedactedValue f ft v addressable (negb (Exported f)) with
      | Ok r => redactAll optionNameFunc addressable rest (<[optionNameFunc f := r]> m)
      | Err e => Err e
      | Panic p => Panic p
      end
  end.

(** Structs and arrays have the shape their type announces. *)
Fixpoint well_shaped (t : rtype) (v : value) {struct v} : bool :=
  match kind_of t with
  | KArray =>
      match v with
      | VArray es =>
          let et := match type_elem t with Some e => e | None => TIface end in
          forallb (well_shaped et) es
      | _ => false
      end
  | KStruct =>
      match v with
      | VStruct fs =>
          (fix go (l : list value) (fts : list (StructField * rtype)) : bool :=
             match l, fts with
             | x :: l', (_, ft) :: fts' => well_shaped ft x && go l' fts'
             | [], [] => true
             | _, _ => false
             end) fs (type_fields t)
      | _ => false
      end
  | _ => true
  end.

(** Modelled on the words of the claim about redaction: a value is
    structurally zero by a nil check for the reference kinds,
    element-wise for arrays, recursively for structs, and by equality
    with the zero value otherwise. *)
Fixpoint structurally_zero (t : rtype) (v : value) {struct v} : bool :=
  match kind_of t with
  | KFunc | KMap | KSlice => IsNil v
  | KArray =>
      match v with
      | VArray es =>
          let et := match type_elem t with Some e => e | None => TIface end in
          forallb (structurally_zero et) es
      | _ => false
      end
  | KStruct =>
      match v with
      | VStruct fs =>
          (fix go (l : list value) (fts : list (StructField * rtype)) : bool :=
             match l, fts with
             | x :: l', (_, ft) :: fts' => structurally_zero ft x && go l' fts'
             | _, _ => true
             end) fs (type_fields t)
      | _ => false
      end
  | _ => eq_zero v
  end.

(** Structurally zero, the unexported fields of structs apart. *)
Fixpoint exported_zero (t : rtype) (v : value) {struct v} : bool :=
  match kind_of t with
  | KFunc | KMap | KSlice => IsNil v
  | KArray =>
      match v with
      | VArray es =>
          let et := match type_elem t with Some e => e | None => TIface end in
          forallb (exported_zero et) es
      | _ => false
      end
  | KStruct =>
      match v with
      | VStruct fs =>
          (fix go (l : list value) (fts : list (StructField * rtype)) : bool :=
             match l, fts with
             | x :: l', (f, ft) :: fts' =>
                 if Exported f then exported_zero ft x && go l' fts' else go l' fts'
             | _, _ => true
             end) fs (type_fields t)
      | _ => false
      end
  | _ => eq_zero v
  end.

(** A type that holds no struct, arrays looked through. *)
Fixpoint struct_free (t : rtype) : bool :=
  match t with
  | TNamed _ u => struct_free u
  | TArray _ e => struct_free e
  | TStruct _ => false
  | TBasic k => negb (kind_eqb k KStruct)
  | _ => true
  end.

(** What [copyInto] reads of its source: the value an interface holds,
    and the elements it recurses into. *)
Definition copy_source (v : value) : value :=
  match v with VIface (Some (_, x)) => x | _ => v end.
Definition copy_elems (v : value) : list value :=
  match v with
  | VSlice (Some (_, es)) => es
  | VMap (Some (_, kvs)) => List.map snd kvs
  | _ => []
  end.

(** What the element-level walker holds is away from [A]: the option
    values of its override and the handles it has kept. *)
Definition V2_walker_ok (A : list addr) (w : V2.overrideWalker) : Prop :=
  options_clean A (V2.o_Options (V2.o w))
  /\ (forall h, V2.elementValue w = Some h -> handle_ok A h)
  /\ (forall h, V2.currentSlice w = Some h -> handle_ok A h).

(** A computation that leaves the world as it is. *)
Definition read_only {X : Type} (m : M X) : Prop := forall s, fst (m s) = s.

(** The calls of the element-level engine. *)
Inductive V2_call :=
| CallOverride (o : V2.Override)
| CallOverrideAll (os : list V2.Override).

Definition V2_run (methods : Methods) (c : V2.Overrider) (k : V2_call) (s : world) : world :=
  match k with
  | CallOverride o => fst (V2.Overrider_Override methods c o s)
  | CallOverrideAll os => fst (V2.Overrider_OverrideAll methods c os s)
  end.

Definition V2_call_clean (A : list addr) (k : V2_call) : Prop :=
  match k with
  | CallOverride o => options_clean A (V2.o_Options o)
  | CallOverrideAll os => forall o, In o os -> options_clean A (V2.o_Options o)
  end.

(** A call of the section-level engine: a section and its overrides. *)
Definition V1_run (c : V1.Overrider) (k : string * gmap string Value) (s : world) : world :=
  fst (V1.Override c (fst k) (snd k) s).

(** The world after a sequence of calls. *)
Definition run_all {K : Type} (run : K -> world -> world) (calls : list K) (s : world)
    : world :=
  fold_left (fun s k => run k s) calls s.


(** What the second revision's section reader keeps: its sections and
    its current section are declared ones. *)
Definition V2_sections_tagged (config : Value) (d : Z) (w : V2.sectionWalker) : Prop :=
  V2.sw_depth w = d
  /\ (forall name, is_Some (V2.sections w !! name) -> declares_section config name)
  /\ (V2.sw_currentSectionName w = EmptyString
      \/ declares_section config (V2.sw_currentSectionName w)).

(** A tag value written from its comma-separated parts, and the parts
    that hold no comma. *)
Fixpoint Join (parts : list string) : string :=
  match parts with
  | [] => EmptyString
  | p :: ps => match ps with
               | [] => p
               | _ :: _ => String.append p (String comma (Join ps))
               end
  end.

Fixpoint no_comma (s : string) : bool :=
  match s with
  | EmptyString => true
  | String c s' => negb (Ascii.eqb c comma) && no_comma s'
  end.

(** [ID_le a b]: the ID of [b] is not smaller than the ID of [a]. *)
Definition ID_le (a b : V2.Element) : Prop := V2.Section_Less b a = false.

(** The walker of the second revision has matched no section and used
    no option. *)
Definition V2_nothing_matched (o0 : V2.Override) (w : V2.overrideWalker) : Prop :=
  V2.depth w = 0%Z /\ V2.o w = o0 /\ V2.elementValue w = None /\ V2.used w = ∅.

(** The scalar kinds of configuration options and of decoded JSON:
    booleans, the integer and float kinds, strings; and the values that
    have such a kind. *)
Definition scalar_kind (k : Kind) : bool :=
  kind_eqb k KBool || isNumericKind k || kind_eqb k KString.

Definition has_kind (k : Kind) (v : value) : bool :=
  match v with
  | VBool _ => kind_eqb k KBool
  | VInt _ => isIntKind k || isUintKind k || kind_eqb k KUintptr
  | VFloat _ => isFloatKind k
  | VString _ => kind_eqb k KString
  | _ => false
  end.

(** The state of a service after a series of [Update] calls, whatever
    each of them returns. *)
Definition after_updates {S : Type} (Update : S -> list Value -> S * option error)
    (calls : list (list Value)) (s : S) : S :=
  fold_left (fun s newConfig => fst (Update s newConfig)) calls s.

(** What the first revision stores for the override value [x] in an
    option of type [dt]: the value [X] that [weakCopyValue] sets on
    every settable destination of that type. *)
Definition V1_stores (x : Value) (dt : rtype) (X : value) : Prop :=
  forall h, h_type h = dt -> CanSet h = true ->
            V1.weakCopyValue (ValueOf x) h = store h X.

(** The fields of a section once the overrides [set0] have been applied
    to the first [k] of them: [now_] against [before]. *)
Definition V1_applied (nf : StructField -> string) (set0 : gmap string Value)
    (ft : rtype) (before now_ : list value) (k : nat) : Prop :=
  length now_ = length before
  /\ forall i,
       match (if Nat.ltb i k then type_fields ft !! i else None) with
       | Some (g, gt) =>
           match set0 !! nf g with
           | Some x => exists X, V1_stores x gt X /\ now_ !! i = Some X
           | None => now_ !! i = before !! i
           end
       | None => now_ !! i = before !! i
       end.

(** What the first revision's walker keeps of its parameters. *)
Definition V1_base (section : string) (set0 : gmap string Value)
    (nf : StructField -> string) (w : V1.overrideWalker) : Prop :=
  V1.ow_section w = section /\ V1.set w = set0 /\ V1.ow_optionNameFunc w = nf.

(** The section behind [hsec] reads as a struct to whose first [k]
    fields the overrides have been applied. *)
Definition V1_section_now (hsec : handle) (set0 : gmap string Value)
    (nf : StructField -> string) (before : list value) (k : nat) (s : world) : Prop :=
  exists now_, read hsec s = Some (VStruct now_)
               /\ V1_applied nf set0 (h_type hsec) before now_ k.

(** While the options of the overridden section are walked. *)
Definition V1_inside (section : string) (set0 : gmap string Value)
    (nf : StructField -> string) (hsec : handle) (before : list value)
    (k : nat) (w : V1.overrideWalker) (s : world) : Prop :=
  V1.depth w = 1%Z /\ V1_base section set0 nf w /\ V1.currentSectionName w = section
  /\ V1.sectionValue w = Some hsec /\ V1_section_now hsec set0 nf before k s.

(** Before the top-level field [i], the overridden section being the
    field [j]. *)
Definition V1_top (section : string) (set0 : gmap string Value)
    (nf : StructField -> string) (hsec : handle) (before : list value)
    (j i : nat) (w : V1.overrideWalker) (s : world) : Prop :=
  V1.depth w = 0%Z /\ V1_base section set0 nf w
  /\ (i <= j -> V1_section_now hsec set0 nf before 0 s)
  /\ (j < i -> V1.sectionValue w = Some hsec
               /\ V1_section_now hsec set0 nf before
                                 (length (type_fields (h_type hsec))) s).

(** What the first revision's section reader holds before the
    top-level field [i]: a section for each of the fields before. *)
Definition V1_sections_listed (fields : list (StructField * rtype)) (d : Z) (i : nat)
    (w : V1.sectionWalker) : Prop :=
  V1.sw_depth w = d
  /\ forall i' g gT, i' < i -> fields !! i' = Some (g, gT) ->
                     is_Some (V1.sections w !! fst (V1.getSectionName g)).

(** What the section reader of the second revision holds of the element
    keys before the top-level field [i]: every entry is that of the
    last tagged field of its name. *)
Definition V2_keys_listed (fields : list (StructField * rtype)) (d : Z) (i : nat)
    (w : V2.sectionWalker) : Prop :=
  V2.sw_depth w = d
  /\ (forall name k, V2.elementKeys w !! name = Some k ->
        exists j f ft, j < i /\ fields !! j = Some (f, ft)
                       /\ V2.getSectionName f = (name, true)
                       /\ V2.getElementKey f = k)
  /\ (forall j f ft name, j < i -> fields !! j = Some (f, ft) ->
        V2.getSectionName f = (name, true) ->
        (forall j' g gT, j < j' -> j' < i -> fields !! j' = Some (g, gT) ->
                         V2.getSectionName g <> (name, true)) ->
        V2.elementKeys w !! name = Some (V2.getElementKey f)).

(** What the section reader of the second revision holds of the section
    [name], declared by the top-level field [j] as the struct [x], once
    the walk is past that field: the one element [x], without an ID;
    [inside] tells that the walk is below the field [i]. *)
Definition V2_struct_listed (name : string) (j : nat) (x : Value)
    (nf : StructField -> string) (d : Z) (inside : bool) (i : nat)
    (w : V2.sectionWalker) : Prop :=
  V2.sw_depth w = d
  /\ V2.sw_optionNameFunc w = nf
  /\ (j < i + (if inside then 1 else 0) ->
      V2.sections w !! name = Some [V2.mkElement x "" (Some nf)])
  /\ (inside = true -> j < i ->
      V2.sw_currentSectionName w = "" \/ V2.sw_currentSectionName w <> name).

(** What the override walker of the second revision holds while it
    applies a request without options to the section that the
    top-level field [j] declares: nothing but the place of the section,
    once the walk is past that field; [inside] tells that the walk is
    below the field [i]. *)
Definition V2_section_held (T0 : rtype) (o0 : V2.Override) (nf : StructField -> string)
    (j : nat) (f : StructField) (ft : rtype)
    (d : Z) (inside : bool) (i : nat) (w : V2.overrideWalker) : Prop :=
  V2.depth w = d
  /\ V2.o w = o0
  /\ V2.optionNameFunc w = nf
  /\ (j < i + (if inside then 1 else 0) ->
      exists h, root_struct T0 h /\ V2.elementValue w = Some (field_handle h j f ft))
  /\ (inside = true -> i <> j -> V2.currentSectionName w <> V2.o_Section o0).

(** [X] is what [copyInto] of the second revision makes of the override
    value [x] for a destination of type [dt], whatever the destination
    holds. *)
Definition V2_coerces (methods : Methods) (x : Value) (dt : rtype) (X : value) : Prop :=
  forall dv w, V2.copyInto methods (vv x) (vt x) dt dv w = (w, Ok (X, None)).

(** An override value and an option that are both scalars: booleans,
    numbers and strings of the predeclared types, without methods. *)
Definition V2_scalar_option (methods : Methods) (x : Value) (dt : rtype) : Prop :=
  exists sk dk,
    vt x = TBasic sk /\ dt = TBasic dk
    /\ scalar_kind sk = true /\ has_kind sk (vv x) = true /\ scalar_kind dk = true
    /\ UnmarshalText methods (TBasic dk) = None
    /\ implementsStringer methods (TBasic sk) = false.

(** The fields of a section once the options [set0] have been applied
    to the first [k] of them, in the second revision. *)
Definition V2_applied (methods : Methods) (nf : StructField -> string)
    (set0 : gmap string Value) (ft : rtype) (before now_ : list value) (k : nat) : Prop :=
  length now_ = length before
  /\ forall i,
       match (if Nat.ltb i k then type_fields ft !! i else None) with
       | Some (g, gT) =>
           match set0 !! nf g with
           | Some x => exists X, V2_coerces methods x gT X /\ now_ !! i = Some X
           | None => now_ !! i = before !! i
           end
       | None => now_ !! i = before !! i
       end.

Definition V2_section_now (methods : Methods) (hsec : handle) (set0 : gmap string Value)
    (nf : StructField -> string) (before : list value) (k : nat) (s : world) : Prop :=
  exists now_, read hsec s = Some (VStruct now_)
               /\ V2_applied methods nf set0 (h_type hsec) before now_ k.

(** What the override walker of the second revision keeps while it
    walks: the request, the option names, and no element entered. *)
Definition V2_base (o0 : V2.Override) (nf : StructField -> string)
    (w : V2.overrideWalker) : Prop :=
  V2.o w = o0 /\ V2.optionNameFunc w = nf
  /\ V2.currentElementName w = V2.o_Element o0.

(** While the options of the overridden section are walked. *)
Definition V2_inside (methods : Methods) (o0 : V2.Override) (nf : StructField -> string)
    (hsec : handle) (before : list value) (k : nat)
    (w : V2.overrideWalker) (s : world) : Prop :=
  V2.depth w = 1%Z /\ V2_base o0 nf w
  /\ V2.currentSectionName w = V2.o_Section o0
  /\ V2.elementValue w = Some hsec
  /\ V2_section_now methods hsec (V2.o_Options o0) nf before k s.

(** Before the top-level field [i], the overridden section being the
    field [j]. *)
Definition V2_top (methods : Methods) (o0 : V2.Override) (nf : StructField -> string)
    (hsec : handle) (before : list value) (j i : nat)
    (w : V2.overrideWalker) (s : world) : Prop :=
  V2.depth w = 0%Z /\ V2_base o0 nf w
  /\ (i <= j -> V2_section_now methods hsec (V2.o_Options o0) nf before 0 s)
  /\ (j < i -> V2.elementValue w = Some hsec
               /\ V2_section_now methods hsec (V2.o_Options o0) nf before
                                 (length (type_fields (h_type hsec))) s).

(* ===================================================================== *)
(** * Part III.  Properties                                              *)
(* ===================================================================== *)

(** ** Induction over types and values *)

Section rtype_induction.
Variable P : rtype -> Prop.
Hypothesis HBasic : forall k, P (TBasic k).
Hypothesis HNamed : forall n u, P u -> P (TNamed n u).
Hypothesis HPtr : forall e, P e -> P (TPtr e).
Hypothesis HSlice : forall e, P e -> P (TSlice e).
Hypothesis HArray : forall n e, P e -> P (TArray n e).
Hypothesis HMap : forall k e, P k -> P e -> P (TMap k e).
Hypothesis HStruct : forall fs, Forall (fun ft => P (snd ft)) fs -> P (TStruct fs).
Hypothesis HIface : P TIface.
Hypothesis HFunc : P TFunc.

Fixpoint rtype_rect' (t : rtype) : P t :=
  match t with
  | TBasic k => HBasic k
  | TNamed n u => HNamed n u (rtype_rect' u)
  | TPtr e => HPtr e (rtype_rect' e)
  | TSlice e => HSlice e (rtype_rect' e)
  | TArray n e => HArray n e (rtype_rect' e)
  | TMap k e => HMap k e (rtype_rect' k) (rtype_rect' e)
  | TStruct fs =>
      HStruct fs
        ((fix go (l : list (StructField * rtype)) : Forall (fun ft => P (snd ft)) l :=
            match l with
            | [] => List.Forall_nil _
            | ft :: l' => List.Forall_cons _ ft l' (rtype_rect' (snd ft)) (go l')
            end) fs)
  | TIface => HIface
  | TFunc => HFunc
  end.
End rtype_induction.

Section value_induction.
Variable P : value -> Prop.
Hypothesis HBool : forall b, P (VBool b).
Hypothesis HInt : forall n, P (VInt n).
Hypothesis HFloat : forall f, P (VFloat f).
Hypothesis HString : forall s, P (VString s).
Hypothesis HStruct : forall fs, Forall P fs -> P (VStruct fs).
Hypothesis HArray : forall es, Forall P es -> P (VArray es).
Hypothesis HSliceNil : P (VSlice None).
Hypothesis HSlice : forall a es, Forall P es -> P (VSlice (Some (a, es))).
Hypothesis HMapNil : P (VMap None).
Hypothesis HMap : forall a kvs,
    Forall (fun kv => P (fst kv) /\ P (snd kv)) kvs -> P (VMap (Some (a, kvs))).
Hypothesis HPtrNil : P (VPtr None).
Hypothesis HPtr : forall a x, P x -> P (VPtr (Some (a, x))).
Hypothesis HIfaceNil : P (VIface None).
Hypothesis HIface : forall t x, P x -> P (VIface (Some (t, x))).
Hypothesis HFunc : forall r, P (VFunc r).

Fixpoint value_rect' (v : value) : P v :=
  let all :=
    fix go (l : list value) : Forall P l :=
      match l with
      | [] => List.Forall_nil _
      | x :: l' => List.Forall_cons _ x l' (value_rect' x) (go l')
      end in
  match v with
  | VBool b => HBool b
  | VInt n => HInt n
  | VFloat f => HFloat f
  | VString s => HString s
  | VStruct fs => HStruct fs (all fs)
  | VArray es => HArray es (all es)
  | VSlice None => HSliceNil
  | VSlice (Some (a, es)) => HSlice a es (all es)
  | VMap None => HMapNil
  | VMap (Some (a, kvs)) =>
      HMap a kvs
        ((fix go (l : list (value * value))
            : Forall (fun kv => P (fst kv) /\ P (snd kv)) l :=
            match l with
            | [] => List.Forall_nil _
            | kv :: l' =>
                List.Forall_cons _ kv l' (conj (value_rect' (fst kv)) (value_rect' (snd kv)))
                            (go l')
            end) kvs)
  | VPtr None => HPtrNil
  | VPtr (Some (a, x)) => HPtr a x (value_rect' x)
  | VIface None => HIfaceNil
  | VIface (Some (t, x)) => HIface t x (value_rect' x)
  | VFunc r => HFunc r
  end.
End value_induction.

(** ** Type identity is sound *)

Lemma kind_eqb_eq (a b : Kind) : kind_eqb a b = true -> a = b.
Proof. destruct a, b; simpl; intros E; try reflexivity; discriminate E. Qed.

Lemma kind_eqb_refl (a : Kind) : kind_eqb a a = true.
Proof. destruct a; reflexivity. Qed.

Lemma tag_eqb_eq (a b : StructTag) : tag_eqb a b = true -> a = b.
Proof.
  revert b. induction a as [|[k1 v1] a IH]; intros [|[k2 v2] b]; simpl; try easy.
  intros E. apply andb_prop in E as [E E3]. apply andb_prop in E as [E1 E2].
  apply String.eqb_eq in E1, E2. subst. f_equal. now apply IH.
Qed.

Lemma field_eqb_eq (f g : StructField) : field_eqb f g = true -> f = g.
Proof.
  destruct f as [n1 t1 e1], g as [n2 t2 e2]. unfold field_eqb. simpl.
  intros E. apply andb_prop in E as [E E3]. apply andb_prop in E as [E1 E2].
  apply String.eqb_eq in E1. apply tag_eqb_eq in E2.
  apply Bool.eqb_prop in E3. now subst.
Qed.

Lemma rtype_eqb_eq (a b : rtype) : rtype_eqb a b = true -> a = b.
Proof.
  revert b. induction a using rtype_rect'; intros b E; destruct b; simpl in E;
    try discriminate E.
  - f_equal. now apply kind_eqb_eq.
  - apply andb_prop in E as [E1 E2]. apply String.eqb_eq in E1. subst.
    f_equal. now apply IHa.
  - f_equal. now apply IHa.
  - f_equal. now apply IHa.
  - apply andb_prop in E as [E1 E2]. apply Nat.eqb_eq in E1. subst.
    f_equal. now apply IHa.
  - apply andb_prop in E as [E1 E2]. f_equal; [now apply IHa1 | now apply IHa2].
  - f_equal. revert fields E.
    induction H as [|[f1 t1] l1 Hh Ht IHl]; intros [|[f2 t2] l2] E; try easy.
    apply andb_prop in E as [E E3]. apply andb_prop in E as [E1 E2].
    apply field_eqb_eq in E1. apply Hh in E2. simpl in E2. subst.
    f_equal. now apply IHl.
  - reflexivity.
  - reflexivity.
Qed.

Lemma rtype_eqb_neq (a b : rtype) : a <> b -> rtype_eqb a b = false.
Proof.
  intros N. destruct (rtype_eqb a b) eqn:E; [|reflexivity].
  exfalso. apply N. now apply rtype_eqb_eq.
Qed.

(** ** The adapters reject what is not exactly one [Config] *)

Lemma Telegram_asConfig_other (x : Value) :
  vt x <> Telegram.ConfigType -> Telegram.asConfig x = None.
Proof. intros N. unfold Telegram.asConfig. now rewrite rtype_eqb_neq. Qed.

Lemma Slack_asConfig_other (x : Value) :
  vt x <> Slack.ConfigType -> Slack.asConfig x = None.
Proof. intros N. unfold Slack.asConfig. now rewrite rtype_eqb_neq. Qed.

(** C9.  An [Update] call of an adapter (telegram, slack) whose argument
    list does not hold exactly one element, or whose single element is
    not of the adapter's own [Config] type, returns an error and leaves
    every stored configuration field of the service as it was. *)
Theorem Update_rejects_malformed_argument (newConfig : list Value) :
  (forall s : Telegram.Service,
      length newConfig <> 1
      \/ (exists x, newConfig = [x] /\ vt x <> Telegram.ConfigType) ->
      exists e, Telegram.Update s newConfig = (s, Some e))
  /\ (forall s : Slack.Service,
      length newConfig <> 1
      \/ (exists x, newConfig = [x] /\ vt x <> Slack.ConfigType) ->
      exists e, Slack.Update s newConfig = (s, Some e)).
Proof.
  split; intros s [Hlen | [x [-> Hx]]].
  - unfold Telegram.Update.
    destruct (Nat.eqb (length newConfig) 1) eqn:E.
    + apply Nat.eqb_eq in E. contradiction.
    + simpl. eauto.
  - unfold Telegram.Update. simpl. rewrite (Telegram_asConfig_other x Hx). eauto.
  - unfold Slack.Update.
    destruct (Nat.eqb (length newConfig) 1) eqn:E.
    + apply Nat.eqb_eq in E. contradiction.
    + simpl. eauto.
  - unfold Slack.Update. simpl. rewrite (Slack_asConfig_other x Hx). eauto.
Qed.

Lemma Update_rejects_malformed_argument_witness :
  (exists e, Telegram.Update (Telegram.mkService "c" "p" false false "u" false false)
                             [Examples.str "x"]
             = (Telegram.mkService "c" "p" false false "u" false false, Some e))
  /\ (exists e, Slack.Update (Slack.mkService "c" "u" false false) []
                = (Slack.mkService "c" "u" false false, Some e)).
Proof.
  split.
  - apply (proj1 (Update_rejects_malformed_argument [Examples.str "x"])).
    right. exists (Examples.str "x"). split; [reflexivity | discriminate].
  - apply (proj2 (Update_rejects_malformed_argument [])).
    left. simpl. lia.
Defined.

(** ** Requests that are not self-consistent *)

Lemma size_nonempty (m : gmap string Value) : m <> ∅ -> Nat.ltb 0 (size m) = true.
Proof.
  intros N. apply Nat.ltb_lt. destruct (size m) eqn:E; [|lia].
  apply map_size_empty_iff in E. contradiction.
Qed.

Lemma Validate_inconsistent (o : V2.Override) :
  inconsistent o -> exists e, V2.Override_Validate o = Some e.
Proof.
  unfold inconsistent, V2.Override_Validate.
  intros H.
  destruct (String.eqb (V2.o_Section o) "") eqn:ES; [eauto|].
  destruct (V2.o_Delete o) eqn:ED; simpl.
  - destruct (String.eqb (V2.o_Element o) "") eqn:EE; [eauto|].
    destruct (V2.o_Create o) eqn:EC; simpl; [eauto|].
    destruct (Nat.ltb 0 (size (V2.o_Options o))) eqn:EO; [eauto|].
    exfalso. apply String.eqb_neq in ES, EE.
    destruct H as [H | [[_ H] | [[_ H] | [[_ H] | [H _]]]]]; try congruence.
    apply size_nonempty in H. congruence.
  - destruct (V2.o_Create o) eqn:EC; simpl.
    + destruct (String.eqb (V2.o_Element o) "") eqn:EE; simpl; [|eauto].
      exfalso. apply String.eqb_neq in ES. apply String.eqb_eq in EE.
      destruct H as [H | [[H _] | [[H _] | [[H _] | [_ H]]]]]; congruence.
    + exfalso. apply String.eqb_neq in ES.
      destruct H as [H | [[H _] | [[H _] | [[H _] | [H _]]]]]; congruence.
Qed.

(** C6.  [Override(o)] rejects every request that violates the
    self-consistency rules before any mutation: an empty section; delete
    with an empty element; delete with options; delete together with
    create; create with a non-empty element.  [applyOverride] fails on
    validation with the walked object, the allocator and the write log
    untouched; [Override] has then only made its copy, which still reads
    like the original. *)
Theorem Override_rejects_inconsistent_requests
    (methods : Methods) (c : V2.Overrider) (o : V2.Override) (w : world) :
  inconsistent o ->
  exists e,
    V2.applyOverride methods c o w = (w, Err (Wrap e "invalid override" []))
    /\ exists w',
        V2.Overrider_Override methods c o w = (w', Err (Wrap e "invalid override" []))
        /\ writes w' = writes w
        /\ tree w' = mkValue (vt (V2.original c)) (fst (Copy (vv (V2.original c)) (next w))).
Proof.
  intros H. destruct (Validate_inconsistent o H) as [e He].
  exists e. split.
  - unfold V2.applyOverride. rewrite He. reflexivity.
  - unfold V2.Overrider_Override, V2.applyOverride, bind, CopyM, set_tree, fail.
    rewrite He. destruct (Copy (vv (V2.original c)) (next w)) as [v' n'] eqn:EC.
    simpl. eexists. split; [reflexivity|]. simpl. split; reflexivity.
Qed.

Lemma Override_rejects_inconsistent_requests_witness :
  exists e w',
    V2.Overrider_Override Examples.noMethods
      (V2.mkOverrider Examples.docConfig TomlFieldName)
      (V2.mkOverride "section-b" "" ∅ true false) Examples.w0
    = (w', Err (Wrap e "invalid override" []))
    /\ writes w' = [].
Proof.
  destruct (Override_rejects_inconsistent_requests Examples.noMethods
              (V2.mkOverrider Examples.docConfig TomlFieldName)
              (V2.mkOverride "section-b" "" ∅ true false) Examples.w0)
    as [e [_ [w' [H1 [H2 _]]]]].
  - right. left. split; reflexivity.
  - exists e, w'. split; [exact H1 | exact H2].
Defined.

(** ** Textual unmarshaling *)

(** Whatever [UnmarshalText] answers, the text-unmarshal branch of
    [weakCopyValue] reports success: for a string source and a
    destination of a non-string, non-pointer kind whose pointer is a
    text unmarshaler, the hook is run on the text and its receiver is
    stored, and the error it returns is lost. *)
Lemma copyInto_unmarshal_never_fails
    (methods : Methods) (s : string) (dt : rtype) (dv : value)
    (um : string -> value -> value * option error) (w : world) :
  UnmarshalText methods dt = Some um ->
  kind_eqb KString (kind_of dt) = false ->
  kind_eqb (kind_of dt) KPtr = false ->
  V2.copyInto methods (VString s) tString dt dv w = (w, Ok (fst (um s dv), None)).
Proof.
  intros Hum Hk Hp. simpl. unfold tString at 1. simpl.
  change (kind_of (TBasic KString)) with KString. rewrite Hk.
  destruct (kind_of dt) eqn:EK; try discriminate Hp;
    rewrite Hum; rewrite orb_true_r;
    change (String_of tString (VString s)) with s;
    destruct (um s dv) as [rv' err]; reflexivity.
Qed.

(** C3 (the code at the failing input).  [Timeout] is a [toml.Duration],
    whose pointer implements [encoding.TextUnmarshaler]; the text "soon"
    is not a duration and [UnmarshalText] returns an error; yet
    [Override] succeeds and hands back the section with the old
    timeout. *)
Theorem Override_drops_unmarshal_error :
  (exists e, Examples.Duration_UnmarshalText "soon" (VInt 30) = (VInt 30, Some e))
  /\ exists w' x,
      V2.Overrider_Override Examples.durationMethods
        (V2.mkOverrider Examples.timedConfig TomlFieldName)
        (V2.mkOverride "timed" "" {[ "timeout" := Examples.str "soon" ]} false false)
        Examples.w0
      = (w', Ok (V2.mkElement (mkValue Examples.TimedSection x) "" (Some TomlFieldName)))
      /\ strip x = VStruct [VInt 30; VPtr (Some (0, VInt 5))].
Proof.
  split.
  - eexists. reflexivity.
  - eexists. eexists. split; [vm_compute; reflexivity | reflexivity].
Qed.

(** ** Untagged top-level fields, first revision *)

(** C4 (the code at the failing input).  In the first revision
    [getSectionName] answers [("", true)] for a field without an
    [override] tag, against its own comment; [Sections] of the
    documentation's configuration then lists the untagged [IgnoredField]
    as a section named by the empty string. *)
Theorem V1_Sections_lists_untagged_field :
  V1.getSectionName (exported "IgnoredField" []) = ("", true)
  /\ exists w' m,
      V1.Sections (V1.New Examples.docConfig) Examples.w0 = (w', Ok m)
      /\ V1.section <$> (m !! "") = Some (Examples.str "this value is ignored").
Proof.
  split; [reflexivity|].
  eexists. eexists. split; [vm_compute; reflexivity | reflexivity].
Qed.

(** ** Reading and writing through handles *)

Lemma vget_app (p q : list step) (t : value) :
  vget (p ++ q) t = match vget p t with Some x => vget q x | None => None end.
Proof.
  revert t. induction p as [|s p IH]; intros t; simpl; [reflexivity|].
  destruct s as [i|i|].
  - destruct t; try reflexivity. destruct (fs !! i); [apply IH | reflexivity].
  - destruct t as [| | | | | |[[a es]|]| | | |]; try reflexivity.
    destruct (es !! i); [apply IH | reflexivity].
  - destruct t as [| | | | | | | |[[a x]|]| |]; try reflexivity. apply IH.
Qed.

Lemma vset_vget (p : list step) (t x new : value) :
  vget p t = Some x ->
  exists t', vset p new t = Some t' /\ vget p t' = Some new.
Proof.
  revert t. induction p as [|s p IH]; intros t H; simpl in *.
  - eauto.
  - destruct s as [i|i|].
    + destruct t; try discriminate H.
      destruct (fs !! i) as [y|] eqn:E; [|discriminate H].
      destruct (IH y H) as [y' [H1 H2]]. rewrite H1. eexists. split; [reflexivity|].
      simpl. rewrite list_lookup_insert_eq by (eapply lookup_lt_Some; eauto). exact H2.
    + destruct t as [| | | | | |[[a es]|]| | | |]; try discriminate H.
      destruct (es !! i) as [y|] eqn:E; [|discriminate H].
      destruct (IH y H) as [y' [H1 H2]]. rewrite H1. eexists. split; [reflexivity|].
      simpl. rewrite list_lookup_insert_eq by (eapply lookup_lt_Some; eauto). exact H2.
    + destruct t as [| | | | | | | |[[a y]|]| |]; try discriminate H.
      destruct (IH y H) as [y' [H1 H2]]. rewrite H1. eexists. split; [reflexivity|].
      simpl. exact H2.
Qed.

Lemma store_ok (h : handle) (new : value) (w : world) :
  CanSet h = true -> wf_handle h -> is_Some (read h w) ->
  exists w', store h new w = (w', Ok tt)
             /\ read h w' = Some new /\ next w' = next w.
Proof.
  unfold CanSet, CanAddr, wf_handle, read, store.
  intros HS Hwf [x Hx].
  destruct (h_owner h) as [[a op]|]; [|discriminate HS].
  destruct (h_ro h); [discriminate HS|].
  destruct Hwf as [q Hq].
  destruct (vset_vget _ _ _ new Hx) as [t' [H1 H2]]. rewrite H1.
  assert (Hop : exists node, vget op t' = Some node).
  { rewrite Hq, vget_app in H2. destruct (vget op t'); [eauto | discriminate H2]. }
  destruct Hop as [node Hnode]. rewrite Hnode.
  eexists. split; [reflexivity|]. simpl. split; [exact H2 | reflexivity].
Qed.

(** ** Numeric coercion of 42 *)

Lemma V1_weakCopyValue_42 (src : Value) (dk : Kind) (h : handle) :
  In src Examples.sources42 -> In dk Examples.numericKinds ->
  h_type h = TBasic dk -> CanSet h = true ->
  V1.weakCopyValue (Some src) h = store h (Examples.num42 dk).
Proof.
  intros Hs Hd Ht HS. unfold V1.weakCopyValue. rewrite HS, Ht.
  simpl in Hs, Hd.
  repeat (destruct Hd as [<- | Hd]; [|]); try contradiction;
    repeat (destruct Hs as [<- | Hs]; [|]); try contradiction;
    vm_compute; reflexivity.
Qed.

Lemma V2_copyInto_42 (methods : Methods) (src : Value) (dk : Kind) (dv : value) (w : world) :
  In src Examples.sources42 -> In dk Examples.numericKinds ->
  UnmarshalText methods (TBasic dk) = None ->
  V2.copyInto methods (vv src) (vt src) (TBasic dk) dv w
  = (w, Ok (Examples.num42 dk, None)).
Proof.
  intros Hs Hd Hum. destruct methods as [um st va sd]. simpl in Hs, Hd, Hum.
  repeat (destruct Hd as [<- | Hd]; [|]); try contradiction;
    repeat (destruct Hs as [<- | Hs]; [|]); try contradiction;
    cbn; try rewrite Hum; cbn;
    try destruct (st _);
    try reflexivity;
    unfold ret; do 3 f_equal; vm_compute; reflexivity.
Qed.

Lemma sources42_not_nil (src : Value) :
  In src Examples.sources42 -> ValueOf src = Some src.
Proof.
  intros Hs. simpl in Hs.
  repeat (destruct Hs as [<- | Hs]; [reflexivity|]). contradiction.
Qed.

(** C5.  For every source among the signed integer widths, the unsigned
    integer widths, the float widths (each holding 42) and the string
    "42", and every destination field of a numeric kind (of the
    predeclared type of that kind, settable), [weakCopyValue] succeeds
    and leaves the destination holding 42 as a value of the
    destination's kind, in both revisions of the engine. *)
Theorem numeric_coercion_of_42
    (methods : Methods) (src : Value) (dk : Kind) (h : handle) (w : world) :
  In src Examples.sources42 -> In dk Examples.numericKinds ->
  UnmarshalText methods (TBasic dk) = None ->
  h_type h = TBasic dk -> CanSet h = true -> wf_handle h -> is_Some (read h w) ->
  (exists w', V1.weakCopyValue (ValueOf src) h w = (w', Ok tt)
              /\ read h w' = Some (Examples.num42 dk))
  /\ (exists w', V2.weakCopyValue methods (ValueOf src) h w = (w', Ok tt)
                 /\ read h w' = Some (Examples.num42 dk)).
Proof.
  intros Hs Hd Hum Ht HS Hwf Hr. rewrite (sources42_not_nil src Hs). split.
  - rewrite (V1_weakCopyValue_42 src dk h Hs Hd Ht HS).
    destruct (store_ok h (Examples.num42 dk) w HS Hwf Hr) as [w' [H1 [H2 _]]].
    exists w'. split; assumption.
  - unfold V2.weakCopyValue. rewrite HS. simpl.
    unfold bind at 1. unfold load.
    destruct Hr as [dv Hdv]. rewrite Hdv.
    unfold bind at 1. rewrite Ht.
    rewrite (V2_copyInto_42 methods src dk dv w Hs Hd Hum). simpl.
    destruct (store_ok h (Examples.num42 dk) w HS Hwf (ex_intro _ dv Hdv))
      as [w' [H1 [H2 _]]].
    unfold bind. rewrite H1. exists w'. split; [reflexivity | exact H2].
Qed.

(** [uint8(42)] into the [Float32] field of the numeric section of the
    test suite, reached through the pointer to the configuration. *)
Lemma numeric_coercion_of_42_witness :
  let h := mkHandle [SDeref; SField 10] (TBasic KFloat32) (Some (0, [])) false in
  let w := mkWorld (mkValue (TPtr Examples.SectionNums)
                      (VPtr (Some (0, zero Examples.SectionNums)))) 1 [] in
  (exists w', V1.weakCopyValue (ValueOf (mkValue (TBasic KUint8) (VInt 42))) h w = (w', Ok tt)
              /\ read h w' = Some (Examples.num42 KFloat32))
  /\ (exists w', V2.weakCopyValue Examples.noMethods
                   (ValueOf (mkValue (TBasic KUint8) (VInt 42))) h w = (w', Ok tt)
                 /\ read h w' = Some (Examples.num42 KFloat32)).
Proof.
  intros h w.
  apply (numeric_coercion_of_42 Examples.noMethods (mkValue (TBasic KUint8) (VInt 42))
           KFloat32 h w).
  - simpl. tauto.
  - simpl. tauto.
  - reflexivity.
  - reflexivity.
  - reflexivity.
  - exists [SDeref; SField 10]. reflexivity.
  - eexists. vm_compute. reflexivity.
Defined.

(** ** Loops and walks that leave the world alone *)

Lemma for_each_stable {W : Type} (P : W -> Prop) (s : world)
    (body : nat -> W -> M W) (n i : nat) (w : W) :
  P w ->
  (forall j w, P w -> exists w', body j w s = (s, Ok w') /\ P w') ->
  exists w', for_each n i body w s = (s, Ok w') /\ P w'.
Proof.
  intros Hw Hbody. revert i w Hw.
  induction n as [|n IH]; intros i w Hw; simpl.
  - exists w. split; [reflexivity | exact Hw].
  - unfold bind. destruct (Hbody i w Hw) as [w1 [E1 P1]]. rewrite E1.
    apply IH. exact P1.
Qed.

Lemma for_each_id {W : Type} (P : W -> Prop) (s : world)
    (body : nat -> W -> M W) (n i : nat) (w : W) :
  P w ->
  (forall j w, P w -> body j w s = (s, Ok w)) ->
  for_each n i body w s = (s, Ok w).
Proof.
  intros Hw Hbody.
  destruct (for_each_stable (fun w' => w' = w /\ P w') s body n i w) as [w' [E [-> _]]].
  - split; [reflexivity | exact Hw].
  - intros j w1 [-> Hp]. exists w. split; [apply Hbody; exact Hp | split; [reflexivity | exact Hp]].
  - exact E.
Qed.

Lemma Indirect_pure (h : handle) (s : world) :
  exists t, Indirect h s = (s, Ok t).
Proof.
  unfold Indirect. destruct (kind_of (h_type h)); eauto.
  destruct (read h s) as [[| | | | | | | |[[a x]|]| |]|]; eauto.
Qed.

(** A walker in a state [Q] in which it ignores structs, fields, slices
    and elements (and comes back to [Q] after entering and leaving a
    field) walks a section without any effect. *)
Section idle_walk.
Context {W : Type} `{Walker W}.
Variable Q : W -> Prop.
Hypothesis enter_other : forall l w s, l <> LStructField -> wEnter l w s = (s, Ok w).
Hypothesis exit_other : forall l w s, l <> LStructField -> wExit l w s = (s, Ok w).
Hypothesis struct_idle : forall h w s, wStruct h w s = (s, Ok w).
Hypothesis field_idle : forall f h w s, Q w -> wStructField f h w s = (s, Ok w).
Hypothesis slice_idle : forall h w s, Q w -> wSlice h w s = (s, Ok w).
Hypothesis elem_idle : forall i h w s, Q w -> wSliceElem i h w s = (s, Ok w).
Hypothesis enter_exit :
  forall w s, Q w ->
    exists w1, wEnter LStructField w s = (s, Ok w1)
               /\ wExit LStructField w1 s = (s, Ok w).

Lemma walkStructField_idle (h : handle) (i : nat) (w : W) (s : world) :
  Q w -> walkStructField walkOption h i w s = (s, Ok w).
Proof.
  intros Hq. unfold walkStructField.
  destruct (type_fields (h_type h) !! i) as [[f ft]|]; [|reflexivity].
  unfold bind. rewrite field_idle by exact Hq.
  destruct (enter_exit w s Hq) as [w1 [E1 E2]]. rewrite E1. simpl. exact E2.
Qed.

Lemma walkStruct_idle (h : handle) (w : W) (s : world) :
  Q w -> walkStruct walkOption h w s = (s, Ok w).
Proof.
  intros Hq. unfold walkStruct, bind.
  rewrite enter_other by discriminate. rewrite struct_idle.
  rewrite (for_each_id Q) by (auto using walkStructField_idle).
  apply exit_other. discriminate.
Qed.

Lemma walk_idle (structs slices : handle -> W -> M W) (h : handle) (w : W) (s : world) :
  (forall h, structs h w s = (s, Ok w)) ->
  (forall h, slices h w s = (s, Ok w)) ->
  walk structs slices h w s = (s, Ok w).
Proof.
  intros Hst Hsl. unfold walk, bind.
  destruct (Indirect_pure h s) as [t ->].
  destruct t as [h'|]; [|reflexivity].
  destruct (kind_of (h_type h')); try reflexivity; [apply Hsl | apply Hst].
Qed.

Lemma walkElement_idle (h : handle) (w : W) (s : world) :
  Q w -> walkElement h w s = (s, Ok w).
Proof.
  intros Hq. unfold walkElement. apply walk_idle.
  - intros h'. now apply walkStruct_idle.
  - reflexivity.
Qed.

Lemma walkSliceElem_idle (h : handle) (i : nat) (w : W) (s : world) :
  Q w -> walkSliceElem walkElement h i w s = (s, Ok w).
Proof.
  intros Hq. unfold walkSliceElem, bind, load.
  destruct (read h s) as [[| | | | | |[[a es]|]| | | |]|]; try reflexivity.
  destruct (Nat.ltb i (length es)); [|reflexivity].
  rewrite elem_idle by exact Hq.
  rewrite enter_other by discriminate.
  rewrite walkElement_idle by exact Hq.
  apply exit_other. discriminate.
Qed.

Lemma walkSlice_idle (h : handle) (w : W) (s : world) :
  Q w -> walkSlice walkElement h w s = (s, Ok w).
Proof.
  intros Hq. unfold walkSlice, bind.
  rewrite enter_other by discriminate. rewrite slice_idle by exact Hq.
  unfold load.
  rewrite (for_each_id Q) by (auto using walkSliceElem_idle).
  apply exit_other. discriminate.
Qed.

Lemma walkSection_idle (h : handle) (w : W) (s : world) :
  Q w -> walkSection h w s = (s, Ok w).
Proof.
  intros Hq. unfold walkSection. apply walk_idle.
  - intros h'. now apply walkStruct_idle.
  - intros h'. now apply walkSlice_idle.
Qed.
End idle_walk.

(** ** Deleting from a section that does not exist *)

Section V2_unmatched.
Variable methods : Methods.
Variable o0 : V2.Override.

Let Q (w : V2.overrideWalker) : Prop :=
  V2.depth w = 1%Z /\ V2.currentSectionName w <> V2.o_Section (V2.o w).

Local Instance V2_walker : Walker V2.overrideWalker := V2.overrideWalker_Walker methods.

Lemma V2_enter_other (l : Location) (w : V2.overrideWalker) (s : world) :
  l <> LStructField -> wEnter l w s = (s, Ok w).
Proof. intros N. destruct w, l; try reflexivity. contradiction. Qed.

Lemma V2_exit_other (l : Location) (w : V2.overrideWalker) (s : world) :
  l <> LStructField -> wExit l w s = (s, Ok w).
Proof. intros N. destruct w, l; try reflexivity. contradiction. Qed.

Lemma V2_field_unmatched f h (w : V2.overrideWalker) (s : world) :
  Q w -> wStructField f h w s = (s, Ok w).
Proof.
  intros [Hd Hn]. simpl. unfold V2.overrideWalker_StructField. rewrite Hd. simpl.
  apply String.eqb_neq in Hn. rewrite Hn. reflexivity.
Qed.

Lemma V2_slice_unmatched h (w : V2.overrideWalker) (s : world) :
  Q w -> wSlice h w s = (s, Ok w).
Proof.
  intros [Hd Hn]. simpl. unfold V2.overrideWalker_Slice.
  assert (E : String.eqb (V2.o_Section (V2.o w)) (V2.currentSectionName w) = false).
  { apply String.eqb_neq. congruence. }
  rewrite E. reflexivity.
Qed.

Lemma V2_elem_unmatched i h (w : V2.overrideWalker) (s : world) :
  Q w -> wSliceElem i h w s = (s, Ok w).
Proof.
  intros [Hd Hn]. simpl. unfold V2.overrideWalker_SliceElem. rewrite Hd.
  apply String.eqb_neq in Hn. rewrite Hn. reflexivity.
Qed.

Lemma V2_enter_exit (w : V2.overrideWalker) (s : world) :
  Q w ->
  exists w1, wEnter LStructField w s = (s, Ok w1)
             /\ wExit LStructField w1 s = (s, Ok w).
Proof.
  intros [Hd Hn]. eexists. split; [reflexivity|].
  destruct w. simpl in *. subst. reflexivity.
Qed.

Lemma V2_walkSection_unmatched (h : handle) (w : V2.overrideWalker) (s : world) :
  Q w -> walkSection h w s = (s, Ok w).
Proof.
  apply (walkSection_idle Q); auto using V2_enter_other, V2_exit_other,
    V2_field_unmatched, V2_slice_unmatched, V2_elem_unmatched, V2_enter_exit.
Qed.

(** At the top level: no field declares the section asked for. *)
Let J (w : V2.overrideWalker) : Prop :=
  V2.depth w = 0%Z /\ V2.o w = o0 /\ V2.elementValue w = None.

Lemma V2_top_field_unmatched (h : handle) (i : nat) (w : V2.overrideWalker) (s : world) :
  V2.o_Section o0 <> "" ->
  (forall f ft, type_fields (h_type h) !! i = Some (f, ft) ->
                V2.getSectionName f <> (V2.o_Section o0, true)) ->
  J w ->
  exists w', walkStructField walkSection h i w s = (s, Ok w') /\ J w'.
Proof.
  intros Hne Hdecl (Hd & Ho & He). unfold walkStructField.
  destruct (type_fields (h_type h) !! i) as [[f ft]|] eqn:E.
  2:{ exists w. repeat split; assumption. }
  specialize (Hdecl f ft eq_refl).
  unfold bind. simpl wStructField. unfold V2.overrideWalker_StructField.
  rewrite Hd. simpl.
  destruct (V2.getSectionName f) as [name ok] eqn:EN.
  assert (Hstable : forall n, n <> V2.o_Section o0 ->
    exists w',
      (let (w'1, o1) :=
         walkSection (field_handle h i f ft)
           (V2.with_depth (V2.depth (V2.with_currentSectionName n w) + 1)
              (V2.with_currentSectionName n w)) s in
       match o1 with
       | Ok a0 => ret (V2.with_depth (V2.depth a0 - 1) a0) w'1
       | Err e => (w'1, Err e)
       | Panic p => (w'1, Panic p)
       end) = (s, Ok w') /\ J w').
  { intros n Hn.
    rewrite (V2_walkSection_unmatched _ _ s).
    - eexists. split; [reflexivity|]. simpl. rewrite Hd. repeat split; assumption.
    - split; [simpl; rewrite Hd; reflexivity | simpl; rewrite Ho; exact Hn]. }
  destruct ok.
  - assert (En : String.eqb (V2.o_Section (V2.o w)) name = false).
    { rewrite Ho. apply String.eqb_neq. intros <-. now apply Hdecl. }
    rewrite En. apply Hstable. intros ->. now apply Hdecl.
  - apply Hstable. congruence.
Qed.

Lemma V2_Walk_unmatched (c : Value) (s : world) (w : V2.overrideWalker) :
  tree s = c ->
  V2.o_Section o0 <> "" ->
  ~ declares_section c (V2.o_Section o0) ->
  J w ->
  exists w', Walk w s = (s, Ok w') /\ J w'.
Proof.
  intros Ht Hne Hdecl Hj. unfold Walk, walkRoot, walk, bind.
  destruct (Indirect_pure (root_handle (vt (tree s))) s) as [t Et]. rewrite Et.
  destruct t as [h'|]; [|exists w; split; [reflexivity | exact Hj]].
  destruct (kind_of (h_type h')) eqn:EK;
    try (exists w; split; [reflexivity | exact Hj]).
  assert (Hty : h_type h' = root_type (vt c)).
  { unfold Indirect, root_handle in Et. simpl in Et. unfold root_type. rewrite <- Ht.
    destruct (kind_of (vt (tree s))) eqn:EK0;
      try (injection Et as <-; reflexivity).
    unfold read in Et. simpl in Et.
    destruct (vv (tree s)) as [| | | | | | | |[[a x]|]| |]; try discriminate Et.
    injection Et as <-. reflexivity. }
  unfold walkStruct, bind.
  rewrite V2_enter_other by discriminate. simpl wStruct. unfold ret at 1.
  destruct (for_each_stable J s (walkStructField walkSection h')
              (length (type_fields (h_type h'))) 0 w Hj) as [w' [E Hj']].
  - intros j w1 Hj1. apply V2_top_field_unmatched; [exact Hne | | exact Hj1].
    intros f ft Hf Hname. apply Hdecl. exists f, ft. split; [|exact Hname].
    unfold top_fields. rewrite <- Hty. eapply list_elem_of_In, list_elem_of_lookup_2. exact Hf.
  - rewrite E. rewrite V2_exit_other by discriminate.
    exists w'. split; [reflexivity | exact Hj'].
Qed.
End V2_unmatched.

Lemma Validate_section_nonempty (o : V2.Override) :
  V2.Override_Validate o = None -> V2.o_Section o <> "".
Proof.
  unfold V2.Override_Validate. intros H E. rewrite E in H. discriminate H.
Qed.

Lemma Validate_delete_no_options (o : V2.Override) :
  V2.Override_Validate o = None -> V2.o_Delete o = true -> V2.o_Options o = ∅.
Proof.
  unfold V2.Override_Validate. intros H D. rewrite D in H. simpl in H.
  destruct (String.eqb (V2.o_Section o) ""); [discriminate H|].
  destruct (String.eqb (V2.o_Element o) ""); [discriminate H|].
  destruct (V2.o_Create o); [discriminate H|]. simpl in H.
  destruct (Nat.ltb 0 (size (V2.o_Options o))) eqn:E; [discriminate H|].
  apply Nat.ltb_ge in E. apply map_size_empty_iff. lia.
Qed.

(** C10, as amended.  For every [Override] request accepted by
    [Validate] with [Delete] set whose section name matches no declared
    section of the configuration tree, [Override] returns no error and
    the zero [Element]: the "unknown section" check is skipped when
    [Delete] is true.  The same request without [Delete] fails. *)
Theorem Override_delete_unknown_section
    (methods : Methods) (c : V2.Overrider) (o : V2.Override) (w : world) :
  V2.Override_Validate o = None ->
  ~ declares_section (V2.original c) (V2.o_Section o) ->
  (V2.o_Delete o = true ->
   exists w', V2.Overrider_Override methods c o w = (w', Ok V2.zeroElement))
  /\ (V2.o_Delete o = false ->
      exists w' e, V2.Overrider_Override methods c o w = (w', Err e)).
Proof.
  intros Hval Hdecl.
  pose proof (Validate_section_nonempty o Hval) as Hne.
  unfold V2.Overrider_Override, CopyM, set_tree, bind.
  destruct (Copy (vv (V2.original c)) (next w)) as [v' n'] eqn:EC.
  unfold V2.applyOverride. rewrite Hval. unfold bind, wrapping.
  cbn [next writes tree].
  set (s := mkWorld (mkValue (vt (V2.original c)) v') n' (writes w)).
  destruct (V2_Walk_unmatched methods o (mkValue (vt (V2.original c)) v') s
              (V2.newOverrideWalker o (V2.OptionNameFunc c)))
    as [w' [EW (Hd & Ho & He)]]; try assumption; try reflexivity.
  { repeat split; reflexivity. }
  unfold V2_walker in EW. rewrite EW.
  split; intros HD.
  - assert (Hu : V2.unused w' = []).
    { unfold V2.unused. rewrite Ho, (Validate_delete_no_options o Hval HD).
      rewrite map_to_list_empty. reflexivity. }
    rewrite Hu. simpl. unfold V2.elementObject. rewrite He. simpl.
    rewrite HD. simpl. eexists. reflexivity.
  - destruct (Nat.ltb 0 (length (V2.unused w'))); [eexists; eexists; reflexivity|].
    unfold V2.elementObject. rewrite He. simpl. rewrite HD. simpl.
    eexists. eexists. reflexivity.
Qed.

Lemma docConfig_no_section_zz : ~ declares_section Examples.docConfig "section-zz".
Proof.
  intros (f & ft & Hin & Hname). simpl in Hin.
  repeat (destruct Hin as [Hin | Hin];
          [injection Hin as <- <-; vm_compute in Hname; discriminate Hname |]).
  contradiction.
Qed.

Lemma Override_delete_unknown_section_witness :
  exists w',
    V2.Overrider_Override Examples.noMethods
      (V2.mkOverrider Examples.docConfig TomlFieldName)
      (V2.mkOverride "section-zz" "id0" ∅ true false) Examples.w0
    = (w', Ok V2.zeroElement).
Proof.
  apply (Override_delete_unknown_section Examples.noMethods
           (V2.mkOverrider Examples.docConfig TomlFieldName)
           (V2.mkOverride "section-zz" "id0" ∅ true false) Examples.w0).
  - reflexivity.
  - exact docConfig_no_section_zz.
  - reflexivity.
Defined.

(** C10 as stated fails: a request with [Delete] set and no element
    name is turned down by [Validate] before the walk, whatever its
    section. *)
Lemma Override_delete_unknown_section_counterexample :
  ~ declares_section Examples.docConfig "section-zz"
  /\ V2.o_Delete (V2.mkOverride "section-zz" EmptyString ∅ true false) = true
  /\ exists w' e,
       V2.Override_Validate (V2.mkOverride "section-zz" EmptyString ∅ true false) = Some e
       /\ V2.Overrider_Override Examples.noMethods
            (V2.mkOverrider Examples.docConfig TomlFieldName)
            (V2.mkOverride "section-zz" EmptyString ∅ true false) Examples.w0
          = (w', Err (Wrap e "invalid override" [])).
Proof.
  split; [exact docConfig_no_section_zz|]. split; [reflexivity|].
  eexists. eexists. split; [reflexivity | vm_compute; reflexivity].
Qed.

(** ** Redaction *)

Section redaction.
Variable nf : StructField -> string.

Let Q (w : redactWalker) : Prop := rw_depth w = 1%Z.

Lemma redact_enter_other (l : Location) (w : redactWalker) (s : world) :
  l <> LStructField -> wEnter l w s = (s, Ok w).
Proof. intros N. destruct w, l; try reflexivity. contradiction. Qed.

Lemma redact_exit_other (l : Location) (w : redactWalker) (s : world) :
  l <> LStructField -> wExit l w s = (s, Ok w).
Proof. intros N. destruct w, l; try reflexivity. contradiction. Qed.

Lemma redact_walkSection_idle (h : handle) (w : redactWalker) (s : world) :
  Q w -> walkSection h w s = (s, Ok w).
Proof.
  apply (walkSection_idle Q); auto using redact_enter_other, redact_exit_other.
  - intros f h0 w0 s0 Hq. simpl. unfold redactWalker_StructField. rewrite Hq. reflexivity.
  - intros w0 s0 Hq. eexists. split; [reflexivity|].
    destruct w0. unfold Q in Hq. simpl in *. subst. reflexivity.
Qed.

(** One turn of the loop over the fields of the element. *)
Lemma redact_field_step (h : handle) (s : world) (i : nat) (m : gmap string Value)
    (f : StructField) (ft : rtype) (v : value) :
  h_ro h = false ->
  type_fields (h_type h) !! i = Some (f, ft) ->
  read (field_handle h i f ft) s = Some v ->
  walkStructField walkSection h i (mkRedactWalker 0 m nf) s
  = (s, match getRedactedValue f ft v (CanAddr h) (negb (Exported f)) with
        | Ok r => Ok (mkRedactWalker 0 (<[nf f := r]> m) nf)
        | Err e => Err e
        | Panic p => Panic p
        end).
Proof.
  intros Hro Hf Hv. unfold walkStructField. rewrite Hf.
  unfold bind. simpl wStructField. unfold redactWalker_StructField. simpl.
  unfold bind, load. rewrite Hv. unfold lift.
  replace (CanAddr (field_handle h i f ft)) with (CanAddr h) by reflexivity.
  rewrite Hro. simpl.
  destruct (getRedactedValue f ft v (CanAddr h) (negb (Exported f))) as [r|e|p];
    try reflexivity.
  simpl. rewrite redact_walkSection_idle by reflexivity. reflexivity.
Qed.

Lemma redact_loop (h : handle) (s : world) (vs : list value) (n i : nat)
    (m : gmap string Value) :
  h_ro h = false ->
  (forall j f ft, type_fields (h_type h) !! j = Some (f, ft) ->
                  read (field_handle h j f ft) s = vs !! j) ->
  length vs = length (type_fields (h_type h)) ->
  i + n = length vs ->
  for_each n i (walkStructField walkSection h) (mkRedactWalker 0 m nf) s
  = (s, match redactAll nf (CanAddr h) (drop i (zip (type_fields (h_type h)) vs)) m with
        | Ok m' => Ok (mkRedactWalker 0 m' nf)
        | Err e => Err e
        | Panic p => Panic p
        end).
Proof.
  intros Hro Hread Hlen. revert i m.
  induction n as [|n IH]; intros i m Hin.
  - simpl. rewrite drop_ge; [reflexivity|].
    rewrite length_zip_with. lia.
  - simpl. unfold bind.
    assert (Hi : i < length vs) by lia.
    destruct (lookup_lt_is_Some_2 vs i Hi) as [v Hv].
    assert (Hi' : i < length (type_fields (h_type h))) by lia.
    destruct (lookup_lt_is_Some_2 _ i Hi') as [[f ft] Hf].
    rewrite (redact_field_step h s i m f ft v Hro Hf)
      by (rewrite (Hread i f ft Hf); exact Hv).
    assert (Hz : zip (type_fields (h_type h)) vs !! i = Some ((f, ft), v)).
    { apply lookup_zip_with_Some. exists (f, ft), v. auto. }
    rewrite (drop_S _ _ _ Hz). simpl.
    destruct (getRedactedValue f ft v (CanAddr h) (negb (Exported f))) as [r|e|p];
      try reflexivity.
    apply IH. lia.
Qed.
End redaction.

Lemma Redacted_struct (nf : StructField -> string) (x : Value) (T : rtype)
    (vs : list value) (addressable : bool) (s : world) :
  element_struct x = Some (T, vs, addressable) ->
  length vs = length (type_fields T) ->
  Redacted x nf s
  = (mkWorld x (next s) (writes s),
     match redactAll nf addressable (zip (type_fields T) vs) ∅ with
     | Err e => Err (Wrap e "failed to redact section" [])
     | r => r
     end).
Proof.
  intros Hx Hlen. unfold Redacted, bind, set_tree, wrapping.
  set (s1 := mkWorld x (next s) (writes s)).
  unfold Walk, walkRoot, walk, bind. cbn [tree s1].
  unfold element_struct in Hx.
  assert (Hind : exists h',
            Indirect (root_handle (vt x)) s1 = (s1, Ok (Some h'))
            /\ h_type h' = T /\ h_ro h' = false /\ CanAddr h' = addressable
            /\ kind_of T = KStruct
            /\ forall j f ft, read (field_handle h' j f ft) s1 = vs !! j).
  { unfold Indirect, root_handle, read. cbn [h_type h_path tree s1].
    destruct (kind_of (vt x)) eqn:EK; try discriminate Hx.
    - destruct (vv x) as [| | | | | | | |[[a [| | | |fs| | | | | |]]|]| |] eqn:EV;
        try discriminate Hx.
      destruct (kind_of (root_type (vt x))) eqn:EK2; try discriminate Hx.
      injection Hx as <- <- <-.
      exists (deref_handle (mkHandle [] (vt x) None false) a).
      simpl. split; [reflexivity|].
      unfold root_type in *. rewrite EK in *.
      repeat split; try reflexivity; try assumption.
      intros j _ _. destruct (fs !! j); reflexivity.
    - destruct (vv x) as [| | | |fs| | | | | |] eqn:EV; try discriminate Hx.
      injection Hx as <- <- <-.
      exists (mkHandle [] (vt x) None false).
      simpl. repeat split; try reflexivity; try assumption.
      intros j _ _. destruct (fs !! j); reflexivity. }
  destruct Hind as (h' & EI & HT & Hro & Haddr & HK & Hread).
  rewrite EI. rewrite HT, HK.
  unfold walkStruct, bind.
  rewrite redact_enter_other by discriminate. simpl wStruct. unfold ret at 1.
  unfold newRedactWalker.
  rewrite (redact_loop nf h' s1 vs (length (type_fields (h_type h'))) 0 ∅ Hro).
  - rewrite drop_0, HT, Haddr.
    destruct (redactAll nf addressable (zip (type_fields T) vs) ∅); try reflexivity.
  - intros j f ft _. apply Hread.
  - now rewrite HT.
  - rewrite HT. simpl. lia.
Qed.

Lemma redactAll_lookup (nf : StructField -> string) (a : bool)
    (fvs : list ((StructField * rtype) * value)) (m m' : gmap string Value) :
  redactAll nf a fvs m = Ok m' ->
  forall i f ft v,
    fvs !! i = Some ((f, ft), v) ->
    (forall j g gt u, i < j -> fvs !! j = Some ((g, gt), u) -> nf g <> nf f) ->
    exists r, getRedactedValue f ft v a (negb (Exported f)) = Ok r
              /\ m' !! nf f = Some r.
Proof.
  revert m. induction fvs as [|[[g gt] u] rest IH]; intros m Hall i f ft v Hi Hlast.
  - discriminate Hi.
  - simpl in Hall.
    destruct (getRedactedValue g gt u a (negb (Exported g))) as [r|e|p] eqn:ER;
      try discriminate Hall.
    destruct i as [|i].
    + injection Hi as -> -> ->. exists r. split; [exact ER|].
      clear IH ER. revert m Hall.
      assert (Hrest : forall j g gt u, rest !! j = Some ((g, gt), u) -> nf g <> nf f).
      { intros j g0 gt0 u0 Hj. apply (Hlast (S j) g0 gt0 u0); [lia | exact Hj]. }
      clear Hlast.
      induction rest as [|[[g gt] u] rest IHr]; intros m Hall.
      * simpl in Hall. injection Hall as <-. apply lookup_insert_eq.
      * simpl in Hall.
        destruct (getRedactedValue g gt u a (negb (Exported g))) as [r'|e|p];
          try discriminate Hall.
        assert (Hne : nf g <> nf f) by (apply (Hrest 0 g gt u); reflexivity).
        rewrite insert_insert_ne in Hall by congruence.
        apply (IHr (fun j => Hrest (S j)) _ Hall).
    + apply (IH _ Hall i f ft v Hi).
      intros j g0 gt0 u0 Hj. apply (Hlast (S j)). lia.
Qed.

Lemma redactAll_total (nf : StructField -> string) (a : bool)
    (fvs : list ((StructField * rtype) * value)) (m : gmap string Value) :
  (forall i f ft v, fvs !! i = Some ((f, ft), v) ->
                    exists r, getRedactedValue f ft v a (negb (Exported f)) = Ok r) ->
  exists m', redactAll nf a fvs m = Ok m'.
Proof.
  revert m. induction fvs as [|[[g gt] u] rest IH]; intros m H.
  - simpl. eauto.
  - simpl. destruct (H 0 g gt u eq_refl) as [r ->].
    apply IH. intros i. apply (H (S i)).
Qed.

Lemma isZero_total (v : value) :
  forall ty ad, well_shaped ty v = true -> exists z, isZero ty v ad false = Ok z.
Proof.
  induction v using value_rect'; intros ty ad Hw; simpl in Hw |- *;
    destruct (kind_of ty) eqn:EK; eauto; try discriminate Hw.
  - (* struct *)
    generalize dependent (type_fields ty).
    induction H as [|x l Hx Hl IHl]; intros fts Hw.
    + eauto.
    + destruct fts as [|[f ft] fts]; [discriminate Hw|].
      apply andb_prop in Hw as [Hw1 Hw2].
      destruct (ad && negb (negb (Exported f))).
      * destruct (Hx ft true Hw1) as [[|] ->]; [apply IHl; exact Hw2 | eauto].
      * apply IHl. exact Hw2.
  - (* array *)
    induction H as [|x l Hx Hl IHl].
    + eauto.
    + simpl in Hw. apply andb_prop in Hw as [Hw1 Hw2].
      destruct (Hx _ ad Hw1) as [[|] ->]; [apply IHl; exact Hw2 | eauto].
Qed.

Lemma getRedactedValue_total (f : StructField) (t : rtype) (v : value) (a : bool) :
  Exported f = true -> well_shaped t v = true ->
  exists r, getRedactedValue f t v a (negb (Exported f)) = Ok r.
Proof.
  intros He Hw. unfold getRedactedValue. rewrite He. simpl.
  destruct (isRedacted f); [|eauto].
  destruct (isZero_total v t a Hw) as [z ->]. eauto.
Qed.

Lemma deep_exported_underlying (t : rtype) :
  deep_exported t = deep_exported (underlying t).
Proof. induction t; simpl; auto. Qed.

Lemma deep_exported_fields (t : rtype) :
  deep_exported t = true ->
  Forall (fun fft => Exported (fst fft) = true /\ deep_exported (snd fft) = true)
         (type_fields t).
Proof.
  rewrite deep_exported_underlying. unfold type_fields.
  destruct (underlying t); simpl; try (intros; constructor).
  induction fields as [|[f ft] l IH]; intros H; constructor.
  - apply andb_prop in H as [H _]. apply andb_prop in H as [H1 H2]. split; assumption.
  - apply IH. apply andb_prop in H as [_ H]. exact H.
Qed.

Lemma deep_exported_elem (t : rtype) :
  kind_of t = KArray -> deep_exported t = true ->
  deep_exported (match type_elem t with Some e => e | None => TIface end) = true.
Proof.
  rewrite deep_exported_underlying. unfold kind_of, type_elem.
  destruct (underlying t); simpl; try discriminate; auto.
Qed.

Lemma struct_free_struct (t : rtype) : kind_of t = KStruct -> struct_free t = false.
Proof.
  induction t; simpl; try discriminate; auto.
  unfold kind_of. simpl. intros ->. reflexivity.
Qed.

Lemma struct_free_elem (t : rtype) :
  kind_of t = KArray -> struct_free t = true ->
  struct_free (match type_elem t with Some e => e | None => TIface end) = true.
Proof.
  induction t; simpl; try discriminate; auto.
Qed.

(** On a value that is addressable or holds no struct, [isZero] is the
    structural zero test, the unexported fields of structs apart. *)
Lemma isZero_exported (v : value) :
  forall ty ad, well_shaped ty v = true -> ad = true \/ struct_free ty = true ->
                isZero ty v ad false = Ok (exported_zero ty v).
Proof.
  induction v using value_rect'; intros ty ad Hw Ha; simpl in Hw |- *;
    destruct (kind_of ty) eqn:EK; eauto; try discriminate Hw.
  - (* struct *)
    destruct Ha as [->|Ha]; [|rewrite (struct_free_struct ty EK) in Ha; discriminate Ha].
    generalize dependent (type_fields ty).
    induction H as [|x l Hx Hl IHl]; intros fts Hw.
    + reflexivity.
    + destruct fts as [|[f ft] fts]; [discriminate Hw|].
      apply andb_prop in Hw as [Hw1 Hw2]. simpl.
      destruct (Exported f); simpl; [|apply IHl; exact Hw2].
      rewrite (Hx ft true Hw1 (or_introl eq_refl)).
      destruct (exported_zero ft x); simpl; [|reflexivity].
      apply IHl; assumption.
  - (* array *)
    assert (Hel : ad = true \/ struct_free (match type_elem ty with
                                             | Some e => e | None => TIface end) = true).
    { destruct Ha as [->|Ha]; [now left | right; now apply struct_free_elem]. }
    induction H as [|x l Hx Hl IHl].
    + reflexivity.
    + simpl in Hw. apply andb_prop in Hw as [Hw1 Hw2].
      simpl. rewrite (Hx _ ad Hw1 Hel).
      destruct (exported_zero _ x); simpl; [|reflexivity].
      apply IHl; assumption.
Qed.

(** Without unexported fields this is the structural zero test. *)
Lemma exported_zero_structural (v : value) :
  forall ty, deep_exported ty = true -> exported_zero ty v = structurally_zero ty v.
Proof.
  induction v using value_rect'; intros ty He; simpl;
    destruct (kind_of ty) eqn:EK; try reflexivity.
  - (* struct *)
    pose proof (deep_exported_fields ty He) as Hf.
    generalize dependent (type_fields ty).
    induction H as [|x l Hx Hl IHl]; intros fts Hf.
    + reflexivity.
    + destruct fts as [|[f ft] fts]; [reflexivity|].
      inversion Hf as [|? ? [Hf1 Hf2] Hf3]; subst. simpl in Hf1, Hf2.
      rewrite Hf1, (Hx ft Hf2). f_equal. apply IHl. exact Hf3.
  - (* array *)
    pose proof (deep_exported_elem ty EK He) as Hel.
    induction H as [|x l Hx Hl IHl]; [reflexivity|].
    simpl. rewrite (Hx _ Hel). f_equal. exact IHl.
Qed.

(** C8, as amended.  For every element that is a struct or a pointer
    to a struct, in the map that [Redacted] returns -- it returns one
    when every field is exported -- every field appears under its option
    name (of two fields with the same option name the later one is
    kept): a field tagged [override:",redact"] as a boolean, never as
    its value, and an untagged field with its value unchanged.  When
    the field holds no struct, or the element is held through a pointer,
    the boolean tells whether the value is structurally non-zero: a nil
    check for funcs, maps and slices, element-wise for arrays, recursive
    over the exported fields for structs, equality with the zero value
    otherwise. *)
Theorem Redacted_entries (nf : StructField -> string) (x : Value) (T : rtype)
    (vs : list value) (addressable : bool) (s : world) :
  element_struct x = Some (T, vs, addressable) ->
  length vs = length (type_fields T) ->
  ((forall i f ft v, type_fields T !! i = Some (f, ft) -> vs !! i = Some v ->
                     Exported f = true /\ well_shaped ft v = true) ->
   exists w' m, Redacted x nf s = (w', Ok m))
  /\ (forall w' m, Redacted x nf s = (w', Ok m) ->
       forall i f ft v,
         type_fields T !! i = Some (f, ft) -> vs !! i = Some v ->
         (forall j g gt, i < j -> type_fields T !! j = Some (g, gt) -> nf g <> nf f) ->
         (isRedacted f = true ->
          exists z, isZero ft v addressable (negb (Exported f)) = Ok z
                    /\ m !! nf f = Some (boolValue (negb z))
                    /\ (Exported f = true -> well_shaped ft v = true ->
                        addressable = true \/ struct_free ft = true ->
                        z = exported_zero ft v))
         /\ (isRedacted f = false -> m !! nf f = Some (mkValue ft v))).
Proof.
  intros Hx Hlen. rewrite (Redacted_struct nf x T vs addressable s Hx Hlen). split.
  - intros Hall.
    destruct (redactAll_total nf addressable (zip (type_fields T) vs) ∅) as [m Hm].
    + intros i f ft v Hi. apply lookup_zip_with_Some in Hi as (p & v' & E & Hp & Hv).
      injection E as <- <-.
      destruct (Hall i f ft v Hp Hv) as [He Hw].
      now apply getRedactedValue_total.
    + rewrite Hm. eauto.
  - intros w' m Hr i f ft v Hf Hv Hlast.
    assert (Hm : redactAll nf addressable (zip (type_fields T) vs) ∅ = Ok m).
    { destruct (redactAll nf addressable (zip (type_fields T) vs) ∅);
        try discriminate Hr. injection Hr as _ <-. reflexivity. }
    destruct (redactAll_lookup nf addressable _ _ _ Hm i f ft v) as [r [Hg Hl]].
    + apply lookup_zip_with_Some. exists (f, ft), v. auto.
    + intros j g gt u Hj Hz. apply lookup_zip_with_Some in Hz as (p & v' & E & Hp & _).
      injection E as <- <-. apply (Hlast j g gt Hj Hp).
    + unfold getRedactedValue in Hg. split; intros HR; rewrite HR in Hg.
      * destruct (isZero ft v addressable (negb (Exported f))) as [z| |] eqn:EZ;
          try discriminate Hg.
        injection Hg as <-. exists z. repeat split; [exact Hl|].
        intros He Hw Ha. rewrite He in EZ. simpl in EZ.
        rewrite (isZero_exported v ft addressable Hw Ha) in EZ. now injection EZ as <-.
      * destruct (negb (Exported f)); [discriminate Hg|]. injection Hg as <-. exact Hl.
Qed.

(** The sections of the test configuration of the service: [Password]
    is redacted to [false], [Option2] is shown as it is. *)
Lemma Redacted_entries_witness :
  let x := mkValue Examples.SectionB (VStruct [VString "o2"; VString ""]) in
  exists w' m, Redacted x TomlFieldName Examples.w0 = (w', Ok m).
Proof.
  intros x.
  apply (proj1 (Redacted_entries TomlFieldName x Examples.SectionB
                  [VString "o2"; VString ""] false Examples.w0 eq_refl eq_refl)).
  intros i f ft v Hf Hv.
  destruct i as [|[|i]]; simpl in Hf, Hv; try discriminate Hf;
    injection Hf as <- <-; injection Hv as <-; split; reflexivity.
Defined.

(** C8 as stated fails: a section held through a pointer whose redacted
    option is a struct with an unexported field.  [isZero] looks at the
    settable fields only, so it leaves [user] out: the credentials,
    which are not structurally zero, are reported as [false]. *)
Lemma Redacted_unexported_field_counterexample :
  isRedacted (exported "Creds" [("override", ",redact")]) = true
  /\ structurally_zero Examples.HiddenCredentials (VStruct [VString "bob"]) = false
  /\ exists w' m,
      Redacted Examples.hiddenElement OverrideFieldName Examples.w0 = (w', Ok m)
      /\ m !! "Creds" = Some (boolValue false).
Proof.
  split; [reflexivity|]. split; [reflexivity|].
  eexists. eexists. split; [vm_compute; reflexivity | reflexivity].
Qed.

(** Where the element is held by value, no field of a struct in it is
    settable, exported or not, and [isZero] skips them all, against its
    own comment ("whether v is equal to the zero value of its type"):
    credentials that are set are reported as [false]. *)
Lemma Redacted_struct_option_by_value :
  isRedacted (exported "Creds" [("override", ",redact")]) = true
  /\ exported_zero Examples.Credentials (VStruct [VString "bob"]) = false
  /\ exists w' m,
      Redacted Examples.secretElement OverrideFieldName Examples.w0 = (w', Ok m)
      /\ m !! "Creds" = Some (boolValue false).
Proof.
  split; [reflexivity|]. split; [reflexivity|].
  eexists. eexists. split; [vm_compute; reflexivity | reflexivity].
Qed.

(** ** Invariants of a walk *)

Lemma hoare_ret {A} (P : world -> Prop) (Q : A -> world -> Prop) (E : world -> Prop) (a : A) :
  (forall s, P s -> Q a s) -> hoare P (ret a) Q E.
Proof. intros H s Hs. simpl. auto. Qed.

Lemma hoare_bind {A B} (P : world -> Prop) (m : M A) (R : A -> world -> Prop)
    (k : A -> M B) (Q : B -> world -> Prop) (E : world -> Prop) :
  hoare P m R E -> (forall a, hoare (R a) (k a) Q E) -> hoare P (bind m k) Q E.
Proof.
  intros Hm Hk s Hs. unfold bind. specialize (Hm s Hs).
  destruct (m s) as [s' [a|e|p]]; try exact Hm.
  apply (Hk a s' Hm).
Qed.

Lemma hoare_conseq {A} (P P' : world -> Prop) (m : M A)
    (Q Q' : A -> world -> Prop) (E E' : world -> Prop) :
  hoare P' m Q' E' ->
  (forall s, P s -> P' s) -> (forall a s, Q' a s -> Q a s) -> (forall s, E' s -> E s) ->
  hoare P m Q E.
Proof.
  intros H HP HQ HE s Hs. specialize (H s (HP s Hs)).
  destruct (m s) as [s' [a|e|p]]; auto.
Qed.

Lemma hoare_for_each {W} (P : W -> world -> Prop) (E : world -> Prop)
    (body : nat -> W -> M W) (n i : nat) (w : W) :
  (forall j w, hoare (P w) (body j w) P E) ->
  hoare (P w) (for_each n i body w) P E.
Proof.
  intros Hbody. revert i w. induction n as [|n IH]; intros i w.
  - apply hoare_ret. auto.
  - simpl. eapply hoare_bind; [apply Hbody | intros w'; apply IH].
Qed.

Lemma hoare_wrapping {A} (P : world -> Prop) (m : M A) (Q : A -> world -> Prop)
    (E : world -> Prop) (fmt : string) (args : list operand) :
  hoare P m Q E -> hoare P (wrapping fmt args m) Q E.
Proof.
  intros Hm s Hs. unfold wrapping. specialize (Hm s Hs).
  destruct (m s) as [s' [a|e|p]]; exact Hm.
Qed.

Lemma hoare_load (h : handle) (P : world -> Prop) (E : world -> Prop) :
  hoare P (load h) (fun v s => P s /\ v = read h s) E.
Proof. intros s Hs. simpl. auto. Qed.

Lemma hoare_Indirect (h : handle) (P : world -> Prop) (E : world -> Prop) :
  hoare P (Indirect h)
        (fun t s => P s /\
           match t with
           | Some h' =>
               (kind_of (h_type h) <> KPtr /\ h' = h)
               \/ (exists a x, kind_of (h_type h) = KPtr
                               /\ read h s = Some (VPtr (Some (a, x)))
                               /\ h' = deref_handle h a)
           | None => True
           end) E.
Proof.
  intros s Hs. unfold Indirect.
  destruct (kind_of (h_type h)) eqn:EK;
    try (simpl; split; [exact Hs | left; split; [discriminate | reflexivity]]).
  destruct (read h s) as [[| | | | | | | |[[a x]|]| |]|] eqn:ER; simpl; split;
    try exact Hs; try exact I.
  right. exists a, x. auto.
Qed.

Lemma hoare_apply {A} (P : world -> Prop) (m : M A) (Q : A -> world -> Prop)
    (E : world -> Prop) (s : world) :
  hoare P m Q E -> P s ->
  match m s with
  | (s', Ok a) => Q a s'
  | (s', _) => E s'
  end.
Proof. intros Hm Hs. exact (Hm s Hs). Qed.

Lemma hoare_for_each_indexed {W} (P : nat -> W -> world -> Prop) (E : world -> Prop)
    (body : nat -> W -> M W) (n i : nat) (w : W) :
  (forall j w, i <= j < i + n -> hoare (P j w) (body j w) (P (S j)) E) ->
  hoare (P i w) (for_each n i body w) (P (i + n)) E.
Proof.
  revert i w. induction n as [|n IH]; intros i w Hbody.
  - apply hoare_ret. intros s Hs. now rewrite Nat.add_0_r.
  - simpl. eapply hoare_bind; [apply Hbody; lia|]. intros w'.
    replace (i + S n) with (S i + n) by lia.
    apply IH. intros j w'' Hj. apply Hbody. lia.
Qed.

(** The invariant scheme of a walk.  [Pre] holds before the walk and
    [Post] after it; [P0 i] holds before the top-level field [i]; below
    the top-level field [i], which is [(f0, ft0)], [Pmid i f0 ft0] holds
    after its [StructField] call and [P1 i f0 ft0] while its value is
    walked.  [HOK] is what the callbacks may assume of the handles they
    receive, [R] what the invariants say of the world when a handle is
    derived. *)
Section walk_invariant.
Context {W : Type} `{Walker W}.
Variable T0 : rtype.
Variable E : world -> Prop.
Variable R : world -> Prop.
Variables Pre Post : W -> world -> Prop.
Variable P0 : nat -> W -> world -> Prop.
Variables Pmid P1 : nat -> StructField -> rtype -> W -> world -> Prop.
Variable HOK : handle -> Prop.

Hypothesis Pre_type : forall w s, Pre w s -> vt (tree s) = T0.
Hypothesis Pre_R : forall w s, Pre w s -> R s.
Hypothesis P1_R : forall i0 f0 ft0 w s, P1 i0 f0 ft0 w s -> R s.

Hypothesis root_ok : HOK (root_handle T0).
Hypothesis field_ok : forall h i f ft, HOK h -> HOK (field_handle h i f ft).
Hypothesis deref_ok : forall h a x s,
    HOK h -> R s -> read h s = Some (VPtr (Some (a, x))) -> HOK (deref_handle h a).
Hypothesis index_ok : forall h a es i s,
    HOK h -> R s -> read h s = Some (VSlice (Some (a, es))) -> HOK (index_handle h a i).

(* top level *)
Hypothesis root_skip : forall w s,
    Pre w s ->
    match Indirect (root_handle T0) s with
    | (_, Ok (Some h')) => kind_of (h_type h') <> KStruct
    | _ => True
    end ->
    Post w s.
Hypothesis top_begin : forall h w,
    HOK h -> h_type h = root_type T0 ->
    root_struct T0 h ->
    hoare (Pre w) (w1 <- wEnter LStruct w ;; wStruct h w1) (P0 0) E.
Hypothesis top_field : forall h i f ft w,
    HOK h -> h_type h = root_type T0 ->
    root_struct T0 h ->
    type_fields (root_type T0) !! i = Some (f, ft) ->
    hoare (P0 i w) (wStructField f (field_handle h i f ft) w) (Pmid i f ft) E.
Hypothesis top_enter : forall i f ft w,
    hoare (Pmid i f ft w) (wEnter LStructField w) (P1 i f ft) E.
Hypothesis top_exit : forall i f ft w,
    type_fields (root_type T0) !! i = Some (f, ft) ->
    hoare (P1 i f ft w) (wExit LStructField w) (P0 (S i)) E.
Hypothesis top_end : forall w,
    hoare (P0 (length (type_fields (root_type T0))) w) (wExit LStruct w) Post E.

(* below a top-level field *)
Hypothesis enter_other : forall i0 f0 ft0 l w, l <> LStructField ->
    hoare (P1 i0 f0 ft0 w) (wEnter l w) (P1 i0 f0 ft0) E.
Hypothesis exit_other : forall i0 f0 ft0 l w, l <> LStructField ->
    hoare (P1 i0 f0 ft0 w) (wExit l w) (P1 i0 f0 ft0) E.
Hypothesis struct_inv : forall i0 f0 ft0 h w, HOK h ->
    hoare (P1 i0 f0 ft0 w) (wStruct h w) (P1 i0 f0 ft0) E.
Hypothesis field_inv : forall i0 f0 ft0 h i f ft w,
    type_fields (root_type T0) !! i0 = Some (f0, ft0) ->
    In (h_type h) (section_struct_types ft0) ->
    HOK h ->
    type_fields (h_type h) !! i = Some (f, ft) ->
    hoare (P1 i0 f0 ft0 w) (wStructField f (field_handle h i f ft) w) (P1 i0 f0 ft0) E.
Hypothesis enter_exit : forall i0 f0 ft0 w,
    hoare (P1 i0 f0 ft0 w) (w1 <- wEnter LStructField w ;; wExit LStructField w1)
          (P1 i0 f0 ft0) E.
Hypothesis slice_inv : forall i0 f0 ft0 h w,
    type_fields (root_type T0) !! i0 = Some (f0, ft0) ->
    h_type h = root_type ft0 -> kind_of (h_type h) = KSlice -> HOK h ->
    hoare (P1 i0 f0 ft0 w) (wSlice h w) (P1 i0 f0 ft0) E.
Hypothesis elem_inv : forall i0 f0 ft0 i hs a w,
    type_fields (root_type T0) !! i0 = Some (f0, ft0) ->
    h_type hs = root_type ft0 -> kind_of (h_type hs) = KSlice -> HOK hs ->
    HOK (index_handle hs a i) ->
    hoare (P1 i0 f0 ft0 w) (wSliceElem i (index_handle hs a i) w) (P1 i0 f0 ft0) E.

Lemma walkStructField_inv i0 f0 ft0 h i w :
  type_fields (root_type T0) !! i0 = Some (f0, ft0) ->
  In (h_type h) (section_struct_types ft0) -> HOK h ->
  hoare (P1 i0 f0 ft0 w) (walkStructField walkOption h i w) (P1 i0 f0 ft0) E.
Proof.
  intros Hin Ht Hh. unfold walkStructField.
  destruct (type_fields (h_type h) !! i) as [[f ft]|] eqn:Ef.
  - eapply hoare_bind; [apply (field_inv i0 f0 ft0 h i f ft w Hin Ht Hh Ef)|].
    intros w1. apply enter_exit.
  - apply hoare_ret. auto.
Qed.

Lemma walkStruct_inv i0 f0 ft0 h w :
  type_fields (root_type T0) !! i0 = Some (f0, ft0) ->
  In (h_type h) (section_struct_types ft0) -> HOK h ->
  hoare (P1 i0 f0 ft0 w) (walkStruct walkOption h w) (P1 i0 f0 ft0) E.
Proof.
  intros Hin Ht Hh. unfold walkStruct.
  eapply hoare_bind; [apply enter_other; discriminate|]. intros w1.
  eapply hoare_bind; [apply struct_inv; exact Hh|]. intros w2.
  eapply hoare_bind; [apply hoare_for_each; intros j w'; now apply walkStructField_inv|].
  intros w3. apply exit_other. discriminate.
Qed.

(** [walk] under an invariant: the handle dispatched on is the one
    given, or what its pointer leads to. *)
Lemma walk_inv (P Q : W -> world -> Prop) (structs slices : handle -> W -> M W)
    (h : handle) (w : W) :
  (forall w s, P w s -> R s) ->
  HOK h ->
  (forall s, P w s ->
             match Indirect h s with
             | (_, Ok (Some h')) =>
                 kind_of (h_type h') <> KStruct /\ kind_of (h_type h') <> KSlice
             | _ => True
             end -> Q w s) ->
  (forall h', HOK h' -> h_type h' = root_type (h_type h) ->
              ((kind_of (h_type h) <> KPtr /\ h' = h)
               \/ (kind_of (h_type h) = KPtr /\ exists a, h' = deref_handle h a)) ->
              kind_of (h_type h') = KStruct -> hoare (P w) (structs h' w) Q E) ->
  (forall h', HOK h' -> h_type h' = root_type (h_type h) ->
              kind_of (h_type h') = KSlice -> hoare (P w) (slices h' w) Q E) ->
  hoare (P w) (walk structs slices h w) Q E.
Proof.
  intros HR Hh Hskip Hst Hsl s Hs. unfold walk, bind.
  pose proof (hoare_Indirect h (P w) E s Hs) as HI.
  specialize (Hskip s Hs).
  destruct (Indirect h s) as [s' [t|e|p]] eqn:EI; try exact HI.
  assert (s' = s) as ->.
  { unfold Indirect in EI. destruct (kind_of (h_type h)); try (now injection EI).
    destruct (read h s) as [[| | | | | | | |[[a x]|]| |]|]; now injection EI. }
  destruct HI as [_ Hcase].
  destruct t as [h'|]; [|simpl; now apply Hskip].
  assert (Hh' : HOK h' /\ h_type h' = root_type (h_type h)
                /\ ((kind_of (h_type h) <> KPtr /\ h' = h)
                    \/ (kind_of (h_type h) = KPtr /\ exists a, h' = deref_handle h a))).
  { destruct Hcase as [[Hk ->] | (a & x & Hk & Hr & ->)].
    - split; [exact Hh|]. split; [|now left]. unfold root_type.
      destruct (kind_of (h_type h)); try reflexivity. contradiction.
    - split; [eapply deref_ok; eauto|]. split; [|right; split; [exact Hk | now exists a]].
      unfold root_type. rewrite Hk. reflexivity. }
  destruct Hh' as (Hok & Hty & Hshape).
  destruct (kind_of (h_type h')) eqn:EK;
    try (simpl; apply Hskip; split; discriminate).
  - apply (Hsl h' Hok Hty EK s Hs).
  - apply (Hst h' Hok Hty Hshape EK s Hs).
Qed.

Lemma elem_struct_type ft0 t :
  kind_of (root_type ft0) = KSlice ->
  t = root_type (match type_elem (root_type ft0) with Some e => e | None => TIface end) ->
  kind_of t = KStruct -> In t (section_struct_types ft0).
Proof.
  intros Hk -> Hs. unfold section_struct_types. rewrite Hk, Hs. now left.
Qed.

Lemma walkElement_inv i0 f0 ft0 hs a i w :
  type_fields (root_type T0) !! i0 = Some (f0, ft0) ->
  h_type hs = root_type ft0 -> kind_of (h_type hs) = KSlice ->
  HOK (index_handle hs a i) ->
  hoare (P1 i0 f0 ft0 w) (walkElement (index_handle hs a i) w) (P1 i0 f0 ft0) E.
Proof.
  intros Hin Hty Hk Hok. unfold walkElement.
  apply (walk_inv (P1 i0 f0 ft0)); [apply P1_R | exact Hok | auto | | ].
  - intros h' Hh' Ht' _ Hk'. apply walkStruct_inv; [exact Hin | | exact Hh'].
    eapply (elem_struct_type ft0 _); [now rewrite <- Hty | | exact Hk'].
    rewrite Ht'. simpl. rewrite Hty. reflexivity.
  - intros h' _ _ _. apply hoare_ret. auto.
Qed.

Lemma walkSliceElem_inv i0 f0 ft0 hs i w :
  type_fields (root_type T0) !! i0 = Some (f0, ft0) ->
  h_type hs = root_type ft0 -> kind_of (h_type hs) = KSlice -> HOK hs ->
  hoare (P1 i0 f0 ft0 w) (walkSliceElem walkElement hs i w) (P1 i0 f0 ft0) E.
Proof.
  intros Hin Hty Hk Hok. unfold walkSliceElem.
  eapply hoare_bind; [apply hoare_load|].
  intros cur s [Hs ->].
  destruct (read hs s) as [[| | | | | |[[a es]|]| | | |]|] eqn:Er;
    try (apply (hoare_ret (P1 i0 f0 ft0 w) (P1 i0 f0 ft0) E w (fun _ H => H) s Hs)).
  destruct (Nat.ltb i (length es));
    [|apply (hoare_ret (P1 i0 f0 ft0 w) (P1 i0 f0 ft0) E w (fun _ H => H) s Hs)].
  assert (Hoke : HOK (index_handle hs a i)).
  { eapply index_ok; [exact Hok | eapply P1_R; exact Hs | exact Er]. }
  apply hoare_apply with (P := P1 i0 f0 ft0 w); [|exact Hs].
  eapply hoare_bind; [now apply elem_inv|]. intros w1.
  eapply hoare_bind; [apply enter_other; discriminate|]. intros w2.
  eapply hoare_bind; [now apply walkElement_inv|]. intros w3.
  apply exit_other. discriminate.
Qed.

Lemma walkSlice_inv i0 f0 ft0 hs w :
  type_fields (root_type T0) !! i0 = Some (f0, ft0) ->
  h_type hs = root_type ft0 -> kind_of (h_type hs) = KSlice -> HOK hs ->
  hoare (P1 i0 f0 ft0 w) (walkSlice walkElement hs w) (P1 i0 f0 ft0) E.
Proof.
  intros Hin Hty Hk Hok. unfold walkSlice.
  eapply hoare_bind; [apply enter_other; discriminate|]. intros w1.
  eapply hoare_bind; [now apply slice_inv|]. intros w2.
  eapply hoare_bind; [apply hoare_load|]. intros cur.
  eapply hoare_bind.
  - eapply hoare_conseq with (P' := P1 i0 f0 ft0 w2);
      [apply hoare_for_each; intros j w'; now apply walkSliceElem_inv
      | intros s [Hs _]; exact Hs | intros a s Ha; exact Ha | auto].
  - intros w3. apply exit_other. discriminate.
Qed.

Lemma walkSection_inv i0 f0 ft0 h w :
  type_fields (root_type T0) !! i0 = Some (f0, ft0) ->
  h_type h = ft0 -> HOK h ->
  hoare (P1 i0 f0 ft0 w) (walkSection h w) (P1 i0 f0 ft0) E.
Proof.
  intros Hin Hty Hok. unfold walkSection.
  apply (walk_inv (P1 i0 f0 ft0)); [apply P1_R | exact Hok | auto | | ].
  - intros h' Hh' Ht' _ Hk'. apply walkStruct_inv; [exact Hin | | exact Hh'].
    unfold section_struct_types. rewrite Hty in Ht'. rewrite <- Ht', Hk'. now left.
  - intros h' Hh' Ht' Hk'. apply walkSlice_inv; try assumption.
    now rewrite Ht', Hty.
Qed.

Lemma walkTopField_inv h i w :
  HOK h -> h_type h = root_type T0 ->
  root_struct T0 h ->
  i < length (type_fields (root_type T0)) ->
  hoare (P0 i w) (walkStructField walkSection h i w) (P0 (S i)) E.
Proof.
  intros Hok Hty Hshape Hi. unfold walkStructField. rewrite Hty.
  destruct (type_fields (root_type T0) !! i) as [[f ft]|] eqn:Ef.
  - eapply hoare_bind; [now apply top_field|]. intros w1.
    eapply hoare_bind; [apply top_enter|]. intros w2.
    eapply hoare_bind;
      [apply (walkSection_inv i f ft); [exact Ef | reflexivity | now apply field_ok]|].
    intros w3. now apply top_exit.
  - apply lookup_ge_None in Ef. lia.
Qed.

(** A walk takes [Pre] to [Post]; a walk that fails leaves a world
    in [E]. *)
Theorem Walk_inv (w : W) : hoare (Pre w) (Walk w) Post E.
Proof.
  intros s Hs. unfold Walk. rewrite (Pre_type w s Hs).
  apply hoare_apply with (P := Pre w); [|exact Hs].
  unfold walkRoot.
  apply (walk_inv Pre Post); [apply Pre_R | exact root_ok | | | ].
  - intros s' Hs' Hcase. apply (root_skip w s' Hs').
    destruct (Indirect (root_handle T0) s') as [s'' [[h'|]|e|p]]; try exact I.
    tauto.
  - intros h' Hh' Ht' Hshape Hk'. unfold walkStruct. simpl in Ht'.
    assert (Hb : hoare (Pre w) (w1 <- wEnter LStruct w ;; wStruct h' w1) (P0 0) E)
      by now apply top_begin.
    intros s' Hs'. specialize (Hb s' Hs'). unfold bind in Hb |- *.
    destruct (wEnter LStruct w s') as [s1 [w1|e|p]]; try exact Hb.
    destruct (wStruct h' w1 s1) as [s2 [w2|e|p]]; try exact Hb.
    apply (hoare_apply (P0 0 w2)
             (w3 <- for_each (length (type_fields (h_type h'))) 0
                      (walkStructField walkSection h') w2 ;;
              wExit LStruct w3) Post E s2); [|exact Hb].
    eapply hoare_bind.
    + apply (hoare_for_each_indexed P0). intros j w' Hj.
      apply walkTopField_inv; try assumption. rewrite Ht' in Hj. simpl in Hj. lia.
    + intros w3. simpl. rewrite Ht'. apply top_end.
  - intros h' _ Ht' Hk'. intros s' Hs'. simpl. apply (root_skip w s' Hs').
    simpl in Ht'. rewrite Ht' in Hk'.
    pose proof (hoare_Indirect (root_handle T0) (fun _ => True) (fun _ => True) s' I) as HI.
    destruct (Indirect (root_handle T0) s') as [s'' [[h''|]|e|p]]; try exact I.
    destruct HI as [_ [[Hn ->] | (a & x & Hp & _ & ->)]]; simpl.
    + unfold root_type in Hk'. simpl in Hn.
      destruct (kind_of T0) eqn:EK; try contradiction; try discriminate;
        rewrite EK in Hk'; discriminate Hk'.
    + unfold root_type in Hk'. simpl in Hp. rewrite Hp in Hk'. rewrite Hk'. discriminate.
Qed.
End walk_invariant.

(** ** An option the section does not have, first revision *)

Lemma Split_nonempty (s : string) : Split s <> [].
Proof.
  induction s as [|c s IH]; simpl; [discriminate|].
  destruct (Ascii.eqb c comma); [discriminate|].
  destruct (Split s); discriminate.
Qed.

Lemma V1_getSectionName_ok (f : StructField) : snd (V1.getSectionName f) = true.
Proof.
  unfold V1.getSectionName.
  destruct (Split (Tag_Get structTagKey (Tag f))) eqn:E; [|reflexivity].
  now apply Split_nonempty in E.
Qed.

Lemma V1_is_used_insert_ne (used : gmap string bool) (name k : string) :
  name <> k -> V1.is_used (<[name := true]> used) k = V1.is_used used k.
Proof. intros N. unfold V1.is_used. now rewrite lookup_insert_ne. Qed.

Section V1_undeclared.
Variables (section k : string) (nf : StructField -> string).
Variable T0 : rtype.
Variable set0 : gmap string Value.

Hypothesis undeclared : forall i f ft t g gt,
    type_fields (root_type T0) !! i = Some (f, ft) ->
    fst (V1.getSectionName f) = section ->
    In t (section_struct_types ft) ->
    In (g, gt) (type_fields t) ->
    nf g <> k.

#[local] Existing Instance V1.overrideWalker_Walker.

Let tracks := V1_tracks section k nf set0.
Let E : world -> Prop := fun _ => other_key k set0.

Lemma V1_Walk_undeclared (w : V1.overrideWalker) :
  hoare (fun s => tracks 0%Z w /\ vt (tree s) = T0) (Walk w)
        (fun w' _ => tracks 0%Z w') E.
Proof.
  apply (Walk_inv T0 E (fun _ => True)
           (fun w s => tracks 0%Z w /\ vt (tree s) = T0)
           (fun w _ => tracks 0%Z w)
           (fun _ w _ => tracks 0%Z w)
           (fun _ f _ w _ => tracks 0%Z w
                             /\ V1.currentSectionName w = fst (V1.getSectionName f))
           (fun _ f _ w _ => tracks 1%Z w
                             /\ V1.currentSectionName w = fst (V1.getSectionName f))
           (fun _ => True)); try (intros; exact I).
  - intros w0 s [_ Ht]. exact Ht.
  - intros w0 s [Hw _] _. exact Hw.
  - (* top_begin *)
    intros h w0 _ _ _ s [Hw _]. simpl. exact Hw.
  - (* top_field *)
    intros h i f ft w0 _ _ _ Hf s Hw. simpl.
    unfold V1.overrideWalker_StructField.
    destruct Hw as (Hd & Hs & Hset & Hnf & Hu). rewrite Hd. simpl.
    pose proof (V1_getSectionName_ok f) as Hok.
    destruct (V1.getSectionName f) as [name ok]. simpl in Hok. subst ok. simpl.
    destruct (String.eqb (V1.ow_section w0) name); simpl;
      (split; [repeat split; assumption | reflexivity]).
  - (* top_enter *)
    intros i f ft w0 s [(Hd & Hs & Hset & Hnf & Hu) Hc]. simpl.
    split; [|exact Hc]. repeat split; try assumption. simpl. now rewrite Hd.
  - (* top_exit *)
    intros i f ft w0 _ s [(Hd & Hs & Hset & Hnf & Hu) Hc]. simpl.
    repeat split; try assumption. simpl. now rewrite Hd.
  - (* top_end *)
    intros w0 s Hw. simpl. exact Hw.
  - (* enter_other *)
    intros i0 f0 ft0 l w0 Hl s [(Hd & Hs & Hset & Hnf & Hu) Hc]. simpl.
    split; [|exact Hc]. repeat split; try assumption. simpl.
    destruct l; try reflexivity; try assumption. contradiction.
  - (* exit_other *)
    intros i0 f0 ft0 l w0 Hl s [(Hd & Hs & Hset & Hnf & Hu) Hc]. simpl.
    split; [|exact Hc]. repeat split; try assumption. simpl.
    destruct l; try reflexivity; try assumption. contradiction.
  - (* struct_inv *)
    intros i0 f0 ft0 h w0 _ s Hw. simpl. exact Hw.
  - (* field_inv *)
    intros i0 f0 ft0 h i f ft w0 Hf0 Hty _ Hf s [(Hd & Hs & Hset & Hnf & Hu) Hc].
    simpl. unfold V1.overrideWalker_StructField. rewrite Hd. simpl.
    destruct (String.eqb (V1.currentSectionName w0) (V1.ow_section w0)) eqn:Ecur; simpl;
      [|split; [repeat split; assumption | exact Hc]].
    apply String.eqb_eq in Ecur.
    assert (Hne : nf f <> k).
    { apply (undeclared i0 f0 ft0 (h_type h) f ft Hf0); [congruence | exact Hty |].
      apply list_elem_of_In. eapply list_elem_of_lookup_2. exact Hf. }
    rewrite Hnf, Hset.
    destruct (set0 !! nf f) as [setValue|] eqn:Eset;
      [|simpl; split; [repeat split; assumption | exact Hc]].
    unfold bind, wrapping.
    destruct (V1.weakCopyValue (ValueOf setValue) (field_handle h i f ft) s)
      as [s' [[]|e|p]]; simpl; try (exists (nf f), setValue; now split).
    split; [|exact Hc]. repeat split; try assumption. simpl.
    now rewrite V1_is_used_insert_ne.
  - (* enter_exit *)
    intros i0 f0 ft0 w0 s [(Hd & Hs & Hset & Hnf & Hu) Hc]. simpl.
    split; [|exact Hc]. repeat split; try assumption. simpl. rewrite Hd. reflexivity.
  - (* slice_inv *)
    intros i0 f0 ft0 h w0 _ _ _ _ s Hw. simpl. exact Hw.
  - (* elem_inv *)
    intros i0 f0 ft0 i hs a w0 _ _ _ _ _ s Hw. simpl. exact Hw.
Qed.
End V1_undeclared.

(** ** Merging an update action into the stored record *)

Lemma merge_set_lookup (m0 S : gmap string Value) (j : string) :
  map_fold (fun k v m => <[k := v]> m) m0 S !! j
  = match S !! j with Some v => Some v | None => m0 !! j end.
Proof.
  revert j.
  apply (map_fold_weak_ind
           (fun (r : gmap string Value) (S : gmap string Value) =>
              forall j, r !! j = match S !! j with Some v => Some v | None => m0 !! j end)).
  - intros j. now rewrite lookup_empty.
  - intros i x m r Hi IH j.
    destruct (decide (i = j)) as [->|N].
    + now rewrite !lookup_insert_eq.
    + rewrite !lookup_insert_ne by exact N. apply IH.
Qed.

Lemma merge_delete_lookup (l : list string) (m : gmap string Value) (j : string) :
  fold_left (fun m k => delete k m) l m !! j
  = if decide (j ∈ l) then None else m !! j.
Proof.
  revert m. induction l as [|a l IH]; intros m; simpl.
  - destruct (decide (j ∈ [])) as [Hin|_]; [|reflexivity]. now apply elem_of_nil in Hin.
  - rewrite IH.
    destruct (decide (j ∈ l)) as [Hin|Hnin].
    + destruct (decide (j ∈ a :: l)) as [_|N]; [reflexivity|].
      exfalso. apply N. now right.
    + destruct (decide (j ∈ a :: l)) as [Hin|N].
      * apply elem_of_cons in Hin as [->|Hin]; [apply lookup_delete_eq | contradiction].
      * apply lookup_delete_ne. intros ->. apply N. now left.
Qed.

Lemma applyUpdateAction_spec (s : Config.Service) (id : string) (ua : Config.updateAction) :
  store_wf s ->
  exists merged,
    Config.applyUpdateAction s id ua
    = (Config.mkService (Config.overrider s) (Config.updates s)
         (<[id := Config.mkOverride id merged]> (Config.overrides s)), merged)
    /\ forall j, merged !! j
                 = if decide (j ∈ Config.ua_Delete ua) then None
                   else match Config.ua_Set ua !! j with
                        | Some v => Some v
                        | None => stored s id !! j
                        end.
Proof.
  intros Hwf. unfold Config.applyUpdateAction, stored, Config.DAO_Set, Config.DAO_Get.
  destruct (Config.overrides s !! id) as [o|] eqn:Eo.
  - rewrite (Hwf id o Eo). eexists. split; [reflexivity|].
    intros j. simpl. rewrite merge_delete_lookup, merge_set_lookup. reflexivity.
  - eexists. split; [reflexivity|].
    intros j. simpl. rewrite merge_delete_lookup, merge_set_lookup. reflexivity.
Qed.

(** ** Setting an option the section does not have *)

Lemma V1_unused_spec (w : V1.overrideWalker) (k : string) (x : Value) :
  V1.set w !! k = Some x -> V1.is_used (V1.used w) k = false -> In k (V1.unused w).
Proof.
  intros Hk Hu. unfold V1.unused. apply filter_In. split.
  - apply in_map_iff. exists (k, x). split; [reflexivity|].
    apply list_elem_of_In. now apply elem_of_map_to_list.
  - now rewrite Hu.
Qed.

Lemma V1_section_options_spec (nf : StructField -> string) (config : Value)
    (section k : string) :
  ~ In k (V1_section_options nf config section) ->
  forall i f ft t g gt,
    type_fields (root_type (vt config)) !! i = Some (f, ft) ->
    fst (V1.getSectionName f) = section ->
    In t (section_struct_types ft) ->
    In (g, gt) (type_fields t) ->
    nf g <> k.
Proof.
  intros Hn i f ft t g gt Hf Hs Ht Hg Hk. apply Hn.
  unfold V1_section_options, top_fields. apply in_flat_map.
  exists (f, ft). split.
  - apply list_elem_of_In. eapply list_elem_of_lookup_2. exact Hf.
  - simpl. rewrite Hs, String.eqb_refl. apply in_map_iff.
    exists (g, gt). split; [exact Hk|]. apply in_flat_map. exists t. now split.
Qed.

(** What [Override] of the first revision answers when [k] is among the
    overrides and the section has no such option: "unknown options",
    unless applying another override has failed before. *)
Lemma V1_Override_undeclared (c : V1.Overrider) (section k : string) (x : Value)
    (set0 : gmap string Value) (w : world) :
  section <> "" ->
  set0 !! k = Some x ->
  ~ In k (V1_section_options (V1.OptionNameFunc c) (V1.original c) section) ->
  exists w' r,
    V1.Override c section set0 w = (w', r)
    /\ ((exists u, In k u
                   /\ r = Err (Errorf "unknown options %v in section %s"
                                      [OStrs u; OStr section]))
        \/ (other_key k set0
            /\ ((exists e, r = Err (Wrap e "failed to apply changes to configuration object for section %s"
                                           [OStr section]))
                \/ exists p, r = Panic p))).
Proof.
  intros Hne Hk Hund. unfold V1.Override.
  apply String.eqb_neq in Hne. rewrite Hne.
  unfold bind at 1. unfold CopyM.
  destruct (Copy (vv (V1.original c)) (next w)) as [v' n'].
  unfold bind at 1. unfold set_tree. cbn [tree next writes].
  set (s := mkWorld _ n' (writes w)).
  set (w0 := V1.newOverrideWalker section set0 (V1.OptionNameFunc c)).
  pose proof (V1_Walk_undeclared section k (V1.OptionNameFunc c) (vt (V1.original c)) set0
                (V1_section_options_spec _ _ _ _ Hund) w0 s) as HW.
  unfold bind, wrapping.
  destruct (Walk w0 s) as [s' [w'|e|p]].
  - destruct HW as (Hd & Hs & Hset & Hnf & Hu); [split; [repeat split|]; reflexivity|].
    assert (Hin : In k (V1.unused w')).
    { apply V1_unused_spec with x; [now rewrite Hset | exact Hu]. }
    destruct (V1.unused w') as [|u0 u] eqn:EU; [contradiction|]. simpl.
    eexists. eexists. split; [reflexivity|]. left. eexists. split; [exact Hin | reflexivity].
  - eexists. eexists. split; [reflexivity|]. right.
    split; [apply HW; split; [repeat split|]; reflexivity|]. left. eexists. reflexivity.
  - eexists. eexists. split; [reflexivity|]. right.
    split; [apply HW; split; [repeat split|]; reflexivity|]. right. eexists. reflexivity.
Qed.

(** C2, as amended.  For every section and every option name not
    declared as a field of that section, a POST that sets that key is
    refused with status 400 and publishes no update -- with an "unknown
    options" error naming the key, unless applying another option of the
    merged record has failed before -- but the persisted override store
    is not left unchanged: the record merged from the request, which
    holds the key, has been written before the options are checked. *)
Theorem set_unknown_option_rejected (s : Config.Service) (section k : string)
    (x : Value) (ua : Config.updateAction) (w : world) :
  section <> "" ->
  store_wf s ->
  Config.ua_Set ua !! k = Some x ->
  k ∉ Config.ua_Delete ua ->
  ~ In k (V1_section_options (V1.OptionNameFunc (Config.overrider s))
                             (V1.original (Config.overrider s)) section) ->
  exists w' s' r,
    Config.handleUpdateSection s section (Some ua) w = (w', (s', r))
    /\ Config.updates s' = Config.updates s
    /\ stored s' section !! k = Some x
    /\ (forall id, id <> section -> Config.overrides s' !! id = Config.overrides s !! id)
    /\ ((exists u, In k u
           /\ r = Ok (Config.HttpError
                        (Wrap (Errorf "unknown options %v in section %s"
                                      [OStrs u; OStr section])
                              "failed to update config:" [])
                        Config.StatusBadRequest))
        \/ (other_key k (stored s' section)
            /\ ((exists e, r = Ok (Config.HttpError e Config.StatusBadRequest))
                \/ exists p, r = Panic p))).
Proof.
  intros Hne Hwf Hk Hdel Hund.
  unfold Config.handleUpdateSection.
  pose proof Hne as Hne'. apply String.eqb_neq in Hne'. rewrite Hne'.
  destruct (applyUpdateAction_spec s section ua Hwf) as [merged [EA Hm]].
  rewrite EA.
  assert (Hmk : merged !! k = Some x).
  { rewrite Hm. destruct (decide (k ∈ Config.ua_Delete ua)); [contradiction|].
    now rewrite Hk. }
  cbn [Config.overrider Config.updates Config.overrides].
  destruct (V1_Override_undeclared (Config.overrider s) section k x merged w Hne Hmk Hund)
    as (w' & r & EO & Hr).
  rewrite EO.
  assert (Hst : forall s' : Config.Service,
             Config.overrides s'
             = <[section := Config.mkOverride section merged]> (Config.overrides s) ->
             stored s' section = merged).
  { intros s' Hs'. unfold stored, Config.DAO_Get. rewrite Hs'.
    unfold Config.OverrideDAO. now rewrite lookup_insert_eq. }
  destruct Hr as [(u & Hu & ->) | [Ho [[e ->] | [p ->]]]].
  - eexists. eexists. eexists. split; [reflexivity|].
    split; [reflexivity|]. split; [rewrite Hst by reflexivity; exact Hmk|].
    split; [intros id Hid; simpl; unfold Config.OverrideDAO; now rewrite lookup_insert_ne|].
    left. exists u. split; [exact Hu | reflexivity].
  - eexists. eexists. eexists. split; [reflexivity|].
    split; [reflexivity|]. split; [rewrite Hst by reflexivity; exact Hmk|].
    split; [intros id Hid; simpl; unfold Config.OverrideDAO; now rewrite lookup_insert_ne|].
    right. split; [rewrite Hst by reflexivity; exact Ho|]. left. eexists. reflexivity.
  - eexists. eexists. eexists. split; [reflexivity|].
    split; [reflexivity|]. split; [rewrite Hst by reflexivity; exact Hmk|].
    split; [intros id Hid; simpl; unfold Config.OverrideDAO; now rewrite lookup_insert_ne|].
    right. split; [rewrite Hst by reflexivity; exact Ho|]. right. eexists. reflexivity.
Qed.

Lemma NewService_store_wf (config : Value) : store_wf (Config.NewService config).
Proof.
  intros id o Ho. simpl in Ho. unfold Config.OverrideDAO in Ho.
  rewrite lookup_empty in Ho. discriminate Ho.
Qed.

Lemma testConfig_no_such_option :
  ~ In "option-nonexistent"
       (V1_section_options TomlFieldName Examples.testConfig "section-a").
Proof. vm_compute. intros [H|[]]. discriminate H. Qed.

(** Scenario S6 of the service: [{"set":{"option-nonexistent": 1}}]
    posted to [/section-a]. *)
Lemma set_unknown_option_rejected_witness :
  exists w' s' r,
    Config.handleUpdateSection (Config.NewService Examples.testConfig) "section-a"
      (Some (Config.mkUpdateAction {["option-nonexistent" := Examples.num 1]} []))
      Examples.w0 = (w', (s', r))
    /\ Config.updates s' = []
    /\ stored s' "section-a" !! "option-nonexistent" = Some (Examples.num 1).
Proof.
  destruct (set_unknown_option_rejected (Config.NewService Examples.testConfig)
              "section-a" "option-nonexistent" (Examples.num 1)
              (Config.mkUpdateAction {["option-nonexistent" := Examples.num 1]} [])
              Examples.w0)
    as (w' & s' & r & EH & Hu & Hs & _).
  - discriminate.
  - apply NewService_store_wf.
  - reflexivity.
  - intros H. inversion H.
  - exact testConfig_no_such_option.
  - exists w', s', r. auto.
Defined.

(** C2 as stated fails: the request of scenario S6 is refused with
    "unknown options", and yet the store, empty before, now holds a
    record for [section-a] with the refused key. *)
Lemma set_unknown_option_counterexample :
  ~ In "option-nonexistent"
       (V1_section_options TomlFieldName Examples.testConfig "section-a")
  /\ exists w' s',
      Config.handleUpdateSection (Config.NewService Examples.testConfig) "section-a"
        (Some (Config.mkUpdateAction {["option-nonexistent" := Examples.num 1]} []))
        Examples.w0
      = (w', (s', Ok (Config.HttpError
                        (Wrap (Errorf "unknown options %v in section %s"
                                      [OStrs ["option-nonexistent"]; OStr "section-a"])
                              "failed to update config:" [])
                        Config.StatusBadRequest)))
      /\ Config.overrides (Config.NewService Examples.testConfig) !! "section-a" = None
      /\ Config.overrides s' !! "section-a"
         = Some (Config.mkOverride "section-a"
                   {["option-nonexistent" := Examples.num 1]}).
Proof.
  split; [exact testConfig_no_such_option|].
  eexists. eexists. split; [vm_compute; reflexivity|].
  split; [reflexivity | vm_compute; reflexivity].
Qed.

(** ** Resolving a section that has no overrides, first revision *)

Lemma Copy_strip (v : value) : forall n, strip (fst (Copy v n)) = strip v.
Proof.
  induction v using value_rect'; intros nx; try reflexivity.
  - (* struct *)
    simpl.
    match goal with
    | |- context [(fix go (l : list value) (n : addr) {struct l} := _) fs nx] =>
        set (go := (fix go (l : list value) (n : addr) {struct l} : list value * addr := _))
    end.
    assert (Hgo : forall n, List.map strip (fst (go fs n)) = List.map strip fs).
    { clear nx. induction H as [|x l Hx Hl IH]; intros n; [reflexivity|].
      simpl. specialize (Hx n). destruct (Copy x n) as [x' n1].
      specialize (IH n1). destruct (go l n1) as [l'' n2]. simpl in *. congruence. }
    specialize (Hgo nx). destruct (go fs nx) as [fs' n']. simpl in *. congruence.
  - (* array *)
    simpl.
    match goal with
    | |- context [(fix go (l : list value) (n : addr) {struct l} := _) es nx] =>
        set (go := (fix go (l : list value) (n : addr) {struct l} : list value * addr := _))
    end.
    assert (Hgo : forall n, List.map strip (fst (go es n)) = List.map strip es).
    { clear nx. induction H as [|x l Hx Hl IH]; intros n; [reflexivity|].
      simpl. specialize (Hx n). destruct (Copy x n) as [x' n1].
      specialize (IH n1). destruct (go l n1) as [l'' n2]. simpl in *. congruence. }
    specialize (Hgo nx). destruct (go es nx) as [fs' n']. simpl in *. congruence.
  - (* slice *)
    simpl.
    match goal with
    | |- context [(fix go (l : list value) (n : addr) {struct l} := _) es (S nx)] =>
        set (go := (fix go (l : list value) (n : addr) {struct l} : list value * addr := _))
    end.
    assert (Hgo : forall n, List.map strip (fst (go es n)) = List.map strip es).
    { clear nx. induction H as [|x l Hx Hl IH]; intros n; [reflexivity|].
      simpl. specialize (Hx n). destruct (Copy x n) as [x' n1].
      specialize (IH n1). destruct (go l n1) as [l'' n2]. simpl in *. congruence. }
    specialize (Hgo (S nx)). destruct (go es (S nx)) as [fs' n']. simpl in *. congruence.
  - (* map *)
    simpl.
    match goal with
    | |- context [(fix go (l : list (value * value)) (n : addr) {struct l} := _) kvs (S nx)] =>
        set (go := (fix go (l : list (value * value)) (n : addr) {struct l}
                      : list (value * value) * addr := _))
    end.
    assert (Hgo : forall n,
               List.map (fun kv => (strip (fst kv), strip (snd kv))) (fst (go kvs n))
               = List.map (fun kv => (strip (fst kv), strip (snd kv))) kvs).
    { clear nx. induction H as [|[k0 x0] l [Hk Hx] Hl IH]; intros n; [reflexivity|].
      simpl in *. specialize (Hk n). destruct (Copy k0 n) as [k' n1].
      specialize (Hx n1). destruct (Copy x0 n1) as [x' n2].
      specialize (IH n2). destruct (go l n2) as [l'' n3]. simpl in *. congruence. }
    specialize (Hgo (S nx)). destruct (go kvs (S nx)) as [fs' n']. simpl in *. congruence.
  - (* pointer *)
    simpl. specialize (IHv (S nx)). destruct (Copy v (S nx)) as [x' n']. simpl in *.
    congruence.
  - (* interface *)
    simpl. specialize (IHv nx). destruct (Copy v nx) as [x' n']. simpl in *. congruence.
Qed.

Lemma vget_strip (p : list step) (v : value) :
  vget p (strip v) = strip <$> vget p v.
Proof.
  revert v. induction p as [|st p IH]; intros v; [reflexivity|].
  destruct st as [i|i|]; destruct v as [| | | |fs|es|[[a es]|]|[[a kvs]|]|[[a x]|]|[[t x]|]|[a|]];
    try reflexivity; simpl.
  - rewrite list_lookup_fmap. destruct (fs !! i); simpl; [apply IH | reflexivity].
  - rewrite list_lookup_fmap. destruct (es !! i); simpl; [apply IH | reflexivity].
  - apply IH.
Qed.

Section V1_no_overrides.
Variables (section : string) (nf : StructField -> string).
Variable T0 : rtype.
Variable s0 : world.

#[local] Existing Instance V1.overrideWalker_Walker.

Let idle := V1_idle section nf.
Let holds := V1_holds T0 section.

Lemma V1_Walk_idle (w : V1.overrideWalker) :
  hoare (fun s => s = s0 /\ vt (tree s0) = T0 /\ idle 0%Z w /\ V1.sectionValue w = None)
        (Walk w)
        (fun w' s' => s' = s0 /\ idle 0%Z w'
                      /\ (root_reached T0 s0 ->
                          holds (length (type_fields (root_type T0))) w'))
        (fun _ => False).
Proof.
  apply (Walk_inv T0 (fun _ => False) (fun _ => True)
           (fun w s => s = s0 /\ vt (tree s0) = T0 /\ idle 0%Z w
                       /\ V1.sectionValue w = None)
           (fun w s => s = s0 /\ idle 0%Z w
                       /\ (root_reached T0 s0 ->
                           holds (length (type_fields (root_type T0))) w))
           (fun i w s => s = s0 /\ idle 0%Z w /\ holds i w)
           (fun i _ _ w s => s = s0 /\ idle 0%Z w /\ holds (S i) w)
           (fun i _ _ w s => s = s0 /\ idle 1%Z w /\ holds (S i) w)
           (fun _ => True)); try (intros; exact I).
  - intros w0 s (-> & Ht & _). exact Ht.
  - (* root_skip *)
    intros w0 s (-> & _ & Hi & _) Hskip. split; [reflexivity|]. split; [exact Hi|].
    intros (h' & EI & Hk). rewrite EI in Hskip. contradiction.
  - (* top_begin *)
    intros h w0 _ _ _ s (-> & _ & Hi & Hn). simpl.
    split; [reflexivity|]. split; [exact Hi | exact Hn].
  - (* top_field *)
    intros h i f ft w0 _ _ Hroot Hf s (-> & Hi & Hh). simpl.
    unfold V1.overrideWalker_StructField.
    destruct Hi as (Hd & Hs & Hset & Hu & Hnf). rewrite Hd. simpl.
    pose proof (V1_getSectionName_ok f) as Hok.
    unfold holds, V1_holds. simpl. rewrite Hf.
    destruct (V1.getSectionName f) as [name ok]. simpl in Hok. subst ok. simpl.
    rewrite Hs.
    destruct (String.eqb section name); simpl.
    + split; [reflexivity|]. split; [repeat split; assumption|].
      exists h. split; [exact Hroot | reflexivity].
    + split; [reflexivity|]. split; [repeat split; assumption | exact Hh].
  - (* top_enter *)
    intros i f ft w0 s (-> & (Hd & Hs & Hset & Hu & Hnf) & Hh). simpl.
    split; [reflexivity|]. split; [|exact Hh].
    repeat split; try assumption. simpl. now rewrite Hd.
  - (* top_exit *)
    intros i f ft w0 _ s (-> & (Hd & Hs & Hset & Hu & Hnf) & Hh). simpl.
    split; [reflexivity|]. split; [|exact Hh].
    repeat split; try assumption. simpl. now rewrite Hd.
  - (* top_end *)
    intros w0 s (-> & Hi & Hh). simpl. split; [reflexivity|]. split; [exact Hi | auto].
  - (* enter_other *)
    intros i0 f0 ft0 l w0 Hl s (-> & (Hd & Hs & Hset & Hu & Hnf) & Hh). simpl.
    split; [reflexivity|]. split; [|exact Hh]. repeat split; try assumption. simpl.
    destruct l; try reflexivity; try assumption. contradiction.
  - (* exit_other *)
    intros i0 f0 ft0 l w0 Hl s (-> & (Hd & Hs & Hset & Hu & Hnf) & Hh). simpl.
    split; [reflexivity|]. split; [|exact Hh]. repeat split; try assumption. simpl.
    destruct l; try reflexivity; try assumption. contradiction.
  - (* struct_inv *)
    intros i0 f0 ft0 h w0 _ s Hw. simpl. exact Hw.
  - (* field_inv *)
    intros i0 f0 ft0 h i f ft w0 _ _ _ _ s (-> & (Hd & Hs & Hset & Hu & Hnf) & Hh).
    simpl. unfold V1.overrideWalker_StructField. rewrite Hd. simpl.
    destruct (String.eqb (V1.currentSectionName w0) (V1.ow_section w0)); simpl;
      [|split; [reflexivity|]; split; [repeat split; assumption | exact Hh]].
    rewrite Hset, lookup_empty. simpl.
    split; [reflexivity|]. split; [repeat split; assumption | exact Hh].
  - (* enter_exit *)
    intros i0 f0 ft0 w0 s (-> & (Hd & Hs & Hset & Hu & Hnf) & Hh). simpl.
    split; [reflexivity|]. split; [|exact Hh].
    repeat split; try assumption. simpl. rewrite Hd. reflexivity.
  - (* slice_inv *)
    intros i0 f0 ft0 h w0 _ _ _ _ s Hw. simpl. exact Hw.
  - (* elem_inv *)
    intros i0 f0 ft0 i hs a w0 _ _ _ _ _ s Hw. simpl. exact Hw.
Qed.
End V1_no_overrides.

Lemma V1_section_field_inv (config : Value) (section : string)
    (j : nat) (f : StructField) (ft : rtype) (v : value) :
  V1_section_field config section = Some (j, f, ft, v) ->
  kind_of (root_type (vt config)) = KStruct
  /\ V1_found (top_fields config) section (length (top_fields config)) = Some (j, f, ft)
  /\ Exported f = true
  /\ exists fs, root_values config = Some fs /\ fs !! j = Some v.
Proof.
  unfold V1_section_field. intros H.
  destruct (kind_eqb (kind_of (root_type (vt config))) KStruct) eqn:EK; [|discriminate H].
  apply kind_eqb_eq in EK. simpl in H.
  destruct (root_values config) as [fs|]; [|discriminate H].
  destruct (V1_found (top_fields config) section (length (top_fields config)))
    as [[[j' f'] ft']|]; [|discriminate H].
  destruct (Exported f') eqn:EE; [|discriminate H].
  destruct (fs !! j') as [v'|] eqn:Ev; [|discriminate H].
  injection H as -> -> -> ->. repeat split; try assumption.
  exists fs. split; [reflexivity | exact Ev].
Qed.

(** Reading the field [j] of the struct at the root, in the original
    and in a copy. *)
Lemma root_field_of_copy (config : Value) (n : addr) (fs : list value)
    (j : nat) (v : value) (p : list step) :
  root_values config = Some fs -> fs !! j = Some v ->
  p = (if kind_eqb (kind_of (vt config)) KPtr then [SDeref] else []) ++ [SField j] ->
  exists v', vget p (fst (Copy (vv config) n)) = Some v' /\ DeepEqual v' v.
Proof.
  intros Hr Hj ->.
  assert (Ho : vget ((if kind_eqb (kind_of (vt config)) KPtr then [SDeref] else [])
                       ++ [SField j]) (vv config) = Some v).
  { unfold root_values in Hr.
    destruct (kind_of (vt config)); simpl;
      destruct (vv config) as [| | | |fs0|es|[[a es]|]|[[a kvs]|]|[[a x]|]|[[t x]|]|[a|]];
      try discriminate Hr;
      try (injection Hr as ->; simpl; now rewrite Hj).
    destruct x; try discriminate Hr. injection Hr as ->. simpl. now rewrite Hj. }
  pose proof (vget_strip ((if kind_eqb (kind_of (vt config)) KPtr then [SDeref] else [])
                            ++ [SField j]) (fst (Copy (vv config) n))) as Hc.
  rewrite Copy_strip, vget_strip, Ho in Hc. simpl in Hc.
  destruct (vget _ (fst (Copy (vv config) n))) as [v'|]; [|discriminate Hc].
  exists v'. split; [reflexivity|]. unfold DeepEqual. simpl in Hc. congruence.
Qed.

Lemma root_struct_path (T0 : rtype) (h : handle) :
  root_struct T0 h ->
  h_path h = (if kind_eqb (kind_of T0) KPtr then [SDeref] else [])
  /\ h_ro h = false.
Proof.
  intros [[Hk ->] | [Hk [a ->]]]; simpl.
  - split; [|reflexivity]. destruct (kind_of T0); try reflexivity. contradiction.
  - rewrite Hk. split; reflexivity.
Qed.

Lemma root_reached_of_copy (config : Value) (s : world) (fs : list value) :
  kind_of (root_type (vt config)) = KStruct ->
  root_values config = Some fs ->
  forall n t nx ws,
    s = mkWorld (mkValue (vt config) (fst (Copy (vv config) n))) nx ws ->
    t = vt config ->
    root_reached t s.
Proof.
  intros Hk Hr n t nx ws -> ->. unfold root_reached, Indirect, read. simpl.
  unfold root_values in Hr. unfold root_type in Hk.
  destruct (kind_of (vt config)) eqn:EK;
    try (eexists; split; [reflexivity | simpl; exact Hk]).
  destruct (vv config) as [| | | |fs0|es|[[a es]|]|[[a kvs]|]|[[a x]|]|[[t x]|]|[a|]];
    try discriminate Hr.
  simpl. destruct (Copy x (S n)) as [x' n']. simpl.
  eexists. split; [reflexivity|]. simpl. exact Hk.
Qed.

(** [Override] of the first revision with no overrides returns the
    section as it is in the original. *)
Lemma V1_Override_no_overrides (c : V1.Overrider) (section : string) (w : world)
    (j : nat) (f : StructField) (ft : rtype) (v : value) :
  section <> "" ->
  V1_section_field (V1.original c) section = Some (j, f, ft, v) ->
  exists w' v',
    V1.Override c section ∅ w
    = (w', Ok (V1.mkSection (mkValue ft v') (V1.OptionNameFunc c)))
    /\ DeepEqual v' v.
Proof.
  intros Hne Hsec.
  apply V1_section_field_inv in Hsec as (Hk & Hfound & Hexp & fs & Hr & Hj).
  unfold V1.Override. apply String.eqb_neq in Hne. rewrite Hne.
  unfold bind at 1. unfold CopyM.
  destruct (Copy (vv (V1.original c)) (next w)) as [v0 n'] eqn:EC.
  unfold bind at 1. unfold set_tree. cbn [tree next writes].
  set (s := mkWorld _ n' (writes w)).
  set (w0 := V1.newOverrideWalker section ∅ (V1.OptionNameFunc c)).
  pose proof (V1_Walk_idle section (V1.OptionNameFunc c) (vt (V1.original c)) s w0 s) as HW.
  unfold bind, wrapping.
  destruct (Walk w0 s) as [s' [w'|e|p]];
    try (exfalso; apply HW; repeat split; reflexivity).
  destruct HW as (-> & (Hd & Hs & Hset & Hu & Hnf) & Hh);
    [repeat split; reflexivity|].
  assert (Hreach : root_reached (vt (V1.original c)) s).
  { apply (root_reached_of_copy (V1.original c) s fs Hk Hr (next w) _ n' (writes w));
      [|reflexivity]. unfold s. now rewrite EC. }
  specialize (Hh Hreach). unfold V1_holds in Hh.
  unfold top_fields in Hfound. rewrite Hfound in Hh.
  destruct Hh as (h & Hroot & Hsv).
  unfold V1.unused. rewrite Hset, map_to_list_empty. simpl.
  unfold V1.sectionObject. rewrite Hsv. unfold bind, Interface.
  destruct (root_struct_path _ h Hroot) as [Hpath Hro].
  simpl. rewrite Hro, Hexp. simpl.
  destruct (root_field_of_copy (V1.original c) (next w) fs j v
              (h_path h ++ [SField j]) Hr Hj) as (v' & Hv' & Hde).
  { now rewrite Hpath. }
  unfold read. simpl. rewrite EC in Hv'. simpl in Hv'. rewrite Hv'.
  exists s, v'. split; [reflexivity | exact Hde].
Qed.

(** ** Set, then delete *)

(** What a POST does, whatever becomes of it: the merged record is
    stored, [Override] is called with it, and an update is published
    exactly when [Override] succeeds. *)
Lemma handleUpdateSection_spec (s : Config.Service) (section : string)
    (ua : Config.updateAction) (w : world) :
  section <> "" -> store_wf s ->
  exists merged w' s' r r0,
    Config.handleUpdateSection s section (Some ua) w = (w', (s', r))
    /\ V1.Override (Config.overrider s) section merged w = (w', r0)
    /\ Config.overrider s' = Config.overrider s
    /\ store_wf s'
    /\ stored s' section = merged
    /\ (forall j, merged !! j
                  = if decide (j ∈ Config.ua_Delete ua) then None
                    else match Config.ua_Set ua !! j with
                         | Some v => Some v
                         | None => stored s section !! j
                         end)
    /\ match r0 with
       | Ok newConfig =>
           r = Ok (Config.mkResponse Config.StatusNoContent None None)
           /\ Config.updates s'
              = Config.updates s
                  ++ [Config.mkConfigUpdate section (V1.Section_Value newConfig)]
       | Err e =>
           r = Ok (Config.HttpError (Wrap e "failed to update config:" [])
                                    Config.StatusBadRequest)
           /\ Config.updates s' = Config.updates s
       | Panic p => r = Panic p /\ Config.updates s' = Config.updates s
       end.
Proof.
  intros Hne Hwf. unfold Config.handleUpdateSection.
  apply String.eqb_neq in Hne. rewrite Hne.
  destruct (applyUpdateAction_spec s section ua Hwf) as [merged [EA Hm]].
  rewrite EA. cbn [Config.overrider Config.updates Config.overrides].
  assert (Hwf' : forall u, store_wf (Config.mkService (Config.overrider s) u
                   (<[section := Config.mkOverride section merged]> (Config.overrides s)))).
  { intros u id o. simpl. unfold Config.OverrideDAO.
    destruct (decide (section = id)) as [->|N].
    - rewrite lookup_insert_eq. intros [= <-]. reflexivity.
    - rewrite lookup_insert_ne by exact N. apply Hwf. }
  assert (Hst : forall u, stored (Config.mkService (Config.overrider s) u
                   (<[section := Config.mkOverride section merged]> (Config.overrides s)))
                  section = merged).
  { intros u. unfold stored, Config.DAO_Get. simpl. unfold Config.OverrideDAO.
    now rewrite lookup_insert_eq. }
  exists merged.
  destruct (V1.Override (Config.overrider s) section merged w) as [w' [nc|e|p]];
    eexists; eexists; eexists; eexists;
    (split; [reflexivity|]); (split; [reflexivity|]); (split; [reflexivity|]);
    (split; [apply Hwf'|]); (split; [apply Hst|]); (split; [exact Hm|]);
    split; reflexivity.
Qed.

(** C7.  For every option [k] and every override value [x], applying the
    update action [set k=x] and then the update action [delete k] to a
    section leaves its stored override record as it was, without [k],
    and the second request resolves the section from the original and
    that record: [k] is no longer overridden and the other options are
    overridden as before.  When no other option of the section is
    overridden, the second request succeeds and publishes the section
    with its original value, every option included. *)
Theorem set_then_delete_restores (s : Config.Service) (section k : string)
    (x : Value) (w : world) (j : nat) (f : StructField) (ft : rtype) (v : value) :
  section <> "" ->
  store_wf s ->
  V1_section_field (V1.original (Config.overrider s)) section = Some (j, f, ft, v) ->
  exists w1 s1 r1 w2 s2 r2,
    Config.handleUpdateSection s section
      (Some (Config.mkUpdateAction {[k := x]} [])) w = (w1, (s1, r1))
    /\ Config.handleUpdateSection s1 section
         (Some (Config.mkUpdateAction ∅ [k])) w1 = (w2, (s2, r2))
    /\ stored s1 section = <[k := x]> (stored s section)
    /\ stored s2 section = delete k (stored s section)
    /\ (exists r0,
          V1.Override (Config.overrider s) section (delete k (stored s section)) w1
          = (w2, r0)
          /\ match r0 with
             | Ok newConfig =>
                 r2 = Ok (Config.mkResponse Config.StatusNoContent None None)
                 /\ Config.updates s2
                    = Config.updates s1
                        ++ [Config.mkConfigUpdate section (V1.Section_Value newConfig)]
             | Err e =>
                 r2 = Ok (Config.HttpError (Wrap e "failed to update config:" [])
                                           Config.StatusBadRequest)
                 /\ Config.updates s2 = Config.updates s1
             | Panic p => r2 = Panic p /\ Config.updates s2 = Config.updates s1
             end)
    /\ ((forall k', k' <> k -> stored s section !! k' = None) ->
        r2 = Ok (Config.mkResponse Config.StatusNoContent None None)
        /\ exists v',
            Config.updates s2
            = Config.updates s1 ++ [Config.mkConfigUpdate section (mkValue ft v')]
            /\ DeepEqual v' v).
Proof.
  intros Hne Hwf Hsec.
  destruct (handleUpdateSection_spec s section (Config.mkUpdateAction {[k := x]} []) w
              Hne Hwf)
    as (m1 & w1 & s1 & r1 & r01 & E1 & _ & Hc1 & Hwf1 & Hst1 & Hm1 & _).
  destruct (handleUpdateSection_spec s1 section (Config.mkUpdateAction ∅ [k]) w1
              Hne Hwf1)
    as (m2 & w2 & s2 & r2 & r02 & E2 & EO2 & Hc2 & Hwf2 & Hst2 & Hm2 & Hr2).
  assert (Em1 : m1 = <[k := x]> (stored s section)).
  { apply map_eq. intros i. rewrite Hm1. simpl.
    destruct (decide (i ∈ [])) as [Hin|_]; [now apply elem_of_nil in Hin|].
    destruct (decide (k = i)) as [->|N].
    - now rewrite lookup_singleton_eq, lookup_insert_eq.
    - now rewrite lookup_singleton_ne, lookup_insert_ne. }
  assert (Em2 : m2 = delete k (stored s section)).
  { apply map_eq. intros i. rewrite Hm2, Hst1, Em1. simpl.
    rewrite lookup_empty.
    destruct (decide (i ∈ [k])) as [Hin|Hnin].
    - apply list_elem_of_singleton in Hin as ->. now rewrite lookup_delete_eq.
    - assert (N : k <> i) by (intros ->; apply Hnin; now left).
      now rewrite lookup_insert_ne, lookup_delete_ne. }
  exists w1, s1, r1, w2, s2, r2.
  split; [exact E1|]. split; [exact E2|].
  split; [now rewrite Hst1|]. split; [now rewrite Hst2|].
  split; [exists r02; rewrite <- Em2, <- Hc1; split; [exact EO2 | exact Hr2]|].
  intros Hothers.
  assert (Eempty : m2 = ∅).
  { rewrite Em2. apply map_eq. intros i. rewrite lookup_empty.
    destruct (decide (k = i)) as [->|N]; [apply lookup_delete_eq|].
    rewrite lookup_delete_ne by exact N. apply Hothers. congruence. }
  rewrite Hc1 in EO2. rewrite Eempty in EO2.
  destruct (V1_Override_no_overrides (Config.overrider s) section w1 j f ft v Hne Hsec)
    as (w' & v' & EO & Hde).
  rewrite EO in EO2. injection EO2 as _ <-.
  destruct Hr2 as [-> Hu]. split; [reflexivity|].
  exists v'. split; [exact Hu | exact Hde].
Qed.

(** Scenarios S1 and S3 of the service: [{"set":{"option-1":"new-o1"}}]
    and then [{"delete":["option-1"]}] posted to [/section-a]. *)
Lemma set_then_delete_restores_witness :
  exists w1 s1 r1 w2 s2 v',
    Config.handleUpdateSection (Config.NewService Examples.testConfig) "section-a"
      (Some (Config.mkUpdateAction {["option-1" := Examples.str "new-o1"]} []))
      Examples.w0 = (w1, (s1, r1))
    /\ Config.handleUpdateSection s1 "section-a"
         (Some (Config.mkUpdateAction ∅ ["option-1"])) w1
       = (w2, (s2, Ok (Config.mkResponse Config.StatusNoContent None None)))
    /\ Config.updates s2
       = Config.updates s1
           ++ [Config.mkConfigUpdate "section-a" (mkValue Examples.SectionA v')]
    /\ DeepEqual v' (VStruct [VString "o1"]).
Proof.
  destruct (set_then_delete_restores (Config.NewService Examples.testConfig)
              "section-a" "option-1" (Examples.str "new-o1") Examples.w0
              0 (exported "SectionA" [("toml", "section-a"); ("override", "section-a")])
              Examples.SectionA (VStruct [VString "o1"]))
    as (w1 & s1 & r1 & w2 & s2 & r2 & E1 & E2 & _ & _ & _ & Hres).
  - discriminate.
  - apply NewService_store_wf.
  - reflexivity.
  - destruct Hres as [-> (v' & Hu & Hde)].
    + intros k' _. reflexivity.
    + exists w1, s1, r1, w2, s2, v'. auto.
Defined.

(** ** What a call can reach and write *)

Lemma in_flat_map_vaddrs (l : list value) (a : addr) :
  In a (flat_map vaddrs l) <-> exists x, In x l /\ In a (vaddrs x).
Proof. apply in_flat_map. Qed.

Lemma poke_fresh (a : addr) (node v : value) :
  ~ In a (vaddrs v) -> poke a node v = v.
Proof.
  induction v using value_rect'; intros Hn; try reflexivity; simpl in *.
  - f_equal. rewrite <- (map_id fs) at 2. apply map_ext_in.
    intros x Hx. rewrite List.Forall_forall in H. apply H; [exact Hx|].
    intros Hin. apply Hn. apply in_flat_map. eauto.
  - f_equal. rewrite <- (map_id es) at 2. apply map_ext_in.
    intros x Hx. rewrite List.Forall_forall in H. apply H; [exact Hx|].
    intros Hin. apply Hn. apply in_flat_map. eauto.
  - destruct (Nat.eqb a a0) eqn:Ea; [apply Nat.eqb_eq in Ea; subst; tauto|].
    do 3 f_equal. rewrite <- (map_id es) at 2. apply map_ext_in.
    intros x Hx. rewrite List.Forall_forall in H. apply H; [exact Hx|].
    intros Hin. apply Hn. right. apply in_flat_map. eauto.
  - destruct (Nat.eqb a a0) eqn:Ea; [apply Nat.eqb_eq in Ea; subst; tauto|].
    do 3 f_equal. rewrite <- (map_id kvs) at 2. apply map_ext_in.
    intros [k x] Hx. rewrite List.Forall_forall in H. destruct (H _ Hx) as [Hk Hv]. simpl in *.
    f_equal.
    + apply Hk. intros Hin. apply Hn. right. apply in_flat_map.
      exists (k, x). split; [exact Hx|]. apply in_or_app. now left.
    + apply Hv. intros Hin. apply Hn. right. apply in_flat_map.
      exists (k, x). split; [exact Hx|]. apply in_or_app. now right.
  - destruct (Nat.eqb a a0) eqn:Ea; [apply Nat.eqb_eq in Ea; subst; tauto|].
    do 3 f_equal. apply IHv. tauto.
  - do 3 f_equal. apply IHv. exact Hn.
Qed.

Lemma observe_untouched (log : list (addr * value)) (v : value) :
  (forall an, In an log -> ~ In (fst an) (vaddrs v)) -> observe log v = v.
Proof.
  unfold observe. induction log as [|[a node] log IH]; intros H; [reflexivity|].
  simpl. rewrite poke_fresh by (apply (H (a, node)); now left).
  apply IH. intros an Hin. apply H. now right.
Qed.

Lemma In_list_insert {A} (l : list A) (i : nat) (x y : A) :
  In y (<[i := x]> l) -> y = x \/ In y l.
Proof.
  revert i. induction l as [|z l IH]; intros i H; [contradiction|].
  destruct i as [|i]; simpl in H.
  - destruct H as [<-|H]; [now left | right; now right].
  - destruct H as [<-|H]; [right; now left|].
    destruct (IH i H) as [->|Hin]; [now left | right; now right].
Qed.

Lemma In_take {A} (l : list A) (n : nat) (x : A) : In x (take n l) -> In x l.
Proof.
  revert n. induction l as [|z l IH]; intros [|n] H; simpl in H; try contradiction.
  destruct H as [<-|H]; [now left | right; eauto].
Qed.

Lemma In_drop {A} (l : list A) (n : nat) (x : A) : In x (drop n l) -> In x l.
Proof.
  revert n. induction l as [|z l IH]; intros [|n] H; simpl in H; try contradiction.
  - exact H.
  - right. eauto.
Qed.

Lemma vaddrs_poke (a : addr) (node v : value) (b : addr) :
  In b (vaddrs (poke a node v)) -> In b (vaddrs v) \/ In b (vaddrs node).
Proof.
  induction v using value_rect'; intros Hb; try (now left); simpl in *.
  - apply in_flat_map in Hb as (y & Hy & Hb). apply in_map_iff in Hy as (x & <- & Hx).
    rewrite List.Forall_forall in H. destruct (H x Hx Hb) as [Hl|Hr]; [left | now right].
    apply in_flat_map. eauto.
  - apply in_flat_map in Hb as (y & Hy & Hb). apply in_map_iff in Hy as (x & <- & Hx).
    rewrite List.Forall_forall in H. destruct (H x Hx Hb) as [Hl|Hr]; [left | now right].
    apply in_flat_map. eauto.
  - destruct (Nat.eqb a a0).
    + destruct node as [| | | | | |[[c cs]|]| | | |]; try (now left). now right.
    + simpl in Hb. destruct Hb as [<-|Hb]; [left; now left|].
      apply in_flat_map in Hb as (y & Hy & Hb). apply in_map_iff in Hy as (x & <- & Hx).
      rewrite List.Forall_forall in H. destruct (H x Hx Hb) as [Hl|Hr]; [left | now right].
      right. apply in_flat_map. eauto.
  - destruct (Nat.eqb a a0).
    + destruct node as [| | | | | | |[[c cs]|]| | |]; try (now left). now right.
    + simpl in Hb. destruct Hb as [<-|Hb]; [left; now left|].
      apply in_flat_map in Hb as (y & Hy & Hb). apply in_map_iff in Hy as ([k x] & <- & Hx).
      rewrite List.Forall_forall in H. destruct (H _ Hx) as [Hk Hv]. simpl in *.
      apply in_app_or in Hb as [Hb|Hb].
      * destruct (Hk Hb) as [Hl|Hr]; [left | now right].
        right. apply in_flat_map. exists (k, x). split; [exact Hx|].
        apply in_or_app. now left.
      * destruct (Hv Hb) as [Hl|Hr]; [left | now right].
        right. apply in_flat_map. exists (k, x). split; [exact Hx|].
        apply in_or_app. now right.
  - destruct (Nat.eqb a a0).
    + destruct node as [| | | | | | | |[[c cx]|]| |]; try (now left). now right.
    + simpl in Hb. destruct Hb as [<-|Hb]; [left; now left|].
      destruct (IHv Hb) as [Hl|Hr]; [left; now right | now right].
  - exact (IHv Hb).
Qed.

Lemma vaddrs_vget (p : list step) (t v : value) :
  vget p t = Some v -> incl (vaddrs v) (vaddrs t).
Proof.
  revert t. induction p as [|st p IH]; intros t H.
  - injection H as ->. apply incl_refl.
  - destruct st as [i|i|];
      destruct t as [| | | |fs|es|[[a es]|]|[[a kvs]|]|[[a x]|]|[[ty x]|]|r];
      try discriminate H; simpl in H.
    + destruct (fs !! i) as [x|] eqn:Ei; [|discriminate H].
      intros b Hb. simpl. apply in_flat_map. exists x. split; [|now apply (IH x H)].
      apply list_elem_of_In. eapply list_elem_of_lookup_2. exact Ei.
    + destruct (es !! i) as [x|] eqn:Ei; [|discriminate H].
      intros b Hb. simpl. right. apply in_flat_map. exists x. split; [|now apply (IH x H)].
      apply list_elem_of_In. eapply list_elem_of_lookup_2. exact Ei.
    + intros b Hb. simpl. right. now apply (IH x H).
Qed.

Lemma vaddrs_vset (p : list step) (new t t' : value) (b : addr) :
  vset p new t = Some t' -> In b (vaddrs t') -> In b (vaddrs t) \/ In b (vaddrs new).
Proof.
  revert t t'. induction p as [|st p IH]; intros t t' H Hb.
  - injection H as <-. now right.
  - destruct st as [i|i|];
      destruct t as [| | | |fs|es|[[a es]|]|[[a kvs]|]|[[a x]|]|[[ty x]|]|r];
      try discriminate H; simpl in H.
    + destruct (fs !! i) as [x|] eqn:Ei; [|discriminate H].
      destruct (vset p new x) as [x'|] eqn:Ex; [|discriminate H]. injection H as <-.
      simpl in Hb. apply in_flat_map in Hb as (y & Hy & Hb).
      apply In_list_insert in Hy as [->|Hy].
      * destruct (IH x x' Ex Hb) as [Hl|Hr]; [left | now right].
        simpl. apply in_flat_map. exists x. split; [|exact Hl].
        apply list_elem_of_In. eapply list_elem_of_lookup_2. exact Ei.
      * left. simpl. apply in_flat_map. eauto.
    + destruct (es !! i) as [x|] eqn:Ei; [|discriminate H].
      destruct (vset p new x) as [x'|] eqn:Ex; [|discriminate H]. injection H as <-.
      simpl in Hb. destruct Hb as [<-|Hb]; [left; now left|].
      apply in_flat_map in Hb as (y & Hy & Hb).
      apply In_list_insert in Hy as [->|Hy].
      * destruct (IH x x' Ex Hb) as [Hl|Hr]; [left | now right].
        simpl. right. apply in_flat_map. exists x. split; [|exact Hl].
        apply list_elem_of_In. eapply list_elem_of_lookup_2. exact Ei.
      * left. simpl. right. apply in_flat_map. eauto.
    + destruct (vset p new x) as [x'|] eqn:Ex; [|discriminate H]. injection H as <-.
      simpl in Hb. destruct Hb as [<-|Hb]; [left; now left|].
      destruct (IH x x' Ex Hb) as [Hl|Hr]; [left; now right | now right].
Qed.

Lemma vaddrs_zero (t : rtype) : vaddrs (zero t) = [].
Proof.
  induction t using rtype_rect'; try reflexivity; simpl.
  - destruct k; reflexivity.
  - exact IHt.
  - induction n as [|n IHn]; simpl; [reflexivity|]. now rewrite IHt, IHn.
  - induction H as [|[f ft] l Hx Hl IH]; simpl; [reflexivity|].
    simpl in Hx. rewrite Hx. exact IH.
Qed.

Lemma vaddrs_convert (k : Kind) (v : value) : incl (vaddrs (convert k v)) (vaddrs v).
Proof.
  destruct v; simpl; try apply incl_refl; destruct (is_float k); simpl; apply incl_refl.
Qed.

(** A copy lives in the addresses handed out while it was made. *)
Lemma Copy_fresh (v : value) :
  forall n, n <= snd (Copy v n)
            /\ forall a, In a (vaddrs (fst (Copy v n))) -> n <= a < snd (Copy v n).
Proof.
  induction v using value_rect'; intros nx;
    try (simpl; split; [lia | intros c []]).
  - (* struct *)
    simpl.
    match goal with
    | |- context [(fix go (l : list value) (n : addr) {struct l} := _) fs nx] =>
        set (go := (fix go (l : list value) (n : addr) {struct l} : list value * addr := _))
    end.
    assert (Hgo : forall n, n <= snd (go fs n)
                            /\ forall a, In a (flat_map vaddrs (fst (go fs n))) ->
                                         n <= a < snd (go fs n)).
    { clear nx. induction H as [|x l Hx Hl IH]; intros n; [simpl; split; [lia | intros c []]|].
      simpl. specialize (Hx n). destruct (Copy x n) as [x' n1].
      specialize (IH n1). destruct (go l n1) as [l'' n2]. simpl in *.
      destruct Hx as [Hx1 Hx2], IH as [IH1 IH2]. split; [lia|].
      intros c Ha. apply in_app_or in Ha as [Ha|Ha].
      - specialize (Hx2 c Ha). lia.
      - specialize (IH2 c Ha). lia. }
    specialize (Hgo nx). destruct (go fs nx) as [fs' n']. simpl in *. exact Hgo.
  - (* array *)
    simpl.
    match goal with
    | |- context [(fix go (l : list value) (n : addr) {struct l} := _) es nx] =>
        set (go := (fix go (l : list value) (n : addr) {struct l} : list value * addr := _))
    end.
    assert (Hgo : forall n, n <= snd (go es n)
                            /\ forall a, In a (flat_map vaddrs (fst (go es n))) ->
                                         n <= a < snd (go es n)).
    { clear nx. induction H as [|x l Hx Hl IH]; intros n; [simpl; split; [lia | intros c []]|].
      simpl. specialize (Hx n). destruct (Copy x n) as [x' n1].
      specialize (IH n1). destruct (go l n1) as [l'' n2]. simpl in *.
      destruct Hx as [Hx1 Hx2], IH as [IH1 IH2]. split; [lia|].
      intros c Ha. apply in_app_or in Ha as [Ha|Ha].
      - specialize (Hx2 c Ha). lia.
      - specialize (IH2 c Ha). lia. }
    specialize (Hgo nx). destruct (go es nx) as [fs' n']. simpl in *. exact Hgo.
  - (* slice *)
    simpl.
    match goal with
    | |- context [(fix go (l : list value) (n : addr) {struct l} := _) es (S nx)] =>
        set (go := (fix go (l : list value) (n : addr) {struct l} : list value * addr := _))
    end.
    assert (Hgo : forall n, n <= snd (go es n)
                            /\ forall a, In a (flat_map vaddrs (fst (go es n))) ->
                                         n <= a < snd (go es n)).
    { clear nx. induction H as [|x l Hx Hl IH]; intros n; [simpl; split; [lia | intros c []]|].
      simpl. specialize (Hx n). destruct (Copy x n) as [x' n1].
      specialize (IH n1). destruct (go l n1) as [l'' n2]. simpl in *.
      destruct Hx as [Hx1 Hx2], IH as [IH1 IH2]. split; [lia|].
      intros c Ha. apply in_app_or in Ha as [Ha|Ha].
      - specialize (Hx2 c Ha). lia.
      - specialize (IH2 c Ha). lia. }
    specialize (Hgo (S nx)). destruct (go es (S nx)) as [fs' n']. simpl in *.
    destruct Hgo as [H1 H2]. split; [lia|].
    intros b [<-|Hb]; [lia|]. specialize (H2 b Hb). lia.
  - (* map *)
    simpl.
    match goal with
    | |- context [(fix go (l : list (value * value)) (n : addr) {struct l} := _) kvs (S nx)] =>
        set (go := (fix go (l : list (value * value)) (n : addr) {struct l}
                      : list (value * value) * addr := _))
    end.
    assert (Hgo : forall n,
               n <= snd (go kvs n)
               /\ forall a, In a (flat_map (fun kv => vaddrs (fst kv) ++ vaddrs (snd kv))
                                           (fst (go kvs n))) ->
                            n <= a < snd (go kvs n)).
    { clear nx. induction H as [|[k0 x0] l [Hk Hx] Hl IH]; intros n;
        [simpl; split; [lia | intros c []]|].
      simpl in *. specialize (Hk n). destruct (Copy k0 n) as [k' n1].
      specialize (Hx n1). destruct (Copy x0 n1) as [x' n2].
      specialize (IH n2). destruct (go l n2) as [l'' n3]. simpl in *.
      destruct Hk as [Hk1 Hk2], Hx as [Hx1 Hx2], IH as [IH1 IH2]. split; [lia|].
      intros c Ha. apply in_app_or in Ha as [Ha|Ha]; [apply in_app_or in Ha as [Ha|Ha]|].
      - specialize (Hk2 c Ha). lia.
      - specialize (Hx2 c Ha). lia.
      - specialize (IH2 c Ha). lia. }
    specialize (Hgo (S nx)). destruct (go kvs (S nx)) as [fs' n']. simpl in *.
    destruct Hgo as [H1 H2]. split; [lia|].
    intros b [<-|Hb]; [lia|]. specialize (H2 b Hb). lia.
  - (* pointer *)
    simpl. specialize (IHv (S nx)). destruct (Copy v (S nx)) as [x' n']. simpl in *.
    destruct IHv as [H1 H2]. split; [lia|].
    intros b [<-|Hb]; [lia|]. specialize (H2 b Hb). lia.
  - (* interface *)
    simpl. specialize (IHv nx). destruct (Copy v nx) as [x' n']. simpl in *. exact IHv.
Qed.

Section footprint.
Variable A : list addr.

Lemma keeps_ret {X} (x : X) (Q : X -> Prop) : Q x -> keeps A (ret x) Q.
Proof. intros Hq s Hs. simpl. auto. Qed.

Lemma keeps_fail {X} (e : error) (Q : X -> Prop) : keeps A (fail e) Q.
Proof. intros s Hs. exact Hs. Qed.

Lemma keeps_panic {X} (p : string) (Q : X -> Prop) : keeps A (panic p) Q.
Proof. intros s Hs. exact Hs. Qed.

Lemma keeps_bind {X Y} (m : M X) (k : X -> M Y) (P : X -> Prop) (Q : Y -> Prop) :
  keeps A m P -> (forall x, P x -> keeps A (k x) Q) -> keeps A (bind m k) Q.
Proof.
  intros Hm Hk s Hs. unfold bind. specialize (Hm s Hs).
  destruct (m s) as [s' [x|e|p]]; try exact Hm.
  destruct Hm as [Hs' Hp]. apply (Hk x Hp s' Hs').
Qed.

Lemma keeps_weaken {X} (m : M X) (P Q : X -> Prop) :
  keeps A m P -> (forall x, P x -> Q x) -> keeps A m Q.
Proof.
  intros Hm Hpq s Hs. specialize (Hm s Hs).
  destruct (m s) as [s' [x|e|p]]; try exact Hm.
  destruct Hm as [Hs' Hp]. auto.
Qed.

Lemma keeps_wrapping {X} (m : M X) (Q : X -> Prop) (fmt : string) (args : list operand) :
  keeps A m Q -> keeps A (wrapping fmt args m) Q.
Proof. apply hoare_wrapping. Qed.

Lemma keeps_alloc : keeps A alloc (fun a => ~ In a A).
Proof.
  intros s [Hc [Hn Hw]]. simpl. split; [split; [exact Hc | split; [|exact Hw]]|].
  - intros a Ha. simpl. specialize (Hn a Ha). lia.
  - intros Hin. specialize (Hn _ Hin). lia.
Qed.

Lemma keeps_log_write (a : addr) (node : value) :
  ~ In a A -> keeps A (log_write a node) (fun _ => True).
Proof.
  intros Ha s [Hc [Hn Hw]]. simpl. split; [|exact I].
  split; [exact Hc | split; [exact Hn|]].
  intros an Hin. simpl in Hin. apply in_app_or in Hin as [Hin|[<-|[]]]; [now apply Hw | exact Ha].
Qed.

Lemma keeps_write_through (a : addr) (node : value) :
  ~ In a A -> clean A node -> keeps A (V2.write_through a node) (fun _ => True).
Proof.
  intros Ha Hnode s [Hc [Hn Hw]]. simpl. split; [|exact I].
  split; [|split; [exact Hn|]].
  - intros b Hb. simpl in Hb. apply vaddrs_poke in Hb as [Hb|Hb]; [now apply Hc | now apply Hnode].
  - intros an Hin. simpl in Hin.
    apply in_app_or in Hin as [Hin|[<-|[]]]; [now apply Hw | exact Ha].
Qed.

Lemma keeps_store (h : handle) (new : value) :
  handle_ok A h -> clean A new -> keeps A (store h new) (fun _ => True).
Proof.
  intros Hh Hnew s [Hc [Hn Hw]]. unfold store, handle_ok in *.
  destruct (h_owner h) as [[a op]|]; [|split; [exact Hc | split; assumption]].
  destruct (h_ro h); [split; [exact Hc | split; assumption]|].
  destruct (vset (h_path h) new (vv (tree s))) as [t'|] eqn:Es;
    [|split; [exact Hc | split; assumption]].
  destruct (vget op t') as [node|]; [|split; [exact Hc | split; assumption]].
  split; [|exact I]. split; [|split; [exact Hn|]].
  - intros b Hb. simpl in Hb.
    destruct (vaddrs_vset _ _ _ _ b Es Hb) as [Hl|Hr]; [now apply Hc | now apply Hnew].
  - intros an Hin. simpl in Hin.
    apply in_app_or in Hin as [Hin|[<-|[]]]; [now apply Hw | exact Hh].
Qed.

Lemma read_clean (h : handle) (s : world) (x : value) :
  Inv A s -> read h s = Some x -> clean A x.
Proof.
  intros [Hc _] Hr b Hb. apply Hc. eapply vaddrs_vget; eauto.
Qed.

Lemma keeps_load (h : handle) :
  keeps A (load h) (fun v => forall x, v = Some x -> clean A x).
Proof.
  intros s Hs. simpl. split; [exact Hs|]. intros x Hx. eapply read_clean; eauto.
Qed.

Lemma keeps_Interface (h : handle) :
  keeps A (Interface h) (fun x => clean A (vv x)).
Proof.
  intros s Hs. unfold Interface. destruct (h_ro h); [exact Hs|].
  destruct (read h s) as [x|] eqn:Er; [|exact Hs].
  split; [exact Hs|]. simpl. eapply read_clean; eauto.
Qed.

Lemma deref_handle_ok (h : handle) (a : addr) (x : value) (s : world) :
  Inv A s -> read h s = Some (VPtr (Some (a, x))) -> handle_ok A (deref_handle h a).
Proof.
  intros Hs Hr. unfold handle_ok. simpl.
  apply (read_clean h s _ Hs Hr). now left.
Qed.

Lemma index_handle_ok (h : handle) (a : addr) (es : list value) (i : nat) (s : world) :
  Inv A s -> read h s = Some (VSlice (Some (a, es))) -> handle_ok A (index_handle h a i).
Proof.
  intros Hs Hr. unfold handle_ok. simpl.
  apply (read_clean h s _ Hs Hr). now left.
Qed.

Lemma field_handle_ok (h : handle) (i : nat) (f : StructField) (ft : rtype) :
  handle_ok A h -> handle_ok A (field_handle h i f ft).
Proof. intros H. exact H. Qed.

Lemma keeps_Indirect (h : handle) :
  handle_ok A h ->
  keeps A (Indirect h) (fun t => forall h', t = Some h' -> handle_ok A h').
Proof.
  intros Hh s Hs. unfold Indirect.
  destruct (kind_of (h_type h));
    try (split; [exact Hs | intros h' [= <-]; exact Hh]).
  destruct (read h s) as [[| | | | | | | |[[a x]|]| |]|] eqn:Er;
    try (split; [exact Hs | intros h' Hx; discriminate Hx]).
  split; [exact Hs|]. intros h' [= <-]. eapply deref_handle_ok; eauto.
Qed.
End footprint.

(** ** The original is out of reach

    [copyInto], one step unfolded. *)
Lemma copyInto_unfold (methods : Methods) (sv : value) (st dt : rtype) (dv : value) :
  V2.copyInto methods sv st dt dv =
  let st1 := match sv with
             | VIface (Some (t, _)) => Some t
             | VIface None => None
             | _ => Some st
             end in
  let sv1 := match sv with
             | VIface (Some (_, x)) => x
             | _ => sv
             end in
  let srcK := match st1 with Some t => kind_of t | None => KInvalid end in
  let dstK := kind_of dt in
  let zeroType := Recovered "reflect: call of reflect.Value.Type on zero Value" in
  if kind_eqb srcK dstK then
    if match st1 with Some t => rtype_eqb dt t | None => false end then
      ret (sv1, None)
    else
      match dstK with
      | KMap =>
          a <- alloc ;;
          log_write a (VMap (Some (a, []))) ;;;
          match sv1 with
          | VMap (Some (_, entries)) =>
          (fix go (kvs : list (value * value)) (acc : list (value * value))
             : M (value * option error) :=
             match kvs with
             | [] => ret (VMap (Some (a, acc)), None)
             | (k, x) :: kvs' =>
                 t <- alloc ;;
                 r <- V2.copyInto methods x (V2.elem_or_iface (default TIface st1))
                               (V2.elem_or_iface dt) (zero (V2.elem_or_iface dt)) ;;
                 log_write t (VPtr (Some (t, fst r))) ;;;
                 match snd r with
                 | Some e =>
                     ret (VMap (Some (a, acc)),
                          Some (Wrap e "failed to copy map value" []))
                 | None =>
                     if match type_key dt, type_key (default TIface st1) with
                        | Some kd, Some ks => assignable kd ks
                        | _, _ => false
                        end
                     then
                       let acc' := acc ++ [(k, fst r)] in
                       log_write a (VMap (Some (a, acc'))) ;;;
                       go kvs' acc'
                     else
                       ret (VMap (Some (a, acc)),
                            Some (Recovered "reflect.Value.SetMapIndex: value is not assignable to type"))
                 end
             end) entries []
          | _ => ret (VMap (Some (a, [])), None)
          end
      | KSlice =>
          a <- alloc ;;
          let fresh := repeat (zero (V2.elem_or_iface dt))
                              (length (match sv1 with
                                       | VSlice (Some (_, es)) => es
                                       | _ => []
                                       end)) in
          log_write a (VSlice (Some (a, fresh))) ;;;
          match sv1 with
          | VSlice (Some (_, es)) =>
          (fix go (l : list value) (i : nat) (acc : list value)
             : M (value * option error) :=
             match l with
             | [] => ret (VSlice (Some (a, acc)), None)
             | x :: l' =>
                 t <- alloc ;;
                 r <- V2.copyInto methods x (V2.elem_or_iface (default TIface st1))
                               (V2.elem_or_iface dt) (zero (V2.elem_or_iface dt)) ;;
                 log_write t (VPtr (Some (t, fst r))) ;;;
                 match snd r with
                 | Some e =>
                     ret (VSlice (Some (a, acc)),
                          Some (Wrap e "failed to copy slice value" []))
                 | None =>
                     let acc' := <[i := fst r]> acc in
                     log_write a (VSlice (Some (a, acc'))) ;;;
                     go l' (S i) acc'
                 end
             end) es 0 fresh
          | _ => ret (VSlice (Some (a, fresh)), None)
          end
      | _ =>
          ret (dv, Some (Errorf "cannot copy mismatched types got %s exp %s"
                                [OType st1; OType (Some dt)]))
      end
  else
    let addrDst : option (rtype * value * option addr) :=
      match dstK, dv with
      | KPtr, VPtr (Some (a, x)) => Some (V2.elem_or_iface dt, x, Some a)
      | KPtr, _ => None
      | _, _ => Some (dt, dv, None)
      end in
    match addrDst with
    | None => ret (dv, Some zeroType)
    | Some (rt, rv, via) =>
        match UnmarshalText methods rt with
        | Some um =>
            match st1 with
            | None => ret (dv, Some zeroType)
            | Some t1 =>
                if implementsStringer methods t1 || kind_eqb srcK KString then
                  let text := String_of t1 sv1 in
                  let '(rv', err) := um text rv in
                  match via with
                  | Some a =>
                      V2.write_through a (VPtr (Some (a, rv'))) ;;;
                      ret (VPtr (Some (a, rv')), None)
                  | None => ret (rv', None)
                  end
                else
                  ret (dv, Some (Errorf "cannot unmarshal %s into %s"
                                        [OKind srcK; OKind dstK]))
            end
        | None =>
            if isNumericKind dstK then
              if isNumericKind srcK then ret (convert dstK sv1, None)
              else
                match st1 with
                | None => ret (dv, Some zeroType)
                | Some t1 =>
                    if implementsStringer methods t1 || kind_eqb srcK KString then
                      let str := String_of t1 sv1 in
                      let cannot :=
                        ret (dv, Some (Errorf "cannot convert string %q into %s"
                                              [OStr str; OKind dstK])) in
                      if isIntKind dstK then
                        match ParseInt str with
                        | Some i => ret (VInt (wrap dstK i), None)
                        | None => cannot
                        end
                      else if isUintKind dstK then
                        match ParseUint str with
                        | Some i => ret (VInt (wrap dstK i), None)
                        | None => cannot
                        end
                      else if isFloatKind dstK then
                        match ParseFloat str with
                        | Some f => ret (VFloat (float_round dstK f), None)
                        | None => cannot
                        end
                      else cannot
                    else
                      ret (dv, Some (Errorf "cannot convert %s into %s"
                                            [OKind srcK; OKind dstK]))
                end
            else
              ret (dv, Some (Errorf "wrong kind %s, expected value of kind %s: %t"
                                    [OKind srcK; OKind dstK; OBool (kind_eqb srcK dstK)]))
        end
    end.
Proof. destruct sv as [| | | | | |[[]|]|[[]|]|[[]|]|[[]|]|]; reflexivity. Qed.

Section V2_footprint.
Variable A : list addr.
Variable methods : Methods.
Hypothesis Hhooks : hooks_local methods.

Let CI (v : value) : Prop :=
  forall st dt dv, clean A v -> clean A dv ->
    keeps A (V2.copyInto methods v st dt dv) (fun r => clean A (fst r)).

(** [copyInto] keeps the invariant and returns a clean value, provided
    it does so on the elements of its source. *)
Lemma copyInto_step (sv : value) :
  (forall x, In x (copy_elems (copy_source sv)) -> CI x) -> CI sv.
Proof.
  intros Hrec st dt dv Hsv Hdv. rewrite copyInto_unfold.
  assert (Hsv1 : clean A (copy_source sv)).
  { destruct sv as [| | | | | |[[]|]|[[]|]|[[]|]|[[]|]|]; exact Hsv. }
  change (match sv with VIface (Some (_, x)) => x | _ => sv end) with (copy_source sv).
  set (sv1 := copy_source sv) in *. clearbody sv1.
  set (st1 := match sv with VIface (Some (t, _)) => Some t | VIface None => None | _ => Some st end).
  clearbody st1. clear sv Hsv.
  cbv zeta.
  assert (Hscalar : forall (v : value) (e : option error),
             vaddrs v = [] -> keeps A (ret (v, e)) (fun r => clean A (fst r))).
  { intros v e Hv. apply keeps_ret. intros b Hb. simpl in Hb. rewrite Hv in Hb.
    contradiction. }
  assert (Hkeep : forall e : option error,
             keeps A (ret (dv, e)) (fun r => clean A (fst r))).
  { intros e. apply keeps_ret. exact Hdv. }
  destruct (kind_eqb match st1 with Some t => kind_of t | None => KInvalid end (kind_of dt)).
  - destruct (match st1 with Some t => rtype_eqb dt t | None => false end);
      [apply keeps_ret; exact Hsv1|].
    destruct (kind_of dt) eqn:Edt; try apply Hkeep.
    + (* map *)
      eapply keeps_bind; [apply keeps_alloc|]. intros a Ha.
      eapply keeps_bind; [apply keeps_log_write; exact Ha|]. intros _ _.
      assert (Hout : forall acc : list (value * value),
                 (forall kv, In kv acc -> clean A (fst kv) /\ clean A (snd kv)) ->
                 clean A (VMap (Some (a, acc)))).
      { intros acc Hacc b [<-|Hb]; [exact Ha|].
        apply in_flat_map in Hb as (kv & Hkv & Hb).
        apply in_app_or in Hb as [Hb|Hb]; [now apply (proj1 (Hacc kv Hkv)) |
                                          now apply (proj2 (Hacc kv Hkv))]. }
      destruct sv1 as [| | | | | | |[[a0 entries]|]| | |];
        try (apply keeps_ret; apply Hout; intros kv []).
      match goal with
      | |- context [(fix go (kvs acc : list (value * value)) {struct kvs} := _) entries []] =>
          set (go := (fix go (kvs acc : list (value * value)) {struct kvs}
                        : M (value * option error) := _))
      end.
      assert (Hgo : forall kvs acc,
                 (forall kv, In kv kvs ->
                             clean A (fst kv) /\ clean A (snd kv) /\ CI (snd kv)) ->
                 (forall kv, In kv acc -> clean A (fst kv) /\ clean A (snd kv)) ->
                 keeps A (go kvs acc) (fun r => clean A (fst r))).
      { induction kvs as [|[k x] kvs IH]; intros acc Hl Hacc; simpl.
        - apply keeps_ret. now apply Hout.
        - destruct (Hl (k, x) (or_introl eq_refl)) as (Hk & Hx & Hci). simpl in *.
          eapply keeps_bind; [apply keeps_alloc|]. intros t Ht.
          eapply keeps_bind.
          { apply Hci; [exact Hx|].
            intros b Hb. rewrite vaddrs_zero in Hb. contradiction. }
          intros r Hr.
          eapply keeps_bind; [apply keeps_log_write; exact Ht|]. intros _ _.
          destruct (snd r); [apply keeps_ret; now apply Hout|].
          destruct (match type_key dt with
                    | Some kd => match type_key (default TIface st1) with
                                 | Some ks => assignable kd ks
                                 | None => false
                                 end
                    | None => false
                    end);
            [|apply keeps_ret; now apply Hout].
          eapply keeps_bind; [apply keeps_log_write; exact Ha|]. intros _ _.
          apply IH; [intros y Hy; apply Hl; now right|].
          intros y Hy. apply in_app_or in Hy as [Hy|[<-|[]]]; [now apply Hacc|].
          split; assumption. }
      apply Hgo; [|intros kv []].
      intros [k x] Hkv. simpl. split; [|split].
      * intros b Hb. apply Hsv1. simpl. right. apply in_flat_map.
        exists (k, x). split; [exact Hkv|]. apply in_or_app. now left.
      * intros b Hb. apply Hsv1. simpl. right. apply in_flat_map.
        exists (k, x). split; [exact Hkv|]. apply in_or_app. now right.
      * apply Hrec. simpl. apply in_map_iff. exists (k, x). now split.
    + (* slice *)
      eapply keeps_bind; [apply keeps_alloc|]. intros a Ha.
      eapply keeps_bind; [apply keeps_log_write; exact Ha|]. intros _ _.
      assert (Hfresh : forall n x, In x (repeat (zero (V2.elem_or_iface dt)) n) ->
                                   clean A x).
      { intros n x Hx. apply repeat_spec in Hx. subst x. intros b Hb.
        rewrite vaddrs_zero in Hb. contradiction. }
      assert (Hout : forall acc : list value,
                 (forall x, In x acc -> clean A x) -> clean A (VSlice (Some (a, acc)))).
      { intros acc Hacc b [<-|Hb]; [exact Ha|].
        apply in_flat_map in Hb as (x & Hx & Hb). now apply (Hacc x Hx). }
      destruct sv1 as [| | | | | |[[a0 es]|]| | | |];
        try (apply keeps_ret; apply Hout; apply Hfresh).
      match goal with
      | |- context [(fix go (l : list value) (i : nat) (acc : list value) {struct l} := _) es 0] =>
          set (go := (fix go (l : list value) (i : nat) (acc : list value) {struct l}
                        : M (value * option error) := _))
      end.
      assert (Hgo : forall l i acc,
                 (forall x, In x l -> clean A x /\ CI x) ->
                 (forall x, In x acc -> clean A x) ->
                 keeps A (go l i acc) (fun r => clean A (fst r))).
      { induction l as [|x l IH]; intros i acc Hl Hacc; simpl.
        - apply keeps_ret. now apply Hout.
        - eapply keeps_bind; [apply keeps_alloc|]. intros t Ht.
          eapply keeps_bind.
          { apply (proj2 (Hl x (or_introl eq_refl))); [apply (Hl x); now left|].
            intros b Hb. rewrite vaddrs_zero in Hb. contradiction. }
          intros r Hr.
          eapply keeps_bind; [apply keeps_log_write; exact Ht|]. intros _ _.
          destruct (snd r); [apply keeps_ret; now apply Hout|].
          eapply keeps_bind; [apply keeps_log_write; exact Ha|]. intros _ _.
          apply IH; [intros y Hy; apply Hl; now right|].
          intros y Hy. apply In_list_insert in Hy as [->|Hy]; [exact Hr | now apply Hacc]. }
      apply Hgo; [|apply Hfresh].
      intros x Hx. split; [|apply Hrec; exact Hx].
      intros b Hb. apply Hsv1. simpl. right. apply in_flat_map. eauto.
  - set (addrDst := match kind_of dt with
                    | KPtr => match dv with
                              | VPtr (Some (a, x)) => Some (V2.elem_or_iface dt, x, Some a)
                              | _ => None
                              end
                    | _ => Some (dt, dv, None)
                    end).
    assert (Haddr : match addrDst with
                    | Some (rt, rv, via) =>
                        clean A rv
                        /\ match via with Some a => ~ In a A | None => True end
                    | None => True
                    end).
    { unfold addrDst.
      destruct (kind_of dt); try (split; [exact Hdv | exact I]).
      destruct dv as [| | | | | | | |[[a x]|]| |]; try exact I.
      split; [intros b Hb; apply Hdv; now right | apply Hdv; now left]. }
    clearbody addrDst.
    destruct addrDst as [[[rt rv] via]|]; [|apply Hkeep].
    destruct Haddr as [Hrv Hvia].
    destruct (UnmarshalText methods rt) as [um|] eqn:Eum.
    + destruct st1 as [t1|]; [|apply Hkeep].
      destruct (implementsStringer methods t1 || kind_eqb (kind_of t1) KString);
        [|apply Hkeep].
      pose proof (proj1 Hhooks rt um (String_of t1 sv1) rv Eum) as Hum.
      destruct (um (String_of t1 sv1) rv) as [rv' err]. simpl in Hum.
      assert (Hrv' : clean A rv') by (intros b Hb; apply Hrv; now apply Hum).
      destruct via as [a|]; [|apply keeps_ret; exact Hrv'].
      assert (Hnode : clean A (VPtr (Some (a, rv')))).
      { intros b [<-|Hb]; [exact Hvia | now apply Hrv']. }
      eapply keeps_bind; [apply keeps_write_through; assumption|]. intros _ _.
      apply keeps_ret. exact Hnode.
    + destruct (isNumericKind (kind_of dt)); [|apply Hkeep].
      destruct (isNumericKind match st1 with Some t => kind_of t | None => KInvalid end).
      { apply keeps_ret. intros b Hb. apply Hsv1. simpl in Hb.
        now apply (vaddrs_convert (kind_of dt) sv1 b). }
      destruct st1 as [t1|]; [|apply Hkeep].
      destruct (implementsStringer methods t1 || kind_eqb (kind_of t1) KString);
        [|apply Hkeep].
      destruct (isIntKind (kind_of dt));
        [destruct (ParseInt (String_of t1 sv1)); [now apply Hscalar | apply Hkeep]|].
      destruct (isUintKind (kind_of dt));
        [destruct (ParseUint (String_of t1 sv1)); [now apply Hscalar | apply Hkeep]|].
      destruct (isFloatKind (kind_of dt));
        [destruct (ParseFloat (String_of t1 sv1)); [now apply Hscalar | apply Hkeep]|].
      apply Hkeep.
Qed.

Lemma copyInto_keeps (sv : value) : CI sv.
Proof.
  assert (H : CI sv /\ forall y, In y (copy_elems sv) -> CI y); [|exact (proj1 H)].
  induction sv using value_rect';
    try (split; [apply copyInto_step|]; intros y []).
  - (* slice *)
    rewrite List.Forall_forall in H.
    assert (He : forall y, In y es -> CI y) by (intros y Hy; apply (proj1 (H y Hy))).
    split; [apply copyInto_step|]; exact He.
  - (* map *)
    rewrite List.Forall_forall in H.
    assert (He : forall y, In y (List.map snd kvs) -> CI y).
    { intros y Hy. apply in_map_iff in Hy as (kv & <- & Hkv).
      apply (proj1 (proj2 (H kv Hkv))). }
    split; [apply copyInto_step|]; exact He.
  - (* interface *)
    split; [apply copyInto_step; exact (proj2 IHsv) | intros y []].
Qed.

Lemma ValueOf_clean (x : Value) :
  clean A (vv x) -> forall s, ValueOf x = Some s -> clean A (vv s).
Proof.
  intros Hx s. unfold ValueOf. destruct (is_nil_interface x); [discriminate|].
  now intros [= <-].
Qed.

Lemma V2_weakCopyValue_keeps (src : option Value) (dst : handle) :
  handle_ok A dst ->
  (forall s, src = Some s -> clean A (vv s)) ->
  keeps A (V2.weakCopyValue methods src dst) (fun _ => True).
Proof.
  intros Hd Hsrc. unfold V2.weakCopyValue.
  destruct (negb (CanSet dst)); [apply keeps_fail|].
  eapply keeps_bind; [apply keeps_load|]. intros cur Hcur.
  destruct cur as [dv|]; [|apply keeps_fail].
  eapply keeps_bind.
  { apply copyInto_keeps; [|now apply Hcur].
    destruct src as [s|]; [now apply Hsrc | intros b []]. }
  intros r Hr.
  eapply keeps_bind; [apply keeps_store; assumption|]. intros _ _.
  destruct (snd r); [apply keeps_fail | now apply keeps_ret].
Qed.

Lemma FieldByName_owner (name : string) (h : handle) (fs : list (StructField * rtype))
    (i : nat) (f : handle) :
  V2.FieldByName name h fs i = Some f -> h_owner f = h_owner h.
Proof.
  revert i. induction fs as [|[g gt] fs IH]; intros i H; simpl in H; [discriminate|].
  destruct (String.eqb (Name g) name); [now injection H as <- | eauto].
Qed.

Lemma findFieldLoop_owner (nf : StructField -> string) (key : string) (h : handle)
    (fs : list (StructField * rtype)) (i : nat) (acc : option handle) (f : handle) :
  (forall g, acc = Some g -> h_owner g = h_owner h) ->
  V2.findFieldLoop nf key h fs i acc = Some f -> h_owner f = h_owner h.
Proof.
  revert i acc. induction fs as [|[g gt] fs IH]; intros i acc Hacc H; simpl in H.
  - now apply Hacc.
  - destruct (negb (CanSet (field_handle h i g gt))).
    + eapply IH; [|exact H]. intros g0 Hg. injection Hg as Hg. subst g0. reflexivity.
    + destruct (String.eqb (nf g) key); [now injection H as <-|].
      eapply IH; [|exact H]. intros g0 Hg. injection Hg as Hg. subst g0. reflexivity.
Qed.

Lemma findFieldByElementKey_keeps (v : handle) (key : string)
    (nf : StructField -> string) :
  handle_ok A v ->
  keeps A (V2.findFieldByElementKey v key nf)
        (fun r => forall h, r = Some h -> handle_ok A h).
Proof.
  intros Hv. unfold V2.findFieldByElementKey.
  eapply keeps_bind; [apply keeps_Indirect; exact Hv|]. intros t Ht.
  destruct t as [v'|]; [|apply keeps_ret; intros h Hx; discriminate Hx].
  specialize (Ht v' eq_refl).
  destruct (negb (kind_eqb (kind_of (h_type v')) KStruct));
    [apply keeps_ret; intros h Hx; discriminate Hx|].
  destruct (V2.FieldByName key v' (type_fields (h_type v')) 0) as [field|] eqn:Ef.
  - apply keeps_ret. intros h [= <-]. unfold handle_ok.
    rewrite (FieldByName_owner _ _ _ _ _ Ef). exact Ht.
  - apply keeps_ret. intros h Hh. unfold handle_ok.
    erewrite findFieldLoop_owner; [exact Ht | | exact Hh].
    intros g Hx. discriminate Hx.
Qed.

Let Wok := V2_walker_ok A.

Lemma V2_StructField_keeps (f : StructField) (v : handle) (w : V2.overrideWalker) :
  handle_ok A v -> Wok w ->
  keeps A (V2.overrideWalker_StructField methods f v w) Wok.
Proof.
  intros Hv (Ho & He & Hs). unfold V2.overrideWalker_StructField.
  destruct (V2.depth w =? 0)%Z.
  - destruct (V2.getSectionName f) as [name ok]. destruct ok.
    + simpl. destruct (String.eqb (V2.o_Section (V2.o w)) name); apply keeps_ret.
      * split; [exact Ho|]. split; [|exact Hs]. simpl. intros h [= <-]. exact Hv.
      * split; [exact Ho|]. split; assumption.
    + apply keeps_ret. split; [exact Ho|]. split; assumption.
  - destruct (V2.depth w =? 1)%Z; [|apply keeps_ret; split; [exact Ho|]; split; assumption].
    destruct (negb (String.eqb (V2.currentSectionName w) (V2.o_Section (V2.o w)))
              || negb (String.eqb (V2.currentElementName w) (V2.o_Element (V2.o w))));
      [apply keeps_ret; split; [exact Ho|]; split; assumption|].
    destruct (V2.o_Options (V2.o w) !! V2.optionNameFunc w f) as [setValue|] eqn:Eo;
      [|apply keeps_ret; split; [exact Ho|]; split; assumption].
    destruct (negb (V2.o_Create (V2.o w))
              && String.eqb (V2.optionNameFunc w f) (V2.elementKey w));
      [apply keeps_fail|].
    eapply keeps_bind.
    { apply keeps_wrapping. apply V2_weakCopyValue_keeps; [exact Hv|].
      apply ValueOf_clean. apply (Ho _ _ Eo). }
    intros _ _. apply keeps_ret. split; [exact Ho|]. split; assumption.
Qed.

Lemma slice_elems_clean (cur : option value) :
  (forall x, cur = Some x -> clean A x) ->
  forall y, In y (V2.slice_elems cur) -> clean A y.
Proof.
  intros Hcur y Hy. unfold V2.slice_elems in Hy.
  destruct cur as [[| | | | | |[[a es]|]| | | |]|]; try contradiction.
  intros b Hb. apply (Hcur _ eq_refl). simpl. right. apply in_flat_map. eauto.
Qed.

Lemma V2_Slice_keeps (v : handle) (w : V2.overrideWalker) :
  handle_ok A v -> Wok w ->
  keeps A (V2.overrideWalker_Slice methods v w) Wok.
Proof.
  intros Hv (Ho & He & Hs). unfold V2.overrideWalker_Slice.
  assert (Hw : Wok w) by (split; [exact Ho|]; split; assumption).
  destruct (negb (String.eqb (V2.o_Section (V2.o w)) (V2.currentSectionName w))
            || negb (V2.depth w =? 1)%Z); [now apply keeps_ret|].
  cbv zeta.
  assert (Hw1 : Wok (V2.with_currentSlice v w)).
  { split; [exact Ho|]. split; [exact He|]. simpl. intros h [= <-]. exact Hv. }
  change (V2.o (V2.with_currentSlice v w)) with (V2.o w).
  change (V2.elementKey (V2.with_currentSlice v w)) with (V2.elementKey w).
  change (V2.optionNameFunc (V2.with_currentSlice v w)) with (V2.optionNameFunc w).
  destruct (V2.o_Delete (V2.o w)).
  { apply keeps_ret. split; [exact Ho|]. split; [intros h Hx; discriminate Hx|].
    simpl. intros h [= <-]. exact Hv. }
  destruct (V2.o_Create (V2.o w)); [|now apply keeps_ret].
  eapply keeps_bind; [apply keeps_alloc|]. intros p Hp.
  set (base := if kind_eqb (kind_of (V2.elem_or_iface (h_type v))) KPtr
               then V2.elem_or_iface (V2.elem_or_iface (h_type v))
               else V2.elem_or_iface (h_type v)).
  set (fresh := match SetDefaultsOf methods base with
                | Some setDefaults => setDefaults (zero base)
                | None => zero base
                end).
  assert (Hfresh : clean A fresh).
  { intros b Hb. unfold fresh in Hb.
    destruct (SetDefaultsOf methods base) as [sd|] eqn:Esd.
    - apply (proj2 Hhooks base sd (zero base) Esd) in Hb.
      rewrite vaddrs_zero in Hb. contradiction.
    - rewrite vaddrs_zero in Hb. contradiction. }
  eapply keeps_bind; [apply keeps_log_write; exact Hp|]. intros _ _.
  eapply keeps_bind; [apply keeps_load|]. intros cur Hcur.
  eapply keeps_bind; [apply keeps_alloc|]. intros b Hb.
  set (n := if kind_eqb (kind_of (V2.elem_or_iface (h_type v))) KPtr
            then VPtr (Some (p, fresh)) else fresh).
  assert (Hn : clean A n).
  { unfold n. destruct (kind_eqb (kind_of (V2.elem_or_iface (h_type v))) KPtr);
      [|exact Hfresh].
    intros c [<-|Hc]; [exact Hp | now apply Hfresh]. }
  assert (Hes : clean A (VSlice (Some (b, V2.slice_elems cur ++ [n])))).
  { intros c [<-|Hc]; [exact Hb|].
    apply in_flat_map in Hc as (y & Hy & Hc).
    apply in_app_or in Hy as [Hy|[<-|[]]]; [|now apply Hn].
    now apply (slice_elems_clean cur Hcur y Hy). }
  eapply keeps_bind; [apply keeps_log_write; exact Hb|]. intros _ _.
  eapply keeps_bind; [apply keeps_store; assumption|]. intros _ _.
  destruct (negb (String.eqb (V2.elementKey w) "")); [|apply keeps_fail].
  eapply keeps_bind.
  { apply findFieldByElementKey_keeps. unfold handle_ok. simpl. exact Hb. }
  intros elementField Hef.
  destruct elementField as [elementField|]; [|apply keeps_fail].
  specialize (Hef elementField eq_refl).
  destruct (negb (kind_eqb (kind_of (h_type elementField)) KString)); [apply keeps_fail|].
  destruct (V2.o_Options (V2.o w) !! V2.elementKey w) as [setValue|] eqn:Eo;
    [|apply keeps_fail].
  destruct (V2.as_string setValue) as [str|]; [|apply keeps_fail].
  cbv zeta.
  eapply keeps_bind.
  { apply keeps_wrapping. apply V2_weakCopyValue_keeps; [exact Hef|].
    apply ValueOf_clean. apply (Ho _ _ Eo). }
  intros _ _. apply keeps_ret.
  split; [exact Ho|]. split; [exact He|]. simpl. intros h [= <-]. exact Hv.
Qed.

Lemma V2_SliceElem_keeps (idx : nat) (v : handle) (w : V2.overrideWalker) :
  handle_ok A v -> Wok w ->
  keeps A (V2.overrideWalker_SliceElem idx v w) Wok.
Proof.
  intros Hv (Ho & He & Hs). unfold V2.overrideWalker_SliceElem.
  assert (Hw : Wok w) by (split; [exact Ho|]; split; assumption).
  destruct ((V2.depth w =? 1)%Z
            && String.eqb (V2.currentSectionName w) (V2.o_Section (V2.o w))
            && negb (String.eqb (V2.o_Element (V2.o w)) "")); [|now apply keeps_ret].
  cbv zeta.
  change (V2.elementKey (V2.with_currentElementName "" w)) with (V2.elementKey w).
  change (V2.optionNameFunc (V2.with_currentElementName "" w)) with (V2.optionNameFunc w).
  destruct (negb (String.eqb (V2.elementKey w) "")); [|apply keeps_fail].
  eapply keeps_bind; [apply findFieldByElementKey_keeps; exact Hv|].
  intros elementField Hef.
  destruct elementField as [elementField|]; [|apply keeps_fail].
  destruct (negb (kind_eqb (kind_of (h_type elementField)) KString)); [apply keeps_fail|].
  eapply keeps_bind; [apply keeps_load|]. intros name _.
  cbv zeta.
  set (w2 := V2.with_currentElementName _ (V2.with_currentElementName "" w)).
  assert (Hw2 : Wok w2) by (split; [exact Ho|]; split; assumption).
  change (V2.o w2) with (V2.o w). change (V2.currentSlice w2) with (V2.currentSlice w).
  destruct (String.eqb (V2.o_Element (V2.o w)) (V2.currentElementName w2));
    [|now apply keeps_ret].
  destruct (V2.o_Delete (V2.o w)).
  - destruct (V2.currentSlice w) as [cs|] eqn:Ecs; [|apply keeps_panic].
    eapply keeps_bind; [apply keeps_load|]. intros cur Hcur.
    destruct cur as [[| | | | | |[[a es]|]| | | |]|]; try apply keeps_panic.
    specialize (Hcur _ eq_refl).
    assert (Ha : ~ In a A) by (apply Hcur; now left).
    eapply keeps_bind; [apply keeps_log_write; exact Ha|]. intros _ _.
    eapply keeps_bind.
    { apply keeps_store; [now apply Hs|].
      intros c [<-|Hc]; [exact Ha|]. apply Hcur. simpl. right.
      apply in_flat_map in Hc as (y & Hy & Hc). apply in_flat_map. exists y.
      split; [|exact Hc].
      apply in_app_or in Hy as [Hy|Hy]; [eapply In_take | eapply In_drop]; eauto. }
    intros _ _. now apply keeps_ret.
  - apply keeps_ret. split; [exact Ho|]. split; [|exact Hs].
    simpl. intros h [= <-]. exact Hv.
Qed.

Lemma keeps_as_hoare {X} (F : Prop) (m : M X) (Q : X -> Prop) :
  (F -> keeps A m Q) ->
  hoare (fun s => Inv A s /\ F) m (fun x s => Inv A s /\ Q x) (Inv A).
Proof. intros H s [Hs Hf]. exact (H Hf s Hs). Qed.

Lemma V2_with_depth_ok (d : Z) (w : V2.overrideWalker) :
  Wok w -> Wok (V2.with_depth d w).
Proof. intros H. exact H. Qed.

#[local] Instance V2_walker_inst : Walker V2.overrideWalker :=
  V2.overrideWalker_Walker methods.

Lemma V2_Walk_keeps (w : V2.overrideWalker) : Wok w -> keeps A (Walk w) Wok.
Proof.
  intros Hw s Hs.
  apply (Walk_inv (vt (tree s)) (Inv A) (Inv A)
           (fun w s' => Inv A s' /\ (Wok w /\ vt (tree s') = vt (tree s)))
           (fun w s' => Inv A s' /\ Wok w)
           (fun _ w s' => Inv A s' /\ Wok w)
           (fun _ _ _ w s' => Inv A s' /\ Wok w)
           (fun _ _ _ w s' => Inv A s' /\ Wok w)
           (handle_ok A)); try (intros; exact I).
  - intros w0 s0 (_ & _ & Ht). exact Ht.
  - intros w0 s0 (Hi & _). exact Hi.
  - intros i0 f0 ft0 w0 s0 (Hi & _). exact Hi.
  - intros h i f ft Hh. exact Hh.
  - intros h a x s0 _ Hi Hr. eapply deref_handle_ok; eauto.
  - intros h a es i s0 _ Hi Hr. eapply index_handle_ok; eauto.
  - intros w0 s0 (Hi & Hw0 & _) _. split; assumption.
  - intros h w0 _ _ _ s0 (Hi & Hw0 & _). simpl. split; assumption.
  - intros h i f ft w0 Hh _ _ _. apply keeps_as_hoare. intros Hw0.
    apply V2_StructField_keeps; [|exact Hw0]. exact Hh.
  - intros i f ft w0 s0 Hw0. simpl. exact Hw0.
  - intros i f ft w0 _ s0 Hw0. simpl. exact Hw0.
  - intros w0 s0 Hw0. simpl. exact Hw0.
  - intros i0 f0 ft0 l w0 _ s0 Hw0. simpl. exact Hw0.
  - intros i0 f0 ft0 l w0 _ s0 Hw0. simpl. exact Hw0.
  - intros i0 f0 ft0 h w0 _ s0 Hw0. simpl. exact Hw0.
  - intros i0 f0 ft0 h i f ft w0 _ _ Hh _. apply keeps_as_hoare. intros Hw0.
    apply V2_StructField_keeps; [|exact Hw0]. exact Hh.
  - intros i0 f0 ft0 w0 s0 Hw0. simpl. exact Hw0.
  - intros i0 f0 ft0 h w0 _ _ _ Hh. apply keeps_as_hoare. intros Hw0.
    now apply V2_Slice_keeps.
  - intros i0 f0 ft0 i hs a w0 _ _ _ _ Hh. apply keeps_as_hoare. intros Hw0.
    now apply V2_SliceElem_keeps.
  - split; [exact Hs|]. split; [exact Hw | reflexivity].
Qed.

Lemma V2_applyOverride_keeps (c : V2.Overrider) (o : V2.Override) :
  options_clean A (V2.o_Options o) ->
  keeps A (V2.applyOverride methods c o) (fun _ => True).
Proof.
  intros Ho. unfold V2.applyOverride.
  destruct (V2.Override_Validate o); [apply keeps_fail|].
  eapply keeps_bind.
  { apply keeps_wrapping. apply V2_Walk_keeps.
    split; [exact Ho|]. split; intros h Hx; discriminate Hx. }
  intros w Hw. cbv zeta.
  destruct (Nat.ltb 0 (length (V2.unused w))); [apply keeps_fail|].
  eapply keeps_bind with (P := fun _ => True).
  { unfold V2.elementObject. destruct (V2.elementValue w) as [v|]; [|now apply keeps_ret].
    eapply keeps_bind; [apply keeps_Interface|]. intros x _. now apply keeps_ret. }
  intros element _.
  destruct (is_nil_interface (V2.e_value element) && negb (V2.o_Delete o));
    [apply keeps_fail|].
  destruct (if is_nil_interface (V2.e_value element) then None
            else ValidateOf methods (vt (V2.e_value element))) as [validate|];
    [|now apply keeps_ret].
  destruct (validate (vv (V2.e_value element))); [apply keeps_fail | now apply keeps_ret].
Qed.

Lemma V2_applyAll_keeps (c : V2.Overrider) (os : list V2.Override) :
  (forall o, In o os -> options_clean A (V2.o_Options o)) ->
  keeps A (V2.applyAll methods c os) (fun _ => True).
Proof.
  induction os as [|o os IH]; intros Hos; simpl; [now apply keeps_ret|].
  eapply keeps_bind.
  { apply keeps_wrapping. apply V2_applyOverride_keeps. apply Hos. now left. }
  intros _ _. apply IH. intros o' Ho'. apply Hos. now right.
Qed.

(** Reading the sections changes nothing. *)
Lemma read_only_ret {X} (x : X) : read_only (ret x).
Proof. intros s. reflexivity. Qed.
Lemma read_only_fail {X} (e : error) : read_only (@fail X e).
Proof. intros s. reflexivity. Qed.
Lemma read_only_bind {X Y} (m : M X) (k : X -> M Y) :
  read_only m -> (forall x, read_only (k x)) -> read_only (bind m k).
Proof.
  intros Hm Hk s. unfold bind. specialize (Hm s).
  destruct (m s) as [s' [x|e|p]]; simpl in *; subst; try reflexivity. apply Hk.
Qed.
Lemma read_only_load (h : handle) : read_only (load h).
Proof. intros s. reflexivity. Qed.
Lemma read_only_Interface (h : handle) : read_only (Interface h).
Proof.
  intros s. unfold Interface. destruct (h_ro h); [reflexivity|].
  destruct (read h s); reflexivity.
Qed.
Lemma read_only_Indirect (h : handle) : read_only (Indirect h).
Proof. intros s. destruct (Indirect_pure h s) as [t ->]. reflexivity. Qed.
Lemma read_only_findFieldByElementKey (v : handle) (key : string) (nf : StructField -> string) :
  read_only (V2.findFieldByElementKey v key nf).
Proof.
  unfold V2.findFieldByElementKey. apply read_only_bind; [apply read_only_Indirect|].
  intros [v'|]; [|apply read_only_ret].
  destruct (negb (kind_eqb (kind_of (h_type v')) KStruct)); [apply read_only_ret|].
  destruct (V2.FieldByName key v' (type_fields (h_type v')) 0); apply read_only_ret.
Qed.

Lemma hoare_pure {X} (m : M X) (s0 : world) :
  read_only m -> hoare (fun s => s = s0) m (fun _ s => s = s0) (fun s => s = s0).
Proof.
  intros Hm s ->. specialize (Hm s0). destruct (m s0) as [s' [x|e|p]]; exact Hm.
Qed.

#[local] Existing Instance V2.sectionWalker_Walker.

Lemma read_only_sectionWalker_StructField (f : StructField) (v : handle)
    (w : V2.sectionWalker) : read_only (V2.sectionWalker_StructField f v w).
Proof.
  unfold V2.sectionWalker_StructField.
  destruct (V2.sw_depth w =? 0)%Z; [|apply read_only_ret].
  destruct (V2.getSectionName f) as [name ok]. destruct ok; [|apply read_only_ret].
  cbv zeta. apply read_only_bind; [apply read_only_Indirect|]. intros t.
  destruct (kind_eqb _ KStruct); [|apply read_only_ret].
  apply read_only_bind; [apply read_only_Interface|]. intros x. apply read_only_ret.
Qed.

Lemma read_only_sectionWalker_SliceElem (idx : nat) (v : handle) (w : V2.sectionWalker) :
  read_only (V2.sectionWalker_SliceElem idx v w).
Proof.
  unfold V2.sectionWalker_SliceElem.
  destruct (String.eqb (V2.sw_currentSectionName w) ""); [apply read_only_ret|].
  destruct (V2.sw_depth w =? 1)%Z; [|apply read_only_ret].
  destruct (V2.elementKeys w !! V2.sw_currentSectionName w) as [key|]; [|apply read_only_fail].
  apply read_only_bind; [apply read_only_findFieldByElementKey|]. intros [elementField|];
    [|apply read_only_fail].
  destruct (negb (kind_eqb (kind_of (h_type elementField)) KString)); [apply read_only_fail|].
  apply read_only_bind; [apply read_only_load|]. intros name. cbv zeta.
  apply read_only_bind; [apply read_only_Interface|]. intros x. apply read_only_ret.
Qed.

Lemma V2_sections_Walk_pure (w : V2.sectionWalker) : read_only (Walk w).
Proof.
  intros s0.
  assert (HW : hoare (fun s => s = s0) (Walk w) (fun _ s => s = s0) (fun s => s = s0)).
  { apply (Walk_inv (vt (tree s0)) (fun s => s = s0) (fun _ => True)
             (fun _ s => s = s0) (fun _ s => s = s0)
             (fun _ _ s => s = s0) (fun _ _ _ _ s => s = s0) (fun _ _ _ _ s => s = s0)
             (fun _ => True)); try (intros; exact I);
      try (intros; apply hoare_pure; intros s; reflexivity).
    - now intros ? ? ->.
    - intros w0 s Hs _. exact Hs.
    - intros. apply hoare_pure. apply read_only_sectionWalker_StructField.
    - intros. apply hoare_pure. apply read_only_sectionWalker_StructField.
    - intros. apply hoare_pure. apply read_only_sectionWalker_SliceElem. }
  specialize (HW s0 eq_refl). destruct (Walk w s0) as [s' [x|e|p]]; exact HW.
Qed.

Lemma Inv_untouched (s : world) : Inv A s -> untouched A s.
Proof. intros [_ H]. exact H. Qed.
End V2_footprint.

Section calls_footprint.
Variable methods : Methods.
Hypothesis Hhooks : hooks_local methods.

Lemma copy_Inv (x : Value) (s : world) :
  untouched (vaddrs (vv x)) s ->
  Inv (vaddrs (vv x))
      (mkWorld (mkValue (vt x) (fst (Copy (vv x) (next s))))
               (snd (Copy (vv x) (next s))) (writes s)).
Proof.
  intros [Hn Hw]. destruct (Copy_fresh (vv x) (next s)) as [Hle Hfresh].
  split; [|split].
  - intros a Ha Hin. simpl in Ha. specialize (Hfresh a Ha). specialize (Hn a Hin). lia.
  - intros a Hin. simpl. specialize (Hn a Hin). lia.
  - exact Hw.
Qed.

Lemma V2_Override_untouched (c : V2.Overrider) (o : V2.Override) (s : world) :
  options_clean (vaddrs (vv (V2.original c))) (V2.o_Options o) ->
  untouched (vaddrs (vv (V2.original c))) s ->
  untouched (vaddrs (vv (V2.original c))) (fst (V2.Overrider_Override methods c o s)).
Proof.
  intros Ho Hs. unfold V2.Overrider_Override, bind, CopyM, set_tree.
  pose proof (copy_Inv (V2.original c) s Hs) as Hi.
  destruct (Copy (vv (V2.original c)) (next s)) as [v' n']. simpl in Hi |- *.
  pose proof (V2_applyOverride_keeps _ methods Hhooks c o Ho _ Hi) as Hk.
  destruct (V2.applyOverride methods c o _) as [s' [x|e|p]]; simpl;
    eapply Inv_untouched; try exact Hk. exact (proj1 Hk).
Qed.

#[local] Existing Instance V2.sectionWalker_Walker.

Lemma wrapping_world {X} (fmt : string) (args : list operand) (m : M X) (s : world) :
  fst (wrapping fmt args m s) = fst (m s).
Proof. unfold wrapping. destruct (m s) as [s' [x|e|p]]; reflexivity. Qed.

Lemma V2_OverrideAll_untouched (c : V2.Overrider) (os : list V2.Override) (s : world) :
  (forall o, In o os -> options_clean (vaddrs (vv (V2.original c))) (V2.o_Options o)) ->
  untouched (vaddrs (vv (V2.original c))) s ->
  untouched (vaddrs (vv (V2.original c))) (fst (V2.Overrider_OverrideAll methods c os s)).
Proof.
  intros Ho Hs. unfold V2.Overrider_OverrideAll, bind, CopyM, set_tree.
  pose proof (copy_Inv (V2.original c) s Hs) as Hi.
  destruct (Copy (vv (V2.original c)) (next s)) as [v' n']. simpl in Hi |- *.
  pose proof (V2_applyAll_keeps _ methods Hhooks c os Ho _ Hi) as Hk.
  destruct (V2.applyAll methods c os _) as [s' [x|e|p]]; simpl;
    try (eapply Inv_untouched; exact Hk).
  pose proof (wrapping_world "failed to read sections from configuration object" []
                (Walk (V2.newSectionWalker (V2.OptionNameFunc c))) s') as Ew.
  rewrite (V2_sections_Walk_pure _ s') in Ew.
  destruct (wrapping _ _ _ s') as [s'' [w|e|p]]; simpl in Ew |- *; subst s'';
    eapply Inv_untouched; exact (proj1 Hk).
Qed.

(** The section-level engine. *)
Lemma V1_weakCopyValue_keeps (A : list addr) (src : option Value) (dst : handle) :
  handle_ok A dst ->
  (forall x, src = Some x -> clean A (vv x)) ->
  keeps A (V1.weakCopyValue src dst) (fun _ => True).
Proof.
  intros Hd Hsrc. unfold V1.weakCopyValue.
  assert (Hint : forall n, keeps A (store dst (VInt n)) (fun _ => True)).
  { intros n. apply keeps_store; [exact Hd | intros b []]. }
  assert (Hfloat : forall f, keeps A (store dst (VFloat f)) (fun _ => True)).
  { intros f. apply keeps_store; [exact Hd | intros b []]. }
  destruct (negb (CanSet dst)); [apply keeps_fail|]. cbv zeta.
  destruct (kind_eqb (KindOf src) (kind_of (h_type dst))).
  - destruct src as [x|]; [|apply keeps_panic].
    destruct (assignable (h_type dst) (vt x)); [|apply keeps_panic].
    apply keeps_store; [exact Hd | now apply Hsrc].
  - destruct (isNumericKind (kind_of (h_type dst))); [|apply keeps_fail].
    destruct (isNumericKind (KindOf src)).
    + destruct src as [x|]; [|apply keeps_fail].
      apply keeps_store; [exact Hd|].
      intros b Hb. apply (Hsrc x eq_refl).
      now apply (vaddrs_convert (kind_of (h_type dst)) (vv x) b).
    + destruct (kind_eqb (KindOf src) KString); [|apply keeps_fail].
      destruct src as [[t [| | |str| | | | | | |]]|]; try apply keeps_fail.
      destruct (isIntKind (kind_of (h_type dst)));
        [destruct (ParseInt str); [apply Hint | apply keeps_fail]|].
      destruct (isUintKind (kind_of (h_type dst)));
        [destruct (ParseUint str); [apply Hint | apply keeps_fail]|].
      destruct (isFloatKind (kind_of (h_type dst)));
        [destruct (ParseFloat str); [apply Hfloat | apply keeps_fail]|].
      apply keeps_fail.
Qed.

#[local] Existing Instance V1.overrideWalker_Walker.

Lemma V1_Walk_keeps (A : list addr) (w : V1.overrideWalker) :
  options_clean A (V1.set w) ->
  keeps A (Walk w) (fun w' => options_clean A (V1.set w')).
Proof.
  intros Hw s Hs.
  apply (Walk_inv (vt (tree s)) (Inv A) (Inv A)
           (fun w s' => Inv A s' /\ (options_clean A (V1.set w)
                                     /\ vt (tree s') = vt (tree s)))
           (fun w s' => Inv A s' /\ options_clean A (V1.set w))
           (fun _ w s' => Inv A s' /\ options_clean A (V1.set w))
           (fun _ _ _ w s' => Inv A s' /\ options_clean A (V1.set w))
           (fun _ _ _ w s' => Inv A s' /\ options_clean A (V1.set w))
           (handle_ok A)); try (intros; exact I).
  - intros w0 s0 (_ & _ & Ht). exact Ht.
  - intros w0 s0 (Hi & _). exact Hi.
  - intros i0 f0 ft0 w0 s0 (Hi & _). exact Hi.
  - intros h i f ft Hh. exact Hh.
  - intros h a x s0 _ Hi Hr. eapply deref_handle_ok; eauto.
  - intros h a es i s0 _ Hi Hr. eapply index_handle_ok; eauto.
  - intros w0 s0 (Hi & Hw0 & _) _. split; assumption.
  - intros h w0 _ _ _ s0 (Hi & Hw0 & _). simpl. split; assumption.
  - intros h i f ft w0 Hh _ _ _ s0 [Hi Ho]. simpl.
    unfold V1.overrideWalker_StructField.
    destruct (V1.depth w0 =? 0)%Z.
    + destruct (V1.getSectionName f) as [name ok]. destruct ok; [|split; assumption].
      simpl. destruct (String.eqb (V1.ow_section w0) name); split; assumption.
    + destruct (V1.depth w0 =? 1)%Z; [|split; assumption].
      destruct (negb (String.eqb (V1.currentSectionName w0) (V1.ow_section w0)));
        [split; assumption|].
      cbv zeta.
      destruct (V1.set w0 !! V1.ow_optionNameFunc w0 f) as [setValue|] eqn:Eo;
        [|split; assumption].
      apply (keeps_bind A _ _ (fun _ => True) (fun w' => options_clean A (V1.set w')));
        [| |exact Hi].
      * apply keeps_wrapping. apply V1_weakCopyValue_keeps; [exact Hh|].
        apply ValueOf_clean. apply (Ho _ _ Eo).
      * intros _ _. now apply keeps_ret.
  - intros i f ft w0 s0 Hw0. simpl. exact Hw0.
  - intros i f ft w0 _ s0 Hw0. simpl. exact Hw0.
  - intros w0 s0 Hw0. simpl. exact Hw0.
  - intros i0 f0 ft0 l w0 _ s0 Hw0. simpl. exact Hw0.
  - intros i0 f0 ft0 l w0 _ s0 Hw0. simpl. exact Hw0.
  - intros i0 f0 ft0 h w0 _ s0 Hw0. simpl. exact Hw0.
  - intros i0 f0 ft0 h i f ft w0 _ _ Hh _ s0 [Hi Ho]. simpl.
    unfold V1.overrideWalker_StructField.
    destruct (V1.depth w0 =? 0)%Z.
    + destruct (V1.getSectionName f) as [name ok]. destruct ok; [|split; assumption].
      simpl. destruct (String.eqb (V1.ow_section w0) name); split; assumption.
    + destruct (V1.depth w0 =? 1)%Z; [|split; assumption].
      destruct (negb (String.eqb (V1.currentSectionName w0) (V1.ow_section w0)));
        [split; assumption|].
      cbv zeta.
      destruct (V1.set w0 !! V1.ow_optionNameFunc w0 f) as [setValue|] eqn:Eo;
        [|split; assumption].
      apply (keeps_bind A _ _ (fun _ => True) (fun w' => options_clean A (V1.set w')));
        [| |exact Hi].
      * apply keeps_wrapping. apply V1_weakCopyValue_keeps; [exact Hh|].
        apply ValueOf_clean. apply (Ho _ _ Eo).
      * intros _ _. now apply keeps_ret.
  - intros i0 f0 ft0 w0 s0 Hw0. simpl. exact Hw0.
  - intros i0 f0 ft0 h w0 _ _ _ _ s0 Hw0. simpl. exact Hw0.
  - intros i0 f0 ft0 i hs a w0 _ _ _ _ _ s0 Hw0. simpl. exact Hw0.
  - split; [exact Hs|]. split; [exact Hw | reflexivity].
Qed.

Lemma V1_Override_untouched (c : V1.Overrider) (section : string)
    (overrides : gmap string Value) (s : world) :
  options_clean (vaddrs (vv (V1.original c))) overrides ->
  untouched (vaddrs (vv (V1.original c))) s ->
  untouched (vaddrs (vv (V1.original c))) (fst (V1.Override c section overrides s)).
Proof.
  intros Ho Hs. unfold V1.Override.
  destruct (String.eqb section ""); [exact Hs|].
  unfold bind, CopyM, set_tree.
  pose proof (copy_Inv (V1.original c) s Hs) as Hi.
  destruct (Copy (vv (V1.original c)) (next s)) as [v' n']. simpl in Hi |- *.
  pose proof (V1_Walk_keeps _ (V1.newOverrideWalker section overrides (V1.OptionNameFunc c))
                Ho _ Hi) as Hk.
  unfold wrapping.
  destruct (Walk _ _) as [s' [w|e|p]]; simpl;
    try (eapply Inv_untouched; exact Hk).
  destruct Hk as [Hk _].
  destruct (Nat.ltb 0 (length (V1.unused w))); simpl; [eapply Inv_untouched; exact Hk|].
  unfold V1.sectionObject.
  destruct (V1.sectionValue w) as [v|]; simpl; [|eapply Inv_untouched; exact Hk].
  pose proof (read_only_Interface v s') as Hp. unfold bind.
  destruct (Interface v s') as [s'' [x|e|p]]; simpl in Hp |- *; subst s'';
    eapply Inv_untouched; exact Hk.
Qed.
End calls_footprint.

Lemma run_all_untouched {K} (A : list addr) (run : K -> world -> world)
    (calls : list K) (s : world) :
  (forall k s, In k calls -> untouched A s -> untouched A (run k s)) ->
  untouched A s -> untouched A (run_all run calls s).
Proof.
  revert s. induction calls as [|k calls IH]; intros s Hrun Hs; [exact Hs|].
  simpl. apply IH.
  - intros k' s' Hk'. apply Hrun. now right.
  - apply Hrun; [now left | exact Hs].
Qed.

Lemma untouched_observe (v : value) (s : world) :
  untouched (vaddrs v) s -> observe (writes s) v = v.
Proof. intros [_ Hw]. apply observe_untouched. exact Hw. Qed.

(** C1, as amended.  For every sequence of [Override] calls of the
    section-level engine, and every sequence of [Override] and
    [OverrideAll] calls of the element-level engine, whose option values
    hold no reference into the original configuration tree (the hooks of
    the configuration's types acting on their receiver only), and
    whether the calls succeed or fail: no allocation of the original is
    ever written -- each call writes to its fresh deep copy only -- and
    the original, as it reads after the calls, is deeply equal to the
    value supplied at construction. *)
Theorem original_never_modified (methods : Methods)
    (c1 : V1.Overrider) (calls1 : list (string * gmap string Value))
    (c2 : V2.Overrider) (calls2 : list V2_call) (s : world) :
  hooks_local methods ->
  untouched (vaddrs (vv (V1.original c1))) s ->
  untouched (vaddrs (vv (V2.original c2))) s ->
  (forall k, In k calls1 -> options_clean (vaddrs (vv (V1.original c1))) (snd k)) ->
  (forall k, In k calls2 -> V2_call_clean (vaddrs (vv (V2.original c2))) k) ->
  (untouched (vaddrs (vv (V1.original c1))) (run_all (V1_run c1) calls1 s)
   /\ DeepEqual (observe (writes (run_all (V1_run c1) calls1 s)) (vv (V1.original c1)))
                (vv (V1.original c1)))
  /\ (untouched (vaddrs (vv (V2.original c2))) (run_all (V2_run methods c2) calls2 s)
      /\ DeepEqual (observe (writes (run_all (V2_run methods c2) calls2 s))
                            (vv (V2.original c2)))
                   (vv (V2.original c2))).
Proof.
  intros Hhooks Hs1 Hs2 Hc1 Hc2.
  assert (H1 : untouched (vaddrs (vv (V1.original c1))) (run_all (V1_run c1) calls1 s)).
  { apply run_all_untouched; [|exact Hs1].
    intros k s' Hk Hs'. apply V1_Override_untouched; [now apply Hc1 | exact Hs']. }
  assert (H2 : untouched (vaddrs (vv (V2.original c2)))
                         (run_all (V2_run methods c2) calls2 s)).
  { apply run_all_untouched; [|exact Hs2].
    intros k s' Hk Hs'. specialize (Hc2 k Hk).
    destruct k as [o|os]; simpl.
    - now apply V2_Override_untouched.
    - now apply V2_OverrideAll_untouched. }
  split; (split; [assumption|]); unfold DeepEqual; now rewrite untouched_observe.
Qed.

Lemma durationMethods_local : hooks_local Examples.durationMethods.
Proof.
  split.
  - intros rt um text rv Hum. simpl in Hum.
    destruct (rtype_eqb rt Examples.Duration); [|discriminate Hum].
    injection Hum as <-. unfold Examples.Duration_UnmarshalText.
    destruct (ParseInt text); simpl; [intros b [] | apply incl_refl].
  - intros t f v Hf. discriminate Hf.
Qed.

Lemma w0_untouched (x : Value) :
  forallb (fun a => Nat.ltb a 10) (vaddrs (vv x)) = true ->
  untouched (vaddrs (vv x)) Examples.w0.
Proof.
  intros H. split; [|intros an []].
  intros a Ha. rewrite forallb_forall in H. specialize (H a Ha).
  apply Nat.ltb_lt in H. exact H.
Qed.

Lemma singleton_clean (A : list addr) (k : string) (t : rtype) (s : string) :
  options_clean A {[k := mkValue t (VString s)]}.
Proof.
  intros k' v Hk. apply lookup_singleton_Some in Hk as [_ <-]. intros b [].
Qed.

(** A set on the test configuration of the service, then an
    [OverrideAll] and a failing [Override] on a configuration with a
    duration behind a pointer. *)
Lemma original_never_modified_witness :
  DeepEqual
    (observe (writes (run_all (V1_run (V1.mkOverrider Examples.testConfig TomlFieldName))
                        [("section-a", {["option-1" := Examples.str "new-o1"]})]
                        Examples.w0))
             (vv Examples.testConfig))
    (vv Examples.testConfig)
  /\ DeepEqual
       (observe (writes (run_all (V2_run Examples.durationMethods
                                    (V2.mkOverrider Examples.timedConfig TomlFieldName))
                           [CallOverrideAll
                              [V2.mkOverride "timed" "" {["retry" := Examples.str "7"]}
                                             false false];
                            CallOverride
                              (V2.mkOverride "timed" "" {["timeout" := Examples.str "soon"]}
                                             false false)]
                           Examples.w0))
                (vv Examples.timedConfig))
       (vv Examples.timedConfig).
Proof.
  destruct (original_never_modified Examples.durationMethods
              (V1.mkOverrider Examples.testConfig TomlFieldName)
              [("section-a", {["option-1" := Examples.str "new-o1"]})]
              (V2.mkOverrider Examples.timedConfig TomlFieldName)
              [CallOverrideAll
                 [V2.mkOverride "timed" "" {["retry" := Examples.str "7"]} false false];
               CallOverride
                 (V2.mkOverride "timed" "" {["timeout" := Examples.str "soon"]} false false)]
              Examples.w0) as [[_ H1] [_ H2]].
  - exact durationMethods_local.
  - apply w0_untouched. reflexivity.
  - apply w0_untouched. reflexivity.
  - intros k [<-|[]]. apply singleton_clean.
  - intros k [<-|[<-|[]]]; simpl.
    + intros o [<-|[]]. apply singleton_clean.
    + apply singleton_clean.
  - split; assumption.
Defined.

(** C1 as stated fails.  [OverrideAll] applies its overrides to one
    copy.  The first override stores in the copy's [Retry] field the
    pointer it is given, which is the original's own [Retry] pointer;
    the second sets [Retry] from text, and [weakCopyValue] unmarshals
    into what the field points to: the original's retry duration
    becomes 7. *)
Lemma original_modified_through_alias :
  let c := V2.mkOverrider Examples.timedConfig TomlFieldName in
  let os := [V2.mkOverride "timed" ""
               {["retry" := mkValue (TPtr Examples.Duration) (VPtr (Some (1, VInt 5)))]}
               false false;
             V2.mkOverride "timed" "" {["retry" := Examples.str "7"]} false false] in
  hooks_local Examples.durationMethods
  /\ untouched (vaddrs (vv (V2.original c))) Examples.w0
  /\ (exists m, snd (V2.Overrider_OverrideAll Examples.durationMethods c os Examples.w0)
                = Ok m)
  /\ observe (writes (V2_run Examples.durationMethods c (CallOverrideAll os) Examples.w0))
             (vv (V2.original c))
     = VPtr (Some (0, VStruct [ VStruct [VInt 30; VPtr (Some (1, VInt 7))] ]))
  /\ ~ DeepEqual
         (observe (writes (V2_run Examples.durationMethods c (CallOverrideAll os)
                             Examples.w0))
                  (vv (V2.original c)))
         (vv (V2.original c)).
Proof.
  intros c os. split; [exact durationMethods_local|].
  split; [apply w0_untouched; reflexivity|].
  split; [eexists; vm_compute; reflexivity|].
  split; [vm_compute; reflexivity|].
  unfold DeepEqual. vm_compute. intros H. discriminate H.
Qed.

(** ** Untagged top-level fields, second revision *)

Section V2_sections.
Variable config : Value.

#[local] Existing Instance V2.sectionWalker_Walker.

Let tagged := V2_sections_tagged config.

Lemma V2_Walk_sections_tagged (w : V2.sectionWalker) :
  hoare (fun s => tagged 0%Z w /\ vt (tree s) = vt config) (Walk w)
        (fun w' _ => tagged 0%Z w') (fun _ => True).
Proof.
  apply (Walk_inv (vt config) (fun _ => True) (fun _ => True)
           (fun w s => tagged 0%Z w /\ vt (tree s) = vt config)
           (fun w _ => tagged 0%Z w)
           (fun _ w _ => tagged 0%Z w)
           (fun _ _ _ w _ => tagged 0%Z w)
           (fun _ _ _ w _ => tagged 1%Z w)
           (fun _ => True)); try (intros; exact I).
  - intros w0 s [_ Ht]. exact Ht.
  - intros w0 s [Hw _] _. exact Hw.
  - intros h w0 _ _ _ s [Hw _]. simpl. exact Hw.
  - (* top_field *)
    intros h i f ft w0 _ _ _ Hf s (Hd & Hs & Hc). simpl.
    unfold V2.sectionWalker_StructField. rewrite Hd. simpl.
    destruct (V2.getSectionName f) as [name ok] eqn:En.
    destruct ok; [|split; [first [exact Hd | reflexivity]|]; split; [exact Hs | now left]].
    assert (Hdecl : declares_section config name).
    { exists f, ft. split; [|exact En]. unfold top_fields.
      apply list_elem_of_In. eapply list_elem_of_lookup_2. exact Hf. }
    cbv zeta. unfold bind.
    destruct (Indirect_pure (field_handle h i f ft) s) as [t ->].
    destruct (kind_eqb _ KStruct); [|split; [first [exact Hd | reflexivity]|]; split; [exact Hs | now right]].
    unfold Interface. destruct (h_ro (field_handle h i f ft)); [exact I|].
    destruct (read (field_handle h i f ft) s); [|exact I].
    split; [first [exact Hd | reflexivity]|]. split; [|now right]. simpl. intros n Hn.
    destruct (decide (name = n)) as [<-|N]; [exact Hdecl|].
    rewrite lookup_insert_ne in Hn by exact N. now apply Hs.
  - intros i f ft w0 s (Hd & Hs & Hc). simpl. split; [|split; assumption].
    simpl. now rewrite Hd.
  - intros i f ft w0 _ s (Hd & Hs & Hc). simpl. split; [|split; assumption].
    simpl. now rewrite Hd.
  - intros w0 s Hw. simpl. exact Hw.
  - intros i0 f0 ft0 l w0 Hl s (Hd & Hs & Hc). simpl. split; [|split; assumption].
    simpl. destruct l; try assumption. contradiction.
  - intros i0 f0 ft0 l w0 Hl s (Hd & Hs & Hc). simpl. split; [|split; assumption].
    simpl. destruct l; try assumption. contradiction.
  - intros i0 f0 ft0 h w0 _ s Hw. simpl. exact Hw.
  - (* field_inv *)
    intros i0 f0 ft0 h i f ft w0 _ _ _ Hf s (Hd & Hs & Hc). simpl.
    unfold V2.sectionWalker_StructField. rewrite Hd. simpl.
    split; [first [exact Hd | reflexivity]|]. split; assumption.
  - intros i0 f0 ft0 w0 s (Hd & Hs & Hc). simpl. split; [|split; assumption].
    simpl. rewrite Hd. reflexivity.
  - intros i0 f0 ft0 h w0 _ _ _ _ s Hw. simpl. exact Hw.
  - (* elem_inv *)
    intros i0 f0 ft0 i hs a w0 _ _ _ _ _ s (Hd & Hs & Hc). simpl.
    unfold V2.sectionWalker_SliceElem.
    destruct (String.eqb (V2.sw_currentSectionName w0) "") eqn:Ecur;
      [split; [first [exact Hd | reflexivity]|]; split; assumption|].
    apply String.eqb_neq in Ecur. destruct Hc as [Hc|Hc]; [contradiction|].
    rewrite Hd. simpl.
    destruct (V2.elementKeys w0 !! V2.sw_currentSectionName w0) as [key|]; [|exact I].
    unfold bind.
    pose proof (read_only_findFieldByElementKey (index_handle hs a i) key
                  (V2.sw_optionNameFunc w0) s) as Hp.
    destruct (V2.findFieldByElementKey _ _ _ s) as [s' [[ef|]|e|p]]; try exact I.
    simpl in Hp. subst s'.
    destruct (negb (kind_eqb (kind_of (h_type ef)) KString)); [exact I|].
    simpl. unfold Interface. destruct (h_ro (index_handle hs a i)); [exact I|].
    destruct (read (index_handle hs a i) s); [|exact I].
    split; [first [exact Hd | reflexivity]|]. split; [|now right]. simpl. intros n Hn.
    destruct (decide (V2.sw_currentSectionName w0 = n)) as [<-|N]; [exact Hc|].
    rewrite lookup_insert_ne in Hn by exact N. now apply Hs.
Qed.
End V2_sections.

(** X1.  In the second revision a field without an [override] tag is not a
    section, and every section that [Sections] lists is that of a
    tagged top-level field. *)
Theorem V2_Sections_only_tagged_fields (c : V2.Overrider) (s : world) :
  (forall f, Tag_Get structTagKey (Tag f) = EmptyString ->
             snd (V2.getSectionName f) = false)
  /\ match V2.Overrider_Sections c s with
     | (_, Ok m) =>
         forall name, is_Some (m !! name) -> declares_section (V2.original c) name
     | _ => True
     end.
Proof.
  split.
  - intros f Hf. unfold V2.getSectionName. rewrite Hf. reflexivity.
  - unfold V2.Overrider_Sections, bind, set_tree, wrapping.
    pose proof (V2_Walk_sections_tagged (V2.original c)
                  (V2.newSectionWalker (V2.OptionNameFunc c))
                  (mkWorld (V2.original c) (next s) (writes s))) as HW.
    destruct (Walk _ _) as [s' [w|e|p]]; try exact I.
    destruct HW as (_ & Hs & _).
    { split; [|reflexivity]. split; [reflexivity|]. split; [|now left].
      intros name Hn. simpl in Hn. rewrite lookup_empty in Hn.
      destruct Hn as [x Hx]. discriminate Hx. }
    intros name Hn. apply Hs. unfold V2.sectionsMap in Hn.
    rewrite lookup_fmap in Hn. destruct (V2.sections w !! name); [eauto|].
    destruct Hn as [x Hx]. discriminate Hx.
Qed.

(* ===================================================================== *)
(** * Part IV.  More of the sources                                       *)
(* ===================================================================== *)

(** ** The grammar of the struct tags

    [strings.Split] undoes the writing of a tag value from its parts,
    so what the readers of a tag compute can be told from the parts. *)

Lemma Split_cons_part (p rest : string) :
  no_comma p = true ->
  Split (String.append p (String comma rest)) = p :: Split rest.
Proof.
  induction p as [|c p IH]; simpl; intros Hp.
  - reflexivity.
  - apply andb_prop in Hp as [Hc Hp]. apply negb_true_iff in Hc. rewrite Hc.
    rewrite (IH Hp). reflexivity.
Qed.

Lemma Split_single (p : string) : no_comma p = true -> Split p = [p].
Proof.
  induction p as [|c p IH]; simpl; intros Hp.
  - reflexivity.
  - apply andb_prop in Hp as [Hc Hp]. apply negb_true_iff in Hc. rewrite Hc.
    rewrite (IH Hp). reflexivity.
Qed.

Lemma Split_Join (p0 : string) (ps : list string) :
  List.Forall (fun p => no_comma p = true) (p0 :: ps) ->
  Split (Join (p0 :: ps)) = p0 :: ps.
Proof.
  revert p0. induction ps as [|p1 ps IH]; intros p0 H.
  - simpl. apply Split_single. inversion H; assumption.
  - inversion H as [|? ? Hp0 Hrest]; subst.
    change (Join (p0 :: p1 :: ps)) with (String.append p0 (String comma (Join (p1 :: ps)))).
    rewrite (Split_cons_part _ _ Hp0). rewrite (IH p1 Hrest). reflexivity.
Qed.

Lemma Split_no_comma (s : string) : List.Forall (fun p => no_comma p = true) (Split s).
Proof.
  induction s as [|c s IH]; simpl.
  - repeat constructor.
  - destruct (Ascii.eqb c comma) eqn:Hc.
    + constructor; [reflexivity | exact IH].
    + destruct (Split s) as [|h t]; [repeat constructor; simpl; rewrite Hc; reflexivity|].
      inversion IH; subst. constructor; [simpl; rewrite Hc; assumption | assumption].
Qed.

Lemma Join_Split (s : string) : Join (Split s) = s.
Proof.
  induction s as [|c s IH]; simpl.
  - reflexivity.
  - destruct (Ascii.eqb c comma) eqn:Hc.
    + apply Ascii.eqb_eq in Hc. subst c.
      pose proof (Split_nonempty s) as Hne.
      destruct (Split s) as [|h t]; [contradiction|].
      simpl in IH |- *. rewrite IH. reflexivity.
    + destruct (Split s) as [|h t]; [now rewrite <- IH|].
      simpl in IH |- *. destruct t; simpl; rewrite <- IH; reflexivity.
Qed.

Lemma HasPrefix_append (p r : string) : HasPrefix (String.append p r) p = true.
Proof. induction p as [|c p IH]; simpl; [destruct r; reflexivity|]. rewrite Ascii.eqb_refl. exact IH. Qed.

Lemma HasPrefix_split (s p : string) :
  HasPrefix s p = true -> exists r, s = String.append p r.
Proof.
  revert s. induction p as [|c p IH]; intros s H.
  - exists s. reflexivity.
  - destruct s as [|b s]; simpl in H; [discriminate|].
    apply andb_prop in H as [Hc H]. apply Ascii.eqb_eq in Hc. subst b.
    destruct (IH s H) as [r ->]. exists r. reflexivity.
Qed.

Lemma substring_all (s : string) : String.substring 0 (String.length s) s = s.
Proof. induction s as [|c s IH]; simpl; [reflexivity|]. rewrite IH. reflexivity. Qed.

Lemma substring_skip (p r : string) (n : nat) :
  String.substring (String.length p) n (String.append p r) = String.substring 0 n r.
Proof. induction p as [|c p IH]; simpl; [reflexivity|]. exact IH. Qed.

Lemma length_append (p r : string) :
  String.length (String.append p r) = String.length p + String.length r.
Proof. induction p as [|c p IH]; simpl; [reflexivity|]. rewrite IH. reflexivity. Qed.

Lemma TrimPrefix_append (p r : string) : TrimPrefix (String.append p r) p = r.
Proof.
  unfold TrimPrefix. rewrite HasPrefix_append, length_append.
  replace (String.length p + String.length r - String.length p) with (String.length r) by lia.
  rewrite substring_skip. apply substring_all.
Qed.

(** X2.  [tagFieldName] (and with it [TomlFieldName], [JSONFieldName]
    and [OverrideFieldName]): the option name is what the tag holds
    before its first comma; a tag that is absent, empty or starts with a
    comma gives the Go field name. *)
Theorem tagFieldName_of_parts (tag : string) (f : StructField) (p0 : string)
    (ps : list string) :
  List.Forall (fun p => no_comma p = true) (p0 :: ps) ->
  Tag_Get tag (Tag f) = Join (p0 :: ps) ->
  (p0 <> EmptyString -> tagFieldName tag f = p0)
  /\ (p0 = EmptyString -> tagFieldName tag f = Name f).
Proof.
  intros Hp Ht. unfold tagFieldName. rewrite Ht, (Split_Join _ _ Hp). split.
  - intros Hne. destruct (String.eqb p0 "") eqn:E; [apply String.eqb_eq in E; contradiction|reflexivity].
  - intros ->. reflexivity.
Qed.

Lemma tagFieldName_of_parts_witness :
  let f := mkField "Password" [("toml", "password,omitempty"); ("override", ",redact")] true in
  tagFieldName "toml" f = "password" /\ tagFieldName "override" f = "Password".
Proof.
  intros f. split.
  - apply (proj1 (tagFieldName_of_parts "toml" f "password" ["omitempty"]
                    ltac:(repeat constructor) eq_refl)).
    discriminate.
  - apply (proj2 (tagFieldName_of_parts "override" f EmptyString ["redact"]
                    ltac:(repeat constructor) eq_refl)).
    reflexivity.
Defined.

(** X3.  [getSectionName], second revision: the section name is the
    first part of the [override] tag; a field whose tag is absent, or
    starts with a comma, is no section, and its Go field name is
    returned with [false]. *)
Theorem getSectionName_of_parts (f : StructField) (p0 : string) (ps : list string) :
  List.Forall (fun p => no_comma p = true) (p0 :: ps) ->
  Tag_Get structTagKey (Tag f) = Join (p0 :: ps) ->
  (p0 <> EmptyString -> V2.getSectionName f = (p0, true))
  /\ (p0 = EmptyString -> V2.getSectionName f = (Name f, false)).
Proof.
  intros Hp Ht. unfold V2.getSectionName. rewrite Ht, (Split_Join _ _ Hp). split.
  - intros Hne. destruct (String.eqb p0 "") eqn:E; [apply String.eqb_eq in E; contradiction|reflexivity].
  - intros ->. reflexivity.
Qed.

Lemma getSectionName_of_parts_witness :
  V2.getSectionName (exported "SectionB" [("override", "section-b,element-key=id")])
  = ("section-b", true).
Proof.
  apply (proj1 (getSectionName_of_parts
                  (exported "SectionB" [("override", "section-b,element-key=id")])
                  "section-b" ["element-key=id"] ltac:(repeat constructor) eq_refl)).
  discriminate.
Defined.

(** X4.  [isRedacted]: a field is redacted exactly when [redact] is one
    of the parts of its [override] tag after the first; the first part,
    the name, is never read as the keyword. *)
Theorem isRedacted_of_parts (f : StructField) (p0 : string) (ps : list string) :
  List.Forall (fun p => no_comma p = true) (p0 :: ps) ->
  Tag_Get structTagKey (Tag f) = Join (p0 :: ps) ->
  (isRedacted f = true <-> In redactKeyword ps).
Proof.
  intros Hp Ht. unfold isRedacted. rewrite Ht, (Split_Join _ _ Hp). simpl tl.
  destruct ps as [|p1 ps].
  - simpl. split; [discriminate | contradiction].
  - replace (Nat.ltb 1 (length (p0 :: p1 :: ps))) with true by reflexivity.
    rewrite existsb_exists. split.
    + intros (x & Hin & Hx). apply String.eqb_eq in Hx. subst x. exact Hin.
    + intros Hin. exists redactKeyword. split; [exact Hin | apply String.eqb_refl].
Qed.

Lemma isRedacted_of_parts_witness :
  isRedacted (exported "Password" [("toml", "password"); ("override", ",redact")]) = true
  /\ isRedacted (exported "Redact" [("override", "redact")]) = false.
Proof.
  split.
  - apply (proj2 (isRedacted_of_parts
                    (exported "Password" [("toml", "password"); ("override", ",redact")])
                    EmptyString ["redact"] ltac:(repeat constructor) eq_refl)).
    left. reflexivity.
  - apply not_true_is_false. intros H.
    apply (proj1 (isRedacted_of_parts (exported "Redact" [("override", "redact")])
                    "redact" [] ltac:(repeat constructor) eq_refl)) in H.
    contradiction.
Defined.

(** X5.  [getElementKey]: the element key is what follows
    [element-key=] in the first part of the [override] tag, after the
    name, that begins with it; the empty string when no part does. *)
Theorem getElementKey_of_parts (f : StructField) (p0 : string) (ps : list string) :
  List.Forall (fun p => no_comma p = true) (p0 :: ps) ->
  Tag_Get structTagKey (Tag f) = Join (p0 :: ps) ->
  (forall pre k post,
      ps = pre ++ String.append V2.elementKeyword k :: post ->
      (forall p r, In p pre -> p <> String.append V2.elementKeyword r) ->
      V2.getElementKey f = k)
  /\ ((forall p r, In p ps -> p <> String.append V2.elementKeyword r) ->
      V2.getElementKey f = EmptyString).
Proof.
  intros Hp Ht. unfold V2.getElementKey. rewrite Ht, (Split_Join _ _ Hp). simpl tl.
  assert (Hfind_none : forall l, (forall p r, In p l -> p <> String.append V2.elementKeyword r) ->
            forall q, List.find (fun p => HasPrefix p V2.elementKeyword) (l ++ q)
                      = List.find (fun p => HasPrefix p V2.elementKeyword) q).
  { induction l as [|x l IH]; intros Hl q; [reflexivity|].
    simpl. destruct (HasPrefix x V2.elementKeyword) eqn:E.
    - apply HasPrefix_split in E as [r Hr]. exfalso. apply (Hl x r); [left; reflexivity | exact Hr].
    - apply IH. intros p r Hin. apply Hl. right. exact Hin. }
  split.
  - intros pre k post -> Hpre.
    replace (Nat.ltb 1 (length (p0 :: pre ++ String.append V2.elementKeyword k :: post))) with true.
    2:{ symmetry. apply Nat.ltb_lt. simpl. rewrite length_app. simpl. lia. }
    rewrite (Hfind_none pre Hpre). simpl List.find.
    rewrite HasPrefix_append. apply TrimPrefix_append.
  - intros Hnone. destruct (Nat.ltb 1 (length (p0 :: ps))); [|reflexivity].
    rewrite <- (app_nil_r ps). rewrite (Hfind_none ps Hnone). reflexivity.
Qed.

Lemma getElementKey_of_parts_witness :
  V2.getElementKey (exported "SectionB" [("override", "section-b,element-key=id")]) = "id"
  /\ V2.getElementKey (exported "SectionA" [("override", "section-a")]) = EmptyString.
Proof.
  split.
  - apply (proj1 (getElementKey_of_parts
                    (exported "SectionB" [("override", "section-b,element-key=id")])
                    "section-b" ["element-key=id"] ltac:(repeat constructor) eq_refl)
             [] "id" [] eq_refl).
    intros p r [].
  - apply (proj2 (getElementKey_of_parts (exported "SectionA" [("override", "section-a")])
                    "section-a" [] ltac:(repeat constructor) eq_refl)).
    intros p r [].
Defined.

(** ** The field that names an element *)

Lemma FieldByName_first (name : string) (h : handle) (fs : list (StructField * rtype))
    (i0 i : nat) (f : StructField) (ft : rtype) :
  fs !! i = Some (f, ft) -> Name f = name ->
  (forall j g gT, j < i -> fs !! j = Some (g, gT) -> Name g <> name) ->
  V2.FieldByName name h fs i0 = Some (field_handle h (i0 + i) f ft).
Proof.
  revert i0 i. induction fs as [|[g gT] fs IH]; intros i0 i Hf Hn Hfirst.
  - discriminate Hf.
  - destruct i as [|i]; simpl in Hf |- *.
    + injection Hf as -> ->. rewrite (proj2 (String.eqb_eq _ _) Hn).
      rewrite Nat.add_0_r. reflexivity.
    + destruct (String.eqb (Name g) name) eqn:E.
      * apply String.eqb_eq in E. exfalso. apply (Hfirst 0 g gT); [lia | reflexivity | exact E].
      * replace (i0 + S i) with (S i0 + i) by lia. apply IH; [exact Hf | exact Hn |].
        intros j g' gT' Hj Hg. apply (Hfirst (S j) g' gT'); [lia | exact Hg].
Qed.

Lemma FieldByName_none (name : string) (h : handle) (fs : list (StructField * rtype))
    (i0 : nat) :
  (forall j g gT, fs !! j = Some (g, gT) -> Name g <> name) ->
  V2.FieldByName name h fs i0 = None.
Proof.
  revert i0. induction fs as [|[g gT] fs IH]; intros i0 Hnone; [reflexivity|].
  simpl. destruct (String.eqb (Name g) name) eqn:E.
  - apply String.eqb_eq in E. exfalso. apply (Hnone 0 g gT); [reflexivity | exact E].
  - apply IH. intros j g' gT' Hg. apply (Hnone (S j) g' gT'). exact Hg.
Qed.

Lemma findFieldLoop_first (nf : StructField -> string) (key : string) (h : handle)
    (fs : list (StructField * rtype)) (i0 i : nat) (f : StructField) (ft : rtype)
    (acc : option handle) :
  fs !! i = Some (f, ft) -> CanSet (field_handle h (i0 + i) f ft) = true -> nf f = key ->
  (forall j g gT, j < i -> fs !! j = Some (g, gT) ->
                  CanSet (field_handle h (i0 + j) g gT) = true -> nf g <> key) ->
  V2.findFieldLoop nf key h fs i0 acc = Some (field_handle h (i0 + i) f ft).
Proof.
  revert i0 i acc. induction fs as [|[g gT] fs IH]; intros i0 i acc Hf Hs Hn Hfirst.
  - discriminate Hf.
  - destruct i as [|i]; simpl in Hf |- *.
    + injection Hf as -> ->. rewrite Nat.add_0_r in Hs |- *. rewrite Hs. simpl.
      rewrite (proj2 (String.eqb_eq _ _) Hn). reflexivity.
    + assert (Hskip : forall a, V2.findFieldLoop nf key h fs (S i0) a
                                = Some (field_handle h (i0 + S i) f ft)).
      { intros a. replace (i0 + S i) with (S i0 + i) by lia.
        apply IH; [exact Hf | now replace (S i0 + i) with (i0 + S i) by lia | exact Hn |].
        intros j g' gT' Hj Hg Hc. apply (Hfirst (S j) g' gT'); [lia | exact Hg |].
        now replace (i0 + S j) with (S i0 + j) by lia. }
      destruct (CanSet (field_handle h i0 g gT)) eqn:Ec; simpl; [|apply Hskip].
      destruct (String.eqb (nf g) key) eqn:E; [|apply Hskip].
      apply String.eqb_eq in E. exfalso.
      apply (Hfirst 0 g gT); [lia | reflexivity | now rewrite Nat.add_0_r | exact E].
Qed.

Lemma findFieldLoop_last (nf : StructField -> string) (key : string) (h : handle)
    (fs : list (StructField * rtype)) (i0 : nat) (acc : option handle) :
  (forall j g gT, fs !! j = Some (g, gT) ->
                  CanSet (field_handle h (i0 + j) g gT) = true -> nf g <> key) ->
  V2.findFieldLoop nf key h fs i0 acc
  = match last fs with
    | Some (f, ft) => Some (field_handle h (i0 + (length fs - 1)) f ft)
    | None => acc
    end.
Proof.
  revert i0 acc. induction fs as [|[g gT] fs IH]; intros i0 acc Hnone; [reflexivity|].
  assert (Hgoal : V2.findFieldLoop nf key h fs (S i0) (Some (field_handle h i0 g gT))
                  = match last ((g, gT) :: fs) with
                    | Some (f, ft) =>
                        Some (field_handle h (i0 + (length ((g, gT) :: fs) - 1)) f ft)
                    | None => acc
                    end).
  { rewrite IH.
    2:{ intros j g' gT' Hg Hc. apply (Hnone (S j) g' gT' Hg).
        now replace (i0 + S j) with (S i0 + j) by lia. }
    destruct fs as [|[g1 gT1] fs1].
    - simpl. rewrite Nat.add_0_r. reflexivity.
    - change (last ((g, gT) :: (g1, gT1) :: fs1)) with (last ((g1, gT1) :: fs1)).
      destruct (last ((g1, gT1) :: fs1)) as [[f ft]|] eqn:El.
      + simpl length.
        replace (S i0 + (S (length fs1) - 1)) with (i0 + (S (S (length fs1)) - 1)) by lia.
        reflexivity.
      + apply last_None in El. discriminate El. }
  simpl V2.findFieldLoop.
  destruct (CanSet (field_handle h i0 g gT)) eqn:Ec; simpl negb; cbv iota; [|exact Hgoal].
  destruct (String.eqb (nf g) key) eqn:E; [|exact Hgoal].
  apply String.eqb_eq in E. exfalso.
  apply (Hnone 0 g gT); [reflexivity | now rewrite Nat.add_0_r | exact E].
Qed.

(** X6.  What [findFieldByElementKey] gives on a struct (or a pointer to
    one): the first field whose Go name is the key, settable or not;
    failing that the first settable field whose option name is the key;
    failing that the last field of the struct, whatever its name.  Only
    a struct without fields yields the invalid value. *)
Theorem findFieldByElementKey_result (v v' : handle) (key : string)
    (nf : StructField -> string) (s : world) :
  Indirect v s = (s, Ok (Some v')) ->
  kind_of (h_type v') = KStruct ->
  let fs := type_fields (h_type v') in
  let found i f ft :=
    V2.findFieldByElementKey v key nf s = (s, Ok (Some (field_handle v' i f ft))) in
  (forall i f ft,
      fs !! i = Some (f, ft) -> Name f = key ->
      (forall j g gT, j < i -> fs !! j = Some (g, gT) -> Name g <> key) ->
      found i f ft)
  /\ ((forall j g gT, fs !! j = Some (g, gT) -> Name g <> key) ->
      (forall i f ft,
          fs !! i = Some (f, ft) -> CanSet (field_handle v' i f ft) = true -> nf f = key ->
          (forall j g gT, j < i -> fs !! j = Some (g, gT) ->
                          CanSet (field_handle v' j g gT) = true -> nf g <> key) ->
          found i f ft)
      /\ ((forall j g gT, fs !! j = Some (g, gT) ->
                          CanSet (field_handle v' j g gT) = true -> nf g <> key) ->
          forall f ft, fs !! (length fs - 1) = Some (f, ft) ->
                       found (length fs - 1) f ft)).
Proof.
  intros HI Hk fs found. subst found. unfold V2.findFieldByElementKey, bind.
  rewrite HI. rewrite Hk. simpl negb. cbv iota. fold fs.
  split; [|intros Hnoname; split].
  - intros i f ft Hf Hn Hfirst.
    rewrite (FieldByName_first key v' fs 0 i f ft Hf Hn Hfirst). reflexivity.
  - intros i f ft Hf Hs Hn Hfirst.
    rewrite (FieldByName_none key v' fs 0 Hnoname).
    rewrite (findFieldLoop_first nf key v' fs 0 i f ft None Hf Hs Hn Hfirst). reflexivity.
  - intros Hnoopt f ft Hlast.
    rewrite (FieldByName_none key v' fs 0 Hnoname).
    rewrite (findFieldLoop_last nf key v' fs 0 None Hnoopt).
    assert (Hl : last fs = Some (f, ft)).
    { rewrite last_lookup. replace (pred (length fs)) with (length fs - 1) by lia. exact Hlast. }
    rewrite Hl. reflexivity.
Qed.

(** On an element of the documentation's list-valued section, a key
    that names no field yields the last field, [Option]. *)
Lemma findFieldByElementKey_result_witness :
  let v := mkHandle [] Examples.SectionBConfig (Some (1, [])) false in
  V2.findFieldByElementKey v "name" TomlFieldName Examples.w0
  = (Examples.w0,
     Ok (Some (field_handle v 1 (exported "Option" [("toml", "option")]) tString))).
Proof.
  intros v.
  destruct (findFieldByElementKey_result v v "name" TomlFieldName Examples.w0
              eq_refl eq_refl) as [_ H].
  destruct H as [_ H].
  - intros j g gT Hg. destruct j as [|[|j]]; simpl in Hg; try discriminate Hg;
      injection Hg as <- _; discriminate.
  - apply H; [|reflexivity].
    intros j g gT Hg _. destruct j as [|[|j]]; simpl in Hg; try discriminate Hg;
      injection Hg as <- _; discriminate.
Defined.

(** ** The order of the elements of a section *)

Lemma ltb_lt (a b : string) : String.ltb a b = true <-> String_as_OT.lt a b.
Proof.
  unfold String.ltb. rewrite <- String_as_OT.cmp_lt.
  change (String_as_OT.cmp a b) with (String.compare a b).
  destruct (String.compare a b); split; intros H; try discriminate; reflexivity.
Qed.

Lemma ltb_asym (a b : string) : String.ltb a b = true -> String.ltb b a = false.
Proof.
  unfold String.ltb. rewrite (String.compare_antisym a b).
  destruct (String.compare b a); simpl; intros H; try discriminate; reflexivity.
Qed.

Lemma ltb_false_trans (a b c : string) :
  String.ltb b a = false -> String.ltb c b = false -> String.ltb c a = false.
Proof.
  intros Hab Hbc. destruct (String.ltb c a) eqn:Hca; [|reflexivity]. exfalso.
  destruct (String.compare b c) eqn:E.
  - apply String.compare_eq_iff in E. subst c. congruence.
  - assert (String.ltb b c = true) as Hlt by (unfold String.ltb; rewrite E; reflexivity).
    apply ltb_lt in Hlt, Hca. pose proof (String_as_OT.lt_trans _ _ _ Hlt Hca) as H.
    apply ltb_lt in H. congruence.
  - assert (String.ltb c b = true) as Hlt.
    { unfold String.ltb. rewrite String.compare_antisym, E. reflexivity. }
    congruence.
Qed.

Lemma sort_insert_perm (e : V2.Element) (l : list V2.Element) :
  Permutation (V2.sort_insert e l) (e :: l).
Proof.
  induction l as [|x l IH]; simpl; [reflexivity|].
  destruct (V2.Section_Less x e); [|reflexivity].
  rewrite IH. apply perm_swap.
Qed.

Lemma sort_Sort_perm (l : V2.Section) : Permutation (V2.sort_Sort l) l.
Proof.
  induction l as [|x l IH]; simpl; [reflexivity|].
  rewrite sort_insert_perm. constructor. exact IH.
Qed.

Lemma sort_insert_sorted (e : V2.Element) (l : list V2.Element) :
  StronglySorted ID_le l -> StronglySorted ID_le (V2.sort_insert e l).
Proof.
  induction l as [|x l IH]; simpl; intros H.
  - repeat constructor.
  - inversion H as [|? ? Hl Hx]; subst.
    destruct (V2.Section_Less x e) eqn:E.
    + constructor; [apply IH; exact Hl|].
      apply List.Forall_forall. intros y Hy.
      apply (Permutation_in _ (sort_insert_perm e l)) in Hy. destruct Hy as [<-|Hy].
      * unfold ID_le, V2.Section_Less in *. apply ltb_asym. exact E.
      * rewrite List.Forall_forall in Hx. apply Hx. exact Hy.
    + constructor; [exact H|]. constructor; [exact E|].
      apply List.Forall_forall. intros y Hy. rewrite List.Forall_forall in Hx.
      specialize (Hx y Hy). unfold ID_le, V2.Section_Less in *.
      apply (ltb_false_trans _ (V2.ElementID x)); assumption.
Qed.

Lemma sort_Sort_sorted (l : V2.Section) : StronglySorted ID_le (V2.sort_Sort l).
Proof.
  induction l as [|x l IH]; simpl; [constructor|]. apply sort_insert_sorted. exact IH.
Qed.

Lemma sectionsMap_sorted (w : V2.sectionWalker) (name : string) (l : V2.Section) :
  V2.sectionsMap w !! name = Some l ->
  StronglySorted ID_le l
  /\ exists l0, V2.sections w !! name = Some l0 /\ Permutation l l0.
Proof.
  unfold V2.sectionsMap. rewrite lookup_fmap. intros H.
  destruct (V2.sections w !! name) as [l0|] eqn:E; simpl in H; [|discriminate].
  injection H as <-. split; [apply sort_Sort_sorted|].
  exists l0. split; [reflexivity | apply sort_Sort_perm].
Qed.

(** X7.  [Sections] and [OverrideAll] return every section with its
    elements in the order of their IDs, whatever their order in the
    configuration. *)
Theorem Sections_sorted_by_ID (methods : Methods) (c : V2.Overrider)
    (os : list V2.Override) (s s' : world) (m : gmap string V2.Section)
    (name : string) (l : V2.Section) :
  V2.Overrider_Sections c s = (s', Ok m)
  \/ V2.Overrider_OverrideAll methods c os s = (s', Ok m) ->
  m !! name = Some l ->
  StronglySorted ID_le l.
Proof.
  intros H Hl.
  assert (exists w, m = V2.sectionsMap w) as [w ->].
  { destruct H as [H|H].
    - unfold V2.Overrider_Sections, bind, wrapping, ret in H.
      destruct (set_tree (V2.original c) s) as [s1 [[]| |]]; try discriminate H.
      destruct (Walk _ s1) as [s2 [w| |]]; try discriminate H.
      injection H as _ <-. eexists. reflexivity.
    - unfold V2.Overrider_OverrideAll, bind, wrapping, ret in H.
      destruct (CopyM (V2.original c) s) as [s1 [x| |]]; try discriminate H.
      destruct (set_tree x s1) as [s2 [[]| |]]; try discriminate H.
      destruct (V2.applyAll methods c os s2) as [s3 [[]| |]]; try discriminate H.
      destruct (Walk _ s3) as [s4 [w| |]]; try discriminate H.
      injection H as _ <-. eexists. reflexivity. }
  apply (sectionsMap_sorted w name l Hl).
Qed.

(** The documentation's configuration with the elements of its list
    the other way round. *)
Lemma Sections_sorted_by_ID_witness :
  let config :=
    mkValue (TPtr Examples.DocConfig)
      (VPtr (Some (0, VStruct
         [ VStruct [VString "option value"; VString "secret"];
           VSlice (Some (1, [ VStruct [VString "id1"; VString "option value 1"];
                              VStruct [VString "id0"; VString "option value 0"] ]));
           VStruct [];
           VString "this value is ignored" ]))) in
  exists s' m l,
    V2.Overrider_Sections (V2.mkOverrider config TomlFieldName) Examples.w0 = (s', Ok m)
    /\ m !! "section-b" = Some l
    /\ List.map V2.ElementID l = ["id0"; "id1"]
    /\ StronglySorted ID_le l.
Proof.
  intros config. eexists. eexists. eexists.
  split; [vm_compute; reflexivity|]. split; [vm_compute; reflexivity|].
  split; [reflexivity|].
  eapply (Sections_sorted_by_ID Examples.noMethods (V2.mkOverrider config TomlFieldName) []
            Examples.w0 _ _ "section-b").
  - left. vm_compute. reflexivity.
  - vm_compute. reflexivity.
Defined.

(** ** A section that does not exist, second revision *)

Section V2_unknown_section.
Variable methods : Methods.
Variable o0 : V2.Override.

#[local] Instance V2_unknown_walker : Walker V2.overrideWalker :=
  V2.overrideWalker_Walker methods.

Lemma V2_top_field_nothing_matched (h : handle) (i : nat) (w : V2.overrideWalker)
    (s : world) :
  V2.o_Section o0 <> "" ->
  (forall f ft, type_fields (h_type h) !! i = Some (f, ft) ->
                V2.getSectionName f <> (V2.o_Section o0, true)) ->
  V2_nothing_matched o0 w ->
  exists w', walkStructField walkSection h i w s = (s, Ok w') /\ V2_nothing_matched o0 w'.
Proof.
  intros Hne Hdecl (Hd & Ho & He & Hu). unfold walkStructField.
  destruct (type_fields (h_type h) !! i) as [[f ft]|] eqn:E.
  2:{ exists w. repeat split; assumption. }
  specialize (Hdecl f ft eq_refl).
  unfold bind. simpl wStructField. unfold V2.overrideWalker_StructField.
  rewrite Hd. simpl.
  destruct (V2.getSectionName f) as [name ok] eqn:EN.
  assert (Hstable : forall n, n <> V2.o_Section o0 ->
    exists w',
      (let (w'1, o1) :=
         walkSection (field_handle h i f ft)
           (V2.with_depth (V2.depth (V2.with_currentSectionName n w) + 1)
              (V2.with_currentSectionName n w)) s in
       match o1 with
       | Ok a0 => ret (V2.with_depth (V2.depth a0 - 1) a0) w'1
       | Err e => (w'1, Err e)
       | Panic p => (w'1, Panic p)
       end) = (s, Ok w') /\ V2_nothing_matched o0 w').
  { intros n Hn.
    rewrite (V2_walkSection_unmatched methods _ _ s).
    - eexists. split; [reflexivity|]. simpl. rewrite Hd. repeat split; assumption.
    - split; [simpl; rewrite Hd; reflexivity | simpl; rewrite Ho; exact Hn]. }
  destruct ok.
  - assert (En : String.eqb (V2.o_Section (V2.o w)) name = false).
    { rewrite Ho. apply String.eqb_neq. intros <-. now apply Hdecl. }
    rewrite En. apply Hstable. intros ->. now apply Hdecl.
  - apply Hstable. congruence.
Qed.

Lemma V2_Walk_nothing_matched (c : Value) (s : world) (w : V2.overrideWalker) :
  tree s = c ->
  V2.o_Section o0 <> "" ->
  ~ declares_section c (V2.o_Section o0) ->
  V2_nothing_matched o0 w ->
  exists w', Walk w s = (s, Ok w') /\ V2_nothing_matched o0 w'.
Proof.
  intros Ht Hne Hdecl Hj. unfold Walk, walkRoot, walk, bind.
  destruct (Indirect_pure (root_handle (vt (tree s))) s) as [t Et]. rewrite Et.
  destruct t as [h'|]; [|exists w; split; [reflexivity | exact Hj]].
  destruct (kind_of (h_type h')) eqn:EK;
    try (exists w; split; [reflexivity | exact Hj]).
  assert (Hty : h_type h' = root_type (vt c)).
  { unfold Indirect, root_handle in Et. simpl in Et. unfold root_type. rewrite <- Ht.
    destruct (kind_of (vt (tree s))) eqn:EK0;
      try (injection Et as <-; reflexivity).
    unfold read in Et. simpl in Et.
    destruct (vv (tree s)) as [| | | | | | | |[[a x]|]| |]; try discriminate Et.
    injection Et as <-. reflexivity. }
  unfold walkStruct, bind.
  rewrite (V2_enter_other methods) by discriminate. simpl wStruct. unfold ret at 1.
  destruct (for_each_stable (V2_nothing_matched o0) s (walkStructField walkSection h')
              (length (type_fields (h_type h'))) 0 w Hj) as [w' [E Hj']].
  - intros j w1 Hj1. apply V2_top_field_nothing_matched; [exact Hne | | exact Hj1].
    intros f ft Hf Hname. apply Hdecl. exists f, ft. split; [|exact Hname].
    unfold top_fields. rewrite <- Hty. eapply list_elem_of_In, list_elem_of_lookup_2. exact Hf.
  - rewrite E. rewrite (V2_exit_other methods) by discriminate.
    exists w'. split; [reflexivity | exact Hj'].
Qed.
End V2_unknown_section.

(** X8.  Without [Delete], a request for a section the configuration does
    not declare fails with "unknown section" only when it carries no
    option; with options every one of them is reported as unknown, in
    an "unknown options" error. *)
Theorem Override_unknown_section_error
    (methods : Methods) (c : V2.Overrider) (o : V2.Override) (w : world) :
  V2.Override_Validate o = None ->
  V2.o_Delete o = false ->
  ~ declares_section (V2.original c) (V2.o_Section o) ->
  exists w',
    V2.Overrider_Override methods c o w
    = (w', Err (if decide (V2.o_Options o = ∅)
                then Errorf "unknown section %s" [OStr (V2.o_Section o)]
                else Errorf "unknown options %v in section %s"
                            [OStrs (List.map fst (map_to_list (V2.o_Options o)));
                             OStr (V2.o_Section o)])).
Proof.
  intros Hval HD Hdecl.
  pose proof (Validate_section_nonempty o Hval) as Hne.
  unfold V2.Overrider_Override, CopyM, set_tree, bind.
  destruct (Copy (vv (V2.original c)) (next w)) as [v' n'] eqn:EC.
  unfold V2.applyOverride. rewrite Hval. unfold bind, wrapping.
  cbn [next writes tree].
  set (s := mkWorld (mkValue (vt (V2.original c)) v') n' (writes w)).
  destruct (V2_Walk_nothing_matched methods o (mkValue (vt (V2.original c)) v') s
              (V2.newOverrideWalker o (V2.OptionNameFunc c)))
    as [w' [EW (Hd & Ho & He & Hu)]]; try assumption; try reflexivity.
  { repeat split; reflexivity. }
  unfold V2_unknown_walker in EW. rewrite EW.
  assert (Hunused : V2.unused w' = List.map fst (map_to_list (V2.o_Options o))).
  { unfold V2.unused. rewrite Ho, Hu.
    apply forallb_filter_id. apply forallb_forall. intros x _.
    unfold V2.is_used. rewrite lookup_empty. reflexivity. }
  rewrite Hunused.
  destruct (decide (V2.o_Options o = ∅)) as [Hempty|Hsome].
  - rewrite Hempty, map_to_list_empty. simpl.
    unfold V2.elementObject. rewrite He. simpl. rewrite HD. simpl.
    eexists. reflexivity.
  - assert (Hlen : Nat.ltb 0 (length (List.map fst (map_to_list (V2.o_Options o)))) = true).
    { apply Nat.ltb_lt. rewrite length_map.
      destruct (map_to_list (V2.o_Options o)) eqn:El; [|simpl; lia].
      apply map_to_list_empty_iff in El. contradiction. }
    rewrite Hlen. eexists. reflexivity.
Qed.

Lemma Override_unknown_section_error_witness :
  exists w',
    V2.Overrider_Override Examples.noMethods
      (V2.mkOverrider Examples.docConfig TomlFieldName)
      (V2.mkOverride "section-zz" EmptyString {["option" := Examples.str "x"]} false false)
      Examples.w0
    = (w', Err (Errorf "unknown options %v in section %s"
                       [OStrs ["option"]; OStr "section-zz"])).
Proof.
  destruct (Override_unknown_section_error Examples.noMethods
              (V2.mkOverrider Examples.docConfig TomlFieldName)
              (V2.mkOverride "section-zz" EmptyString {["option" := Examples.str "x"]}
                             false false)
              Examples.w0 eq_refl eq_refl docConfig_no_section_zz) as [w' E].
  exists w'. rewrite E. reflexivity.
Defined.

(** ** No overrides, first revision *)



(** ** What an override sets, first revision *)

Lemma vset_field_last (p : list step) (i : nat) (X : value) (t : value) (vs : list value) :
  vget p t = Some (VStruct vs) ->
  match vset (p ++ [SField i]) X t with
  | Some t' => i < length vs /\ vget p t' = Some (VStruct (<[i := X]> vs))
  | None => vs !! i = None
  end.
Proof.
  revert t. induction p as [|st p IH]; intros t Hg.
  - simpl in Hg. injection Hg as ->. simpl.
    destruct (vs !! i) as [old|] eqn:E; [|reflexivity].
    split; [eapply lookup_lt_Some; exact E | reflexivity].
  - destruct st as [n|n|]; simpl in Hg |- *.
    + destruct t as [| | | |fs| | | | | |]; try discriminate Hg.
      destruct (fs !! n) as [x|] eqn:En; [|discriminate Hg].
      specialize (IH x Hg). destruct (vset (p ++ [SField i]) X x) as [x'|]; [|exact IH].
      destruct IH as [Hi Hx]. split; [exact Hi|].
      rewrite list_lookup_insert_eq by (eapply lookup_lt_Some; exact En). exact Hx.
    + destruct t as [| | | | | |[[a es]|]| | | |]; try discriminate Hg.
      destruct (es !! n) as [x|] eqn:En; [|discriminate Hg].
      specialize (IH x Hg). destruct (vset (p ++ [SField i]) X x) as [x'|]; [|exact IH].
      destruct IH as [Hi Hx]. split; [exact Hi|].
      rewrite list_lookup_insert_eq by (eapply lookup_lt_Some; exact En). exact Hx.
    + destruct t as [| | | | | | | |[[a x]|]| |]; try discriminate Hg.
      specialize (IH x Hg). destruct (vset (p ++ [SField i]) X x) as [x'|]; exact IH.
Qed.

Lemma V1_weakCopyValue_store_or_fail (src : option Value) (dt : rtype) :
  (exists X, forall h, h_type h = dt -> CanSet h = true ->
                       V1.weakCopyValue src h = store h X)
  \/ (forall h w, h_type h = dt -> CanSet h = true ->
                  exists r, V1.weakCopyValue src h w = (w, r) /\ forall u, r <> Ok u).
Proof.
  assert (Hfail : forall e (w : world), exists r : outcome unit,
             @fail unit e w = (w, r) /\ forall u, r <> Ok u).
  { intros e w. eexists. split; [reflexivity | discriminate]. }
  assert (Hpanic : forall p (w : world), exists r : outcome unit,
             @panic unit p w = (w, r) /\ forall u, r <> Ok u).
  { intros p w. eexists. split; [reflexivity | discriminate]. }
  unfold V1.weakCopyValue. cbv zeta.
  destruct (kind_eqb (KindOf src) (kind_of dt)) eqn:Ek;
    [|destruct (isNumericKind (kind_of dt)) eqn:En;
      [destruct (isNumericKind (KindOf src)) eqn:Ens;
       [|destruct (kind_eqb (KindOf src) KString) eqn:Es]|]];
    destruct src as [[st sv]|];
    try (right; intros h w <- Hs; rewrite Hs; simpl negb; cbv iota;
         rewrite ?Ek, ?En, ?Ens, ?Es; solve [apply Hfail | apply Hpanic]).
  - simpl vt. simpl vv. destruct (assignable dt st) eqn:Ea.
    + left. exists sv. intros h <- Hs. rewrite Hs. simpl negb. cbv iota.
      rewrite ?Ek. cbv beta iota. cbn [vt vv]. rewrite ?Ea. reflexivity.
    + right. intros h w <- Hs. rewrite Hs. simpl negb. cbv iota.
      rewrite ?Ek. cbv beta iota. cbn [vt vv]. rewrite ?Ea. apply Hpanic.
  - left. exists (convert (kind_of dt) sv). intros h <- Hs. rewrite Hs. simpl negb. cbv iota.
    rewrite ?Ek, ?En, ?Ens. reflexivity.
  - destruct sv as [| | |str| | | | | | |];
      try (right; intros h w <- Hs; rewrite Hs; simpl negb; cbv iota;
           rewrite ?Ek, ?En, ?Ens, ?Es; apply Hfail).
    destruct (isIntKind (kind_of dt)) eqn:Ei;
      [destruct (ParseInt str) as [n|] eqn:Ep
      |destruct (isUintKind (kind_of dt)) eqn:Eu;
       [destruct (ParseUint str) as [n|] eqn:Ep
       |destruct (isFloatKind (kind_of dt)) eqn:Ef;
        [destruct (ParseFloat str) as [n|] eqn:Ep|]]];
      try (right; intros h w <- Hs; rewrite Hs; simpl negb; cbv iota;
           rewrite ?Ek, ?En, ?Ens, ?Es, ?Ei, ?Eu, ?Ef, ?Ep; apply Hfail).
    + left. exists (VInt (wrap (kind_of dt) n)). intros h <- Hs. rewrite Hs.
      simpl negb. cbv iota. rewrite ?Ek, ?En, ?Ens, ?Es, ?Ei, ?Ep. reflexivity.
    + left. exists (VInt (wrap (kind_of dt) n)). intros h <- Hs. rewrite Hs.
      simpl negb. cbv iota. rewrite ?Ek, ?En, ?Ens, ?Es, ?Ei, ?Eu, ?Ep. reflexivity.
    + left. exists (VFloat (float_round (kind_of dt) n)). intros h <- Hs. rewrite Hs.
      simpl negb. cbv iota. rewrite ?Ek, ?En, ?Ens, ?Es, ?Ei, ?Eu, ?Ef, ?Ep. reflexivity.
Qed.

Lemma store_field_last (h : handle) (k : nat) (g : StructField) (gt_ : rtype) (X : value)
    (s : world) (vs : list value) :
  read h s = Some (VStruct vs) ->
  match store (field_handle h k g gt_) X s with
  | (s', Ok _) => k < length vs /\ read h s' = Some (VStruct (<[k := X]> vs))
  | _ => True
  end.
Proof.
  unfold read, store, field_handle. simpl. intros Hr.
  destruct (h_owner h) as [[a op]|]; [|exact I].
  destruct (h_ro h || negb (Exported g)); [exact I|].
  pose proof (vset_field_last (h_path h) k X (vv (tree s)) vs Hr) as Hv.
  destruct (vset (h_path h ++ [SField k]) X (vv (tree s))) as [t'|]; [|exact I].
  destruct (vget op t'); [|exact I]. simpl. exact Hv.
Qed.

Lemma V1_applied_skip (nf : StructField -> string) (set0 : gmap string Value)
    (ft : rtype) (before now_ : list value) (k : nat) :
  V1_applied nf set0 ft before now_ k ->
  match type_fields ft !! k with
  | Some (g, gt_) => set0 !! nf g = None
  | None => True
  end ->
  V1_applied nf set0 ft before now_ (S k).
Proof.
  intros [Hlen Hall] Hk. split; [exact Hlen|]. intros i.
  specialize (Hall i).
  destruct (Nat.eq_dec i k) as [->|Hne].
  - rewrite Nat.ltb_irrefl in Hall.
    replace (Nat.ltb k (S k)) with true by (symmetry; apply Nat.ltb_lt; lia).
    destruct (type_fields ft !! k) as [[g gt_]|]; [|exact Hall].
    rewrite Hk. exact Hall.
  - replace (Nat.ltb i (S k)) with (Nat.ltb i k); [exact Hall|].
    destruct (Nat.ltb_spec i k), (Nat.ltb_spec i (S k)); try reflexivity; lia.
Qed.

Lemma V1_applied_set (nf : StructField -> string) (set0 : gmap string Value)
    (ft : rtype) (before now_ : list value) (k : nat) (g : StructField) (gt_ : rtype)
    (x : Value) (X : value) :
  V1_applied nf set0 ft before now_ k ->
  type_fields ft !! k = Some (g, gt_) -> set0 !! nf g = Some x ->
  V1_stores x gt_ X -> k < length now_ ->
  V1_applied nf set0 ft before (<[k := X]> now_) (S k).
Proof.
  intros [Hlen Hall] Hf Hs HX Hk. split; [now rewrite length_insert|]. intros i.
  specialize (Hall i).
  destruct (Nat.eq_dec i k) as [->|Hne].
  - replace (Nat.ltb k (S k)) with true by (symmetry; apply Nat.ltb_lt; lia).
    rewrite Hf, Hs. exists X. split; [exact HX|].
    apply list_lookup_insert_eq. exact Hk.
  - replace (Nat.ltb i (S k)) with (Nat.ltb i k).
    2:{ destruct (Nat.ltb_spec i k), (Nat.ltb_spec i (S k)); try reflexivity; lia. }
    rewrite list_lookup_insert_ne by congruence. exact Hall.
Qed.

Section V1_sets_options.
Variables (section : string) (set0 : gmap string Value) (nf : StructField -> string).
Variable hsec : handle.
Variable before : list value.

#[local] Existing Instance V1.overrideWalker_Walker.

Let ft := h_type hsec.
Let inside := V1_inside section set0 nf hsec before.

Lemma V1_option_step (k : nat) (w : V1.overrideWalker) :
  hoare (inside k w) (walkStructField walkOption hsec k w) (inside (S k)) (fun _ => True).
Proof.
  intros s (Hd & (Hsec & Hset & Hnf) & Hcur & Hsv & now_ & Hr & Happ).
  fold ft in Happ. unfold inside, V1_inside, V1_base, V1_section_now.
  unfold walkStructField. fold ft.
  destruct (type_fields ft !! k) as [[g gt_]|] eqn:Ef.
  2:{ simpl.
      split; [assumption|]. split; [split; [|split]; assumption|].
      split; [assumption|]. split; [assumption|].
      exists now_. split; [exact Hr|].
      apply V1_applied_skip; [exact Happ | now rewrite Ef]. }
  unfold bind. simpl wStructField. unfold V1.overrideWalker_StructField.
  rewrite Hd. change ((1 =? 0)%Z) with false. change ((1 =? 1)%Z) with true. cbv iota.
  rewrite Hcur, Hsec, String.eqb_refl. change (negb true) with false. cbv iota.
  rewrite Hset, Hnf.
  destruct (set0 !! nf g) as [x|] eqn:Ex.
  - unfold bind, wrapping. cbv beta.
    destruct (CanSet (field_handle hsec k g gt_)) eqn:Ecs.
    2:{ unfold V1.weakCopyValue. rewrite Ecs. simpl. exact I. }
    destruct (V1_weakCopyValue_store_or_fail (ValueOf x) gt_) as [[X HX] | Hfail].
    + rewrite (HX (field_handle hsec k g gt_) eq_refl Ecs).
      pose proof (store_field_last hsec k g gt_ X s now_ Hr) as Hst.
      destruct (store (field_handle hsec k g gt_) X s) as [s' [[]|e|p]]; try exact I.
      cbv beta iota in Hst. destruct Hst as [Hk Hr']. simpl.
      split; [rewrite Hd; reflexivity|]. split; [split; [|split]; assumption|].
      split; [assumption|]. split; [assumption|].
      exists (<[k := X]> now_). split; [exact Hr'|].
      apply (V1_applied_set nf set0 ft before now_ k g gt_ x X); assumption.
    + destruct (Hfail (field_handle hsec k g gt_) s eq_refl Ecs) as (r & -> & Hr0).
      destruct r as [u|e|p]; [exfalso; now apply (Hr0 u) | exact I | exact I].
  - simpl.
    split; [rewrite Hd; reflexivity|]. split; [split; [|split]; assumption|].
    split; [assumption|]. split; [assumption|].
    exists now_. split; [exact Hr|].
    apply V1_applied_skip; [exact Happ | now rewrite Ef].
Qed.

Lemma V1_inside_depth (k : nat) (w : V1.overrideWalker) (s : world) :
  inside k w s -> inside k (V1.with_depth (V1.depth w) w) s.
Proof.
  intros (Hd & Hb & Hc & Hsv & Hi). unfold inside, V1_inside.
  split; [exact Hd|]. split; [exact Hb|]. split; [exact Hc|]. split; [exact Hsv | exact Hi].
Qed.

(** The walk of the section that is overridden, a struct held by
    value: every option is visited. *)
Lemma V1_walk_matched (w : V1.overrideWalker) :
  kind_of ft = KStruct ->
  hoare (inside 0 w) (walkSection hsec w)
        (inside (length (type_fields ft))) (fun _ => True).
Proof.
  intros Hk s Hs. unfold walkSection, walk, bind.
  assert (EI : Indirect hsec s = (s, Ok (Some hsec))).
  { unfold Indirect. fold ft. rewrite Hk. reflexivity. }
  rewrite EI. fold ft. rewrite Hk.
  apply (hoare_apply (inside 0 w) (walkStruct walkOption hsec w)
           (inside (length (type_fields ft))) (fun _ => True) s); [|exact Hs].
  unfold walkStruct.
  eapply hoare_bind with (R := inside 0).
  { intros s1 H1. simpl. apply V1_inside_depth. exact H1. }
  intros w1. eapply hoare_bind with (R := inside 0).
  { intros s1 H1. simpl. exact H1. }
  intros w2. eapply hoare_bind with (R := inside (length (type_fields ft))).
  { fold ft. apply (hoare_for_each_indexed inside (fun _ => True)
                      (walkStructField walkOption hsec) (length (type_fields ft)) 0 w2).
    intros j w' _. apply V1_option_step. }
  intros w3 s1 H1. simpl. apply V1_inside_depth. exact H1.
Qed.
End V1_sets_options.

Section V1_other_sections.
#[local] Existing Instance V1.overrideWalker_Walker.

Let Q (w : V1.overrideWalker) : Prop :=
  V1.depth w = 1%Z /\ V1.currentSectionName w <> V1.ow_section w.

(** The walk of any other section changes nothing. *)
Lemma V1_walkSection_other (h : handle) (w : V1.overrideWalker) (s : world) :
  Q w -> walkSection h w s = (s, Ok w).
Proof.
  apply (walkSection_idle Q).
  - intros l w0 s0 N. destruct w0, l; try reflexivity. contradiction.
  - intros l w0 s0 N. destruct w0, l; try reflexivity. contradiction.
  - reflexivity.
  - intros f h0 w0 s0 [Hd Hn]. simpl. unfold V1.overrideWalker_StructField.
    rewrite Hd. simpl. apply String.eqb_neq in Hn. rewrite Hn. reflexivity.
  - reflexivity.
  - reflexivity.
  - intros w0 s0 [Hd Hn]. eexists. split; [reflexivity|].
    destruct w0. simpl in *. subst. reflexivity.
Qed.
End V1_other_sections.

Section V1_top_level.
Variables (section : string) (set0 : gmap string Value) (nf : StructField -> string).
Variable h' : handle.
Variables (j : nat) (f : StructField) (ft : rtype).
Variable before : list value.

#[local] Existing Instance V1.overrideWalker_Walker.

Hypothesis Hj : type_fields (h_type h') !! j = Some (f, ft).
Hypothesis Hname : fst (V1.getSectionName f) = section.
Hypothesis Huniq : forall i g gT,
    type_fields (h_type h') !! i = Some (g, gT) -> i <> j ->
    fst (V1.getSectionName g) <> section.
Hypothesis Hk : kind_of ft = KStruct.

Let hsec := field_handle h' j f ft.
Let top := V1_top section set0 nf hsec before j.

Lemma V1_top_step (i : nat) (w : V1.overrideWalker) :
  hoare (top i w) (walkStructField walkSection h' i w) (top (S i)) (fun _ => True).
Proof.
  intros s (Hd & Hb & Hle & Hgt). unfold walkStructField.
  destruct (type_fields (h_type h') !! i) as [[g gT]|] eqn:Ei.
  2:{ simpl. split; [exact Hd|]. split; [exact Hb|]. split.
      - intros Hi. apply Hle. lia.
      - intros Hi. apply Hgt. destruct (Nat.eq_dec i j) as [->|N]; [|lia].
        rewrite Hj in Ei. discriminate Ei. }
  unfold bind. simpl wStructField. unfold V1.overrideWalker_StructField.
  rewrite Hd. change ((0 =? 0)%Z) with true. cbv iota.
  pose proof (V1_getSectionName_ok g) as Hok.
  destruct (V1.getSectionName g) as [name ok] eqn:En. simpl in Hok. subst ok.
  destruct Hb as (Hsec & Hset & Hnf).
  cbn [V1.ow_section V1.currentSectionName V1.with_currentSectionName].
  rewrite Hsec.
  destruct (Nat.eq_dec i j) as [->|N].
  - rewrite Hj in Ei. injection Ei as <- <-.
    rewrite En in Hname. simpl in Hname. subst name.
    rewrite String.eqb_refl. unfold ret at 1. cbv beta iota.
    simpl wEnter. unfold ret at 1. cbv beta iota.
    set (w2 := V1.with_depth _ _).
    assert (Hin : V1_inside section set0 nf hsec before 0 w2 s).
    { unfold w2. split; [simpl; rewrite Hd; reflexivity|].
      split; [repeat split; assumption|]. split; [reflexivity|].
      split; [reflexivity|]. apply Hle. lia. }
    pose proof (V1_walk_matched section set0 nf hsec before w2 Hk s Hin) as HW.
    fold hsec.
    destruct (walkSection hsec w2 s) as [s3 [w3|e|p]]; try exact I.
    destruct HW as (Hd3 & Hb3 & Hc3 & Hsv3 & Hnow3). simpl.
    split; [rewrite Hd3; reflexivity|]. split; [exact Hb3|]. split.
    + intros Hi. lia.
    + intros _. split; [exact Hsv3 | exact Hnow3].
  - assert (Hne : name <> section).
    { intros <-. apply (Huniq i g gT Ei N). rewrite En. reflexivity. }
    assert (Eb : String.eqb section name = false).
    { apply String.eqb_neq. congruence. }
    rewrite Eb. unfold ret at 1. cbv beta iota.
    simpl wEnter. unfold ret at 1. cbv beta iota.
    set (w2 := V1.with_depth _ _).
    rewrite (V1_walkSection_other (field_handle h' i g gT) w2 s).
    2:{ unfold w2. split; [simpl; rewrite Hd; reflexivity|]. simpl. congruence. }
    simpl. split; [rewrite Hd; reflexivity|]. split; [repeat split; assumption|]. split.
    + intros Hi. apply Hle. lia.
    + intros Hi. apply Hgt. lia.
Qed.

Lemma V1_top_walk (w : V1.overrideWalker) :
  hoare (top 0 w) (walkStruct walkSection h' w)
        (top (length (type_fields (h_type h')))) (fun _ => True).
Proof.
  unfold walkStruct.
  eapply hoare_bind with (R := top 0).
  { intros s (Hd & Hb & Hle & Hgt). simpl.
    split; [exact Hd|]. split; [exact Hb|]. split; assumption. }
  intros w1. eapply hoare_bind with (R := top 0).
  { intros s H1. simpl. exact H1. }
  intros w2. eapply hoare_bind with (R := top (length (type_fields (h_type h')))).
  { apply (hoare_for_each_indexed top (fun _ => True)
             (walkStructField walkSection h') (length (type_fields (h_type h'))) 0 w2).
    intros i w' _. apply V1_top_step. }
  intros w3 s (Hd & Hb & Hle & Hgt). simpl.
  split; [exact Hd|]. split; [exact Hb|]. split; assumption.
Qed.
End V1_top_level.

Lemma root_reached_struct (T0 : rtype) (s : world) :
  root_reached T0 s ->
  exists h', Indirect (root_handle T0) s = (s, Ok (Some h'))
             /\ kind_of (h_type h') = KStruct
             /\ h_type h' = root_type T0
             /\ root_struct T0 h'.
Proof.
  intros (h' & EI & Hk). exists h'. split; [exact EI|]. split; [exact Hk|].
  unfold Indirect, root_handle in EI. simpl in EI. unfold root_type, root_struct.
  destruct (kind_of T0) eqn:EK;
    try (injection EI as <-; split; [reflexivity | left; split; [discriminate | reflexivity]]).
  unfold read in EI. simpl in EI.
  destruct (vv (tree s)) as [| | | | | | | |[[a x]|]| |]; try discriminate EI.
  injection EI as <-. split; [reflexivity|]. right. split; [reflexivity|]. now exists a.
Qed.

Lemma strip_struct (v : value) (vs : list value) :
  DeepEqual v (VStruct vs) ->
  exists vs0, v = VStruct vs0 /\ length vs0 = length vs
              /\ forall i x, vs !! i = Some x ->
                             exists x0, vs0 !! i = Some x0 /\ DeepEqual x0 x.
Proof.
  unfold DeepEqual. intros H.
  destruct v as [| | | |fs|es|[[a es]|]|[[a kvs]|]|[[a x]|]|[[t x]|]|[a|]];
    try discriminate H.
  simpl in H. injection H as H. exists fs. split; [reflexivity|].
  split; [rewrite <- (length_map strip fs), H; apply length_map|].
  revert vs H. induction fs as [|y fs IH]; intros vs H i x Hx.
  - destruct vs; [discriminate Hx | discriminate H].
  - destruct vs as [|z vs]; [discriminate H|]. simpl in H. injection H as Hy H.
    destruct i as [|i]; simpl in Hx |- *.
    + injection Hx as <-. exists y. split; [reflexivity | exact Hy].
    + apply (IH vs H i x Hx).
Qed.

Section V1_sets_result.
#[local] Existing Instance V1.overrideWalker_Walker.

(** X10.  What a successful [Override] of the first revision returns for a
    section that one top-level field declares and holds as a struct:
    the section of the original in which every option named by the
    overrides holds what [weakCopyValue] stores for its value, and every
    other option is as it was. *)
Theorem V1_Override_sets_options (c : V1.Overrider) (section : string)
    (set0 : gmap string Value) (w w' : world) (sec : V1.Section)
    (fs : list value) (j : nat) (f : StructField) (ft : rtype) (vs : list value) :
  kind_of (root_type (vt (V1.original c))) = KStruct ->
  root_values (V1.original c) = Some fs ->
  top_fields (V1.original c) !! j = Some (f, ft) ->
  fst (V1.getSectionName f) = section ->
  (forall i g gT, top_fields (V1.original c) !! i = Some (g, gT) -> i <> j ->
                  fst (V1.getSectionName g) <> section) ->
  kind_of ft = KStruct ->
  fs !! j = Some (VStruct vs) ->
  V1.Override c section set0 w = (w', Ok sec) ->
  V1.optionNameFunc sec = V1.OptionNameFunc c
  /\ vt (V1.section sec) = ft
  /\ exists vs',
       vv (V1.section sec) = VStruct vs'
       /\ length vs' = length vs
       /\ forall i,
            match type_fields ft !! i with
            | Some (g, gT) =>
                match set0 !! V1.OptionNameFunc c g with
                | Some x => exists X, V1_stores x gT X /\ vs' !! i = Some X
                | None => forall v, vs !! i = Some v ->
                                    exists v', vs' !! i = Some v' /\ DeepEqual v' v
                end
            | None => forall v, vs !! i = Some v ->
                                exists v', vs' !! i = Some v' /\ DeepEqual v' v
            end.
Proof.
  intros Hk Hr Hj Hname Huniq Hkf Hjv HO.
  unfold V1.Override in HO.
  destruct (String.eqb section "") eqn:Ene; [discriminate HO|].
  unfold bind at 1 in HO. unfold CopyM in HO.
  destruct (Copy (vv (V1.original c)) (next w)) as [v0 n'] eqn:EC.
  unfold bind at 1 in HO. unfold set_tree in HO. cbn [tree next writes] in HO.
  set (s0 := mkWorld _ n' (writes w)) in HO.
  set (w0 := V1.newOverrideWalker section set0 (V1.OptionNameFunc c)) in HO.
  assert (Hreach : root_reached (vt (V1.original c)) s0).
  { apply (root_reached_of_copy (V1.original c) s0 fs Hk Hr (next w) _ n' (writes w));
      [|reflexivity]. unfold s0. now rewrite EC. }
  destruct (root_reached_struct _ s0 Hreach) as (h' & EI & Hkh & Hty & Hroot).
  destruct (root_struct_path _ h' Hroot) as [Hpath Hro].
  unfold top_fields in Hj, Huniq. rewrite <- Hty in Hj, Huniq.
  set (hsec := field_handle h' j f ft).
  destruct (root_field_of_copy (V1.original c) (next w) fs j (VStruct vs)
              (h_path h' ++ [SField j]) Hr Hjv) as (v1 & Hv1 & Hde).
  { now rewrite Hpath. }
  rewrite EC in Hv1. simpl in Hv1.
  destruct (strip_struct v1 vs Hde) as (vs0 & -> & Hlen0 & Hdeep).
  pose proof (V1_top_walk section set0 (V1.OptionNameFunc c) h' j f ft vs0
                Hj Hname Huniq Hkf w0) as HW.
  assert (Hwalk : Walk w0 s0 = walkStruct walkSection h' w0 s0).
  { unfold Walk, walkRoot, walk, bind. simpl tree. simpl vt. rewrite EI, Hkh. reflexivity. }
  unfold bind, wrapping in HO. rewrite Hwalk in HO.
  specialize (HW s0).
  destruct (walkStruct walkSection h' w0 s0) as [s1 [w1|e|p]]; try discriminate HO.
  destruct HW as (Hd1 & Hb1 & _ & Hgt1).
  { split; [reflexivity|]. split; [repeat split; reflexivity|]. split.
    - intros _. exists vs0. split; [exact Hv1|]. split; [reflexivity|].
      intros i. rewrite Nat.ltb_irrefl || (destruct (Nat.ltb i 0) eqn:E0;
        [apply Nat.ltb_lt in E0; lia | reflexivity]).
    - intros Hlt. lia. }
  destruct Hgt1 as (Hsv1 & now_ & Hread1 & Hlen1 & Happ1).
  { eapply lookup_lt_Some. exact Hj. }
  destruct (Nat.ltb 0 (length (V1.unused w1))); [discriminate HO|].
  unfold V1.sectionObject in HO. rewrite Hsv1 in HO.
  unfold bind, Interface in HO. cbv beta in HO.
  destruct (h_ro (field_handle h' j f ft)); [discriminate HO|].
  unfold hsec in *. rewrite Hread1 in HO. simpl in HO. injection HO as _ <-.
  simpl. split; [reflexivity|]. split; [reflexivity|].
  exists now_. split; [reflexivity|]. split; [congruence|].
  intros i. specialize (Happ1 i). simpl in Happ1.
  assert (Hin : (if Nat.ltb i (length (type_fields ft)) then type_fields ft !! i else None)
                = type_fields ft !! i).
  { destruct (Nat.ltb_spec i (length (type_fields ft))); [reflexivity|].
    symmetry. apply lookup_ge_None. lia. }
  rewrite Hin in Happ1.
  assert (Hsame : now_ !! i = vs0 !! i ->
                  forall v, vs !! i = Some v ->
                            exists v', now_ !! i = Some v' /\ DeepEqual v' v).
  { intros E v Hv. destruct (Hdeep i v Hv) as (x0 & Hx0 & Hd0).
    exists x0. split; [congruence | exact Hd0]. }
  destruct (type_fields ft !! i) as [[g gT]|]; [|exact (Hsame Happ1)].
  destruct (set0 !! V1.OptionNameFunc c g); [exact Happ1 | exact (Hsame Happ1)].
Qed.
End V1_sets_result.

(** [{"set":{"option-2":"new"}}] for [section-b] of the test
    configuration of the service. *)
Lemma V1_Override_sets_options_witness :
  match V1.Override (V1.mkOverrider Examples.testConfig TomlFieldName) "section-b"
                    {["option-2" := Examples.str "new"]} Examples.w0 with
  | (_, Ok sec) =>
      exists vs',
        vv (V1.section sec) = VStruct vs'
        /\ (exists X, V1_stores (Examples.str "new") tString X /\ vs' !! 0 = Some X)
        /\ (exists v', vs' !! 1 = Some v' /\ DeepEqual v' (VString EmptyString))
  | _ => False
  end.
Proof.
  destruct (V1.Override (V1.mkOverrider Examples.testConfig TomlFieldName) "section-b"
              {["option-2" := Examples.str "new"]} Examples.w0) as [w' [sec|e|p]] eqn:E.
  - destruct (V1_Override_sets_options
                (V1.mkOverrider Examples.testConfig TomlFieldName) "section-b"
                {["option-2" := Examples.str "new"]} Examples.w0 w' sec
                [VStruct [VString "o1"]; VStruct [VString "o2"; VString EmptyString]]
                1 (exported "SectionB" [("toml", "section-b"); ("override", "section-b")])
                Examples.SectionB [VString "o2"; VString EmptyString]
                eq_refl eq_refl eq_refl eq_refl)
      as (_ & _ & vs' & Hv & _ & Hall); try reflexivity; try exact E.
    + intros i g gT Hi Hne.
      destruct i as [|[|i]]; simpl in Hi; try discriminate Hi; try contradiction.
      injection Hi as <- _. vm_compute. discriminate.
    + exists vs'. split; [exact Hv|]. split.
      * exact (Hall 0).
      * exact (Hall 1 (VString EmptyString) eq_refl).
  - vm_compute in E. discriminate E.
  - vm_compute in E. discriminate E.
Defined.

(** ** The two revisions on scalars *)

Lemma kind_eqb_sym (a b : Kind) : kind_eqb a b = kind_eqb b a.
Proof. unfold kind_eqb. apply Nat.eqb_sym. Qed.

Lemma rtype_eqb_basic (a b : Kind) : rtype_eqb (TBasic a) (TBasic b) = kind_eqb a b.
Proof.
  destruct (kind_eqb a b) eqn:E.
  - apply kind_eqb_eq in E. subst b.
    destruct (rtype_eqb (TBasic a) (TBasic a)) eqn:E2; [reflexivity|].
    assert (TBasic a <> TBasic a) as N; [|contradiction].
    intros Heq. pose proof (rtype_eqb_neq (TBasic a) (TBasic a)) as H.
    destruct a; vm_compute in E2; discriminate E2.
  - apply rtype_eqb_neq. intros [= ->]. rewrite kind_eqb_refl in E. discriminate E.
Qed.




(** ** The configuration service *)

Lemma applyUpdateAction_store (s : Config.Service) (id : string)
    (merged : gmap string Value) :
  store_wf s ->
  let s' := Config.mkService (Config.overrider s) (Config.updates s)
              (<[id := Config.mkOverride id merged]> (Config.overrides s)) in
  stored s' id = merged /\ store_wf s'.
Proof.
  intros Hwf. split.
  - unfold stored, Config.DAO_Get. cbn [Config.overrides]. unfold Config.OverrideDAO.
    rewrite lookup_insert_eq. reflexivity.
  - intros id' o. cbn [Config.overrides]. unfold Config.OverrideDAO.
    destruct (decide (id = id')) as [<-|N].
    + rewrite lookup_insert_eq. intros [= <-]. reflexivity.
    + rewrite lookup_insert_ne by exact N. apply Hwf.
Qed.

(** X12.  The merge of [applyUpdateAction]: a deleted key is gone even when
    the same request sets it, a key that is set and not deleted holds
    the new value, every other key keeps what was stored; the records
    of the other sections are left alone and nothing is published. *)
Theorem applyUpdateAction_merge (s : Config.Service) (id : string)
    (ua : Config.updateAction) :
  store_wf s ->
  let s' := fst (Config.applyUpdateAction s id ua) in
  let merged := snd (Config.applyUpdateAction s id ua) in
  stored s' id = merged
  /\ (forall j, In j (Config.ua_Delete ua) -> merged !! j = None)
  /\ (forall j v, ~ In j (Config.ua_Delete ua) -> Config.ua_Set ua !! j = Some v ->
                  merged !! j = Some v)
  /\ (forall j, ~ In j (Config.ua_Delete ua) -> Config.ua_Set ua !! j = None ->
                merged !! j = stored s id !! j)
  /\ (forall id', id' <> id -> Config.overrides s' !! id' = Config.overrides s !! id')
  /\ Config.updates s' = Config.updates s
  /\ store_wf s'.
Proof.
  intros Hwf. destruct (applyUpdateAction_spec s id ua Hwf) as (merged & E & Hm).
  rewrite E. cbn [fst snd].
  split; [|split; [|split; [|split; [|split; [|split]]]]].
  - unfold stored, Config.DAO_Get. cbn [Config.overrides]. unfold Config.OverrideDAO.
    rewrite lookup_insert_eq. reflexivity.
  - intros j Hj. rewrite Hm. destruct (decide (j ∈ Config.ua_Delete ua)) as [_|N]; [reflexivity|].
    exfalso. apply N. apply list_elem_of_In. exact Hj.
  - intros j v Hj Hs. rewrite Hm. destruct (decide (j ∈ Config.ua_Delete ua)) as [Y|_].
    + exfalso. apply Hj. apply list_elem_of_In. exact Y.
    + rewrite Hs. reflexivity.
  - intros j Hj Hs. rewrite Hm. destruct (decide (j ∈ Config.ua_Delete ua)) as [Y|_].
    + exfalso. apply Hj. apply list_elem_of_In. exact Y.
    + rewrite Hs. reflexivity.
  - intros id' Hne. cbn [Config.overrides]. unfold Config.OverrideDAO.
    rewrite lookup_insert_ne by congruence. reflexivity.
  - reflexivity.
  - intros id' o. cbn [Config.overrides]. unfold Config.OverrideDAO.
    destruct (decide (id = id')) as [<-|N].
    + rewrite lookup_insert_eq. intros [= <-]. reflexivity.
    + rewrite lookup_insert_ne by exact N. apply Hwf.
Qed.

Lemma applyUpdateAction_merge_witness :
  let s := Config.NewService Examples.testConfig in
  let ua := Config.mkUpdateAction
              {["option-1" := Examples.str "new"; "option-9" := Examples.num 9]}
              ["option-9"] in
  snd (Config.applyUpdateAction s "section-a" ua) !! "option-9" = None
  /\ snd (Config.applyUpdateAction s "section-a" ua) !! "option-1" = Some (Examples.str "new").
Proof.
  intros s ua.
  destruct (applyUpdateAction_merge s "section-a" ua (NewService_store_wf _))
    as (_ & Hdel & Hset & _).
  split.
  - apply Hdel. left. reflexivity.
  - apply Hset; [|reflexivity]. intros [H|[]]. discriminate H.
Defined.

(** X13.  Applying the same update action a second time changes nothing: the
    stored records and the merged options are those of the first
    application. *)
Theorem applyUpdateAction_idempotent (s : Config.Service) (id : string)
    (ua : Config.updateAction) :
  store_wf s ->
  let s1 := fst (Config.applyUpdateAction s id ua) in
  Config.applyUpdateAction s1 id ua = Config.applyUpdateAction s id ua.
Proof.
  intros Hwf.
  destruct (applyUpdateAction_spec s id ua Hwf) as (merged & E & Hm).
  destruct (applyUpdateAction_store s id merged Hwf) as (Hst & Hwf1).
  cbv zeta in Hst, Hwf1 |- *. rewrite E. cbn [fst snd].
  destruct (applyUpdateAction_spec _ id ua Hwf1) as (merged2 & E2 & Hm2).
  rewrite E2. cbn [Config.overrider Config.updates Config.overrides].
  assert (merged2 = merged) as ->.
  { apply map_eq. intros j. rewrite Hm2, Hm, Hst.
    destruct (decide (j ∈ Config.ua_Delete ua)); [reflexivity|].
    destruct (Config.ua_Set ua !! j) eqn:Es; [reflexivity|].
    rewrite Hm. destruct (decide (j ∈ Config.ua_Delete ua)); [contradiction|].
    rewrite Es. reflexivity. }
  unfold Config.OverrideDAO. rewrite insert_insert_eq. reflexivity.
Qed.

Lemma applyUpdateAction_idempotent_witness :
  let s := Config.NewService Examples.testConfig in
  let ua := Config.mkUpdateAction {["option-1" := Examples.str "new"]} ["option-9"] in
  Config.applyUpdateAction (fst (Config.applyUpdateAction s "section-a" ua)) "section-a" ua
  = Config.applyUpdateAction s "section-a" ua.
Proof.
  intros s ua. exact (applyUpdateAction_idempotent s "section-a" ua (NewService_store_wf _)).
Defined.

(** X14.  A POST is answered with 204 or with 400, never otherwise; with 204
    exactly one update has been published, for the section of the
    request; with 400, or when the call panics, none has. *)
Theorem handleUpdateSection_publishes_with_204 (s : Config.Service) (section : string)
    (body : option Config.updateAction) (w : world) :
  let s' := fst (snd (Config.handleUpdateSection s section body w)) in
  match snd (snd (Config.handleUpdateSection s section body w)) with
  | Ok resp =>
      (Config.StatusCode resp = Config.StatusNoContent
       /\ Config.resp_error resp = None
       /\ exists x, Config.updates s'
                    = Config.updates s ++ [Config.mkConfigUpdate section x])
      \/ (Config.StatusCode resp = Config.StatusBadRequest
          /\ is_Some (Config.resp_error resp)
          /\ Config.updates s' = Config.updates s)
  | Err _ => False
  | Panic _ => Config.updates s' = Config.updates s
  end.
Proof.
  unfold Config.handleUpdateSection.
  destruct (String.eqb section ""); [right; simpl; eauto|].
  destruct body as [ua|]; [|right; simpl; eauto].
  unfold Config.applyUpdateAction.
  match goal with |- context [V1.Override ?c ?sec ?m w] =>
    destruct (V1.Override c sec m w) as [w' [x|e|p]] end; cbn.
  - left. eauto.
  - right. eauto.
  - reflexivity.
Qed.

(** ** Reading the configuration back *)

Section V1_sections_complete.
Variable T0 : rtype.
Variable s0 : world.

#[local] Existing Instance V1.sectionWalker_Walker.

Let fields := type_fields (root_type T0).
Let listed := V1_sections_listed fields.

Lemma V1_Walk_sections_listed (w : V1.sectionWalker) :
  hoare (fun s => s = s0 /\ vt (tree s0) = T0 /\ V1.sw_depth w = 0%Z)
        (Walk w)
        (fun w' s' => s' = s0 /\ (root_reached T0 s0 -> listed 0%Z (length fields) w'))
        (fun _ => True).
Proof.
  apply (Walk_inv T0 (fun _ => True) (fun _ => True)
           (fun w s => s = s0 /\ vt (tree s0) = T0 /\ V1.sw_depth w = 0%Z)
           (fun w s => s = s0 /\ (root_reached T0 s0 -> listed 0%Z (length fields) w))
           (fun i w s => s = s0 /\ listed 0%Z i w)
           (fun i _ _ w s => s = s0 /\ listed 0%Z (S i) w)
           (fun i _ _ w s => s = s0 /\ listed 1%Z (S i) w)
           (fun _ => True)); try (intros; exact I).
  - intros w0 s (-> & Ht & _). exact Ht.
  - (* root_skip *)
    intros w0 s (-> & _) Hskip. split; [reflexivity|].
    intros (h' & EI & Hk). rewrite EI in Hskip. contradiction.
  - (* top_begin *)
    intros h w0 _ _ _ s (-> & _ & Hd). simpl. split; [reflexivity|].
    split; [exact Hd|]. intros i' g gT Hi. lia.
  - (* top_field *)
    intros h i f ft w0 _ _ _ Hf s (-> & Hd & Hl). simpl.
    unfold V1.sectionWalker_StructField. rewrite Hd. simpl.
    pose proof (V1_getSectionName_ok f) as Hok.
    destruct (V1.getSectionName f) as [name ok] eqn:En. simpl in Hok. subst ok.
    unfold bind, Interface.
    destruct (h_ro (field_handle h i f ft)); [exact I|].
    destruct (read (field_handle h i f ft) s0); [|exact I].
    unfold ret. cbv beta iota. unfold listed, V1_sections_listed.
    cbn [V1.sections V1.sw_depth].
    split; [reflexivity|]. split; [reflexivity|]. intros i' g gT Hi Hg.
    destruct (decide (i' = i)) as [->|N].
    + fold fields in Hf. rewrite Hf in Hg. injection Hg as <- <-. rewrite En. cbn [fst].
      rewrite lookup_insert_eq. eauto.
    + destruct (decide (name = fst (V1.getSectionName g))) as [<-|Nn].
      * rewrite lookup_insert_eq. eauto.
      * rewrite lookup_insert_ne by exact Nn. apply (Hl i' g gT); [lia | exact Hg].
  - intros i f ft w0 s (-> & Hd & Hl). simpl. split; [reflexivity|].
    split; [simpl; now rewrite Hd | exact Hl].
  - intros i f ft w0 _ s (-> & Hd & Hl). simpl. split; [reflexivity|].
    split; [simpl; now rewrite Hd | exact Hl].
  - intros w0 s (-> & Hw). simpl. split; [reflexivity|]. intros _. exact Hw.
  - intros i0 f0 ft0 l w0 Hl s (-> & Hd & Hs). simpl. split; [reflexivity|].
    split; [|exact Hs]. simpl. destruct l; try assumption. contradiction.
  - intros i0 f0 ft0 l w0 Hl s (-> & Hd & Hs). simpl. split; [reflexivity|].
    split; [|exact Hs]. simpl. destruct l; try assumption. contradiction.
  - intros i0 f0 ft0 h w0 _ s Hw. simpl. exact Hw.
  - intros i0 f0 ft0 h i f ft w0 _ _ _ _ s (-> & Hd & Hs). simpl.
    unfold V1.sectionWalker_StructField. rewrite Hd. simpl. split; [reflexivity|].
    split; [first [exact Hd | reflexivity] | exact Hs].
  - intros i0 f0 ft0 w0 s (-> & Hd & Hs). simpl. split; [reflexivity|].
    split; [|exact Hs]. simpl. rewrite Hd. reflexivity.
  - intros i0 f0 ft0 h w0 _ _ _ _ s Hw. simpl. exact Hw.
  - intros i0 f0 ft0 i hs a w0 _ _ _ _ _ s Hw. simpl. exact Hw.
Qed.
End V1_sections_complete.

Lemma root_reached_of_original (config : Value) (fs : list value) (n : addr)
    (ws : list (addr * value)) :
  kind_of (root_type (vt config)) = KStruct ->
  root_values config = Some fs ->
  root_reached (vt config) (mkWorld config n ws).
Proof.
  intros Hk Hr. unfold root_reached, Indirect, read. simpl.
  unfold root_values in Hr. unfold root_type in Hk.
  destruct (kind_of (vt config)) eqn:EK;
    try (eexists; split; [reflexivity | simpl; exact Hk]).
  destruct (vv config) as [| | | |fs0|es|[[a es]|]|[[a kvs]|]|[[a x]|]|[[t x]|]|[a|]];
    try discriminate Hr.
  eexists. split; [reflexivity|]. simpl. exact Hk.
Qed.

(** [Sections] of the first revision, when it succeeds on a
    configuration whose root struct is there, lists a section under the
    name of every top-level field. *)
Lemma V1_Sections_lists_every_field (c : V1.Overrider) (s s' : world)
    (m : gmap string V1.Section) (fs : list value) :
  kind_of (root_type (vt (V1.original c))) = KStruct ->
  root_values (V1.original c) = Some fs ->
  V1.Sections c s = (s', Ok m) ->
  forall g gT, In (g, gT) (top_fields (V1.original c)) ->
               is_Some (m !! fst (V1.getSectionName g)).
Proof.
  intros Hk Hr HS g gT Hin.
  unfold V1.Sections, bind, set_tree, wrapping in HS.
  set (s0 := mkWorld (V1.original c) (next s) (writes s)) in HS.
  pose proof (V1_Walk_sections_listed (vt (V1.original c)) s0
                (V1.newSectionWalker (V1.OptionNameFunc c)) s0) as HW.
  destruct (@Walk _ V1.sectionWalker_Walker _ s0) as [s1 [w1|e|p]]; try discriminate HS.
  injection HS as _ <-.
  destruct HW as [_ HW]; [repeat split; reflexivity|].
  specialize (HW (root_reached_of_original _ fs _ _ Hk Hr)).
  destruct HW as [_ HW].
  apply list_elem_of_In, list_elem_of_lookup_1 in Hin as [i Hi].
  apply (HW i g gT); [|exact Hi]. eapply lookup_lt_Some. exact Hi.
Qed.

Lemma fold_insert_lookup (l : list Config.Override) (acc : gmap string Config.Override)
    (k : string) (o : Config.Override) :
  (forall o', In o' l -> Config.ID o' = k -> o' = o) ->
  Config.ID o = k ->
  In o l \/ acc !! k = Some o ->
  fold_left (fun m o => <[Config.ID o := o]> m) l acc !! k = Some o.
Proof.
  revert acc. induction l as [|x l IH]; intros acc Huniq Hid Hin.
  - destruct Hin as [[]|H]. exact H.
  - simpl. apply IH.
    + intros o' Ho'. apply Huniq. right. exact Ho'.
    + exact Hid.
    + destruct Hin as [[->|Hin]|Hacc].
      * right. rewrite Hid. apply lookup_insert_eq.
      * left. exact Hin.
      * destruct (decide (Config.ID x = k)) as [E|N].
        -- right. rewrite (Huniq x (or_introl eq_refl) E), Hid. apply lookup_insert_eq.
        -- right. rewrite lookup_insert_ne by exact N. exact Hacc.
Qed.

Lemma getConfig_overrides (s : Config.Service) (k : string) (o : Config.Override) :
  store_wf s ->
  Config.overrides s !! k = Some o ->
  fold_left (fun (m : gmap string Config.Override) o => <[Config.ID o := o]> m)
            (Config.DAO_List (Config.overrides s)) ∅ !! k
  = Some o.
Proof.
  intros Hwf Hk. unfold Config.DAO_List. apply fold_insert_lookup.
  - intros o' Hin Hid. apply in_map_iff in Hin as [[k' o''] [<- Hin]]. simpl in *.
    apply list_elem_of_In, elem_of_map_to_list in Hin.
    rewrite (Hwf k' o'' Hin) in Hid. subst k'. unfold Config.OverrideDAO in *. congruence.
  - apply (Hwf k o Hk).
  - left. apply in_map_iff. exists (k, o). split; [reflexivity|].
    apply list_elem_of_In, elem_of_map_to_list. exact Hk.
Qed.

Lemma resolveSections_fails (s : Config.Service) (overrides : gmap string Config.Override)
    (name : string) (o : Config.Override) :
  overrides !! name = Some o ->
  (forall w, forall x, snd (V1.Override (Config.overrider s) name (Config.Overrides o) w)
                       <> Ok x) ->
  forall l config w sec,
    In (name, sec) l ->
    forall m, snd (Config.resolveSections s overrides l config w) <> Ok m.
Proof.
  intros Ho Hfail l. induction l as [|[n1 sec1] l IH]; intros config w sec Hin m.
  - destruct Hin.
  - simpl. unfold bind at 1.
    destruct (decide (n1 = name)) as [->|N].
    + rewrite Ho. unfold wrapping.
      pose proof (Hfail w) as Hf.
      destruct (V1.Override (Config.overrider s) name (Config.Overrides o) w)
        as [w1 [x|e|p]]; simpl in *; [exfalso; now apply (Hf x) | discriminate | discriminate].
    + destruct Hin as [[= ? _]|Hin]; [congruence|].
      destruct (match overrides !! n1 with
                | Some o0 =>
                    wrapping "failed to override section %s" [OStr n1]
                      (V1.Override (Config.overrider s) n1 (Config.Overrides o0))
                | None => ret sec1
                end w) as [w1 [x|e|p]]; simpl; try discriminate.
      unfold bind at 1.
      destruct (wrapping "failed to redact section %s" [OStr n1] (V1.Section_Redacted x) w1)
        as [w2 [r|e|p]]; simpl; try discriminate.
      apply (IH _ w2 sec Hin).
Qed.

(** X15.  [Sections] of the first revision, when it succeeds, lists a
    section under the name of every top-level field of the
    configuration, tagged or not: a field without an [override] tag is
    listed under the empty name. *)
Theorem V1_Sections_lists_all_fields (c : V1.Overrider) (s s' : world)
    (m : gmap string V1.Section) (fs : list value) :
  kind_of (root_type (vt (V1.original c))) = KStruct ->
  root_values (V1.original c) = Some fs ->
  V1.Sections c s = (s', Ok m) ->
  forall g gT, In (g, gT) (top_fields (V1.original c)) ->
               is_Some (m !! fst (V1.getSectionName g))
               /\ (Tag_Get structTagKey (Tag g) = EmptyString -> is_Some (m !! EmptyString)).
Proof.
  intros Hk Hr HS g gT Hin.
  pose proof (V1_Sections_lists_every_field c s s' m fs Hk Hr HS g gT Hin) as H.
  split; [exact H|]. intros Ht. unfold V1.getSectionName in H. rewrite Ht in H. exact H.
Qed.

Lemma V1_Sections_lists_all_fields_witness :
  match V1.Sections (V1.mkOverrider Examples.docConfig TomlFieldName) Examples.w0 with
  | (_, Ok m) => is_Some (m !! "section-b") /\ is_Some (m !! EmptyString)
  | _ => False
  end.
Proof.
  destruct (V1.Sections (V1.mkOverrider Examples.docConfig TomlFieldName) Examples.w0)
    as [s' [m|e|p]] eqn:E.
  - split.
    + apply (V1_Sections_lists_all_fields (V1.mkOverrider Examples.docConfig TomlFieldName)
               Examples.w0 s' m _ eq_refl eq_refl E
               (exported "SectionB" [("override", "section-b,element-key=id")])
               (TSlice Examples.SectionBConfig)).
      simpl. tauto.
    + apply (V1_Sections_lists_all_fields (V1.mkOverrider Examples.docConfig TomlFieldName)
               Examples.w0 s' m _ eq_refl eq_refl E
               (exported "IgnoredField" []) tString).
      * simpl. tauto.
      * reflexivity.
  - vm_compute in E. discriminate E.
  - vm_compute in E. discriminate E.
Defined.

(** X16.  A stored override that names an option its section does not
    have makes every later reading of the configuration fail: as long
    as the record holds the key, [GET /config] is answered with 500 (or
    the call panics), never with the configuration. *)
Theorem handleGetConfig_fails_on_unknown_option (s : Config.Service) (section k : string)
    (x : Value) (fs : list value) (g : StructField) (gT : rtype) (w : world) :
  store_wf s ->
  section <> "" ->
  stored s section !! k = Some x ->
  ~ In k (V1_section_options (V1.OptionNameFunc (Config.overrider s))
                             (V1.original (Config.overrider s)) section) ->
  kind_of (root_type (vt (V1.original (Config.overrider s)))) = KStruct ->
  root_values (V1.original (Config.overrider s)) = Some fs ->
  In (g, gT) (top_fields (V1.original (Config.overrider s))) ->
  fst (V1.getSectionName g) = section ->
  match snd (Config.handleGetConfig s w) with
  | Ok resp =>
      Config.StatusCode resp = Config.StatusInternalServerError
      /\ is_Some (Config.resp_error resp) /\ Config.resp_config resp = None
  | Err _ => False
  | Panic _ => True
  end.
Proof.
  intros Hwf Hne Hst Hk Hkind Hr Hin Hname.
  unfold stored, Config.DAO_Get in Hst.
  destruct (Config.overrides s !! section) as [o|] eqn:Eo;
    [|rewrite lookup_empty in Hst; discriminate Hst].
  assert (Hnot : forall m, snd (Config.getConfig s w) <> Ok m).
  { intros m. unfold Config.getConfig. unfold bind, wrapping.
    destruct (V1.Sections (Config.overrider s) w) as [w1 [secs|e|p]] eqn:ES;
      simpl; try discriminate.
    pose proof (V1_Sections_lists_every_field _ w w1 secs fs Hkind Hr ES g gT Hin) as [sec Hsec].
    rewrite Hname in Hsec.
    apply (resolveSections_fails s _ section o (getConfig_overrides s section o Hwf Eo))
      with (sec := sec).
    - intros w0 y Hy.
      destruct (V1_Override_undeclared (Config.overrider s) section k x (Config.Overrides o)
                  w0 Hne Hst Hk) as (w' & r & E & Hcases).
      rewrite E in Hy. simpl in Hy. subst r.
      destruct Hcases as [(u & _ & Hu) | (_ & [(e & He) | (p & Hp)])]; discriminate.
    - apply list_elem_of_In, elem_of_map_to_list. exact Hsec. }
  unfold Config.handleGetConfig.
  destruct (Config.getConfig s w) as [w1 [m|e|p]]; simpl.
  - exfalso. now apply (Hnot m).
  - repeat split; eauto.
  - exact I.
Qed.

(** The request of scenario S6 is turned down, and the reading of the
    configuration that follows fails. *)
Lemma handleGetConfig_fails_on_unknown_option_witness :
  let s1 := fst (snd (Config.handleUpdateSection (Config.NewService Examples.testConfig)
                        "section-a"
                        (Some (Config.mkUpdateAction
                                 {["option-nonexistent" := Examples.num 1]} []))
                        Examples.w0)) in
  match snd (Config.handleGetConfig s1 Examples.w0) with
  | Ok resp =>
      Config.StatusCode resp = Config.StatusInternalServerError
      /\ is_Some (Config.resp_error resp) /\ Config.resp_config resp = None
  | Err _ => False
  | Panic _ => True
  end.
Proof.
  destruct (handleUpdateSection_spec (Config.NewService Examples.testConfig) "section-a"
              (Config.mkUpdateAction {["option-nonexistent" := Examples.num 1]} [])
              Examples.w0 ltac:(discriminate) (NewService_store_wf _))
    as (merged & w' & s' & r & r0 & E & _ & Hov & Hwf & Hst & Hm & _).
  rewrite E. cbn [fst snd]. cbv zeta.
  apply (handleGetConfig_fails_on_unknown_option s' "section-a" "option-nonexistent"
           (Examples.num 1)
           [VStruct [VString "o1"]; VStruct [VString "o2"; VString EmptyString]]
           (exported "SectionA" [("toml", "section-a"); ("override", "section-a")])
           Examples.SectionA Examples.w0 Hwf ltac:(discriminate)).
  - rewrite Hst, Hm. reflexivity.
  - rewrite Hov. exact testConfig_no_such_option.
  - rewrite Hov. reflexivity.
  - rewrite Hov. reflexivity.
  - rewrite Hov. simpl. tauto.
  - reflexivity.
Defined.

(** ** The sections of the second revision *)

Section V2_element_keys.
Variable T0 : rtype.
Variable s0 : world.

#[local] Existing Instance V2.sectionWalker_Walker.

Let fields := type_fields (root_type T0).
Let listed := V2_keys_listed fields.

Lemma V2_keys_listed_keep (w1 w2 : V2.sectionWalker) (d1 d2 : Z) (i : nat) :
  listed d1 i w1 -> V2.sw_depth w2 = d2 -> V2.elementKeys w2 = V2.elementKeys w1 ->
  listed d2 i w2.
Proof.
  intros (_ & Ha & Hb) Hd Hk. split; [exact Hd|]. rewrite Hk. split; assumption.
Qed.

Lemma V2_Walk_keys_listed (w : V2.sectionWalker) :
  hoare (fun s => s = s0 /\ vt (tree s0) = T0 /\ V2.sw_depth w = 0%Z
                  /\ V2.elementKeys w = ∅)
        (Walk w)
        (fun w' _ => root_reached T0 s0 -> listed 0%Z (length fields) w')
        (fun _ => True).
Proof.
  assert (H0 : forall w0 : V2.sectionWalker,
             V2.sw_depth w0 = 0%Z -> V2.elementKeys w0 = ∅ -> listed 0%Z 0 w0).
  { intros w0 Hd Hk. split; [exact Hd|]. rewrite Hk. split.
    - intros name k Hn. rewrite lookup_empty in Hn. discriminate Hn.
    - intros j f ft name Hj. lia. }
  apply (Walk_inv T0 (fun _ => True) (fun _ => True)
           (fun w s => s = s0 /\ vt (tree s0) = T0 /\ V2.sw_depth w = 0%Z
                       /\ V2.elementKeys w = ∅)
           (fun w _ => root_reached T0 s0 -> listed 0%Z (length fields) w)
           (fun i w _ => True /\ listed 0%Z i w)
           (fun i _ _ w _ => True /\ listed 0%Z (S i) w)
           (fun i _ _ w _ => True /\ listed 1%Z (S i) w)
           (fun _ => True)); try (intros; exact I).
  - intros w0 s (-> & Ht & _). exact Ht.
  - (* root_skip *)
    intros w0 s (-> & _ & Hd & Hk) Hskip.
    intros (h' & EI & Hkind). rewrite EI in Hskip. contradiction.
  - (* top_begin *)
    intros h w0 _ _ Hroot s (-> & _ & Hd & Hk). simpl. split.
    + exact I.
    + apply H0; assumption.
  - (* top_field *)
    intros h i f ft w0 _ _ _ Hf s (Hrr & Hd & Ha & Hb). simpl.
    unfold V2.sectionWalker_StructField. rewrite Hd. simpl.
    destruct (V2.getSectionName f) as [name ok] eqn:En.
    assert (Hstep : forall w2 : V2.sectionWalker,
               V2.sw_depth w2 = 0%Z ->
               V2.elementKeys w2
               = (if ok then <[name := V2.getElementKey f]> (V2.elementKeys w0)
                  else V2.elementKeys w0) ->
               listed 0%Z (S i) w2).
    { intros w2 Hd2 Hk2. split; [exact Hd2|]. rewrite Hk2. split.
      - intros n k Hn.
        assert (Hold : V2.elementKeys w0 !! n = Some k ->
                       exists j g gT, j < S i /\ fields !! j = Some (g, gT)
                                      /\ V2.getSectionName g = (n, true)
                                      /\ V2.getElementKey g = k).
        { intros Hn'. destruct (Ha n k Hn') as (j & g & gT & Hj & Hrest).
          exists j, g, gT. split; [lia | exact Hrest]. }
        destruct ok; [|now apply Hold].
        destruct (decide (name = n)) as [<-|N].
        + rewrite lookup_insert_eq in Hn. injection Hn as <-.
          exists i, f, ft. split; [lia|]. split; [exact Hf|]. split; [exact En | reflexivity].
        + rewrite lookup_insert_ne in Hn by exact N. now apply Hold.
      - intros j g gT n Hj Hg Hn Hlast.
        destruct (decide (j = i)) as [->|N].
        + fold fields in Hf. rewrite Hf in Hg. injection Hg as <- <-.
          rewrite En in Hn. injection Hn as Hnn Hok. subst n ok. apply lookup_insert_eq.
        + assert (Hne : (name, ok) <> (n, true)).
          { rewrite <- En. apply (Hlast i f ft); [lia | lia | exact Hf]. }
          assert (Hold : V2.elementKeys w0 !! n = Some (V2.getElementKey g)).
          { apply (Hb j g gT n); [lia | exact Hg | exact Hn|].
            intros j' g' gT' H1 H2. apply Hlast; [exact H1 | lia]. }
          destruct ok; [|exact Hold].
          rewrite lookup_insert_ne; [exact Hold|]. intros ->. now apply Hne. }
    destruct ok.
    + cbv zeta. unfold bind.
      destruct (Indirect_pure (field_handle h i f ft) s) as [t ->].
      destruct (kind_eqb _ KStruct).
      * unfold Interface. destruct (h_ro (field_handle h i f ft)); [exact I|].
        destruct (read (field_handle h i f ft) s); [|exact I].
        split; [exact Hrr|]. apply Hstep; reflexivity.
      * split; [exact Hrr|]. apply Hstep; reflexivity.
    + split; [exact Hrr|]. apply Hstep; reflexivity.
  - intros i f ft w0 s (Hrr & Hl). simpl. split; [exact Hrr|].
    apply (V2_keys_listed_keep w0 _ 0%Z 1%Z (S i) Hl); [|reflexivity].
    simpl. destruct Hl as (Hd & _). now rewrite Hd.
  - intros i f ft w0 _ s (Hrr & Hl). simpl. split; [exact Hrr|].
    apply (V2_keys_listed_keep w0 _ 1%Z 0%Z (S i) Hl); [|reflexivity].
    simpl. destruct Hl as (Hd & _). now rewrite Hd.
  - (* top_end *)
    intros w0 s (Hrr & Hl). simpl. intros _.
    apply (V2_keys_listed_keep w0 _ 0%Z 0%Z _ Hl); [|reflexivity].
    simpl. destruct Hl as (Hd & _). exact Hd.
  - intros i0 f0 ft0 l w0 Hl s (Hrr & Hs). simpl. split; [exact Hrr|].
    apply (V2_keys_listed_keep w0 _ 1%Z 1%Z _ Hs); [|reflexivity].
    simpl. destruct Hs as (Hd & _). destruct l; try assumption. contradiction.
  - intros i0 f0 ft0 l w0 Hl s (Hrr & Hs). simpl. split; [exact Hrr|].
    apply (V2_keys_listed_keep w0 _ 1%Z 1%Z _ Hs); [|reflexivity].
    simpl. destruct Hs as (Hd & _). destruct l; try assumption. contradiction.
  - intros i0 f0 ft0 h w0 _ s Hw. simpl. exact Hw.
  - (* field_inv *)
    intros i0 f0 ft0 h i f ft w0 _ _ _ _ s (Hrr & Hs). simpl.
    unfold V2.sectionWalker_StructField. destruct Hs as (Hd & Hs). rewrite Hd. simpl.
    split; [exact Hrr|]. split; [first [exact Hd | reflexivity] | exact Hs].
  - intros i0 f0 ft0 w0 s (Hrr & Hs). simpl. split; [exact Hrr|].
    apply (V2_keys_listed_keep w0 _ 1%Z 1%Z _ Hs); [|reflexivity].
    simpl. destruct Hs as (Hd & _). rewrite Hd. reflexivity.
  - intros i0 f0 ft0 h w0 _ _ _ _ s Hw. simpl. exact Hw.
  - (* elem_inv *)
    intros i0 f0 ft0 i hs a w0 _ _ _ _ _ s (Hrr & Hs). simpl.
    unfold V2.sectionWalker_SliceElem.
    destruct (String.eqb (V2.sw_currentSectionName w0) ""); [split; assumption|].
    pose proof Hs as (Hd & _). rewrite Hd. simpl.
    destruct (V2.elementKeys w0 !! V2.sw_currentSectionName w0) as [key|]; [|exact I].
    unfold bind.
    destruct (V2.findFieldByElementKey _ _ _ s) as [s' [[ef|]|e|p]]; try exact I.
    destruct (negb (kind_eqb (kind_of (h_type ef)) KString)); [exact I|].
    simpl. unfold Interface. destruct (h_ro (index_handle hs a i)); [exact I|].
    destruct (read (index_handle hs a i) s'); [|exact I].
    split; [exact Hrr|].
    apply (V2_keys_listed_keep w0 _ 1%Z 1%Z _ Hs); reflexivity.
Qed.
End V2_element_keys.

(** X17.  [ElementKeys]: when it succeeds on a configuration whose root struct
    is there, the map holds an entry for exactly the section names that
    the top-level fields declare in their [override] tags, and the
    entry of a name is the element key of the last field that declares
    it. *)
Theorem ElementKeys_of_tags (c : V2.Overrider) (s s' : world)
    (m : gmap string string) (fs : list value) :
  kind_of (root_type (vt (V2.original c))) = KStruct ->
  root_values (V2.original c) = Some fs ->
  V2.Overrider_ElementKeys c s = (s', Ok m) ->
  let fields := top_fields (V2.original c) in
  (forall name k, m !! name = Some k ->
     exists j f ft, fields !! j = Some (f, ft)
                    /\ V2.getSectionName f = (name, true) /\ V2.getElementKey f = k)
  /\ (forall j f ft name,
        fields !! j = Some (f, ft) -> V2.getSectionName f = (name, true) ->
        (forall j' g gT, j < j' -> fields !! j' = Some (g, gT) ->
                         V2.getSectionName g <> (name, true)) ->
        m !! name = Some (V2.getElementKey f)).
Proof.
  intros Hk Hr HS fields.
  unfold V2.Overrider_ElementKeys, bind, set_tree, wrapping in HS.
  set (s0 := mkWorld (V2.original c) (next s) (writes s)) in HS.
  pose proof (V2_Walk_keys_listed (vt (V2.original c)) s0
                (V2.newSectionWalker (V2.OptionNameFunc c)) s0) as HW.
  destruct (@Walk _ V2.sectionWalker_Walker _ s0) as [s1 [w1|e|p]]; try discriminate HS.
  injection HS as _ <-.
  specialize (HW ltac:(repeat split; reflexivity)
                 (root_reached_of_original _ fs _ _ Hk Hr)).
  destruct HW as (_ & Ha & Hb). split.
  - intros name k Hn. destruct (Ha name k Hn) as (j & f & ft & _ & Hrest).
    exists j, f, ft. exact Hrest.
  - intros j f ft name Hf Hn Hlast. apply (Hb j f ft name).
    + eapply lookup_lt_Some. exact Hf.
    + exact Hf.
    + exact Hn.
    + intros j' g gT H1 _. apply Hlast. exact H1.
Qed.

Lemma ElementKeys_of_tags_witness :
  match V2.Overrider_ElementKeys (V2.mkOverrider Examples.docConfig TomlFieldName)
                                 Examples.w0 with
  | (_, Ok m) => m !! "section-b" = Some "id" /\ m !! "section-a" = Some EmptyString
  | _ => False
  end.
Proof.
  destruct (V2.Overrider_ElementKeys (V2.mkOverrider Examples.docConfig TomlFieldName)
                                     Examples.w0) as [s' [m|e|p]] eqn:E.
  - destruct (ElementKeys_of_tags (V2.mkOverrider Examples.docConfig TomlFieldName)
                Examples.w0 s' m _ eq_refl eq_refl E) as [_ H].
    split.
    + apply (H 1 (exported "SectionB" [("override", "section-b,element-key=id")])
               (TSlice Examples.SectionBConfig) "section-b" eq_refl eq_refl).
      intros j' g gT Hj Hg.
      destruct j' as [|[|[|[|j']]]]; try lia; simpl in Hg;
        try discriminate Hg; injection Hg as <- <-; vm_compute; discriminate.
    + apply (H 0 (exported "SectionA" [("override", "section-a")])
               Examples.SectionAConfig "section-a" eq_refl eq_refl).
      intros j' g gT Hj Hg.
      destruct j' as [|[|[|[|j']]]]; try lia; simpl in Hg;
        try discriminate Hg; injection Hg as <- <-; vm_compute; discriminate.
  - vm_compute in E. discriminate E.
  - vm_compute in E. discriminate E.
Defined.

Section V2_struct_section.
Variable T0 : rtype.
Variable s0 : world.
Variables (name : string) (j : nat) (f : StructField) (ft : rtype) (v : value).
Variable nf : StructField -> string.

#[local] Existing Instance V2.sectionWalker_Walker.

Let fields := type_fields (root_type T0).

Hypothesis Hj : fields !! j = Some (f, ft).
Hypothesis Hname : V2.getSectionName f = (name, true).
Hypothesis Hlast : forall i g gT, j < i -> fields !! i = Some (g, gT) ->
                                  V2.getSectionName g <> (name, true).
Hypothesis Hkind : kind_of ft = KStruct.
Hypothesis Hexp : Exported f = true.
Hypothesis Hread : forall h, root_struct T0 h -> read (field_handle h j f ft) s0 = Some v.

Let listed := V2_struct_listed name j (mkValue ft v) nf.

Lemma V2_Walk_struct_listed (w : V2.sectionWalker) :
  hoare (fun s => s = s0 /\ vt (tree s0) = T0 /\ V2.sw_depth w = 0%Z
                  /\ V2.sw_optionNameFunc w = nf)
        (Walk w)
        (fun w' _ => root_reached T0 s0 -> listed 0%Z false (length fields) w')
        (fun _ => True).
Proof.
  apply (Walk_inv T0 (fun _ => True) (fun _ => True)
           (fun w s => s = s0 /\ vt (tree s0) = T0 /\ V2.sw_depth w = 0%Z
                       /\ V2.sw_optionNameFunc w = nf)
           (fun w _ => root_reached T0 s0 -> listed 0%Z false (length fields) w)
           (fun i w s => s = s0 /\ listed 0%Z false i w)
           (fun i _ _ w s => s = s0 /\ listed 0%Z true i w)
           (fun i _ _ w s => s = s0 /\ listed 1%Z true i w)
           (fun _ => True)); try (intros; exact I).
  - intros w0 s (-> & Ht & _). exact Ht.
  - (* root_skip *)
    intros w0 s (-> & _) Hskip (h' & EI & Hk). rewrite EI in Hskip. contradiction.
  - (* top_begin *)
    intros h w0 _ _ _ s (-> & _ & Hd & Hnf). simpl. split; [reflexivity|].
    split; [exact Hd|]. split; [exact Hnf|]. split.
    + simpl. lia.
    + discriminate.
  - (* top_field *)
    intros h i g gT w0 _ _ Hroot Hg s (-> & Hd & Hnf & Hs & _). simpl.
    unfold V2.sectionWalker_StructField. rewrite Hd. simpl.
    destruct (root_struct_path T0 h Hroot) as [_ Hro].
    destruct (Nat.eq_dec i j) as [->|N].
    + (* the field of the section *)
      fold fields in Hg. rewrite Hj in Hg. injection Hg as <- <-.
      rewrite Hname. cbv zeta. unfold bind, Indirect.
      change (h_type (field_handle h j f ft)) with ft. rewrite Hkind.
      change (kind_eqb KStruct KStruct) with true. cbv iota.
      unfold Interface. cbn [h_ro field_handle]. rewrite Hro, Hexp.
      change (false || negb true) with false. cbv beta iota.
      change (h_type (field_handle h j f ft)) with ft. rewrite ?Hkind.
      change (kind_eqb KStruct KStruct) with true. cbv beta iota.
      rewrite (Hread h Hroot). unfold ret.
      split; [reflexivity|]. split; [reflexivity|]. split; [exact Hnf|]. split.
      * intros _. cbn [V2.sections]. rewrite Hnf. apply lookup_insert_eq.
      * intros _ Hlt. lia.
    + destruct (V2.getSectionName g) as [n ok] eqn:En.
      assert (Hne : ok = true -> j < i -> n <> name).
      { intros -> Hlt ->. apply (Hlast i g gT Hlt Hg). exact En. }
      destruct ok.
      * cbv zeta. unfold bind.
        destruct (Indirect_pure (field_handle h i g gT) s0) as [t ->].
        destruct (kind_eqb _ KStruct).
        -- unfold Interface. destruct (h_ro (field_handle h i g gT)); [exact I|].
           destruct (read (field_handle h i g gT) s0); [|exact I].
           split; [reflexivity|]. split; [reflexivity|]. split; [exact Hnf|]. split.
           ++ intros Hlt. cbn [V2.sections].
              rewrite lookup_insert_ne; [apply Hs; simpl; lia|].
              apply Hne; [reflexivity | simpl in Hlt; lia].
           ++ intros _ Hlt. right. cbn [V2.sw_currentSectionName]. now apply Hne.
        -- split; [reflexivity|]. split; [reflexivity|]. split; [exact Hnf|]. split.
           ++ intros Hlt. cbn [V2.sections]. apply Hs. simpl in Hlt |- *. lia.
           ++ intros _ Hlt. right. cbn [V2.sw_currentSectionName]. now apply Hne.
      * split; [reflexivity|]. split; [reflexivity|]. split; [exact Hnf|]. split.
        -- intros Hlt. cbn [V2.sections]. apply Hs. simpl in Hlt |- *. lia.
        -- intros _ Hlt. left. reflexivity.
  - (* top_enter *)
    intros i g gT w0 s (-> & Hd & Hrest). simpl. split; [reflexivity|].
    split; [simpl; now rewrite Hd | exact Hrest].
  - (* top_exit *)
    intros i g gT w0 _ s (-> & Hd & Hnf & Hs & _). simpl. split; [reflexivity|].
    split; [simpl; now rewrite Hd|]. split; [exact Hnf|]. split.
    + intros Hlt. apply Hs. simpl in Hlt. lia.
    + discriminate.
  - (* top_end *)
    intros w0 s (-> & Hd & Hrest). simpl. intros _. split; [exact Hd | exact Hrest].
  - intros i0 f0 ft0 l w0 Hl s (-> & Hd & Hrest). simpl. split; [reflexivity|].
    split; [|exact Hrest]. simpl. destruct l; try assumption. contradiction.
  - intros i0 f0 ft0 l w0 Hl s (-> & Hd & Hrest). simpl. split; [reflexivity|].
    split; [|exact Hrest]. simpl. destruct l; try assumption. contradiction.
  - intros i0 f0 ft0 h w0 _ s Hw. simpl. exact Hw.
  - (* field_inv *)
    intros i0 f0 ft0 h i g gT w0 _ _ _ _ s (-> & Hd & Hrest). simpl.
    unfold V2.sectionWalker_StructField. rewrite Hd. simpl.
    split; [reflexivity|]. split; [first [exact Hd | reflexivity] | exact Hrest].
  - intros i0 f0 ft0 w0 s (-> & Hd & Hrest). simpl. split; [reflexivity|].
    split; [|exact Hrest]. simpl. rewrite Hd. reflexivity.
  - intros i0 f0 ft0 h w0 _ _ _ _ s Hw. simpl. exact Hw.
  - (* elem_inv *)
    intros i0 f0 ft0 i hs a w0 Hf0 Hty Hsl _ _ s (-> & Hd & Hnf & Hs & Hc). simpl.
    unfold V2.sectionWalker_SliceElem.
    destruct (String.eqb (V2.sw_currentSectionName w0) "") eqn:Ecur;
      [split; [reflexivity|]; split; [exact Hd|]; split; [exact Hnf|]; split; assumption|].
    apply String.eqb_neq in Ecur.
    rewrite Hd. simpl.
    destruct (V2.elementKeys w0 !! V2.sw_currentSectionName w0) as [key|]; [|exact I].
    unfold bind.
    pose proof (read_only_findFieldByElementKey (index_handle hs a i) key
                  (V2.sw_optionNameFunc w0) s0) as Hp.
    destruct (V2.findFieldByElementKey _ _ _ s0) as [s' [[ef|]|e|p]]; try exact I.
    simpl in Hp. subst s'.
    destruct (negb (kind_eqb (kind_of (h_type ef)) KString)); [exact I|].
    simpl. unfold Interface. destruct (h_ro (index_handle hs a i)); [exact I|].
    destruct (read (index_handle hs a i) s0); [|exact I].
    split; [reflexivity|]. split; [reflexivity|]. split; [exact Hnf|].
    assert (Hi0 : i0 <> j).
    { intros ->. fold fields in Hf0. rewrite Hj in Hf0. injection Hf0 as <- <-.
      rewrite Hty in Hsl. unfold root_type in Hsl. rewrite Hkind in Hsl.
      rewrite Hkind in Hsl. discriminate Hsl. }
    split.
    + intros Hlt. cbn [V2.sections]. simpl in Hlt.
      assert (Hlt' : j < i0) by lia.
      rewrite lookup_insert_ne; [apply Hs; simpl; lia|].
      destruct (Hc eq_refl Hlt') as [Hc'|Hc']; [contradiction | exact Hc'].
    + intros _ Hlt. exact (Hc eq_refl Hlt).
Qed.
End V2_struct_section.

Lemma root_field_read (config : Value) (n : addr) (ws : list (addr * value))
    (fs : list value) (j : nat) (v : value) (f : StructField) (ft : rtype) (h : handle) :
  root_values config = Some fs -> fs !! j = Some v ->
  root_struct (vt config) h ->
  read (field_handle h j f ft) (mkWorld config n ws) = Some v.
Proof.
  intros Hr Hj Hroot. destruct (root_struct_path _ h Hroot) as [Hp _].
  unfold read. cbn [h_path field_handle tree]. rewrite Hp.
  unfold root_values in Hr.
  destruct (kind_of (vt config)); simpl;
    destruct (vv config) as [| | | |fs0|es|[[a es]|]|[[a kvs]|]|[[a x]|]|[[t x]|]|[a|]];
    try discriminate Hr;
    try (injection Hr as ->; simpl; now rewrite Hj).
  destruct x; try discriminate Hr. injection Hr as ->. simpl. now rewrite Hj.
Qed.

(** X18.  [Sections] of the second revision, when it succeeds, gives for a
    section that a top-level field declares and holds as a struct
    exactly one element: the value of the field as it is in the
    original, without an ID (of several fields that declare the name,
    the last). *)
Theorem V2_Sections_struct_section (c : V2.Overrider) (s s' : world)
    (m : gmap string V2.Section) (fs : list value) (name : string) (j : nat)
    (f : StructField) (ft : rtype) (v : value) :
  kind_of (root_type (vt (V2.original c))) = KStruct ->
  root_values (V2.original c) = Some fs ->
  top_fields (V2.original c) !! j = Some (f, ft) ->
  V2.getSectionName f = (name, true) ->
  (forall i g gT, j < i -> top_fields (V2.original c) !! i = Some (g, gT) ->
                  V2.getSectionName g <> (name, true)) ->
  kind_of ft = KStruct ->
  Exported f = true ->
  fs !! j = Some v ->
  V2.Overrider_Sections c s = (s', Ok m) ->
  m !! name = Some [V2.mkElement (mkValue ft v) "" (Some (V2.OptionNameFunc c))].
Proof.
  intros Hk Hr Hj Hname Hlast Hkind Hexp Hv HS.
  unfold V2.Overrider_Sections, bind, set_tree, wrapping in HS.
  set (s0 := mkWorld (V2.original c) (next s) (writes s)) in HS.
  pose proof (V2_Walk_struct_listed (vt (V2.original c)) s0 name j f ft v
                (V2.OptionNameFunc c) Hj Hname Hlast Hkind Hexp
                (fun h Hh => root_field_read _ _ _ fs j v f ft h Hr Hv Hh)
                (V2.newSectionWalker (V2.OptionNameFunc c)) s0) as HW.
  destruct (@Walk _ V2.sectionWalker_Walker _ s0) as [s1 [w1|e|p]]; try discriminate HS.
  injection HS as _ <-.
  specialize (HW ltac:(repeat split; reflexivity)
                 (root_reached_of_original _ fs _ _ Hk Hr)).
  destruct HW as (_ & _ & Hs & _).
  assert (Hlt : j < length (type_fields (root_type (vt (V2.original c)))) + 0).
  { apply lookup_lt_Some in Hj. unfold top_fields in Hj. lia. }
  specialize (Hs Hlt).
  unfold V2.sectionsMap. rewrite lookup_fmap.
  exact (f_equal (fmap V2.sort_Sort) Hs).
Qed.

Lemma V2_Sections_struct_section_witness :
  match V2.Overrider_Sections (V2.mkOverrider Examples.docConfig TomlFieldName)
                              Examples.w0 with
  | (_, Ok m) =>
      m !! "section-a"
      = Some [V2.mkElement
                (mkValue Examples.SectionAConfig
                         (VStruct [VString "option value"; VString "secret"]))
                "" (Some TomlFieldName)]
  | _ => False
  end.
Proof.
  destruct (V2.Overrider_Sections (V2.mkOverrider Examples.docConfig TomlFieldName)
                                  Examples.w0) as [s' [m|e|p]] eqn:E.
  - apply (V2_Sections_struct_section (V2.mkOverrider Examples.docConfig TomlFieldName)
             Examples.w0 s' m _ "section-a" 0
             (exported "SectionA" [("override", "section-a")]) Examples.SectionAConfig
             (VStruct [VString "option value"; VString "secret"])
             eq_refl eq_refl eq_refl eq_refl); try reflexivity; try exact E.
    intros i g gT Hi Hg.
    destruct i as [|[|[|[|i]]]]; try lia; simpl in Hg;
      try discriminate Hg; injection Hg as <- <-; vm_compute; discriminate.
  - vm_compute in E. discriminate E.
  - vm_compute in E. discriminate E.
Defined.

Lemma V2_Sections_only_tagged_fields_witness :
  snd (V2.getSectionName (exported "IgnoredField" [])) = false.
Proof.
  pose proof (V2_Sections_only_tagged_fields
                (V2.mkOverrider Examples.docConfig TomlFieldName) Examples.w0) as H.
  destruct H as [H _]. apply H. reflexivity.
Defined.

(** ** A request without options, second revision *)

Section V2_without_options.
Variable methods : Methods.
Variable T0 : rtype.
Variable s0 : world.
Variable o0 : V2.Override.
Variable nf : StructField -> string.
Variables (j : nat) (f : StructField) (ft : rtype).

#[local] Instance V2_plain_walker : Walker V2.overrideWalker :=
  V2.overrideWalker_Walker methods.

Let fields := type_fields (root_type T0).

Hypothesis Hsec : V2.o_Section o0 <> "".
Hypothesis Hopts : V2.o_Options o0 = ∅.
Hypothesis Hj : fields !! j = Some (f, ft).
Hypothesis Hname : V2.getSectionName f = (V2.o_Section o0, true).
Hypothesis Huniq : forall i g gT, i <> j -> fields !! i = Some (g, gT) ->
                                  V2.getSectionName g <> (V2.o_Section o0, true).
Hypothesis Hkind : kind_of ft = KStruct.

Let held := V2_section_held T0 o0 nf j f ft.

Lemma V2_section_held_depth (w : V2.overrideWalker) (d d' : Z) (b : bool) (i : nat) :
  held d b i w -> held d' b i (V2.with_depth d' w).
Proof.
  intros (_ & Ho & Hnf & He & Hc). split; [reflexivity|]. split; [exact Ho|].
  split; [exact Hnf|]. split; [exact He | exact Hc].
Qed.

Lemma V2_Walk_section_held (w : V2.overrideWalker) :
  hoare (fun s => s = s0 /\ vt (tree s0) = T0 /\ V2.depth w = 0%Z
                  /\ V2.o w = o0 /\ V2.optionNameFunc w = nf)
        (Walk w)
        (fun w' s' => s' = s0 /\ (root_reached T0 s0 -> held 0%Z false (length fields) w'))
        (fun _ => False).
Proof.
  apply (Walk_inv T0 (fun _ => False) (fun _ => True)
           (fun w s => s = s0 /\ vt (tree s0) = T0 /\ V2.depth w = 0%Z
                       /\ V2.o w = o0 /\ V2.optionNameFunc w = nf)
           (fun w s => s = s0 /\ (root_reached T0 s0 -> held 0%Z false (length fields) w))
           (fun i w s => s = s0 /\ held 0%Z false i w)
           (fun i _ _ w s => s = s0 /\ held 0%Z true i w)
           (fun i _ _ w s => s = s0 /\ held 1%Z true i w)
           (fun _ => True)); try (intros; exact I).
  - intros w0 s (-> & Ht & _). exact Ht.
  - (* root_skip *)
    intros w0 s (-> & _) Hskip. split; [reflexivity|].
    intros (h' & EI & Hk). rewrite EI in Hskip. contradiction.
  - (* top_begin *)
    intros h w0 _ _ _ s (-> & _ & Hd & Ho & Hnf). simpl. split; [reflexivity|].
    split; [exact Hd|]. split; [exact Ho|]. split; [exact Hnf|]. split.
    + simpl. lia.
    + discriminate.
  - (* top_field *)
    intros h i g gT w0 _ _ Hroot Hg s (-> & Hd & Ho & Hnf & He & _). simpl.
    unfold V2.overrideWalker_StructField. rewrite Hd. simpl.
    destruct (Nat.eq_dec i j) as [->|N].
    + fold fields in Hg. rewrite Hj in Hg. injection Hg as <- <-.
      rewrite Hname. cbn [V2.o V2.with_currentSectionName V2.currentSectionName].
      rewrite Ho, String.eqb_refl.
      split; [reflexivity|]. split; [exact Hd|]. split; [exact Ho|].
      split; [exact Hnf|]. split.
      * intros _. exists h. split; [exact Hroot | reflexivity].
      * intros _ Hne. contradiction.
    + destruct (V2.getSectionName g) as [n ok] eqn:En.
      assert (Hne : ok = true -> n <> V2.o_Section o0).
      { intros -> ->. apply (Huniq i g gT N Hg). exact En. }
      destruct ok.
      * cbn [V2.o V2.with_currentSectionName V2.currentSectionName].
        rewrite Ho.
        assert (Eb : String.eqb (V2.o_Section o0) n = false).
        { apply String.eqb_neq. intros E. now apply Hne. }
        rewrite Eb.
        split; [reflexivity|]. split; [exact Hd|]. split; [exact Ho|].
        split; [exact Hnf|]. split.
        -- intros Hlt. apply He. simpl in Hlt |- *. lia.
        -- intros _ _. now apply Hne.
      * split; [reflexivity|]. split; [exact Hd|]. split; [exact Ho|].
        split; [exact Hnf|]. split.
        -- intros Hlt. apply He. simpl in Hlt |- *. lia.
        -- intros _ _. simpl. intros E. apply Hsec. now rewrite <- E.
  - (* top_enter *)
    intros i g gT w0 s (-> & Hh). simpl. split; [reflexivity|].
    pose proof Hh as (Hd & _). rewrite Hd. now apply V2_section_held_depth with (d := 0%Z).
  - (* top_exit *)
    intros i g gT w0 _ s (-> & Hd & Ho & Hnf & He & _). simpl. split; [reflexivity|].
    split; [simpl; now rewrite Hd|]. split; [exact Ho|]. split; [exact Hnf|]. split.
    + intros Hlt. apply He. simpl in Hlt. lia.
    + discriminate.
  - (* top_end *)
    intros w0 s (-> & Hh). simpl. split; [reflexivity|]. intros _.
    pose proof Hh as (Hd & _). rewrite <- Hd at 1.
    apply V2_section_held_depth with (d := 0%Z). exact Hh.
  - intros i0 f0 ft0 l w0 Hl s (-> & Hh). simpl. split; [reflexivity|].
    pose proof Hh as (Hd & _).
    replace (depthWalker_Enter l (V2.depth w0)) with 1%Z
      by (rewrite Hd; destruct l; try reflexivity; contradiction).
    now apply V2_section_held_depth with (d := 1%Z).
  - intros i0 f0 ft0 l w0 Hl s (-> & Hh). simpl. split; [reflexivity|].
    pose proof Hh as (Hd & _).
    replace (depthWalker_Exit l (V2.depth w0)) with 1%Z
      by (rewrite Hd; destruct l; try reflexivity; contradiction).
    now apply V2_section_held_depth with (d := 1%Z).
  - intros i0 f0 ft0 h w0 _ s Hw. simpl. exact Hw.
  - (* field_inv *)
    intros i0 f0 ft0 h i g gT w0 _ _ _ _ s (-> & Hh). simpl.
    pose proof Hh as (Hd & Ho & _).
    unfold V2.overrideWalker_StructField. rewrite Hd. simpl.
    destruct (_ || _); [split; [reflexivity | exact Hh]|].
    rewrite Ho, Hopts, lookup_empty. split; [reflexivity | exact Hh].
  - (* enter_exit *)
    intros i0 f0 ft0 w0 s (-> & Hh). simpl. split; [reflexivity|].
    pose proof Hh as (Hd & _). simpl. rewrite Hd. simpl.
    apply V2_section_held_depth with (d := 2%Z).
    now apply V2_section_held_depth with (d := 1%Z).
  - (* slice_inv *)
    intros i0 f0 ft0 h w0 Hf0 Hty Hsl _ s (-> & Hh). simpl.
    unfold V2.overrideWalker_Slice.
    assert (Hi0 : i0 <> j).
    { intros ->. fold fields in Hf0. rewrite Hj in Hf0. injection Hf0 as <- <-.
      rewrite Hty in Hsl. unfold root_type in Hsl. rewrite Hkind in Hsl.
      rewrite Hkind in Hsl. discriminate Hsl. }
    pose proof Hh as (Hd & Ho & _ & _ & Hc). specialize (Hc eq_refl Hi0).
    rewrite Ho.
    assert (Eb : String.eqb (V2.o_Section o0) (V2.currentSectionName w0) = false).
    { apply String.eqb_neq. congruence. }
    rewrite Eb. simpl. split; [reflexivity | exact Hh].
  - (* elem_inv *)
    intros i0 f0 ft0 i hs a w0 Hf0 Hty Hsl _ _ s (-> & Hh). simpl.
    unfold V2.overrideWalker_SliceElem.
    assert (Hi0 : i0 <> j).
    { intros ->. fold fields in Hf0. rewrite Hj in Hf0. injection Hf0 as <- <-.
      rewrite Hty in Hsl. unfold root_type in Hsl. rewrite Hkind in Hsl.
      rewrite Hkind in Hsl. discriminate Hsl. }
    pose proof Hh as (Hd & Ho & _ & _ & Hc). specialize (Hc eq_refl Hi0).
    rewrite Ho.
    assert (Eb : String.eqb (V2.currentSectionName w0) (V2.o_Section o0) = false).
    { apply String.eqb_neq. exact Hc. }
    rewrite Eb, andb_false_r. simpl. split; [reflexivity | exact Hh].
Qed.
End V2_without_options.

Lemma struct_not_nil_interface (ft : rtype) (x : value) :
  kind_of ft = KStruct -> is_nil_interface (mkValue ft x) = false.
Proof.
  intros Hk. unfold is_nil_interface. simpl. destruct ft; try reflexivity. discriminate Hk.
Qed.

(** X19.  [Override] of the second revision without options, on a section
    that one top-level field declares and holds as a struct: whatever
    element the request names, and whether or not it asks to delete or
    to create one, the call returns the section as it is in the original
    under the element name of the request, unless the [Validate] method
    of the section refuses it; nothing is deleted or created. *)
Theorem V2_Override_without_options (methods : Methods) (c : V2.Overrider)
    (o : V2.Override) (s : world) (fs : list value) (j : nat)
    (f : StructField) (ft : rtype) (v : value) :
  V2.Override_Validate o = None ->
  V2.o_Options o = ∅ ->
  kind_of (root_type (vt (V2.original c))) = KStruct ->
  root_values (V2.original c) = Some fs ->
  top_fields (V2.original c) !! j = Some (f, ft) ->
  V2.getSectionName f = (V2.o_Section o, true) ->
  (forall i g gT, i <> j -> top_fields (V2.original c) !! i = Some (g, gT) ->
                  V2.getSectionName g <> (V2.o_Section o, true)) ->
  kind_of ft = KStruct ->
  Exported f = true ->
  fs !! j = Some v ->
  exists s' v',
    DeepEqual v' v
    /\ let element := V2.mkElement (mkValue ft v') (V2.o_Element o)
                                   (Some (V2.OptionNameFunc c)) in
       V2.Overrider_Override methods c o s
       = (s', match ValidateOf methods ft with
              | Some validate =>
                  match validate v' with
                  | Some err => Err (Wrap err "failed validation" [])
                  | None => Ok element
                  end
              | None => Ok element
              end).
Proof.
  intros HV Hopts Hk Hr Hj Hname Huniq Hkind Hexp Hv.
  unfold V2.Overrider_Override. unfold bind at 1. unfold CopyM.
  destruct (Copy (vv (V2.original c)) (next s)) as [v0 n'] eqn:EC.
  unfold bind at 1. unfold set_tree. cbn [tree next writes].
  set (s0 := mkWorld _ n' (writes s)).
  unfold V2.applyOverride. rewrite HV.
  set (w0 := V2.newOverrideWalker o (V2.OptionNameFunc c)).
  pose proof (V2_Walk_section_held methods (vt (V2.original c)) s0 o (V2.OptionNameFunc c)
                j f ft (Validate_section_nonempty o HV) Hopts Hj Hname Huniq Hkind
                w0 s0 ltac:(repeat split; reflexivity)) as HW.
  unfold V2_plain_walker in HW.
  assert (Hreach : root_reached (vt (V2.original c)) s0).
  { apply (root_reached_of_copy (V2.original c) s0 fs Hk Hr (next s) _ n' (writes s));
      [|reflexivity]. unfold s0. now rewrite EC. }
  unfold bind at 1. unfold wrapping.
  destruct (@Walk _ (V2.overrideWalker_Walker methods) w0 s0) as [s1 [w1|e|p]].
  2:{ contradiction. }
  2:{ contradiction. }
  destruct HW as (-> & HW).
  destruct (HW Hreach) as (_ & Ho & Hnf & He & _).
  destruct He as (h & Hroot & He).
  { apply lookup_lt_Some in Hj. unfold top_fields in Hj. simpl. lia. }
  unfold V2.unused. rewrite Ho, Hopts, map_to_list_empty. simpl.
  unfold bind at 1. unfold V2.elementObject. rewrite He.
  destruct (root_struct_path _ h Hroot) as [Hp Hro].
  destruct (root_field_of_copy (V2.original c) (next s) fs j v _ Hr Hv eq_refl)
    as (v' & Hget & Hde).
  rewrite EC in Hget. simpl in Hget.
  unfold bind at 1. unfold Interface. cbn [h_ro field_handle]. rewrite Hro, Hexp.
  change (false || negb true) with false. cbv iota.
  assert (Hread : read (field_handle h j f ft) s0 = Some v').
  { unfold read. cbn [h_path field_handle]. rewrite Hp. exact Hget. }
  rewrite Hread. unfold ret at 1. cbn [h_type field_handle].
  cbn [V2.e_value]. rewrite (struct_not_nil_interface ft v' Hkind). simpl andb. cbv iota.
  cbn [vt vv]. rewrite Ho, Hnf.
  exists s0, v'. split; [exact Hde|]. cbv zeta.
  destruct (ValidateOf methods ft) as [validate|]; [|reflexivity].
  destruct (validate v'); reflexivity.
Qed.

Lemma V2_Override_without_options_witness :
  exists s' v',
    DeepEqual v' (VStruct [VString "option value"; VString "secret"])
    /\ V2.Overrider_Override Examples.noMethods
         (V2.mkOverrider Examples.docConfig TomlFieldName)
         (V2.mkOverride "section-a" "x" ∅ true false) Examples.w0
       = (s', Ok (V2.mkElement (mkValue Examples.SectionAConfig v') "x"
                               (Some TomlFieldName))).
Proof.
  apply (V2_Override_without_options Examples.noMethods
           (V2.mkOverrider Examples.docConfig TomlFieldName)
           (V2.mkOverride "section-a" "x" ∅ true false) Examples.w0
           [VStruct [VString "option value"; VString "secret"];
            VSlice (Some (1, [VStruct [VString "id0"; VString "option value 0"];
                              VStruct [VString "id1"; VString "option value 1"]]));
            VStruct []; VString "this value is ignored"] 0
           (exported "SectionA" [("override", "section-a")]) Examples.SectionAConfig
           (VStruct [VString "option value"; VString "secret"])).
  - vm_compute. reflexivity.
  - reflexivity.
  - reflexivity.
  - reflexivity.
  - reflexivity.
  - reflexivity.
  - intros i g gT Hi Hg.
    destruct i as [|[|[|[|i]]]]; try lia; simpl in Hg;
      try discriminate Hg; injection Hg as <- <-; vm_compute; discriminate.
  - reflexivity.
  - reflexivity.
  - reflexivity.
Defined.

(** ** What an override sets, second revision *)

Lemma copyInto_scalar (methods : Methods) (sk dk : Kind) (sv : value) :
  scalar_kind sk = true -> has_kind sk sv = true -> scalar_kind dk = true ->
  UnmarshalText methods (TBasic dk) = None ->
  implementsStringer methods (TBasic sk) = false ->
  (exists X, forall dv w,
      V2.copyInto methods sv (TBasic sk) (TBasic dk) dv w = (w, Ok (X, None)))
  \/ (forall dv w, exists e,
      V2.copyInto methods sv (TBasic sk) (TBasic dk) dv w = (w, Ok (dv, Some e))).
Proof.
  intros Hsk Hv Hdk Hum Hstr.
  destruct sk; try discriminate Hsk; destruct sv; try discriminate Hv;
    destruct dk; try discriminate Hdk;
    try (destruct (ParseInt s) eqn:EPi; destruct (ParseUint s) eqn:EPu;
         destruct (ParseFloat s) eqn:EPf);
    first
      [ left; eexists; intros dv w;
        cbn -[ParseInt ParseUint ParseFloat wrap float_of_Z float_round Z_of_float];
        unfold kind_of;
        cbn -[ParseInt ParseUint ParseFloat wrap float_of_Z float_round Z_of_float];
        rewrite ?Hum, ?Hstr;
        cbn -[ParseInt ParseUint ParseFloat wrap float_of_Z float_round Z_of_float];
        rewrite ?EPi, ?EPu, ?EPf; reflexivity
      | right; intros dv w; eexists;
        cbn -[ParseInt ParseUint ParseFloat wrap float_of_Z float_round Z_of_float];
        unfold kind_of;
        cbn -[ParseInt ParseUint ParseFloat wrap float_of_Z float_round Z_of_float];
        rewrite ?Hum, ?Hstr;
        cbn -[ParseInt ParseUint ParseFloat wrap float_of_Z float_round Z_of_float];
        rewrite ?EPi, ?EPu, ?EPf; reflexivity ].
Qed.

Lemma V2_applied_skip (methods : Methods) (nf : StructField -> string)
    (set0 : gmap string Value) (ft : rtype) (before now_ : list value) (k : nat) :
  V2_applied methods nf set0 ft before now_ k ->
  match type_fields ft !! k with
  | Some (g, gT) => set0 !! nf g = None
  | None => True
  end ->
  V2_applied methods nf set0 ft before now_ (S k).
Proof.
  intros [Hlen Hall] Hk. split; [exact Hlen|]. intros i.
  specialize (Hall i).
  destruct (Nat.eq_dec i k) as [->|Hne].
  - rewrite Nat.ltb_irrefl in Hall.
    replace (Nat.ltb k (S k)) with true by (symmetry; apply Nat.ltb_lt; lia).
    destruct (type_fields ft !! k) as [[g gT]|]; [|exact Hall].
    rewrite Hk. exact Hall.
  - replace (Nat.ltb i (S k)) with (Nat.ltb i k); [exact Hall|].
    destruct (Nat.ltb_spec i k), (Nat.ltb_spec i (S k)); try reflexivity; lia.
Qed.

Lemma V2_applied_set (methods : Methods) (nf : StructField -> string)
    (set0 : gmap string Value) (ft : rtype) (before now_ : list value) (k : nat)
    (g : StructField) (gT : rtype) (x : Value) (X : value) :
  V2_applied methods nf set0 ft before now_ k ->
  type_fields ft !! k = Some (g, gT) -> set0 !! nf g = Some x ->
  V2_coerces methods x gT X -> k < length now_ ->
  V2_applied methods nf set0 ft before (<[k := X]> now_) (S k).
Proof.
  intros [Hlen Hall] Hf Hs HX Hk. split; [now rewrite length_insert|]. intros i.
  specialize (Hall i).
  destruct (Nat.eq_dec i k) as [->|Hne].
  - replace (Nat.ltb k (S k)) with true by (symmetry; apply Nat.ltb_lt; lia).
    rewrite Hf, Hs. exists X. split; [exact HX|].
    apply list_lookup_insert_eq. exact Hk.
  - replace (Nat.ltb i (S k)) with (Nat.ltb i k).
    2:{ destruct (Nat.ltb_spec i k), (Nat.ltb_spec i (S k)); try reflexivity; lia. }
    rewrite list_lookup_insert_ne by congruence. exact Hall.
Qed.

Section V2_sets_options.
Variable methods : Methods.
Variable o0 : V2.Override.
Variable nf : StructField -> string.
Variable hsec : handle.
Variable before : list value.

#[local] Instance V2_options_walker : Walker V2.overrideWalker :=
  V2.overrideWalker_Walker methods.

Let ft := h_type hsec.
Let inside := V2_inside methods o0 nf hsec before.

Hypothesis Hscalar : forall k g gT x,
    type_fields ft !! k = Some (g, gT) -> V2.o_Options o0 !! nf g = Some x ->
    V2_scalar_option methods x gT.

Lemma V2_option_step (k : nat) (w : V2.overrideWalker) :
  hoare (inside k w) (walkStructField walkOption hsec k w) (inside (S k)) (fun _ => True).
Proof.
  intros s (Hd & (Ho & Hnf & Hel) & Hcur & Hev & now_ & Hr & Happ).
  fold ft in Happ. unfold inside, V2_inside, V2_base, V2_section_now.
  unfold walkStructField. fold ft.
  destruct (type_fields ft !! k) as [[g gT]|] eqn:Ef.
  2:{ simpl.
      split; [assumption|]. split; [split; [|split]; assumption|].
      split; [assumption|]. split; [assumption|].
      exists now_. split; [exact Hr|].
      apply V2_applied_skip; [exact Happ | now rewrite Ef]. }
  unfold bind. simpl wStructField. unfold V2.overrideWalker_StructField.
  rewrite Hd. change ((1 =? 0)%Z) with false. change ((1 =? 1)%Z) with true. cbv iota.
  rewrite Hcur, Hel, Ho, !String.eqb_refl. change (negb true || negb true) with false.
  cbv iota zeta. rewrite Hnf.
  destruct (V2.o_Options o0 !! nf g) as [x|] eqn:Ex.
  - destruct (negb (V2.o_Create o0) && String.eqb (nf g) (V2.elementKey w)); [exact I|].
    destruct (Hscalar k g gT x Ef Ex)
      as (sk & dk & Hvt & -> & Hsk & Hhas & Hdk & Hum & Hstr).
    assert (HVO : ValueOf x = Some x).
    { unfold ValueOf, is_nil_interface. rewrite Hvt. reflexivity. }
    rewrite HVO. unfold bind, wrapping. cbv beta.
    unfold V2.weakCopyValue.
    unfold bind, load.
    destruct (CanSet (field_handle hsec k g (TBasic dk))) eqn:Ecs; [|simpl; exact I].
    change (negb true) with false. cbv beta iota.
    destruct (read (field_handle hsec k g (TBasic dk)) s) as [dv|] eqn:Erd;
      [|simpl; exact I].
    cbv beta iota. cbn [h_type field_handle]. rewrite Hvt.
    destruct (copyInto_scalar methods sk dk (vv x) Hsk Hhas Hdk Hum Hstr)
      as [[X HX] | Hfail].
    + rewrite HX. cbn [fst snd].
      pose proof (store_field_last hsec k g (TBasic dk) X s now_ Hr) as Hst.
      destruct (store (field_handle hsec k g (TBasic dk)) X s) as [s' [[]|e|p]];
        try exact I.
      cbv beta iota in Hst. destruct Hst as [Hk Hr']. simpl.
      split; [rewrite Hd; reflexivity|]. split; [split; [|split]; assumption|].
      split; [assumption|]. split; [assumption|].
      exists (<[k := X]> now_). split; [exact Hr'|].
      apply (V2_applied_set methods nf (V2.o_Options o0) ft before now_ k g (TBasic dk) x X);
        try assumption.
      intros dv' w'. rewrite Hvt. apply HX.
    + destruct (Hfail dv s) as [e ->]. cbn [fst snd].
      destruct (store (field_handle hsec k g (TBasic dk)) dv s) as [s' [[]|e'|p]];
        exact I.
  - simpl.
    split; [rewrite Hd; reflexivity|]. split; [split; [|split]; assumption|].
    split; [assumption|]. split; [assumption|].
    exists now_. split; [exact Hr|].
    apply V2_applied_skip; [exact Happ | now rewrite Ef].
Qed.

Lemma V2_inside_depth (k : nat) (w : V2.overrideWalker) (s : world) :
  inside k w s -> inside k (V2.with_depth (V2.depth w) w) s.
Proof.
  intros (Hd & Hb & Hc & Hsv & Hi). unfold inside, V2_inside.
  split; [exact Hd|]. split; [exact Hb|]. split; [exact Hc|]. split; [exact Hsv | exact Hi].
Qed.

(** The walk of the section that is overridden, a struct held by
    value: every option is visited. *)
Lemma V2_walk_matched (w : V2.overrideWalker) :
  kind_of ft = KStruct ->
  hoare (inside 0 w) (walkSection hsec w)
        (inside (length (type_fields ft))) (fun _ => True).
Proof.
  intros Hk s Hs. unfold walkSection, walk, bind.
  assert (EI : Indirect hsec s = (s, Ok (Some hsec))).
  { unfold Indirect. fold ft. rewrite Hk. reflexivity. }
  rewrite EI. fold ft. rewrite Hk.
  apply (hoare_apply (inside 0 w) (walkStruct walkOption hsec w)
           (inside (length (type_fields ft))) (fun _ => True) s); [|exact Hs].
  unfold walkStruct.
  eapply hoare_bind with (R := inside 0).
  { intros s1 H1. simpl. apply V2_inside_depth. exact H1. }
  intros w1. eapply hoare_bind with (R := inside 0).
  { intros s1 H1. simpl. exact H1. }
  intros w2. eapply hoare_bind with (R := inside (length (type_fields ft))).
  { fold ft. apply (hoare_for_each_indexed inside (fun _ => True)
                      (walkStructField walkOption hsec) (length (type_fields ft)) 0 w2).
    intros j w' _. apply V2_option_step. }
  intros w3 s1 H1. simpl. apply V2_inside_depth. exact H1.
Qed.
End V2_sets_options.

Section V2_top_level.
Variable methods : Methods.
Variable o0 : V2.Override.
Variable nf : StructField -> string.
Variable h' : handle.
Variables (j : nat) (f : StructField) (ft : rtype).
Variable before : list value.

#[local] Instance V2_top_walker : Walker V2.overrideWalker :=
  V2.overrideWalker_Walker methods.

Hypothesis Hsec : V2.o_Section o0 <> "".
Hypothesis Hj : type_fields (h_type h') !! j = Some (f, ft).
Hypothesis Hname : V2.getSectionName f = (V2.o_Section o0, true).
Hypothesis Huniq : forall i g gT,
    i <> j -> type_fields (h_type h') !! i = Some (g, gT) ->
    V2.getSectionName g <> (V2.o_Section o0, true).
Hypothesis Hk : kind_of ft = KStruct.
Hypothesis Hscalar : forall k g gT x,
    type_fields ft !! k = Some (g, gT) -> V2.o_Options o0 !! nf g = Some x ->
    V2_scalar_option methods x gT.

Let hsec := field_handle h' j f ft.
Let top := V2_top methods o0 nf hsec before j.

Lemma V2_top_step (i : nat) (w : V2.overrideWalker) :
  hoare (top i w) (walkStructField walkSection h' i w) (top (S i)) (fun _ => True).
Proof.
  intros s (Hd & Hb & Hle & Hgt). unfold walkStructField.
  destruct (type_fields (h_type h') !! i) as [[g gT]|] eqn:Ei.
  2:{ simpl. split; [exact Hd|]. split; [exact Hb|]. split.
      - intros Hi. apply Hle. lia.
      - intros Hi. apply Hgt. destruct (Nat.eq_dec i j) as [->|N]; [|lia].
        rewrite Hj in Ei. discriminate Ei. }
  unfold bind. simpl wStructField. unfold V2.overrideWalker_StructField.
  rewrite Hd. change ((0 =? 0)%Z) with true. cbv iota.
  destruct Hb as (Ho & Hnf & Hel).
  destruct (Nat.eq_dec i j) as [->|N].
  - rewrite Hj in Ei. injection Ei as <- <-.
    rewrite Hname. cbv iota zeta.
    cbn [V2.o V2.with_currentSectionName V2.currentSectionName].
    rewrite Ho, String.eqb_refl. unfold ret at 1. cbv beta iota.
    simpl wEnter. unfold ret at 1. cbv beta iota.
    set (w2 := V2.with_depth _ _).
    assert (Hin : V2_inside methods o0 nf hsec before 0 w2 s).
    { unfold w2. split; [simpl; rewrite Hd; reflexivity|].
      split; [repeat split; assumption|]. split; [reflexivity|].
      split; [reflexivity|]. apply Hle. lia. }
    pose proof (V2_walk_matched methods o0 nf hsec before Hscalar w2 Hk s Hin) as HW.
    fold hsec. unfold V2_options_walker in HW.
    destruct (walkSection hsec w2 s) as [s3 [w3|e|p]]; try exact I.
    destruct HW as (Hd3 & Hb3 & Hc3 & Hsv3 & Hnow3). simpl.
    split; [rewrite Hd3; reflexivity|]. split; [exact Hb3|]. split.
    + intros Hi. lia.
    + intros _. split; [exact Hsv3 | exact Hnow3].
  - destruct (V2.getSectionName g) as [name ok] eqn:En.
    assert (Hne : ok = true -> name <> V2.o_Section o0).
    { intros -> ->. apply (Huniq i g gT N Ei). exact En. }
    assert (Hrest : forall w1 : V2.overrideWalker,
               V2.depth w1 = 0%Z -> V2.o w1 = o0 -> V2.optionNameFunc w1 = nf ->
               V2.currentElementName w1 = V2.o_Element o0 ->
               V2.elementValue w1 = V2.elementValue w ->
               V2.currentSectionName w1 <> V2.o_Section o0 ->
               match (let (s1, r1) := wEnter LStructField w1 s in
                      match r1 with
                      | Ok a => (let (s2, r2) := walkSection (field_handle h' i g gT) a s1 in
                                 match r2 with
                                 | Ok b => wExit LStructField b s2
                                 | Err e => (s2, Err e)
                                 | Panic p => (s2, Panic p)
                                 end)
                      | Err e => (s1, Err e)
                      | Panic p => (s1, Panic p)
                      end) with
               | (s', Ok a) => top (S i) a s'
               | (s', _) => True
               end).
    { intros w1 Hd1 Ho1 Hnf1 Hel1 Hev1 Hcur1. simpl wEnter. unfold ret at 1.
      set (w2 := V2.with_depth _ _).
      pose proof (V2_walkSection_unmatched methods (field_handle h' i g gT) w2 s) as Hu.
      unfold V2_walker in Hu. unfold V2_top_walker. rewrite Hu.
      2:{ unfold w2. split; [simpl; rewrite Hd1; reflexivity|]. simpl.
          rewrite Ho1. exact Hcur1. }
      simpl. split; [rewrite Hd1; reflexivity|].
      split; [repeat split; assumption|]. split.
      + intros Hi. apply Hle. lia.
      + intros Hi. unfold w2. cbn [V2.elementValue V2.with_depth].
        rewrite Hev1. apply Hgt. lia. }
    destruct ok.
    + cbv iota zeta. cbn [V2.o V2.with_currentSectionName V2.currentSectionName].
      rewrite Ho.
      assert (Eb : String.eqb (V2.o_Section o0) name = false).
      { apply String.eqb_neq. intros E. now apply Hne. }
      rewrite Eb. unfold ret at 1. cbv beta iota.
      apply Hrest; try assumption; try reflexivity. simpl. now apply Hne.
    + cbv iota. unfold ret at 1. cbv beta iota.
      apply Hrest; try assumption; try reflexivity. simpl.
      intros E. apply Hsec. now rewrite <- E.
Qed.

Lemma V2_top_walk (w : V2.overrideWalker) :
  hoare (top 0 w) (walkStruct walkSection h' w)
        (top (length (type_fields (h_type h')))) (fun _ => True).
Proof.
  unfold walkStruct.
  eapply hoare_bind with (R := top 0).
  { intros s (Hd & Hb & Hle & Hgt). simpl.
    split; [exact Hd|]. split; [exact Hb|]. split; assumption. }
  intros w1. eapply hoare_bind with (R := top 0).
  { intros s H1. simpl. exact H1. }
  intros w2. eapply hoare_bind with (R := top (length (type_fields (h_type h')))).
  { apply (hoare_for_each_indexed top (fun _ => True)
             (walkStructField walkSection h') (length (type_fields (h_type h'))) 0 w2).
    intros i w' _. apply V2_top_step. }
  intros w3 s (Hd & Hb & Hle & Hgt). simpl.
  split; [exact Hd|]. split; [exact Hb|]. split; assumption.
Qed.
End V2_top_level.

(** X20.  What a successful [Override] of the second revision returns for a
    request that names no element, on a section that one top-level
    field declares and holds as a struct, when the options given are
    scalars for scalar fields: the section of the original in which
    every option of the request holds what [copyInto] makes of its
    value, and every other option is as it was. *)
Theorem V2_Override_sets_options (methods : Methods) (c : V2.Overrider)
    (o : V2.Override) (s s' : world) (el : V2.Element)
    (fs : list value) (j : nat) (f : StructField) (ft : rtype) (vs : list value) :
  V2.o_Element o = "" ->
  kind_of (root_type (vt (V2.original c))) = KStruct ->
  root_values (V2.original c) = Some fs ->
  top_fields (V2.original c) !! j = Some (f, ft) ->
  V2.getSectionName f = (V2.o_Section o, true) ->
  (forall i g gT, i <> j -> top_fields (V2.original c) !! i = Some (g, gT) ->
                  V2.getSectionName g <> (V2.o_Section o, true)) ->
  kind_of ft = KStruct ->
  fs !! j = Some (VStruct vs) ->
  (forall k g gT x, type_fields ft !! k = Some (g, gT) ->
                    V2.o_Options o !! V2.OptionNameFunc c g = Some x ->
                    V2_scalar_option methods x gT) ->
  V2.Overrider_Override methods c o s = (s', Ok el) ->
  V2.e_element el = ""
  /\ V2.e_optionNameFunc el = Some (V2.OptionNameFunc c)
  /\ vt (V2.e_value el) = ft
  /\ exists vs',
       vv (V2.e_value el) = VStruct vs'
       /\ length vs' = length vs
       /\ forall i,
            match type_fields ft !! i with
            | Some (g, gT) =>
                match V2.o_Options o !! V2.OptionNameFunc c g with
                | Some x => exists X, V2_coerces methods x gT X /\ vs' !! i = Some X
                | None => forall v, vs !! i = Some v ->
                                    exists v', vs' !! i = Some v' /\ DeepEqual v' v
                end
            | None => forall v, vs !! i = Some v ->
                                exists v', vs' !! i = Some v' /\ DeepEqual v' v
            end.
Proof.
  intros HEl Hk Hr Hj Hname Huniq Hkf Hjv Hscalar HO.
  unfold V2.Overrider_Override in HO.
  unfold bind at 1 in HO. unfold CopyM in HO.
  destruct (Copy (vv (V2.original c)) (next s)) as [v0 n'] eqn:EC.
  unfold bind at 1 in HO. unfold set_tree in HO. cbn [tree next writes] in HO.
  set (s0 := mkWorld _ n' (writes s)) in HO.
  unfold V2.applyOverride in HO.
  destruct (V2.Override_Validate o) as [err|] eqn:HV; [discriminate HO|].
  set (w0 := V2.newOverrideWalker o (V2.OptionNameFunc c)) in HO.
  assert (Hreach : root_reached (vt (V2.original c)) s0).
  { apply (root_reached_of_copy (V2.original c) s0 fs Hk Hr (next s) _ n' (writes s));
      [|reflexivity]. unfold s0. now rewrite EC. }
  destruct (root_reached_struct _ s0 Hreach) as (h' & EI & Hkh & Hty & Hroot).
  destruct (root_struct_path _ h' Hroot) as [Hpath Hro].
  unfold top_fields in Hj, Huniq. rewrite <- Hty in Hj, Huniq.
  set (hsec := field_handle h' j f ft).
  destruct (root_field_of_copy (V2.original c) (next s) fs j (VStruct vs)
              (h_path h' ++ [SField j]) Hr Hjv) as (v1 & Hv1 & Hde).
  { now rewrite Hpath. }
  rewrite EC in Hv1. simpl in Hv1.
  destruct (strip_struct v1 vs Hde) as (vs0 & -> & Hlen0 & Hdeep).
  pose proof (V2_top_walk methods o (V2.OptionNameFunc c) h' j f ft vs0
                (Validate_section_nonempty o HV) Hj Hname Huniq Hkf Hscalar w0) as HW.
  unfold V2_top_walker in HW.
  assert (Hwalk : @Walk _ (V2.overrideWalker_Walker methods) w0 s0
                  = @walkStruct _ (V2.overrideWalker_Walker methods)
                      (@walkSection _ (V2.overrideWalker_Walker methods)) h' w0 s0).
  { unfold Walk, walkRoot, walk, bind. simpl tree. simpl vt. rewrite EI, Hkh. reflexivity. }
  unfold bind at 1 in HO. unfold wrapping in HO. rewrite Hwalk in HO.
  specialize (HW s0).
  destruct (@walkStruct _ (V2.overrideWalker_Walker methods)
              (@walkSection _ (V2.overrideWalker_Walker methods)) h' w0 s0)
    as [s1 [w1|e|p]]; try discriminate HO.
  destruct HW as (Hd1 & (Ho1 & Hnf1 & Hel1) & _ & Hgt1).
  { split; [reflexivity|]. split; [split; [reflexivity|]; split; [reflexivity|]|].
    - simpl. now rewrite HEl.
    - split.
      + intros _. exists vs0. split; [exact Hv1|]. split; [reflexivity|].
        intros i. destruct (Nat.ltb i 0) eqn:E0;
          [apply Nat.ltb_lt in E0; lia | reflexivity].
      + intros Hlt. lia. }
  destruct Hgt1 as (Hsv1 & now_ & Hread1 & Hlen1 & Happ1).
  { eapply lookup_lt_Some. exact Hj. }
  destruct (Nat.ltb 0 (length (V2.unused w1))); [discriminate HO|].
  unfold bind at 1 in HO. unfold V2.elementObject in HO. rewrite Hsv1 in HO.
  unfold bind at 1 in HO. unfold Interface in HO.
  destruct (h_ro (field_handle h' j f ft)); [discriminate HO|].
  unfold hsec in *. rewrite Hread1 in HO. unfold ret at 1 in HO.
  cbn [h_type field_handle V2.e_value] in HO.
  rewrite (struct_not_nil_interface ft (VStruct now_) Hkf) in HO.
  simpl andb in HO. cbv iota in HO. cbn [vt vv] in HO.
  assert (Hel : el = V2.mkElement (mkValue ft (VStruct now_)) (V2.o_Element (V2.o w1))
                                  (Some (V2.optionNameFunc w1))).
  { destruct (ValidateOf methods ft) as [validate|].
    - destruct (validate (VStruct now_)); [discriminate HO|]. now injection HO as _ <-.
    - now injection HO as _ <-. }
  subst el. cbn [V2.e_element V2.e_optionNameFunc V2.e_value vt vv].
  rewrite Ho1, Hnf1.
  split; [exact HEl|]. split; [reflexivity|]. split; [reflexivity|].
  exists now_. split; [reflexivity|]. split; [congruence|].
  intros i. specialize (Happ1 i). simpl in Happ1.
  assert (Hin : (if Nat.ltb i (length (type_fields ft)) then type_fields ft !! i else None)
                = type_fields ft !! i).
  { destruct (Nat.ltb_spec i (length (type_fields ft))); [reflexivity|].
    symmetry. apply lookup_ge_None. lia. }
  rewrite Hin in Happ1.
  assert (Hsame : now_ !! i = vs0 !! i ->
                  forall v, vs !! i = Some v ->
                            exists v', now_ !! i = Some v' /\ DeepEqual v' v).
  { intros E v Hv. destruct (Hdeep i v Hv) as (x0 & Hx0 & Hd0).
    exists x0. split; [congruence | exact Hd0]. }
  destruct (type_fields ft !! i) as [[g gT]|]; [|exact (Hsame Happ1)].
  destruct (V2.o_Options o !! V2.OptionNameFunc c g); [exact Happ1 | exact (Hsame Happ1)].
Qed.

(** [{"option": "new"}] for [section-a] of the example of the package
    documentation. *)
Lemma V2_Override_sets_options_witness :
  match V2.Overrider_Override Examples.noMethods
          (V2.mkOverrider Examples.docConfig TomlFieldName)
          (V2.mkOverride "section-a" "" {["option" := Examples.str "new"]} false false)
          Examples.w0 with
  | (_, Ok el) =>
      exists vs',
        vv (V2.e_value el) = VStruct vs'
        /\ (exists X, V2_coerces Examples.noMethods (Examples.str "new") tString X
                      /\ vs' !! 0 = Some X)
        /\ (exists v', vs' !! 1 = Some v' /\ DeepEqual v' (VString "secret"))
  | _ => False
  end.
Proof.
  destruct (V2.Overrider_Override Examples.noMethods
              (V2.mkOverrider Examples.docConfig TomlFieldName)
              (V2.mkOverride "section-a" "" {["option" := Examples.str "new"]} false false)
              Examples.w0) as [w' [el|e|p]] eqn:E.
  - destruct (V2_Override_sets_options Examples.noMethods
                (V2.mkOverrider Examples.docConfig TomlFieldName)
                (V2.mkOverride "section-a" "" {["option" := Examples.str "new"]} false false)
                Examples.w0 w' el
                [VStruct [VString "option value"; VString "secret"];
                 VSlice (Some (1, [VStruct [VString "id0"; VString "option value 0"];
                                   VStruct [VString "id1"; VString "option value 1"]]));
                 VStruct []; VString "this value is ignored"]
                0 (exported "SectionA" [("override", "section-a")])
                Examples.SectionAConfig [VString "option value"; VString "secret"]
                eq_refl eq_refl eq_refl eq_refl eq_refl)
      as (_ & _ & _ & vs' & Hv & _ & Hall); try reflexivity; try exact E.
    + intros i g gT Hi Hg.
      destruct i as [|[|[|[|i]]]]; try lia; simpl in Hg;
        try discriminate Hg; injection Hg as <- <-; vm_compute; discriminate.
    + intros k g gT x Hg Hx.
      destruct k as [|[|k]]; simpl in Hg; try discriminate Hg; injection Hg as <- <-.
      * vm_compute in Hx. injection Hx as <-.
        exists KString, KString. repeat split; reflexivity.
      * vm_compute in Hx. discriminate Hx.
    + exists vs'. split; [exact Hv|]. split.
      * exact (Hall 0).
      * exact (Hall 1 (VString "secret") eq_refl).
  - vm_compute in E. discriminate E.
  - vm_compute in E. discriminate E.
Defined.

(** ** The adapters *)

Lemma after_updates_inv {S : Type} (Update : S -> list Value -> S * option error)
    (P : S -> Prop) (calls : list (list Value)) (s : S) :
  (forall s nc, P s -> P (fst (Update s nc))) -> P s -> P (after_updates Update calls s).
Proof.
  intros Hstep. revert s. induction calls as [|nc calls IH]; intros s Hs; [exact Hs|].
  simpl. apply IH. apply Hstep. exact Hs.
Qed.

Lemma OpsGenie_Update_enabled T asC (s : OpsGenie.Service) (nc : list Value) :
  OpsGenie.enabled (fst (OpsGenie.Update T asC s nc)) = OpsGenie.enabled s.
Proof.
  unfold OpsGenie.Update. destruct (negb _); [reflexivity|].
  destruct nc as [|x nc]; [reflexivity|]. destruct (asC x); reflexivity.
Qed.

Lemma Sensu_Update_enabled T asC (s : Sensu.Service) (nc : list Value) :
  Sensu.enabled (fst (Sensu.Update T asC s nc)) = Sensu.enabled s.
Proof.
  unfold Sensu.Update. destruct (negb _); [reflexivity|].
  destruct nc as [|x nc]; [reflexivity|]. destruct (asC x); reflexivity.
Qed.

Lemma Talk_Update_enabled T asC (s : Talk.Service) (nc : list Value) :
  Talk.enabled (fst (Talk.Update T asC s nc)) = Talk.enabled s.
Proof.
  unfold Talk.Update. destruct (negb _); [reflexivity|].
  destruct nc as [|x nc]; [reflexivity|]. destruct (asC x); reflexivity.
Qed.

(** X21.  [Update] of the OpsGenie, Sensu and Talk adapters never assigns
    [enabled]: after any series of updates the service is enabled
    exactly when the configuration it was created from was, whatever
    [Enabled] says in the configurations applied since; so the Talk
    adapter refuses to prepare an alert exactly when it was created
    disabled. *)
Theorem Update_never_changes_enabled (calls : list (list Value)) (T : rtype) :
  (forall asC (c0 : OpsGenie.Config),
      OpsGenie.enabled (after_updates (OpsGenie.Update T asC) calls (OpsGenie.NewService c0))
      = OpsGenie.Enabled c0)
  /\ (forall asC (c0 : Sensu.Config),
      Sensu.enabled (after_updates (Sensu.Update T asC) calls (Sensu.NewService c0))
      = Sensu.Enabled c0)
  /\ (forall asC (c0 : Talk.Config),
      Talk.enabled (after_updates (Talk.Update T asC) calls (Talk.NewService c0))
      = Talk.Enabled c0)
  /\ (forall asC (c0 : Talk.Config) title text,
      (exists e, Talk.preparePost
                   (after_updates (Talk.Update T asC) calls (Talk.NewService c0)) title text
                 = inl e)
      <-> Talk.Enabled c0 = false).
Proof.
  assert (HT : forall asC (c0 : Talk.Config),
             Talk.enabled (after_updates (Talk.Update T asC) calls (Talk.NewService c0))
             = Talk.Enabled c0).
  { intros asC c0.
    apply (after_updates_inv (Talk.Update T asC) (fun s => Talk.enabled s = Talk.Enabled c0)).
    - intros s nc Hs. rewrite Talk_Update_enabled. exact Hs.
    - reflexivity. }
  split; [|split; [|split; [exact HT|]]].
  - intros asC c0.
    apply (after_updates_inv (OpsGenie.Update T asC)
             (fun s => OpsGenie.enabled s = OpsGenie.Enabled c0)).
    + intros s nc Hs. rewrite OpsGenie_Update_enabled. exact Hs.
    + reflexivity.
  - intros asC c0.
    apply (after_updates_inv (Sensu.Update T asC)
             (fun s => Sensu.enabled s = Sensu.Enabled c0)).
    + intros s nc Hs. rewrite Sensu_Update_enabled. exact Hs.
    + reflexivity.
  - intros asC c0 title text. unfold Talk.preparePost. rewrite HT.
    destruct (Talk.Enabled c0); simpl; split.
    + intros [e He]. discriminate He.
    + discriminate.
    + reflexivity.
    + intros _. eexists. reflexivity.
Qed.

(** X22.  [Update] with one configuration of the adapter's [Config] type
    leaves the Telegram, Slack, Alerta and HipChat services in the
    state [NewService] builds from that configuration, whatever the
    state before. *)
Theorem Update_as_NewService (T : rtype) :
  (forall s x c, Telegram.asConfig x = Some c ->
                 Telegram.Update s [x] = (Telegram.NewService c, None))
  /\ (forall s x c, Slack.asConfig x = Some c ->
                    Slack.Update s [x] = (Slack.NewService c, None))
  /\ (forall asC s x c, asC x = Some c ->
                        Alerta.Update T asC s [x] = (Alerta.NewService c, None))
  /\ (forall asC s x c, asC x = Some c ->
                        HipChat.Update T asC s [x] = (HipChat.NewService c, None)).
Proof.
  repeat split; intros.
  - unfold Telegram.Update. simpl. rewrite H. reflexivity.
  - unfold Slack.Update. simpl. rewrite H. reflexivity.
  - unfold Alerta.Update. simpl. rewrite H. reflexivity.
  - unfold HipChat.Update. simpl. rewrite H. reflexivity.
Qed.

Lemma Update_as_NewService_witness :
  let x := mkValue Telegram.ConfigType
             (VStruct [VString "chat"; VString "HTML"; VBool false; VBool true;
                       VString "https://api.telegram.org/bot"; VString "token";
                       VBool true; VBool false]) in
  Telegram.Update (Telegram.mkService "c" "p" false false "u" false false) [x]
  = (Telegram.mkService "chat" "HTML" false true
       "https://api.telegram.org/bottoken/sendMessage" true false, None).
Proof.
  intros x.
  apply (proj1 (Update_as_NewService (TBasic KInvalid))
           (Telegram.mkService "c" "p" false false "u" false false) x
           (Telegram.mkConfig "chat" "HTML" false true "https://api.telegram.org/bot"
                              "token" true false)).
  reflexivity.
Defined.

(** X23.  [Update] of the OpsGenie, PagerDuty, Alerta, Sensu, Talk and
    HipChat adapters: an argument list that does not hold exactly one
    element, or whose element is not a [Config] of the adapter, is
    turned down with an error and the service is left as it was. *)
Theorem Update_rejects_malformed_argument_others (T : rtype) (newConfig : list Value) :
  (forall asC s,
      length newConfig <> 1 \/ (exists x, newConfig = [x] /\ asC x = None) ->
      exists e, OpsGenie.Update T asC s newConfig = (s, Some e))
  /\ (forall asC s,
      length newConfig <> 1 \/ (exists x, newConfig = [x] /\ asC x = None) ->
      exists e, PagerDuty.Update T asC s newConfig = (s, Some e))
  /\ (forall asC s,
      length newConfig <> 1 \/ (exists x, newConfig = [x] /\ asC x = None) ->
      exists e, Alerta.Update T asC s newConfig = (s, Some e))
  /\ (forall asC s,
      length newConfig <> 1 \/ (exists x, newConfig = [x] /\ asC x = None) ->
      exists e, Sensu.Update T asC s newConfig = (s, Some e))
  /\ (forall asC s,
      length newConfig <> 1 \/ (exists x, newConfig = [x] /\ asC x = None) ->
      exists e, Talk.Update T asC s newConfig = (s, Some e))
  /\ (forall asC s,
      length newConfig <> 1 \/ (exists x, newConfig = [x] /\ asC x = None) ->
      exists e, HipChat.Update T asC s newConfig = (s, Some e)).
Proof.
  repeat split; intros asC s [Hlen | [x [-> Hx]]];
    try (unfold OpsGenie.Update, PagerDuty.Update, Alerta.Update, Sensu.Update,
           Talk.Update, HipChat.Update; simpl; rewrite Hx; eexists; reflexivity);
    unfold OpsGenie.Update, PagerDuty.Update, Alerta.Update, Sensu.Update,
      Talk.Update, HipChat.Update;
    (destruct (Nat.eqb (length newConfig) 1) eqn:E;
     [apply Nat.eqb_eq in E; contradiction | simpl; eexists; reflexivity]).
Qed.

Lemma Update_rejects_malformed_argument_others_witness :
  (exists e, Talk.Update (TBasic KInvalid) (fun _ => None)
               (Talk.mkService true "u" "a") [Examples.str "x"]
             = (Talk.mkService true "u" "a", Some e))
  /\ (exists e, HipChat.Update (TBasic KInvalid) (fun _ => None)
                  (HipChat.mkService true "r" "t" "u" false false) []
                = (HipChat.mkService true "r" "t" "u" false false, Some e)).
Proof.
  split.
  - apply (proj1 (proj2 (proj2 (proj2 (proj2
             (Update_rejects_malformed_argument_others (TBasic KInvalid)
                [Examples.str "x"])))))).
    right. exists (Examples.str "x"). split; reflexivity.
  - apply (proj2 (proj2 (proj2 (proj2 (proj2
             (Update_rejects_malformed_argument_others (TBasic KInvalid) [])))))).
    left. simpl. lia.
Defined.

(** X24.  [preparePost] of the Telegram adapter: the chat and the parse mode
    of the call are used, those of the service when the call gives none;
    a parse mode other than "Markdown" and "HTML" is an error; the
    request goes to the service's URL, with [parse_mode] only when there
    is one and each of the two flags only when the call or the service
    sets it. *)
Theorem Telegram_preparePost_spec (s : Telegram.Service) (chatId parseMode message : string)
    (preview notification : bool) :
  let chat := if decide (chatId = "") then Telegram.chatId s else chatId in
  let mode := if decide (parseMode = "") then Telegram.parseMode s else parseMode in
  match Telegram.preparePost s chatId parseMode message preview notification with
  | inl _ => mode <> "" /\ mode <> "Markdown" /\ mode <> "HTML"
  | inr (url, post) =>
      (mode = "" \/ mode = "Markdown" \/ mode = "HTML")
      /\ url = Telegram.url s
      /\ post !! "chat_id" = Some (JString chat)
      /\ post !! "text" = Some (JString message)
      /\ post !! "parse_mode" = (if decide (mode = "") then None else Some (JString mode))
      /\ post !! "disable_web_page_preview"
         = (if preview || Telegram.disableWebPagePreview s then Some (JBool true) else None)
      /\ post !! "disable_notification"
         = (if notification || Telegram.disableNotification s then Some (JBool true) else None)
  end.
Proof.
  intros chat mode. unfold Telegram.preparePost.
  assert (Hc : (if String.eqb chatId "" then Telegram.chatId s else chatId) = chat).
  { subst chat. destruct (String.eqb_spec chatId ""); destruct (decide (chatId = ""));
      congruence. }
  assert (Hm : (if String.eqb parseMode "" then Telegram.parseMode s else parseMode) = mode).
  { subst mode. destruct (String.eqb_spec parseMode ""); destruct (decide (parseMode = ""));
      congruence. }
  rewrite Hc, Hm. clearbody chat mode.
  destruct (String.eqb_spec mode ""); destruct (String.eqb_spec mode "Markdown");
    destruct (String.eqb_spec mode "HTML"); simpl;
    try (repeat split; assumption);
    (split; [tauto|]); (split; [reflexivity|]);
    destruct (decide (mode = "")); try contradiction;
    destruct (preview || Telegram.disableWebPagePreview s);
    destruct (notification || Telegram.disableNotification s);
    repeat split; reflexivity.
Qed.

(** X25.  [preparePost] of the PagerDuty adapter: an alert of level info is
    turned down; a warning or critical alert is a "trigger" event and
    any other level a "resolve" event, sent to the service's URL under
    the service key of the call, or that of the service when the call
    gives none. *)
Theorem PagerDuty_preparePost_spec (Product : string) (Marshal : Value -> error + string)
    (s : PagerDuty.Service) (serviceKey incidentKey desc : string) (level : AlertLevel)
    (details : Value) (client_url : string) :
  PagerDuty.HTTPDService s = Some client_url ->
  is_nil_interface details = true \/ (exists b, Marshal details = inr b) ->
  match level with
  | InfoAlert =>
      exists e, PagerDuty.preparePost Product Marshal s serviceKey incidentKey desc level details
                = Err e
  | _ =>
      exists post,
        PagerDuty.preparePost Product Marshal s serviceKey incidentKey desc level details
        = Ok (PagerDuty.url s, post)
        /\ post !! "event_type"
           = Some (match level with WarnAlert | CritAlert => "trigger" | _ => "resolve" end)
        /\ post !! "service_key"
           = Some (if decide (serviceKey = "") then PagerDuty.serviceKey s else serviceKey)
        /\ post !! "incident_key" = Some incidentKey
        /\ post !! "description" = Some desc
        /\ post !! "client_url" = Some client_url
  end.
Proof.
  intros Hh Hd. unfold PagerDuty.preparePost.
  assert (Hk : forall (m : gmap string string),
             (if String.eqb serviceKey ""
              then <["service_key" := PagerDuty.serviceKey s]> m
              else <["service_key" := serviceKey]> m)
             = <["service_key" := if decide (serviceKey = "")
                                  then PagerDuty.serviceKey s else serviceKey]> m).
  { intros m. destruct (String.eqb_spec serviceKey ""); destruct (decide (serviceKey = ""));
      congruence. }
  destruct level; try (eexists; reflexivity);
    rewrite Hh, Hk;
    (destruct Hd as [Hnil | [b Hb]];
     [rewrite Hnil; simpl; eexists; split; [reflexivity|]; repeat split; reflexivity
     |destruct (is_nil_interface details); simpl; [|rewrite Hb];
      eexists; (split; [reflexivity|]); repeat split; reflexivity]).
Qed.

Lemma PagerDuty_preparePost_spec_witness :
  let s := PagerDuty.mkService (Some "http://localhost:9092") "key" "https://events" true in
  exists post,
    PagerDuty.preparePost "kapacitor" (fun _ => inr EmptyString) s EmptyString "incident"
      "cpu is high" CritAlert nilValue
    = Ok ("https://events", post)
    /\ post !! "event_type" = Some "trigger"
    /\ post !! "service_key" = Some "key".
Proof.
  intros s.
  destruct (PagerDuty_preparePost_spec "kapacitor" (fun _ => inr EmptyString) s EmptyString
              "incident" "cpu is high" CritAlert nilValue "http://localhost:9092"
              eq_refl (or_introl eq_refl)) as (post & E & Ht & Hk & _).
  exists post. split; [exact E|]. split; [exact Ht | exact Hk].
Defined.

(** X26.  [prepareMessge] of the SMTP adapter never prepares a message
    for a service that is not enabled, nor one without a recipient: the
    recipients are those of the call, those of the configuration when
    the call names none, and the sender is the configured one. *)
Theorem SMTP_prepareMessge_message (s : SMTP.Service) (to : list string)
    (subject body : string) (m : SMTP.Message) :
  SMTP.prepareMessge s to subject body = inr m ->
  SMTP.Enabled (SMTP.c s) = true
  /\ SMTP.m_To m <> []
  /\ SMTP.m_To m = (match to with [] => SMTP.To (SMTP.c s) | _ => to end)
  /\ SMTP.m_From m = [SMTP.From (SMTP.c s)]
  /\ SMTP.m_Subject m = [subject].
Proof.
  unfold SMTP.prepareMessge. destruct (SMTP.Enabled (SMTP.c s)); [|discriminate]. simpl.
  destruct to as [|t to]; simpl.
  - destruct (SMTP.To (SMTP.c s)) as [|t0 l] eqn:E; simpl; [discriminate|].
    intros [= <-]. simpl. repeat split; try reflexivity. discriminate.
  - intros [= <-]. simpl. repeat split; try reflexivity. discriminate.
Qed.

Lemma SMTP_prepareMessge_message_witness :
  let s := SMTP.mkService (SMTP.mkConfig true "kapacitor@example.org"
                                         ["ops@example.org"] false false) in
  SMTP.m_To (SMTP.mkMessage ["kapacitor@example.org"] ["ops@example.org"] ["alert"]
                            "text/html" "body")
  = ["ops@example.org"].
Proof.
  intros s.
  exact (proj1 (proj2 (proj2 (SMTP_prepareMessge_message s [] "alert" "body" _ eq_refl)))).
Defined.

